(** * Ringdown fitting: a shallow embedding of [ringdown.py]

    The module fits the ringdown of a gravitational waveform with a
    superposition of quasinormal modes (QNMs).  This development embeds the
    four functions of the module ([waveform_mismatch], [qnm_from_tuple],
    [qnm_modes] / [qnm_modes_as] and [fit_ringdown_waveform_LLSQ_S2]) over
    exact arithmetic: Python floats are real numbers, complex floats are pairs
    of reals, Python exceptions are an explicit error result and the mutable
    objects (term dictionaries, a caller supplied destination buffer) are
    threaded as state. *)

From Stdlib Require Import String Reals Lra Lia ZArith Bool List Sorted Permutation.
From Stdlib Require Import ClassicalEpsilon.
Import ListNotations.

Set Implicit Arguments.

Local Open Scope R_scope.

(* ===================================================================== *)
(** * Complex numbers (numpy [complex128] over exact arithmetic) *)
(* ===================================================================== *)

Module Cx.

Record C : Type := mk { re : R; im : R }.

Definition zero : C := mk 0 0.
Definition one : C := mk 1 0.
(** [complex(0.0, -1.0)] *)
Definition minus_i : C := mk 0 (-1).
Definition of_R (x : R) : C := mk x 0.

Definition add (a b : C) : C := mk (re a + re b) (im a + im b).
Definition sub (a b : C) : C := mk (re a - re b) (im a - im b).
Definition neg (a : C) : C := mk (- re a) (- im a).
Definition mul (a b : C) : C :=
  mk (re a * re b - im a * im b) (re a * im b + im a * re b).
Definition conj (a : C) : C := mk (re a) (- im a).
Definition scale (x : R) (a : C) : C := mk (x * re a) (x * im a).
(** complex divided by a real ([Momega / mass]) *)
Definition div_R (a : C) (x : R) : C := mk (re a / x) (im a / x).
(** [np.exp] on a complex argument *)
Definition cexp (a : C) : C := mk (exp (re a) * cos (im a)) (exp (re a) * sin (im a)).
(** squared modulus *)
Definition abs2 (a : C) : R := re a * re a + im a * im a.

End Cx.

Abbreviation C := Cx.C.

(* ===================================================================== *)
(** * Python exceptions and the two effect monads *)
(* ===================================================================== *)

Inductive pyerr : Type :=
| ValueError      (* raise ValueError(...), numpy broadcasting failures *)
| KeyError        (* missing dictionary key *)
| TypeError       (* "dest has wrong dtype or shape", an array for a scalar *)
| IndexError      (* index out of bounds *)
| AssertionError  (* a failed validity test of a scri waveform *)
| LibraryError.   (* an exception raised inside an external library *)

Inductive result (A : Type) : Type :=
| Ok (a : A)
| Raise (e : pyerr).

Arguments Ok {A} a.
Arguments Raise {A} e.

Definition rbind {A B} (r : result A) (k : A -> result B) : result B :=
  match r with
  | Ok a => k a
  | Raise e => Raise e
  end.

Definition is_ok {A} (r : result A) : bool :=
  match r with Ok _ => true | Raise _ => false end.

(** Code that mutates an object of type [S] and may raise: the final state
    is kept also when an exception is raised, as the caller of the Python
    function still holds the mutated object. *)
Definition St (S A : Type) : Type := S -> S * result A.

Definition sret {S A} (a : A) : St S A := fun s => (s, Ok a).
Definition sraise {S A} (e : pyerr) : St S A := fun s => (s, Raise e).
Definition sbind {S A B} (c : St S A) (k : A -> St S B) : St S B :=
  fun s => match c s with
           | (s', Ok a) => k a s'
           | (s', Raise e) => (s', Raise e)
           end.
Definition slift {S A} (r : result A) : St S A := fun s => (s, r).
Definition sget {S} : St S S := fun s => (s, Ok s).
Definition sput {S} (s' : S) : St S unit := fun _ => (s', Ok tt).

Declare Scope py_scope.
Delimit Scope py_scope with py.
Notation "x <- c ;; k" := (rbind c (fun x => k))
  (at level 61, c at next level, right associativity) : py_scope.
Notation "' pat <- c ;; k" := (rbind c (fun x => match x with pat => k end))
  (at level 61, pat pattern, c at next level, right associativity) : py_scope.

Declare Scope st_scope.
Delimit Scope st_scope with st.
Notation "x <- c ;; k" := (sbind c (fun x => k))
  (at level 61, c at next level, right associativity) : st_scope.
Notation "c ;;; k" := (sbind c (fun _ => k))
  (at level 61, right associativity) : st_scope.

(** [for x in xs: body x], stopping at the first exception. *)
Fixpoint sfor {S X} (xs : list X) (body : X -> St S unit) : St S unit :=
  match xs with
  | [] => sret tt
  | x :: xs' => sbind (body x) (fun _ => sfor xs' body)
  end.

Fixpoint rmap {X Y} (f : X -> result Y) (xs : list X) : result (list Y) :=
  match xs with
  | [] => Ok []
  | x :: xs' =>
      rbind (f x) (fun y => rbind (rmap f xs') (fun ys => Ok (y :: ys)))
  end.

(* ===================================================================== *)
(** * numpy: indexing, broadcasting, reductions *)
(* ===================================================================== *)

Module Np.

(** A 2-D complex array of shape [(T, N)], stored as [T] rows.  The number
    of columns is carried by the owner (a waveform knows its mode range). *)
Definition matrix : Type := list (list C).

(** [range(lo, hi)] on integers. *)
Definition zrange (lo hi : Z) : list Z :=
  map (fun k => (lo + Z.of_nat k)%Z) (seq 0 (Z.to_nat (hi - lo))).

(** Normalisation of an integer index on an axis of length [n]: negative
    indices count from the end, anything outside [-n, n) is an IndexError. *)
Definition index (n : nat) (i : Z) : result nat :=
  if (0 <=? i)%Z then
    if (i <? Z.of_nat n)%Z then Ok (Z.to_nat i) else Raise IndexError
  else
    if (- Z.of_nat n <=? i)%Z then Ok (Z.to_nat (Z.of_nat n + i)) else Raise IndexError.

(** Shape of the broadcast of two 1-D arrays of lengths [a] and [b]. *)
Definition broadcast_len (a b : nat) : result nat :=
  if Nat.eqb a b then Ok a
  else if Nat.eqb a 1 then Ok b
  else if Nat.eqb b 1 then Ok a
  else Raise ValueError.

(** Element [i] of a 1-D array seen through a broadcast of length [n]. *)
Definition bget {X} (d : X) (l : list X) (i : nat) : X :=
  match l with
  | [x] => x
  | _ => nth i l d
  end.

(** Elementwise binary operation on two 1-D arrays, with broadcasting. *)
Definition map2b {X Y W} (dx : X) (dy : Y) (f : X -> Y -> W)
    (xs : list X) (ys : list Y) : result (list W) :=
  rbind (broadcast_len (length xs) (length ys)) (fun n =>
    Ok (map (fun i => f (bget dx xs i) (bget dy ys i)) (seq 0 n))).

(** Python slice [l[lo:hi]] for non-negative bounds. *)
Definition slice {X} (lo hi : nat) (l : list X) : list X :=
  firstn (hi - lo) (skipn lo l).

(** [np.argmin]: index of the first occurrence of the minimum. *)
Fixpoint argmin_from (best_i : nat) (best : R) (i : nat) (l : list R) : nat :=
  match l with
  | [] => best_i
  | x :: l' =>
      if Rlt_dec x best then argmin_from i x (S i) l'
      else argmin_from best_i best (S i) l'
  end.

Definition argmin (l : list R) : result nat :=
  match l with
  | [] => Raise ValueError
  | x :: l' => Ok (argmin_from 0 x 1 l')
  end.

Definition rsum (l : list R) : R := fold_right Rplus 0 l.
Definition csum (l : list C) : C := fold_right Cx.add Cx.zero l.

(** [np.diff] of a 1-D array and the sums [y[1:] + y[:-1]]. *)
Fixpoint diff (x : list R) : list R :=
  match x with
  | x0 :: ((x1 :: _) as x') => (x1 - x0) :: diff x'
  | _ => []
  end.

Fixpoint pairsum (y : list R) : list R :=
  match y with
  | y0 :: ((y1 :: _) as y') => (y1 + y0) :: pairsum y'
  | _ => []
  end.

(** [scipy.integrate.trapezoid(y, x)] on 1-D arrays:
    [(diff(x) * (y[1:] + y[:-1]) / 2.0).sum()]; the product broadcasts. *)
Definition trapezoid (y x : list R) : result R :=
  rbind (map2b 0 0 Rmult (diff x) (pairsum y)) (fun p =>
    Ok (rsum (map (fun v => v / 2) p))).

(** Division of two numpy floats: a zero divisor gives [nan] or [inf] (with
    a warning, no exception); [None] stands for such a non-finite value. *)
Definition fdiv (x y : R) : option R :=
  if Req_dec_T y 0 then None else Some (x / y).

End Np.

(* ===================================================================== *)
(** * spherical_functions: the enumeration of the modes *)
(* ===================================================================== *)

Module Sf.

(** [sf.LM_index(ell, m, ell_min)] *)
Definition LM_index (ell m ell_min : Z) : Z :=
  (ell * (ell + 1) - ell_min * ell_min + m)%Z.

(** [sf.LM_range(ell_min, ell_max)]: every [(ell, m)] with
    [ell_min <= ell <= ell_max] and [-ell <= m <= ell], ell-major. *)
Definition LM_range (ell_min ell_max : Z) : list (Z * Z) :=
  flat_map (fun l => map (fun m => (l, m)) (Np.zrange (- l) (l + 1)))
           (Np.zrange ell_min (ell_max + 1)).

End Sf.

(* ===================================================================== *)
(** * scri: the multi-mode waveform container *)
(* ===================================================================== *)

Module Scri.

(** What [qnm_modes] formats into the constructor statement of the waveform
    it builds; the term dictionary is printed there as well and is left out
    of the record. *)
Record ctor_statement : Type := {
  stmt_t_0 : R;
  stmt_t_ref : R
}.

(** [scri.WaveformModes]: time axis, mode range, and [data] with one row per
    time sample and one column per mode of [LM_range ell_min ell_max]. *)
Record WaveformModes : Type := {
  t : list R;
  ell_min : Z;
  ell_max : Z;
  data : Np.matrix;
  history : list ctor_statement
}.

Definition LM (h : WaveformModes) : list (Z * Z) :=
  Sf.LM_range (ell_min h) (ell_max h).

Definition n_modes (h : WaveformModes) : nat := length (LM h).

(** [h.norm()]: for every time sample the sum over the modes of the squared
    modulus. *)
Definition norm (h : WaveformModes) : list R :=
  map (fun row => Np.rsum (map Cx.abs2 row)) (data h).

(** [h[lo:hi]], a slice in time. *)
Definition time_slice (lo hi : nat) (h : WaveformModes) : WaveformModes :=
  {| t := Np.slice lo hi (t h); ell_min := ell_min h; ell_max := ell_max h;
     data := Np.slice lo hi (data h); history := history h |}.

(** Bound [stop] of a Python slice [[:stop]] on an axis of length [n]. *)
Definition py_stop (n : nat) (stop : Z) : nat :=
  if (stop <? 0)%Z then Z.to_nat (Z.max 0 (Z.of_nat n + stop))
  else Nat.min (Z.to_nat stop) n.

(** [h[:, :stop]]: the second index of a [WaveformModes] slices in ell, so
    the result keeps the modes with [ell <= stop - 1]; an ell range outside
    the one of [h] is refused, and so is one that ends below
    [ell_min - 1], for which there is no mode list of a negative size. *)
Definition ell_slice_to (stop : Z) (h : WaveformModes) : result WaveformModes :=
  let new_ell_max := (stop - 1)%Z in
  if (ell_max h <? new_ell_max)%Z then Raise ValueError
  else if (new_ell_max <? ell_min h - 1)%Z then Raise ValueError
  else
    let cstop := (new_ell_max * (new_ell_max + 2) + 1 - ell_min h * ell_min h)%Z in
    Ok {| t := t h; ell_min := ell_min h; ell_max := new_ell_max;
          data := map (firstn (py_stop (n_modes h) cstop)) (data h);
          history := history h |}.

(** [np.all(np.diff(t) > 0.0)] *)
Fixpoint increasing (t : list R) : bool :=
  match t with
  | x0 :: ((x1 :: _) as t') => if Rlt_dec x0 x1 then increasing t' else false
  | _ => true
  end.

(** [scri.sample_waveforms.modes_constructor(statement, data_functor, t=...,
    ell_min=..., ell_max=...)]: the functor is called once with the time axis
    and the mode list and its array becomes the data of the waveform.  The
    functor may write into an object [S] of its caller.  The waveform is
    constructed after the functor has run, and its constructor asserts that
    the time axis is strictly increasing.  (It also asserts that the array
    has one row per sample and one column per mode and that every entry is
    finite, which holds of every array that the functor of [qnm_modes]
    returns over exact arithmetic.) *)
Definition modes_constructor {S} (stmt : ctor_statement)
    (data_functor : list R -> list (Z * Z) -> St S Np.matrix)
    (t : list R) (ell_min ell_max : Z) : St S WaveformModes :=
  sbind (data_functor t (Sf.LM_range ell_min ell_max)) (fun d =>
    if increasing t then
      sret {| t := t; ell_min := ell_min; ell_max := ell_max; data := d;
              history := [stmt] |}
    else sraise AssertionError).

End Scri.

Abbreviation WaveformModes := Scri.WaveformModes.

(* ===================================================================== *)
(** * qnm: the mode oracle *)
(* ===================================================================== *)

Module Qnm.

Inductive solve_flag : Type :=
| Store        (* mode_seq(chi, store=True) *)
| InterpOnly.  (* mode_seq(chi, interp_only=True) *)

(** A spin sequence of the cache: calling it at a spin gives [M*omega] and
    the mixing coefficients (the separation constant is dropped by the
    caller), and it knows the largest ell of its mixing array. *)
Record mode_seq : Type := {
  solve : R -> solve_flag -> result (C * list C);
  l_max : Z
}.

(** [qnm.angular.ells(s, m, l_max)]: [arange(max(|s|, |m|), l_max + 1)]. *)
Definition ells (s m l_max : Z) : list Z :=
  Np.zrange (Z.max (Z.abs s) (Z.abs m)) (l_max + 1).

End Qnm.

(* ===================================================================== *)
(** * External collaborators of the module *)
(* ===================================================================== *)

(** The three library entry points whose results the module consumes without
    looking inside: the QNM cache, the spline interpolation of a waveform
    onto a new time axis, and numpy's least-squares solver. *)
Class Extern : Type := {
  (** [qnm.modes_cache(s, ell, m, n)] *)
  ksc : Z -> Z -> Z -> Z -> result Qnm.mode_seq;
  (** [h.interpolate(new_t)] *)
  interpolate : WaveformModes -> list R -> result WaveformModes;
  (** [np.linalg.lstsq(B, A, rcond=None)[0]] for [B] of shape
      [(len rows, n_cols)], given as its number of columns and its rows *)
  lstsq : nat -> list (list C) -> list C -> result (list C)
}.

(* ===================================================================== *)
(** * Terms of a mode dictionary *)
(* ===================================================================== *)

(** A term is a Python dict with the string keys ['type'], ['mode'], ['A'],
    ['omega'] and ['target mode']; a key that is not set is [None] and
    reading it raises KeyError. *)
Record term : Type := {
  ty : option string;
  mode : option (Z * Z * Z * Z);
  amp : option C;
  omega : option C;
  target_mode : option (Z * Z)
}.

Definition getitem {X} (field : option X) : result X :=
  match field with
  | Some x => Ok x
  | None => Raise KeyError
  end.

(** [term["A"] = a] *)
Definition set_amp (a : C) (tm : term) : term :=
  {| ty := ty tm; mode := mode tm; amp := Some a; omega := omega tm;
     target_mode := target_mode tm |}.

(** [chi] and [mass] are a float, or a list / ndarray with one entry per
    time sample. *)
Inductive param : Type :=
| Scalar (x : R)
| PerSample (xs : list R).

Definition is_array (p : param) : bool :=
  match p with Scalar _ => false | PerSample _ => true end.

(** [p[i]] when [p] is an array, [p] itself otherwise. *)
Definition param_at (p : param) (i : nat) : result R :=
  match p with
  | Scalar x => Ok x
  | PerSample xs =>
      match nth_error xs i with
      | Some x => Ok x
      | None => Raise IndexError
      end
  end.

(** A caller-supplied destination array: shape, whether its dtype is
    complex, and its cells. *)
Record ndarray : Type := {
  shape : nat * nat;
  dtype_complex : bool;
  cells : Np.matrix
}.

(* ===================================================================== *)
(** * The module [ringdown.py] *)
(* ===================================================================== *)

Section Ringdown.

Context {E : Extern}.

Local Open Scope Z_scope.

(** [(-1) ** k] for a numpy integer [k]: negative integer powers raise. *)
Definition pow_minus_one (k : Z) : result R :=
  if k <? 0 then Raise ValueError
  else Ok (if Z.even k then 1%R else (-1)%R).

(** [try: mode_seq(chi, store=True) except: mode_seq(chi, interp_only=True)] *)
Definition solve_with_fallback (mode_seq : Qnm.mode_seq) (chi : R)
    : result (C * list C) :=
  match Qnm.solve mode_seq chi Qnm.Store with
  | Ok r => Ok r
  | Raise _ => Qnm.solve mode_seq chi Qnm.InterpOnly
  end.

(** [qnm_from_tuple(tup, chi, mass, s)] *)
Definition qnm_from_tuple (tup : Z * Z * Z * Z) (chi mass : R) (s : Z)
    : result (C * list C * list Z) :=
  let '(ell, m, n, sign) := tup in
  rbind (if sign =? 1 then ksc s ell m n
         else if sign =? -1 then ksc s ell (- m) n
         else Raise ValueError) (fun mode_seq =>
  rbind (solve_with_fallback mode_seq chi) (fun '(Momega, Cs) =>
  let ells := Qnm.ells s m (Qnm.l_max mode_seq) in
  rbind (if sign =? -1 then
           rbind (rmap (fun l' => pow_minus_one (ell + l')) ells) (fun sg =>
           rbind (Np.map2b 0%R Cx.zero Cx.scale sg (map Cx.conj Cs)) (fun Cs' =>
           Ok (Cx.neg (Cx.conj Momega), Cs')))
         else Ok (Momega, Cs)) (fun '(Momega', Cs') =>
  Ok (Cx.div_R Momega' mass, Cs', ells)))).

(** [C[ells == _l]]: the boolean mask has to be as long as [C]. *)
Definition mask_select (Cs : list C) (ells : list Z) (l : Z) : result (list C) :=
  if Nat.eqb (length ells) (length Cs) then
    Ok (map snd (filter (fun p => fst p =? l) (combine ells Cs)))
  else Raise IndexError.

(** [min(LM[:, 0])] *)
Definition min_ell (LM : list (Z * Z)) : result Z :=
  match LM with
  | [] => Raise ValueError
  | (l, _) :: LM' => Ok (fold_left Z.min (map fst LM') l)
  end.

(** [np.exp(complex(0.0, -1.0) * omega * (t - t_ref))] at one time. *)
Definition expiwt_at (omega : C) (t_ref ti : R) : C :=
  Cx.cexp (Cx.mul (Cx.mul Cx.minus_i omega) (Cx.of_R (ti - t_ref))).

(** [data[:, j] += v] where [v] has one entry per row. *)
Fixpoint col_add (j : nat) (v : list C) (data : Np.matrix) : Np.matrix :=
  match data, v with
  | row :: data', x :: v' =>
      (firstn j row ++
       match skipn j row with
       | [] => []
       | y :: rest => Cx.add y x :: rest
       end) :: col_add j v' data'
  | _, _ => data
  end.

(** [data[i, j] += x] *)
Definition cell_add (i j : nat) (x : C) (data : Np.matrix) : Np.matrix :=
  firstn i data ++
  match skipn i data with
  | [] => []
  | row :: rest =>
      (firstn j row ++
       match skipn j row with
       | [] => []
       | y :: rest' => Cx.add y x :: rest'
       end) :: rest
  end.

(** Number of columns of the array allocated for the mode list [LM]. *)
Definition zeros (n_rows n_cols : nat) : Np.matrix :=
  repeat (repeat Cx.zero n_cols) n_rows.

Section DataFunctor.

Variables (chi mass : param) (t_ref : R).
Variables (tt_axis : list R) (LM : list (Z * Z)).

(** One pass of the inner loop of a QNM term on the vectorised path:
    [c_l = C[ells == _l]; if len(c_l) > 0: c_l = c_l[0];
     data[:, index] += A * expiwt * c_l], run when [_m == m]. *)
Definition add_qnm_column (m : Z) (A : C) (expiwt : list C) (Cs : list C)
    (ells : list Z) (lm : Z * Z) : St Np.matrix unit :=
  let '(_l, _m) := lm in
  if _m =? m then
    sbind (slift (mask_select Cs ells _l)) (fun c_l =>
    sbind (slift (min_ell LM)) (fun lmin =>
    sbind (slift (Np.index (length LM) (Sf.LM_index _l _m lmin))) (fun j =>
    match c_l with
    | c :: _ =>
        fun data => (col_add j (map (fun e => Cx.mul (Cx.mul A e) c) expiwt) data, Ok tt)
    | [] =>
        (* [A * expiwt * c_l] with [c_l] of shape (0,): a time axis of
           two or more samples does not broadcast with it, and for one
           sample the product has shape (0,), which the in-place add
           cannot store into a column of shape (1,). *)
        if Nat.eqb (length expiwt) 0 then sret tt else sraise ValueError
    end)))
  else sret tt.

(** [for _l, _m in LM: ...] *)
Definition add_qnm_columns (m : Z) (A : C) (expiwt : list C) (Cs : list C)
    (ells : list Z) : St Np.matrix unit :=
  sfor LM (add_qnm_column m A expiwt Cs ells).

(** The same pass for one time sample [i] on the per-sample path:
    [data[i, index] += A * expiwt * c_l] with a scalar [expiwt]. *)
Definition add_qnm_cell (i : nat) (m : Z) (A : C) (expiwt : C) (Cs : list C)
    (ells : list Z) (lm : Z * Z) : St Np.matrix unit :=
  let '(_l, _m) := lm in
  if _m =? m then
    sbind (slift (mask_select Cs ells _l)) (fun c_l =>
    sbind (slift (min_ell LM)) (fun lmin =>
    sbind (slift (Np.index (length LM) (Sf.LM_index _l _m lmin))) (fun j =>
    match c_l with
    | c :: _ => fun data => (cell_add i j (Cx.mul (Cx.mul A expiwt) c) data, Ok tt)
    | [] =>
        (* the sum is an array of shape (0,), which cannot be converted
           to the one complex number that the cell holds *)
        sraise TypeError
    end)))
  else sret tt.

Definition add_qnm_cells (i : nat) (m : Z) (A : C) (expiwt : C) (Cs : list C)
    (ells : list Z) : St Np.matrix unit :=
  sfor LM (add_qnm_cell i m A expiwt Cs ells).

(** The body of [for term in mode_dict.values()]. *)
Definition add_term (tm : term) : St Np.matrix unit :=
  sbind (slift (getitem (ty tm))) (fun type =>
  if String.eqb type "QNM" then
    match chi, mass with
    | Scalar chi_value, Scalar mass_value =>
        sbind (slift (getitem (mode tm))) (fun '(ell, m, n, sign) =>
        sbind (slift (qnm_from_tuple (ell, m, n, sign) chi_value mass_value (-2)))
              (fun '(omega, Cs, ells) =>
        sbind (slift (getitem (amp tm))) (fun A =>
        add_qnm_columns m A (map (expiwt_at omega t_ref) tt_axis) Cs ells)))
    | _, _ =>
        sfor (seq 0 (length tt_axis)) (fun i =>
          sbind (slift (param_at chi i)) (fun chi_value =>
          sbind (slift (param_at mass i)) (fun mass_value =>
          sbind (slift (getitem (mode tm))) (fun '(ell, m, n, sign) =>
          sbind (slift (qnm_from_tuple (ell, m, n, sign) chi_value mass_value (-2)))
                (fun '(omega, Cs, ells) =>
          sbind (slift (getitem (amp tm))) (fun A =>
          add_qnm_cells i m A (expiwt_at omega t_ref (nth i tt_axis 0%R)) Cs ells))))))
    end
  else if String.eqb type "other" then
    sbind (slift (getitem (omega tm))) (fun omega =>
    sbind (slift (getitem (amp tm))) (fun A =>
    sbind (slift (getitem (target_mode tm))) (fun '(tl, tmm) =>
    sbind (slift (min_ell LM)) (fun lmin =>
    sbind (slift (Np.index (length LM) (Sf.LM_index tl tmm lmin))) (fun j =>
    fun data =>
      (col_add j (map (fun ti => Cx.mul A (expiwt_at omega t_ref ti)) tt_axis) data,
       Ok tt))))))
  else sraise ValueError).

(** [data_functor(t, LM)] of [qnm_modes], for the terms [mode_dict.values()]
    and the optional destination buffer: the buffer as the call leaves it,
    and the returned array or the exception. *)
Definition data_functor (terms : list term) (dest : option ndarray)
    : option ndarray * result Np.matrix :=
  let d_shape := (length tt_axis, length LM) in
  match dest with
  | None =>
      let (data, r) := sfor terms add_term (zeros (fst d_shape) (snd d_shape)) in
      (None, rbind r (fun _ => Ok data))
  | Some buf =>
      if negb (Nat.eqb (fst (shape buf)) (fst d_shape)
               && Nat.eqb (snd (shape buf)) (snd d_shape))
         || negb (dtype_complex buf)
      then (Some buf, Raise TypeError)
      else
        let (data, r) := sfor terms add_term (zeros (fst d_shape) (snd d_shape)) in
        (Some {| shape := shape buf; dtype_complex := dtype_complex buf;
                 cells := data |},
         rbind r (fun _ => Ok data))
  end.

End DataFunctor.

(** [qnm_modes(chi, mass, mode_dict, dest, t_0, t_ref, t=..., ell_min=...,
    ell_max=...)], for the terms [mode_dict.values()]. *)
Definition qnm_modes (chi mass : param) (mode_dict : list term)
    (t_0 t_ref : R) (t : list R) (ell_min ell_max : Z)
    : St (option ndarray) WaveformModes :=
  Scri.modes_constructor
    {| Scri.stmt_t_0 := t_0; Scri.stmt_t_ref := t_ref |}
    (fun t LM => data_functor chi mass t_ref t LM mode_dict)
    t ell_min ell_max.

(** [qnm_modes_as(chi, mass, mode_dict, W_other, dest, t_0, t_ref)] *)
Definition qnm_modes_as (chi mass : param) (mode_dict : list term)
    (W_other : WaveformModes) (t_0 t_ref : R)
    : St (option ndarray) WaveformModes :=
  qnm_modes chi mass mode_dict t_0 t_ref
    (Scri.t W_other) (Scri.ell_min W_other) (Scri.ell_max W_other).

(** ** [waveform_mismatch] *)

(** [data[:, j] *= 0] *)
Definition col_zero (j : nat) (data : Np.matrix) : Np.matrix :=
  map (fun row =>
         firstn j row ++
         match skipn j row with
         | [] => []
         | y :: rest => Cx.scale 0 y :: rest
         end) data.

Definition mode_in (lm : Z * Z) (modes : list (Z * Z)) : bool :=
  existsb (fun x => (fst x =? fst lm) && (snd x =? snd lm)) modes.

(** [[(L, M) for L in range(2, ell_max + 1) for M in range(-L, L + 1)]] *)
Definition all_modes_from_2 (ell_max : Z) : list (Z * Z) :=
  flat_map (fun L => map (fun M => (L, M)) (Np.zrange (- L) (L + 1)))
           (Np.zrange 2 (ell_max + 1)).

(** One pass of the loop that zeroes, in both private copies, the column of
    a mode that is not listed in [modes]; the state is the pair of data
    arrays. *)
Definition zero_unlisted_step (modes : list (Z * Z)) (h_A h_B : WaveformModes)
    (lm : Z * Z) : St (Np.matrix * Np.matrix) unit :=
  let '(L, M) := lm in
  if negb (mode_in (L, M) modes) then
    sbind (slift (Np.index (Scri.n_modes h_A) (Sf.LM_index L M (Scri.ell_min h_A))))
      (fun jA =>
    sbind (fun st => ((col_zero jA (fst st), snd st), Ok tt)) (fun _ =>
    sbind (slift (Np.index (Scri.n_modes h_B) (Sf.LM_index L M (Scri.ell_min h_B))))
      (fun jB =>
    fun st => ((fst st, col_zero jB (snd st)), Ok tt))))
  else sret tt.

Definition zero_unlisted (modes : list (Z * Z)) (h_A h_B : WaveformModes)
    : St (Np.matrix * Np.matrix) unit :=
  sfor (all_modes_from_2 (Scri.ell_max h_A)) (zero_unlisted_step modes h_A h_B).

Definition with_data (h : WaveformModes) (d : Np.matrix) : WaveformModes :=
  {| Scri.t := Scri.t h; Scri.ell_min := Scri.ell_min h;
     Scri.ell_max := Scri.ell_max h; Scri.data := d;
     Scri.history := Scri.history h |}.

(** The bounds [np.argmin(abs(t - t1)) + 1] and [np.argmin(abs(t - t2)) + 1]
    of the time window. *)
Definition window (t_axis : list R) (t1 t2 : R) : result (nat * nat) :=
  rbind (Np.argmin (map (fun x => Rabs (x - t1)) t_axis)) (fun a =>
  rbind (Np.argmin (map (fun x => Rabs (x - t2)) t_axis)) (fun b =>
  Ok (S a, S b))).

(** Which of the two branches brings [h_B] onto the window. *)
Inductive resampling : Type :=
| Interpolated   (* h_B_copy.interpolate(h_A_copy.t) *)
| Windowed.      (* h_B_copy[argmin + 1 : argmin + 1] on its own time axis *)

(** The test [h_A_copy.t.shape[0] != h_B_copy.t.shape[0]], made after
    [h_A_copy] was cut to the window and before [h_B_copy] is touched. *)
Definition resampling_of (h_A_windowed h_B_copy : WaveformModes) : resampling :=
  if negb (Nat.eqb (length (Scri.t h_A_windowed)) (length (Scri.t h_B_copy)))
  then Interpolated else Windowed.

(** [h_A.data * np.conjugate(h_B.data)] for arrays of shapes
    [(len a, na)] and [(len b, nb)], with numpy broadcasting on both axes. *)
Definition mul_conj (a b : Np.matrix) (na nb : nat) : result Np.matrix :=
  rbind (Np.broadcast_len (length a) (length b)) (fun nr =>
  rbind (Np.broadcast_len na nb) (fun nc =>
  Ok (map (fun i =>
             map (fun j =>
                    Cx.mul (Np.bget Cx.zero (Np.bget [] a i) j)
                           (Cx.conj (Np.bget Cx.zero (Np.bget [] b i) j)))
                 (seq 0 nc))
          (seq 0 nr)))).

(** [np.sqrt] of a float: [nan] below zero. *)
Definition fsqrt (x : R) : option R :=
  if Rlt_dec x 0 then None else Some (sqrt x).

(** [waveform_mismatch(h_A, h_B, modes, t1, t2)]; [None] is a result that
    is not a finite number. *)
Definition waveform_mismatch (h_A h_B : WaveformModes)
    (modes : option (list (Z * Z))) (t1 t2 : R) : result (option R) :=
  rbind (match modes with
         | None => Ok (Scri.data h_A, Scri.data h_B)
         | Some ms =>
             let (st, r) := zero_unlisted ms h_A h_B (Scri.data h_A, Scri.data h_B) in
             rbind r (fun _ => Ok st)
         end) (fun '(dA, dB) =>
  let h_A_copy := with_data h_A dA in
  let h_B_copy := with_data h_B dB in
  rbind (window (Scri.t h_A) t1 t2) (fun '(lo, hi) =>
  let h_A_copy := Scri.time_slice lo hi h_A_copy in
  rbind (match resampling_of h_A_copy h_B_copy with
         | Interpolated => interpolate h_B_copy (Scri.t h_A_copy)
         | Windowed =>
             rbind (window (Scri.t h_B) t1 t2) (fun '(lo', hi') =>
             Ok (Scri.time_slice lo' hi' h_B_copy))
         end) (fun h_B_copy =>
  rbind (mul_conj (Scri.data h_A_copy) (Scri.data h_B_copy)
                  (Scri.n_modes h_A_copy) (Scri.n_modes h_B_copy)) (fun prod =>
  rbind (Np.trapezoid (map (fun row => Np.rsum (map Cx.re row)) prod)
                      (Scri.t h_A_copy)) (fun overlap =>
  rbind (Np.trapezoid (Scri.norm h_A_copy) (Scri.t h_A_copy)) (fun nA =>
  rbind (Np.trapezoid (Scri.norm h_B_copy) (Scri.t h_B_copy)) (fun nB =>
  Ok (match fsqrt (nA * nB) with
      | None => None
      | Some d =>
          match Np.fdiv overlap d with
          | None => None
          | Some q => Some (1 - q)%R
          end
      end)))))))).

(** ** [fit_ringdown_waveform_LLSQ_S2] *)

(** Keys of a Python dict. *)
Inductive key : Type :=
| KInt (z : Z)
| KStr (s : string).

Definition key_eqb (a b : key) : bool :=
  match a, b with
  | KInt x, KInt y => x =? y
  | KStr x, KStr y => String.eqb x y
  | _, _ => false
  end.

(** The term objects live in a heap and a dictionary binds its keys, in
    insertion order, to references into it: [fixed_QNMs[k]] is a reference
    to the same object that [fixed_QNMs.values()] yields. *)
Definition heap : Type := list term.
Definition dict : Type := list (key * nat).

Definition deref (l : nat) : St heap term :=
  fun h => (h, match nth_error h l with
               | Some tm => Ok tm
               | None => Raise LibraryError
               end).

Fixpoint update {X} (l : nat) (f : X -> X) (h : list X) : list X :=
  match h, l with
  | [], _ => []
  | x :: h', O => f x :: h'
  | x :: h', S l' => x :: update l' f h'
  end.

(** [obj["A"] = a] on the object at reference [l]. *)
Definition store_amp (l : nat) (a : C) : St heap unit :=
  fun h => (update l (set_amp a) h, Ok tt).

(** [d[k]] *)
Fixpoint dict_get (d : dict) (k : key) : result nat :=
  match d with
  | [] => Raise KeyError
  | (k', l) :: d' => if key_eqb k' k then Ok l else dict_get d' k
  end.

(** [d.values()], as references. *)
Definition values (d : dict) : list nat := map snd d.

(** [term["mode"][1]] of the object at [l]. *)
Definition term_m (l : nat) : St heap Z :=
  sbind (deref l) (fun tm =>
  sbind (slift (getitem (mode tm))) (fun '(_, m, _, _) => sret m)).

(** The list comprehension that collects the distinct [m] in order. *)
Fixpoint collect_m (ls : list nat) (m_list : list Z) : St heap (list Z) :=
  match ls with
  | [] => sret m_list
  | l :: ls' =>
      sbind (term_m l) (fun m =>
      collect_m ls' (if existsb (Z.eqb m) m_list then m_list else m_list ++ [m]))
  end.

(** [[(i, term) for i, term in enumerate(fixed_QNMs.values())
      if term["mode"][1] == m]] *)
Fixpoint mode_labels (m : Z) (i : nat) (ls : list nat) : St heap (list (nat * nat)) :=
  match ls with
  | [] => sret []
  | l :: ls' =>
      sbind (term_m l) (fun m' =>
      sbind (mode_labels m (S i) ls') (fun rest =>
      sret (if m' =? m then (i, l) :: rest else rest)))
  end.

(** [data[:, idx]] with a list of integer column indices. *)
Definition select_cols (n_cols : nat) (idx : list Z) (data : Np.matrix)
    : result Np.matrix :=
  rbind (rmap (Np.index n_cols) idx) (fun js =>
  Ok (map (fun row => map (fun j => nth j row Cx.zero) js) data)).

(** [B[:, :, k] = src]: an array of [n_src] columns assigned into a block
    of [n_dst] columns (a single source column is broadcast). *)
Definition assign_block (n_dst n_src : nat) (src : Np.matrix) : result Np.matrix :=
  if Nat.eqb n_src n_dst then Ok src
  else if Nat.eqb n_src 1 then
    Ok (map (fun row => repeat (hd Cx.zero row) n_dst) src)
  else Raise ValueError.

(** [np.reshape(A, n)] of an array of shape [(T, n_src)], row-major. *)
Definition reshape_flat (n : nat) (T n_src : nat) (a : Np.matrix) : result (list C) :=
  if Nat.eqb (T * n_src) n then Ok (concat a) else Raise ValueError.

(** [np.reshape(B, (n, K))] of the array whose slice [B[:, :, k]] is the
    [k]-th entry of [blocks]: row [r] of the result holds entry [r] of every
    flattened block. *)
Definition reshape_design (n : nat) (blocks : list Np.matrix) : list (list C) :=
  map (fun r => map (fun blk => nth r (concat blk) Cx.zero) blocks) (seq 0 n).

Section Fit.

Variables (h_ring : WaveformModes) (modes : option (list (Z * Z))).
Variables (times : R * R) (chi_f M_f : param) (fixed_QNMs : dict) (t_ref : R).

(** The index list and the ell range of one m-block. *)
Definition block_range (m : Z) : result (list Z * Z * Z) :=
  let ell_min_m := Scri.ell_min h_ring in
  let ell_max_m := Scri.ell_max h_ring in
  match modes with
  | None =>
      Ok (map (fun l => Sf.LM_index l m (Scri.ell_min h_ring))
              (Np.zrange 2 (ell_max_m + 1)),
          ell_min_m, ell_max_m)
  | Some ms =>
      let idx := map (fun l => Sf.LM_index l m (Scri.ell_min h_ring))
                     (filter (fun l => mode_in (l, m) ms)
                             (Np.zrange 2 (ell_max_m + 1))) in
      match map fst (filter (fun lm => m =? snd lm) ms) with
      | [] => Raise ValueError
      | l0 :: ls =>
          Ok (idx, fold_left Z.min ls l0, fold_left Z.max ls l0)
      end
  end.

(** One pass of [for mode_index, (i, term) in enumerate(mode_labels_m)]:
    the term object gets amplitude one and its waveform gives a block. *)
Definition basis_block (h_ring_trunc : WaveformModes) (data_index_m : list Z)
    (n_ell : nat) (l : nat) : St heap Np.matrix :=
  sbind (deref l) (fun tm =>
  let term_w_A := tm in
  sbind (store_amp l Cx.one) (fun _ =>
  sbind (deref l) (fun tm1 =>
  sbind (slift (snd (qnm_modes_as chi_f M_f [tm1] h_ring_trunc
                                  (fst times) t_ref None))) (fun h_QNM =>
  sbind (slift (select_cols (Scri.n_modes h_QNM) data_index_m (Scri.data h_QNM)))
        (fun cols =>
  slift (assign_block n_ell (length data_index_m) cols)))))).

Fixpoint basis_blocks (h_ring_trunc : WaveformModes) (data_index_m : list Z)
    (n_ell : nat) (labels : list (nat * nat)) : St heap (list Np.matrix) :=
  match labels with
  | [] => sret []
  | (_, l) :: labels' =>
      sbind (basis_block h_ring_trunc data_index_m n_ell l) (fun blk =>
      sbind (basis_blocks h_ring_trunc data_index_m n_ell labels') (fun rest =>
      sret (blk :: rest)))
  end.

(** [for i, term in mode_labels_m: fixed_QNMs[i]["A"] = C[0][count]] *)
Fixpoint write_back (labels : list (nat * nat)) (x : list C) (count : nat)
    : St heap unit :=
  match labels with
  | [] => sret tt
  | (i, _) :: labels' =>
      sbind (slift (match nth_error x count with
                    | Some a => Ok a
                    | None => Raise IndexError
                    end)) (fun a =>
      sbind (slift (dict_get fixed_QNMs (KInt (Z.of_nat i)))) (fun l =>
      sbind (store_amp l a) (fun _ =>
      write_back labels' x (S count))))
  end.

(** The body of [for m in m_list]. *)
Definition fit_block (m : Z) : St heap unit :=
  sbind (mode_labels m 0 (values fixed_QNMs)) (fun mode_labels_m =>
  sbind (slift (block_range m)) (fun '(data_index_m, ell_min_m, ell_max_m) =>
  let T := length (Scri.t h_ring) in
  let n_ell_z := ell_max_m - ell_min_m + 1 in
  if n_ell_z <? 0 then sraise ValueError   (* np.zeros of a negative length *)
  else
  let n_ell := Z.to_nat n_ell_z in
  sbind (slift (Scri.ell_slice_to (ell_max_m + 1) h_ring)) (fun h_ring_trunc =>
  sbind (slift (select_cols (Scri.n_modes h_ring_trunc) data_index_m
                            (Scri.data h_ring_trunc))) (fun A =>
  sbind (basis_blocks h_ring_trunc data_index_m n_ell mode_labels_m) (fun blocks =>
  sbind (slift (reshape_flat (T * n_ell) T (length data_index_m) A)) (fun A_flat =>
  let B := reshape_design (T * n_ell) blocks in
  sbind (slift (lstsq (length mode_labels_m) B A_flat)) (fun x =>
  write_back mode_labels_m x 0))))))).

(** [h_diff]: zero everywhere, then for each listed mode the column of
    [h_ring] minus the column of [h_QNM]. *)
Definition col_set (j : nat) (v : list C) (data : Np.matrix) : Np.matrix :=
  map (fun '(row, x) =>
         firstn j row ++ match skipn j row with [] => [] | _ :: rest => x :: rest end)
      (combine data v).

Definition residual (h_QNM : WaveformModes) (ms : list (Z * Z))
    : St Np.matrix unit :=
  sfor ms (fun '(L, M) =>
    sbind (slift (Np.index (Scri.n_modes h_ring) (Sf.LM_index L M (Scri.ell_min h_ring))))
      (fun j1 =>
    sbind (slift (Np.index (Scri.n_modes h_QNM) (Sf.LM_index L M (Scri.ell_min h_QNM))))
      (fun j2 =>
    sbind (slift (Np.index (Scri.n_modes h_ring) (Sf.LM_index L M (Scri.ell_min h_ring))))
      (fun j =>
    fun d =>
      (col_set j (map (fun '(r1, r2) => Cx.sub (nth j1 r1 Cx.zero) (nth j2 r2 Cx.zero))
                      (combine (Scri.data h_ring) (Scri.data h_QNM))) d,
       Ok tt))))).

(** What the fitter returns: the fitted waveform, the target, the
    normalised error, the mismatch and the dictionary it was given. *)
Record fit_result : Type := {
  fit_h_QNM : WaveformModes;
  fit_h_ring : WaveformModes;
  fit_error : option R;
  fit_mismatch : option R;
  fit_fixed_QNMs : dict
}.

Definition fit_ringdown_waveform_LLSQ_S2 : St heap fit_result :=
  let t_0 := fst times in
  sbind (collect_m (values fixed_QNMs) []) (fun m_list =>
  sbind (sfor m_list fit_block) (fun _ =>
  sbind (fun h => (h, rmap (fun l => match nth_error h l with
                                     | Some tm => Ok tm
                                     | None => Raise LibraryError
                                     end) (values fixed_QNMs))) (fun terms =>
  sbind (slift (snd (qnm_modes_as chi_f M_f terms h_ring t_0 t_ref None))) (fun h_QNM =>
  let ms := match modes with
            | None => all_modes_from_2 (Scri.ell_max h_ring)
            | Some ms => ms
            end in
  let (diff, r) := residual h_QNM ms (map (map (Cx.scale 0)) (Scri.data h_ring)) in
  sbind (slift r) (fun _ =>
  let h_diff := with_data h_ring diff in
  sbind (slift (Np.trapezoid (Scri.norm h_diff) (Scri.t h_diff))) (fun num =>
  sbind (slift (Np.trapezoid (Scri.norm h_ring) (Scri.t h_ring))) (fun den =>
  let error := Np.fdiv (0.5 * num) den in
  sbind (slift (waveform_mismatch h_ring h_QNM (Some ms) (fst times) (snd times)))
        (fun mismatch =>
  sret {| fit_h_QNM := h_QNM; fit_h_ring := h_ring; fit_error := error;
          fit_mismatch := mismatch; fit_fixed_QNMs := fixed_QNMs |})))))))).

End Fit.

End Ringdown.

(* ===================================================================== *)
(** * Contracts of the external collaborators and a reference instance *)
(* ===================================================================== *)

(** The product of a row with a vector, [B @ x] for [B] given by its rows,
    and the squared norm of the residual [B @ x - y]. *)
Definition dot (row x : list C) : C :=
  Np.csum (map (fun p => Cx.mul (fst p) (snd p)) (combine row x)).

Definition matvec (B : list (list C)) (x : list C) : list C :=
  map (fun row => dot row x) B.

Definition residual_sq (B : list (list C)) (y x : list C) : R :=
  Np.rsum (map (fun p => Cx.abs2 (Cx.sub (fst p) (snd p))) (combine (matvec B x) y)).

(** What the fitter needs from [np.linalg.lstsq] over exact arithmetic: the
    vector it returns minimises the squared residual (whenever the residual
    has a minimiser, which over the reals it always has). *)
Definition lstsq_minimizes (E : Extern) : Prop :=
  forall (n_cols : nat) (B : list (list C)) (y x : list C),
    length x = n_cols ->
    (forall z, length z = n_cols -> residual_sq B y x <= residual_sq B y z) ->
    exists x', lstsq n_cols B y = Ok x' /\ length x' = n_cols /\
               forall z, length z = n_cols -> residual_sq B y x' <= residual_sq B y z.

(** What the scorer needs from [WaveformModes.interpolate]: on a strictly
    increasing time axis of two samples or more (the spline has no fit to
    one sample), resampling onto a non-empty run of the waveform's own
    sample times returns the samples themselves. *)
Definition interpolate_exact_at_samples (E : Extern) : Prop :=
  forall (h : WaveformModes) (lo hi : nat),
    StronglySorted Rlt (Scri.t h) ->
    length (Scri.data h) = length (Scri.t h) ->
    (2 <= length (Scri.t h))%nat ->
    (lo < hi <= length (Scri.t h))%nat ->
    exists h', interpolate h (Np.slice lo hi (Scri.t h)) = Ok h' /\
               Scri.t h' = Np.slice lo hi (Scri.t h) /\
               Scri.data h' = Np.slice lo hi (Scri.data h) /\
               Scri.ell_min h' = Scri.ell_min h /\
               Scri.ell_max h' = Scri.ell_max h.

Module Reference.

(** An oracle with the shape of the [qnm] cache ([l_max = 20]): the same
    [M*omega = 0.5 - 0.1j] for every label and mixing coefficients one. *)
Definition Momega0 : C := Cx.mk (1 / 2) (- (1 / 10)).

Definition ksc0 (s ell m n : Z) : result Qnm.mode_seq :=
  Ok {| Qnm.solve := fun _ _ => Ok (Momega0, map (fun _ => Cx.one) (Qnm.ells s m 20));
        Qnm.l_max := 20 |}.

(** Position of the first sample time equal to [tau]. *)
Fixpoint find_time (tau : R) (ts : list R) : option nat :=
  match ts with
  | [] => None
  | x :: ts' =>
      if Req_dec_T x tau then Some 0%nat
      else option_map S (find_time tau ts')
  end.

(** An interpolant that is defined at the sample times only. *)
Definition interpolate0 (h : WaveformModes) (new_t : list R) : result WaveformModes :=
  rbind (rmap (fun tau => match find_time tau (Scri.t h) with
                          | Some j => Ok (nth j (Scri.data h) [])
                          | None => Raise ValueError
                          end) new_t) (fun rows =>
  Ok {| Scri.t := new_t; Scri.ell_min := Scri.ell_min h;
        Scri.ell_max := Scri.ell_max h; Scri.data := rows;
        Scri.history := Scri.history h |}).

(** A solver that returns a minimiser of the squared residual whenever
    there is one. *)
Definition lstsq0 (n_cols : nat) (B : list (list C)) (y : list C) : result (list C) :=
  Ok (epsilon (inhabits (repeat Cx.zero n_cols))
              (fun x => length x = n_cols /\
                        forall z, length z = n_cols ->
                                  residual_sq B y x <= residual_sq B y z)).

Definition extern : Extern :=
  {| ksc := ksc0; interpolate := interpolate0; lstsq := lstsq0 |}.

End Reference.

(** [f] under [Ok]. *)
Definition result_map {X Y} (f : X -> Y) (r : result X) : result Y :=
  match r with
  | Ok x => Ok (f x)
  | Raise e => Raise e
  end.

Module Sample.

(** An "other" term of amplitude one and frequency [0.5 - 0.1j] in the
    mode (2, 2). *)
Definition other_22 : term :=
  {| ty := Some "other"%string; mode := None; amp := Some Cx.one;
     omega := Some (Cx.mk (1 / 2) (- (1 / 10))); target_mode := Some (2, 2)%Z |}.

(** A term whose type is neither "QNM" nor "other". *)
Definition bogus : term :=
  {| ty := Some "damped sinusoid"%string; mode := None; amp := Some Cx.one;
     omega := None; target_mode := None |}.

(** The QNM term [(2, 2, 0, +1)] with amplitude [a] or unset. *)
Definition qnm_220 (a : option C) : term :=
  {| ty := Some "QNM"%string; mode := Some (2, 2, 0, 1)%Z; amp := a;
     omega := None; target_mode := None |}.

(** The QNM term [(2, 0, 0, +1)]. *)
Definition qnm_200 (a : option C) : term :=
  {| ty := Some "QNM"%string; mode := Some (2, 0, 0, 1)%Z; amp := a;
     omega := None; target_mode := None |}.

(** A zeroed complex destination buffer for one time sample and the five
    modes with ell = 2. *)
Definition dest_1x5 : ndarray :=
  {| shape := (1%nat, 5%nat); dtype_complex := true;
     cells := [[Cx.zero; Cx.zero; Cx.zero; Cx.zero; Cx.zero]] |}.

End Sample.

(** ** Notions used in the statements *)

(** [r] is the position of the first smallest entry of [l]. *)
Definition first_min (l : list R) (r : nat) : Prop :=
  exists v, nth_error l r = Some v
            /\ (forall j y, nth_error l j = Some y -> v <= y)
            /\ (forall j y, (j < r)%nat -> nth_error l j = Some y -> v < y).

(** The trapezoidal sum of samples [y] over an axis [x] of the same length. *)
Definition trapz (y x : list R) : R :=
  Np.rsum (map (fun v => v / 2)
               (map (fun p => fst p * snd p) (combine (Np.diff x) (Np.pairsum y)))).

(** The data of a private copy after the columns of the modes that are not
    listed have been multiplied by zero (all of it when no list is given). *)
Definition masked_data (modes : option (list (Z * Z))) (h : WaveformModes)
    : Np.matrix :=
  match modes with
  | None => Scri.data h
  | Some ms =>
      fold_left
        (fun d lm =>
           col_zero (Z.to_nat (Sf.LM_index (fst lm) (snd lm) (Scri.ell_min h))) d)
        (filter (fun lm => negb (mode_in lm ms)) (all_modes_from_2 (Scri.ell_max h)))
        (Scri.data h)
  end.

(** The integral of the power of [h] over the window of [t1] and [t2],
    restricted to the listed modes: the quantity under the square root of
    the score when both arguments are [h]. *)
Definition windowed_power (h : WaveformModes) (modes : option (list (Z * Z)))
    (t1 t2 : R) : R :=
  match window (Scri.t h) t1 t2 with
  | Ok (lo, hi) =>
      trapz (Scri.norm (Scri.time_slice lo hi (with_data h (masked_data modes h))))
            (Np.slice lo hi (Scri.t h))
  | Raise _ => 0
  end.

(** The shape invariant of the container: one row per time sample and one
    column per mode of the range. *)
Definition well_shaped (h : WaveformModes) : Prop :=
  length (Scri.data h) = length (Scri.t h)
  /\ Forall (fun row => length row = Scri.n_modes h) (Scri.data h).

(** Two states of a term object that differ at most in the field ['A']. *)
Definition same_but_amp (tm tm' : term) : Prop :=
  ty tm = ty tm' /\ mode tm = mode tm' /\ omega tm = omega tm'
  /\ target_mode tm = target_mode tm'.

(** Two heaps with the same objects, up to the field ['A'] of each. *)
Definition heap_frame (h h' : heap) : Prop := Forall2 same_but_amp h h'.

(** A computation that leaves every field but ['A'] of every object alone,
    whether it returns or raises. *)
Definition frames {A} (c : St heap A) : Prop :=
  forall h, heap_frame h (fst (c h)).

(** Entry [(i, k)] of an array (zero outside of it). *)
Definition entry (d : Np.matrix) (i k : nat) : C :=
  nth k (nth i d []) Cx.zero.

(** An array of [T] rows and [N] columns. *)
Definition has_shape (T N : nat) (d : Np.matrix) : Prop :=
  length d = T /\ Forall (fun row => length row = N) d.

(** What one pass of the column loop of a QNM term adds to entry [(i, k)],
    per unit of amplitude. *)
Definition qnm_column_response (LM : list (Z * Z)) (m : Z) (expiwt Cs : list C)
    (ells : list Z) (lm : Z * Z) (i k : nat) : C :=
  let '(l, m') := lm in
  if (m' =? m)%Z then
    match mask_select Cs ells l, min_ell LM with
    | Ok (c :: _), Ok lmin =>
        match Np.index (length LM) (Sf.LM_index l m' lmin) with
        | Ok j =>
            if (k =? j)%nat && (i <? length expiwt)%nat
            then Cx.mul (nth i expiwt Cx.zero) c else Cx.zero
        | Raise _ => Cx.zero
        end
    | _, _ => Cx.zero
    end
  else Cx.zero.

(** The same for the passes over the modes [xs]. *)
Definition qnm_response (LM : list (Z * Z)) (m : Z) (expiwt Cs : list C)
    (ells : list Z) (xs : list (Z * Z)) (i k : nat) : C :=
  Np.csum (map (fun lm => qnm_column_response LM m expiwt Cs ells lm i k) xs).

(** What a QNM term adds to entry [(i, k)] of the synthesized array, per
    unit of amplitude, on the vectorised path. *)
Definition term_response {E : Extern} (chi mass t_ref : R) (t : list R)
    (LM : list (Z * Z)) (tm : term) (i k : nat) : C :=
  match mode tm with
  | Some (ell, m, n, sign) =>
      match qnm_from_tuple (ell, m, n, sign) chi mass (-2) with
      | Ok (w, Cs, ells) =>
          qnm_response LM m (map (expiwt_at w t_ref) t) Cs ells LM i k
      | Raise _ => Cx.zero
      end
  | None => Cx.zero
  end.

Definition amp_or_zero (tm : term) : C :=
  match amp tm with
  | Some a => a
  | None => Cx.zero
  end.

(** The sum over the terms of amplitude times unit response. *)
Definition total_response {E : Extern} (chi mass t_ref : R) (t : list R)
    (LM : list (Z * Z)) (terms : list term) (i k : nat) : C :=
  Np.csum (map (fun tm => Cx.mul (amp_or_zero tm)
                            (term_response chi mass t_ref t LM tm i k)) terms).

(** A QNM term that carries an amplitude. *)
Definition qnm_with_amp (tm : term) : Prop :=
  ty tm = Some "QNM"%string /\ exists a, amp tm = Some a.

(** The azimuthal number of the label of a term. *)
Definition m_of (tm : term) : Z :=
  match mode tm with
  | Some (_, m, _, _) => m
  | None => 0%Z
  end.

(** A row of a least-squares system that the vector [a] reproduces exactly,
    or whose coefficients are all zero. *)
Definition row_explained (a : list C) (row : list C) (y_r : C) : Prop :=
  y_r = dot row a \/ Forall (fun c => c = Cx.zero) row.

(** The array that the synthesizer builds from the single term [tm] at
    amplitude one: the unit waveform of the term. *)
Definition unit_data {E : Extern} (chi mass : param) (t_ref : R) (t : list R)
    (LM : list (Z * Z)) (tm : term) : Np.matrix :=
  fst (add_term chi mass t_ref t LM (set_amp Cx.one tm)
         (zeros (length t) (length LM))).

(** The combination of the unit waveforms of [tms] with the coefficients
    [x], at entry [(i, k)]. *)
Definition combination {E : Extern} (chi mass : param) (t_ref : R) (t : list R)
    (LM : list (Z * Z)) (tms : list term) (x : list C) (i k : nat) : C :=
  dot (map (fun tm => entry (unit_data chi mass t_ref t LM tm) i k) tms) x.

(** The unit waveforms of [tms] are linearly independent: two coefficient
    vectors that give the same combination are equal. *)
Definition independent_units {E : Extern} (chi mass : param) (t_ref : R)
    (t : list R) (LM : list (Z * Z)) (tms : list term) : Prop :=
  forall x x', length x = length tms -> length x' = length tms ->
    (forall i k, combination chi mass t_ref t LM tms x i k
                 = combination chi mass t_ref t LM tms x' i k) ->
    x = x'.

(** The ells that the fit of the azimuthal number [m] works on: the range
    [2 .. L], cut down to the listed modes when a mode list is given. *)
Definition fit_ells (modes : option (list (Z * Z))) (L m : Z) : list Z :=
  match modes with
  | None => Np.zrange 2 (L + 1)
  | Some ms => filter (fun l => mode_in (l, m) ms) (Np.zrange 2 (L + 1))
  end.

(** The unit waveforms of [tms], terms of the azimuthal number [m], are
    linearly independent over the modes [(l, m)] with [l] among [ells]: two
    coefficient vectors that give the same combination in the columns of
    these modes are equal. *)
Definition independent_on {E : Extern} (chi mass : param) (t_ref : R)
    (t : list R) (lmin L : Z) (ells : list Z) (m : Z) (tms : list term) : Prop :=
  forall x x', length x = length tms -> length x' = length tms ->
    (forall i l, In l ells -> (Z.abs m <= l)%Z ->
       combination chi mass t_ref t (Sf.LM_range lmin L) tms x i
         (Z.to_nat (Sf.LM_index l m lmin))
       = combination chi mass t_ref t (Sf.LM_range lmin L) tms x' i
           (Z.to_nat (Sf.LM_index l m lmin))) ->
    x = x'.

(** [[_l for (_l, _m) in modes if m == _m]] *)
Definition listed_ells (ms : list (Z * Z)) (m : Z) : list Z :=
  map fst (filter (fun lm => (m =? snd lm)%Z) ms).

(** The mode lists that the fitter can work with on a target of the modes
    [lmin <= ell <= L]: no list, on a target with [lmin = 2]; or a list of
    modes of the target in which, for the azimuthal number of every term,
    the listed ells are the integers of a range [lo .. hi] with [2 <= lo]. *)
Definition fit_modes_ok (modes : option (list (Z * Z))) (lmin L : Z)
    (terms : list term) : Prop :=
  match modes with
  | None => lmin = 2%Z
  | Some ms =>
      (forall lm, In lm ms -> In lm (Sf.LM_range lmin L))
      /\ forall m, In m (map m_of terms) ->
           exists lo hi, (2 <= lo <= hi)%Z
                         /\ forall l, In l (listed_ells ms m) <-> (lo <= l <= hi)%Z
  end.

(** The terms of a dictionary whose label has the azimuthal number [m]. *)
Definition block_terms (m : Z) (terms : list term) : list term :=
  filter (fun tm => (m_of tm =? m)%Z) terms.

(** The column that the index [LM_index l m 2] selects in an array of the
    modes [LM_range 2 L] (negative indices count from the end). *)
Definition col_of (L m l : Z) : nat :=
  match Np.index (length (Sf.LM_range 2 L)) (Sf.LM_index l m 2) with
  | Ok j => j
  | Raise _ => 0%nat
  end.

(** A term object with no key set. *)
Definition no_term : term :=
  {| ty := None; mode := None; amp := None; omega := None; target_mode := None |}.

(** The dictionary [{0: ., 1: ., ..., n - 1: .}] whose key [i] is bound to
    the [i]-th object of the heap. *)
Definition positional_dict (n : nat) : dict :=
  map (fun i => (KInt (Z.of_nat i), i)) (seq 0 n).

(** The distinct entries of [ms], in the order of their first occurrence,
    after those of [acc]. *)
Definition distinct_after (acc ms : list Z) : list Z :=
  fold_left (fun acc m => if existsb (Z.eqb m) acc then acc else acc ++ [m]) ms acc.

(** The positions of the terms of azimuthal number [m] among [terms], each
    paired with the reference of the object at that position when the
    references are the positions. *)
Definition positions_of (m : Z) (terms : list term) (i0 k : nat) : list nat :=
  filter (fun i => (m_of (nth i terms no_term) =? m)%Z) (seq i0 k).

(** The axis [0, 1, ..., n - 1]. *)
Definition unit_axis (n : nat) : list R := map INR (seq 0 n).

Module SampleWaves.

(** Samples at the integer times [0 .. n - 1], each with the single mode
    (2, 2) equal to one and the other four modes of ell = 2 zero. *)
Definition steady (n : nat) : WaveformModes :=
  {| Scri.t := unit_axis n; Scri.ell_min := 2; Scri.ell_max := 2;
     Scri.data := repeat [Cx.zero; Cx.zero; Cx.zero; Cx.zero; Cx.one] n;
     Scri.history := [] |}.


End SampleWaves.

(** Entrywise sum of two arrays of the same shape. *)
Definition mat_add (a b : Np.matrix) : Np.matrix :=
  map (fun rows =>
         map (fun xy => Cx.add (fst xy) (snd xy)) (combine (fst rows) (snd rows)))
      (combine a b).

(** A pass over an array of shape [(T, N)] that adds to it: whether it
    returns does not depend on what the array holds, it keeps the shape,
    and what it adds is what it leaves in an array of zeros. *)
Definition additive (T N : nat) (c : St Np.matrix unit) : Prop :=
  (forall d d', has_shape T N d -> has_shape T N d' -> snd (c d) = snd (c d'))
  /\ (forall d, has_shape T N d -> has_shape T N (fst (c d)))
  /\ (forall d, has_shape T N d -> snd (c d) = Ok tt ->
        forall i k, entry (fst (c d)) i k
                    = Cx.add (entry d i k) (entry (fst (c (zeros T N))) i k)).

(** A spin or a mass that has the value [x] at each of the first [n]
    samples: the float [x], or a list or array that holds [x] there. *)
Definition constant_param (p : param) (x : R) (n : nat) : Prop :=
  forall i, (i < n)%nat -> param_at p i = Ok x.

(** The outcome [r'] of the per-sample path beside the outcome [r] of the
    vectorised path: the same result or exception, but for the empty
    selection [C[ells == l']], which a column refuses with ValueError and a
    cell with TypeError. *)
Definition per_sample_outcome {A} (r r' : result A) : Prop :=
  r' = r \/ (r = Raise ValueError /\ r' = Raise TypeError).

(** Row by row, the sum over the modes of [Re (a * conj b)]: the integrand
    of the overlap of two arrays of the same shape. *)
Definition overlap_rows (a b : Np.matrix) : list R :=
  map (fun rows =>
         Np.rsum (map (fun xy => Cx.re (Cx.mul (fst xy) (Cx.conj (snd xy))))
                      (combine (fst rows) (snd rows))))
      (combine a b).

(** The overlap integral of [h_A] and [h_B], two waveforms on the same time
    axis and mode range, over the window of [t1] and [t2] and the listed
    modes. *)
Definition windowed_overlap (h_A h_B : WaveformModes)
    (modes : option (list (Z * Z))) (t1 t2 : R) : R :=
  match window (Scri.t h_A) t1 t2 with
  | Ok (lo, hi) =>
      trapz (overlap_rows (Np.slice lo hi (masked_data modes h_A))
                          (Np.slice lo hi (masked_data modes h_B)))
            (Np.slice lo hi (Scri.t h_A))
  | Raise _ => 0
  end.

(** Two waveforms laid out alike: the same time axis and mode range, and
    data arrays of the shape that goes with them. *)
Definition aligned (h_A h_B : WaveformModes) : Prop :=
  Scri.t h_B = Scri.t h_A
  /\ Scri.ell_min h_B = Scri.ell_min h_A
  /\ Scri.ell_max h_B = Scri.ell_max h_A
  /\ well_shaped h_A /\ well_shaped h_B.

(** The score as a function of the three integrals. *)
Definition score (overlap nA nB : R) : option R :=
  match fsqrt (nA * nB) with
  | None => None
  | Some d =>
      match Np.fdiv overlap d with
      | None => None
      | Some q => Some (1 - q)
      end
  end.

(** The azimuthal number of the object at the reference [l] of a heap. *)
Definition m_at (h : heap) (l : nat) : Z := m_of (nth l h no_term).

(** The reference [l] points to an object of the heap that has the key
    ['mode']. *)
Definition has_mode_at (h : heap) (l : nat) : Prop :=
  exists tm label, nth_error h l = Some tm /\ mode tm = Some label.

(** Two heaps that hold the objects of [h0] up to the field ['A'] of each
    and agree, amplitudes included, on the objects at the references [W]. *)
Definition agree_on (h0 : heap) (W : list nat) (h1 h2 : heap) : Prop :=
  heap_frame h0 h1 /\ heap_frame h0 h2
  /\ forall l, In l W -> nth_error h1 l = nth_error h2 l.

(** A computation run on two heaps related by [P]: it returns the same
    value or raises the same exception on both, and when it returns [a] the
    heaps it leaves are related by [Q a]. *)
Definition alike {A} (P : heap -> heap -> Prop) (Q : A -> heap -> heap -> Prop)
    (c : St heap A) : Prop :=
  forall h1 h2, P h1 h2 ->
    snd (c h1) = snd (c h2)
    /\ forall a, snd (c h1) = Ok a -> Q a (fst (c h1)) (fst (c h2)).

(** A computation that never writes to the object at the reference [l],
    whether it returns or raises. *)
Definition leaves {A} (l : nat) (c : St heap A) : Prop :=
  forall h, nth_error (fst (c h)) l = nth_error h l.

(** The term [tm] with its amplitude, when it has one, multiplied by [c]. *)
Definition scale_amp (c : C) (tm : term) : term :=
  {| ty := ty tm; mode := mode tm; amp := option_map (Cx.mul c) (amp tm);
     omega := omega tm; target_mode := target_mode tm |}.

(** The pass [q] over an array of [T] rows and [N] columns returns or raises
    as the pass [p] does, and leaves in an array of zeros [c] times what [p]
    leaves there. *)
Definition scaled (c : C) (T N : nat) (p q : St Np.matrix unit) : Prop :=
  (forall d d', has_shape T N d -> has_shape T N d' -> snd (p d) = snd (q d'))
  /\ (snd (p (zeros T N)) = Ok tt ->
      forall i k, entry (fst (q (zeros T N))) i k
                  = Cx.mul c (entry (fst (p (zeros T N))) i k)).

(** The mass, a float or one value per sample, in units [lam] times
    smaller: every value is multiplied by [lam]. *)
Definition scale_param (lam : R) (p : param) : param :=
  match p with
  | Scalar x => Scalar (lam * x)
  | PerSample xs => PerSample (map (Rmult lam) xs)
  end.

(** The term [tm] with the frequency it carries, if any, divided by [lam]. *)
Definition rescale_omega (lam : R) (tm : term) : term :=
  {| ty := ty tm; mode := mode tm; amp := amp tm;
     omega := option_map (fun w => Cx.div_R w lam) (omega tm);
     target_mode := target_mode tm |}.

Module SampleFit.

(** The scenario of one term: spin 0.7, mass 1, [t_ref = 0], the three
    samples [t = 0, 1, 2] and the modes with ell = 2. *)
Definition chi : R := 7 / 10.
Definition mass : R := 1.

(** The amplitude [1e-2 + 0j]. *)
Definition a0 : C := Cx.mk (1 / 100) 0.

(** The column of a term of amplitude [a] at the sample times: zero plus
    [a * exp(-i omega t) * 1] with the frequency of the reference oracle. *)
Definition column (a : C) (ti : R) : C :=
  Cx.add Cx.zero
    (Cx.mul (Cx.mul a (expiwt_at (Cx.div_R Reference.Momega0 mass) 0 ti)) Cx.one).

(** The waveform of [{0: {type: QNM, mode: (2, 2, 0, 1), A: a}}]: the
    column of the mode (2, 2) is the last of the five. *)
Definition target (a : C) : WaveformModes :=
  {| Scri.t := unit_axis 3; Scri.ell_min := 2; Scri.ell_max := 2;
     Scri.data := map (fun ti => [Cx.zero; Cx.zero; Cx.zero; Cx.zero; column a ti])
                      (unit_axis 3);
     Scri.history := [{| Scri.stmt_t_0 := 0; Scri.stmt_t_ref := 0 |}] |}.

(** The waveform of [{0: (2, 2, 0, 1) with A = a, 1: (2, 0, 0, 1) with
    A = b}]: the mode (2, 0) is the middle column. *)
Definition target2 (a b : C) : WaveformModes :=
  {| Scri.t := unit_axis 3; Scri.ell_min := 2; Scri.ell_max := 2;
     Scri.data := map (fun ti => [Cx.zero; Cx.zero; column b ti; Cx.zero; column a ti])
                      (unit_axis 3);
     Scri.history := [{| Scri.stmt_t_0 := 0; Scri.stmt_t_ref := 0 |}] |}.

(** The dictionary [{"a": term}] over a heap of one object. *)
Definition string_keyed : dict := [(KStr "a", 0%nat)].

(** The dictionary [{1: first, 0: second}] over a heap of two objects: the
    keys are the positions in the reverse order. *)
Definition swapped_keys : dict := [(KInt 1, 0%nat); (KInt 0, 1%nat)].

End SampleFit.

(* ===================================================================== *)
(** * Properties *)
(* ===================================================================== *)

(** ** Generic facts about the helpers *)

Lemma increasing_sorted t : Scri.increasing t = true <-> StronglySorted Rlt t.
Proof.
  induction t as [|x0 [|x1 t'] IH].
  - split; [constructor | reflexivity].
  - split; [repeat constructor | reflexivity].
  - cbn [Scri.increasing]. destruct (Rlt_dec x0 x1) as [Hlt|Hge].
    + rewrite IH. split.
      * intros Hs. constructor; [assumption|].
        apply StronglySorted_inv in Hs. destruct Hs as [_ Hall].
        constructor; [assumption|].
        eapply Forall_impl; [|exact Hall]. intros y Hy. cbn in Hy. lra.
      * intros Hs. now apply StronglySorted_inv in Hs.
    + split; [discriminate|]. intros Hs.
      apply StronglySorted_inv in Hs. destruct Hs as [_ Hall].
      apply Forall_inv in Hall. contradiction.
Qed.

Lemma increasing_map_INR s n : Scri.increasing (map INR (seq s n)) = true.
Proof.
  apply increasing_sorted. revert s.
  induction n as [|n IH]; intros s; cbn [seq map]; constructor; [apply IH|].
  apply Forall_forall. intros x Hx. apply in_map_iff in Hx.
  destruct Hx as (k & <- & Hk). apply in_seq in Hk. apply lt_INR. lia.
Qed.

Lemma increasing_unit_axis n : Scri.increasing (unit_axis n) = true.
Proof. apply increasing_map_INR. Qed.

Ltac solve_increasing :=
  first [ reflexivity
        | apply increasing_unit_axis
        | apply increasing_sorted; repeat constructor; lra ].

Lemma increasing_map (f : R -> R) t :
  (forall x y, x < y <-> f x < f y) ->
  Scri.increasing (map f t) = Scri.increasing t.
Proof.
  intros Hf. induction t as [|x0 [|x1 t'] IH]; try reflexivity.
  cbn [map Scri.increasing] in *.
  destruct (Rlt_dec x0 x1) as [Hlt|Hge], (Rlt_dec (f x0) (f x1)) as [Hlt'|Hge'];
    try assumption; try reflexivity.
  - apply Hf in Hlt. contradiction.
  - apply Hf in Hlt'. contradiction.
Qed.

Lemma zrange_length lo hi : length (Np.zrange lo hi) = Z.to_nat (hi - lo).
Proof. unfold Np.zrange. now rewrite length_map, length_seq. Qed.

Lemma zrange_In lo hi k : In k (Np.zrange lo hi) <-> (lo <= k < hi)%Z.
Proof.
  unfold Np.zrange. rewrite in_map_iff. split.
  - intros (i & <- & Hi). apply in_seq in Hi. lia.
  - intros H. exists (Z.to_nat (k - lo)). split; [lia|]. apply in_seq. lia.
Qed.

Lemma map2b_same_length {X Y W} (dx : X) (dy : Y) (f : X -> Y -> W) xs ys :
  length xs = length ys ->
  Np.map2b dx dy f xs ys = Ok (map (fun p => f (fst p) (snd p)) (combine xs ys)).
Proof.
  intros Hlen. unfold Np.map2b, Np.broadcast_len.
  rewrite Hlen, Nat.eqb_refl. cbn [rbind]. f_equal.
  apply nth_error_ext. intros i.
  rewrite !nth_error_map.
  destruct (Nat.lt_ge_cases i (length ys)) as [Hi|Hi].
  - rewrite (nth_error_nth' (seq 0 (length ys)) 0%nat) by now rewrite length_seq.
    rewrite seq_nth by assumption. cbn [option_map].
    rewrite (nth_error_nth' (combine xs ys) (dx, dy))
      by (rewrite length_combine; lia).
    cbn [option_map]. rewrite combine_nth by assumption. cbn [fst snd].
    f_equal. f_equal.
    + destruct xs as [|x [|x' xs]]; cbn in *; try lia; try reflexivity.
      destruct i; [reflexivity | lia].
    + destruct ys as [|y [|y' ys]]; cbn in *; try lia; try reflexivity.
      destruct i; [reflexivity | lia].
  - rewrite (proj2 (nth_error_None _ _)) by now rewrite length_seq.
    rewrite (proj2 (nth_error_None _ _)) by (rewrite length_combine; lia).
    reflexivity.
Qed.

Lemma combine_map_both {X X' Y Y'} (f : X -> X') (g : Y -> Y') xs ys :
  combine (map f xs) (map g ys) =
  map (fun p => (f (fst p), g (snd p))) (combine xs ys).
Proof.
  revert ys. induction xs as [|x xs IH]; intros [|y ys]; cbn; try reflexivity.
  now rewrite IH.
Qed.

Lemma rmap_ok {X Y} (f : X -> result Y) (g : X -> Y) xs :
  (forall x, In x xs -> f x = Ok (g x)) -> rmap f xs = Ok (map g xs).
Proof.
  induction xs as [|x xs IH]; intros H; cbn; [reflexivity|].
  rewrite (H x (or_introl eq_refl)). cbn.
  rewrite IH by (intros; apply H; now right). reflexivity.
Qed.

Lemma rmap_map {X Y W} (f : Y -> result W) (g : X -> Y) xs :
  rmap f (map g xs) = rmap (fun x => f (g x)) xs.
Proof.
  induction xs as [|x xs IH]; cbn; [reflexivity|]. now rewrite IH.
Qed.

Lemma pow_minus_one_ok k :
  (0 <= k)%Z -> pow_minus_one k = Ok (powerRZ (-1) k).
Proof.
  intros Hk. unfold pow_minus_one.
  destruct (Z.ltb_spec k 0); [lia|]. f_equal.
  rewrite <- (Z2Nat.id k) by assumption. rewrite <- pow_powerRZ.
  rewrite Z2Nat.id by assumption.
  destruct (Z.even k) eqn:Hev.
  - apply Z.even_spec in Hev. destruct Hev as [j ->].
    rewrite Z2Nat.inj_mul by lia. rewrite pow_mult.
    change (Z.to_nat 2) with 2%nat.
    replace ((-1) ^ 2) with 1 by (cbn; lra). now rewrite pow1.
  - assert (Hodd : Z.odd k = true) by (rewrite <- Z.negb_even, Hev; reflexivity).
    apply Z.odd_spec in Hodd. destruct Hodd as [j ->].
    rewrite Z2Nat.inj_add, Z2Nat.inj_mul by lia.
    rewrite pow_add, pow_mult. change (Z.to_nat 2) with 2%nat.
    replace ((-1) ^ 2) with 1 by (cbn; lra). rewrite pow1.
    change (Z.to_nat 1) with 1%nat. cbn. lra.
Qed.

Section AdapterProperties.

Context {E : Extern}.

(** ** The mode oracle adapter *)

(** C7. With a label [(ell, m, n, -1)] the adapter queries the oracle at
    [(ell, -m, n)] and returns the negated conjugate of that frequency
    divided by the mass, and at each index [l'] of the mixing ells the
    conjugate of the coefficient times [(-1)^(ell + l')]; with sign [+1] it
    queries [(ell, m, n)] and only divides the frequency by the mass. *)
Theorem qnm_from_tuple_symmetry (ell m n s : Z) (chi mass : R)
    (seq_neg seq_pos : Qnm.mode_seq) (Mw_neg Mw_pos : C) (Cs_neg Cs_pos : list C) :
  (ksc s ell (- m) n = Ok seq_neg ->
   solve_with_fallback seq_neg chi = Ok (Mw_neg, Cs_neg) ->
   length Cs_neg = length (Qnm.ells s m (Qnm.l_max seq_neg)) ->
   (0 <= ell)%Z ->
   qnm_from_tuple (ell, m, n, (-1)%Z) chi mass s =
     Ok (Cx.div_R (Cx.neg (Cx.conj Mw_neg)) mass,
         map (fun p => Cx.scale (powerRZ (-1) (ell + fst p)) (Cx.conj (snd p)))
             (combine (Qnm.ells s m (Qnm.l_max seq_neg)) Cs_neg),
         Qnm.ells s m (Qnm.l_max seq_neg)))
  /\
  (ksc s ell m n = Ok seq_pos ->
   solve_with_fallback seq_pos chi = Ok (Mw_pos, Cs_pos) ->
   qnm_from_tuple (ell, m, n, 1%Z) chi mass s =
     Ok (Cx.div_R Mw_pos mass, Cs_pos, Qnm.ells s m (Qnm.l_max seq_pos))).
Proof.
  split.
  - intros Hk Hs Hlen Hell. unfold qnm_from_tuple.
    change ((-1 =? 1)%Z) with false. change ((-1 =? -1)%Z) with true.
    cbn match. rewrite Hk. cbn [rbind]. rewrite Hs. cbn [rbind].
    set (ells := Qnm.ells s m (Qnm.l_max seq_neg)) in *.
    rewrite (@rmap_ok _ _ _ (fun l' => powerRZ (-1) (ell + l'))).
    2:{ intros l' Hin. apply pow_minus_one_ok.
        unfold ells, Qnm.ells in Hin. apply zrange_In in Hin. lia. }
    cbn [rbind].
    rewrite map2b_same_length by (rewrite !length_map; lia).
    cbn [rbind]. do 3 f_equal.
    rewrite combine_map_both, map_map. reflexivity.
  - intros Hk Hs. unfold qnm_from_tuple.
    change ((1 =? 1)%Z) with true. cbn match.
    rewrite Hk. cbn [rbind]. rewrite Hs. reflexivity.
Qed.

(** The sign test comes before any oracle query. *)
Lemma qnm_from_tuple_bad_sign ell m n sign chi mass s :
  sign <> 1%Z -> sign <> (-1)%Z ->
  qnm_from_tuple (ell, m, n, sign) chi mass s = Raise ValueError.
Proof.
  intros H1 H2. unfold qnm_from_tuple.
  destruct (Z.eqb_spec sign 1); [contradiction|].
  destruct (Z.eqb_spec sign (-1)); [contradiction|]. reflexivity.
Qed.

End AdapterProperties.

(** The statement of [qnm_from_tuple_symmetry] at the label [(2, 2, 0, -1)]
    and at [(2, 2, 0, +1)] with the reference oracle. *)
Lemma qnm_from_tuple_symmetry_witness :
  let ells := Qnm.ells (-2) 2 20 in
  let Cs := map (fun _ => Cx.one) ells in
  qnm_from_tuple (E := Reference.extern) (2, 2, 0, -1)%Z (7 / 10) 1 (-2) =
    Ok (Cx.div_R (Cx.neg (Cx.conj Reference.Momega0)) 1,
        map (fun p => Cx.scale (powerRZ (-1) (2 + fst p)) (Cx.conj (snd p)))
            (combine ells Cs),
        ells)
  /\
  qnm_from_tuple (E := Reference.extern) (2, 2, 0, 1)%Z (7 / 10) 1 (-2) =
    Ok (Cx.div_R Reference.Momega0 1, Cs, ells).
Proof.
  intros ells Cs.
  pose proof (@qnm_from_tuple_symmetry Reference.extern 2 2 0 (-2) (7 / 10) 1
                {| Qnm.solve := fun _ _ => Ok (Reference.Momega0,
                                               map (fun _ => Cx.one) (Qnm.ells (-2) (- 2) 20));
                   Qnm.l_max := 20 |}
                {| Qnm.solve := fun _ _ => Ok (Reference.Momega0,
                                               map (fun _ => Cx.one) (Qnm.ells (-2) 2 20));
                   Qnm.l_max := 20 |}
                Reference.Momega0 Reference.Momega0 Cs Cs) as [Hneg Hpos].
  split.
  - apply Hneg; [reflexivity | reflexivity | reflexivity | lia].
  - apply Hpos; reflexivity.
Defined.

(** ** Evaluation of the model on concrete inputs

    The control flow is computed; the real and complex operations stay
    symbolic. *)
Ltac py_eval :=
  cbv -[Cx.cexp Cx.mul Cx.add Cx.sub Cx.scale Cx.conj Cx.neg Cx.div_R Cx.of_R
        Cx.abs2 Cx.zero Cx.one Cx.minus_i expiwt_at
        Rplus Rmult Rminus Rdiv Ropp Rinv IZR exp cos sin sqrt Rabs
        Rlt_dec Req_dec_T Rle_dec epsilon].

Lemma cexp_nonzero z : Cx.cexp z <> Cx.zero.
Proof.
  intros H. unfold Cx.cexp, Cx.zero in H. injection H as Hre Him.
  pose proof (exp_pos (Cx.re z)) as Hexp.
  pose proof (sin2_cos2 (Cx.im z)) as Hsc. unfold Rsqr in Hsc.
  assert (Hc : cos (Cx.im z) = 0) by nra.
  assert (Hs : sin (Cx.im z) = 0) by nra.
  rewrite Hc, Hs in Hsc. lra.
Qed.

Lemma mul_one_l z : Cx.mul Cx.one z = z.
Proof. destruct z. unfold Cx.mul, Cx.one. cbn. f_equal; ring. Qed.

Lemma mul_one_r z : Cx.mul z Cx.one = z.
Proof. destruct z. unfold Cx.mul, Cx.one. cbn. f_equal; ring. Qed.

Lemma add_zero_l z : Cx.add Cx.zero z = z.
Proof. destruct z. unfold Cx.add, Cx.zero. cbn. f_equal; ring. Qed.

Lemma add_zero_r z : Cx.add z Cx.zero = z.
Proof. destruct z. unfold Cx.add, Cx.zero. cbn. f_equal; ring. Qed.

Lemma sfor_app {S X} (xs ys : list X) (body : X -> St S unit) (s : S) :
  sfor (xs ++ ys) body s =
  match sfor xs body s with
  | (s', Ok _) => sfor ys body s'
  | (s', Raise e) => (s', Raise e)
  end.
Proof.
  revert s. induction xs as [|x xs IH]; intros s; cbn; [reflexivity|].
  unfold sbind. destruct (body x s) as [s1 [[]|e]]; [apply IH | reflexivity].
Qed.

Section SynthProperties.

Context {E : Extern}.

(** ** The synthesizer *)

(** C10. The parameter [t_0] of [qnm_modes] reaches the constructor
    statement only: the destination buffer and the data (or the exception)
    are the same for any two values of it, and samples before [t_0] are not
    set to zero. *)
Theorem qnm_modes_ignores_t_0 :
  (forall chi mass mode_dict (t_0 t_0' t_ref : R) t lmin lmax dest,
     fst (qnm_modes chi mass mode_dict t_0 t_ref t lmin lmax dest) =
     fst (qnm_modes chi mass mode_dict t_0' t_ref t lmin lmax dest)
     /\ result_map Scri.data
          (snd (qnm_modes chi mass mode_dict t_0 t_ref t lmin lmax dest)) =
        result_map Scri.data
          (snd (qnm_modes chi mass mode_dict t_0' t_ref t lmin lmax dest)))
  /\ (exists h,
        snd (qnm_modes (Scalar (7 / 10)) (Scalar 1) [Sample.other_22]
                       5 0 [0] 2 2 None) = Ok h
        /\ nth 4 (nth 0 (Scri.data h) []) Cx.zero <> Cx.zero).
Proof.
  split.
  - intros. unfold qnm_modes, Scri.modes_constructor, sbind, sret.
    destruct (data_functor chi mass t_ref t (Sf.LM_range lmin lmax) mode_dict dest)
      as [d [m|e]]; destruct (Scri.increasing t); cbn; split; reflexivity.
  - eexists. split; [py_eval; reflexivity|].
    cbn [Scri.data nth]. rewrite add_zero_l, mul_one_l.
    apply cexp_nonzero.
Qed.

(** C8 (as the code has it). A sign other than [+1] and [-1] makes the
    adapter raise ValueError before it queries the oracle, and a term whose
    type is neither "QNM" nor "other" makes the synthesizer raise ValueError
    and return no array; by then the terms that precede it have been added,
    so a destination buffer holds their sum instead of its former content. *)
Theorem invalid_argument_errors :
  (forall ell m n sign chi mass s,
     sign <> 1%Z -> sign <> (-1)%Z ->
     qnm_from_tuple (ell, m, n, sign) chi mass s = Raise ValueError)
  /\
  (forall chi mass t_ref t LM before bad rest type data1,
     ty bad = Some type -> type <> "QNM"%string -> type <> "other"%string ->
     sfor before (add_term chi mass t_ref t LM) (zeros (length t) (length LM))
       = (data1, Ok tt) ->
     data_functor chi mass t_ref t LM (before ++ bad :: rest) None
       = (None, Raise ValueError)
     /\
     forall buf,
       shape buf = (length t, length LM) -> dtype_complex buf = true ->
       data_functor chi mass t_ref t LM (before ++ bad :: rest) (Some buf)
         = (Some {| shape := shape buf; dtype_complex := true; cells := data1 |},
            Raise ValueError)).
Proof.
  split; [intros; now apply qnm_from_tuple_bad_sign|].
  intros chi mass t_ref t LM before bad rest type data1 Hty Hq Ho Hbefore.
  assert (Hrun : sfor (before ++ bad :: rest) (add_term chi mass t_ref t LM)
                   (zeros (length t) (length LM)) = (data1, Raise ValueError)).
  { rewrite sfor_app, Hbefore. cbn [sfor]. unfold sbind at 1.
    unfold add_term at 1. unfold sbind at 1. unfold slift at 1.
    rewrite Hty. cbn [getitem].
    destruct (String.eqb_spec type "QNM"); [contradiction|].
    destruct (String.eqb_spec type "other"); [contradiction|].
    reflexivity. }
  split.
  - unfold data_functor. cbn [fst snd]. rewrite Hrun. reflexivity.
  - intros buf Hshape Hdt. unfold data_functor. rewrite Hshape, Hdt.
    cbn [fst snd]. rewrite !Nat.eqb_refl. cbn [andb negb orb].
    rewrite Hrun. reflexivity.
Qed.

End SynthProperties.

(** The statement of [invalid_argument_errors] for the label
    [(2, 2, 0, 0)] and for the dictionary [{0: other_22, 1: bogus}] written
    into the buffer [dest_1x5]. *)
Lemma invalid_argument_errors_witness :
  qnm_from_tuple (E := Reference.extern) (2, 2, 0, 0)%Z (7 / 10) 1 (-2)
    = Raise ValueError
  /\
  data_functor (E := Reference.extern) (Scalar (7 / 10)) (Scalar 1) 0 [0]
      (Sf.LM_range 2 2) ([Sample.other_22] ++ Sample.bogus :: []) (Some Sample.dest_1x5)
    = (Some {| shape := (1%nat, 5%nat); dtype_complex := true;
               cells := [[Cx.zero; Cx.zero; Cx.zero; Cx.zero;
                          Cx.add Cx.zero
                            (Cx.mul Cx.one
                               (expiwt_at (Cx.mk (1 / 2) (- (1 / 10))) 0 0))]] |},
       Raise ValueError).
Proof.
  destruct (@invalid_argument_errors Reference.extern) as [Hsign Hterm].
  split.
  - apply Hsign; lia.
  - refine (proj2 (Hterm (Scalar (7 / 10)) (Scalar 1) 0 [0] (Sf.LM_range 2 2)
                         [Sample.other_22] Sample.bogus [] "damped sinusoid"%string
                         _ eq_refl _ _ _) Sample.dest_1x5 eq_refl eq_refl).
    + discriminate.
    + discriminate.
    + py_eval. reflexivity.
Defined.

(** C8 as stated fails: with the dictionary [{0: other_22, 1: bogus}] the
    synthesizer raises ValueError for the second term after it has written
    the first one into the caller's buffer. *)
Lemma dest_written_before_type_error :
  exists buf',
    data_functor (E := Reference.extern) (Scalar (7 / 10)) (Scalar 1) 0 [0]
        (Sf.LM_range 2 2) [Sample.other_22; Sample.bogus] (Some Sample.dest_1x5)
      = (Some buf', Raise ValueError)
    /\ cells buf' <> cells Sample.dest_1x5.
Proof.
  eexists. split; [py_eval; reflexivity|].
  cbn [cells Sample.dest_1x5]. intros H.
  apply (f_equal (fun d => nth 4 (nth 0 d []) Cx.zero)) in H. cbn [nth] in H.
  rewrite add_zero_l, mul_one_l in H.
  now apply cexp_nonzero in H.
Qed.

(** ** The time window of the mismatch scorer *)

Lemma slice_length {X} lo hi (l : list X) :
  length (Np.slice lo hi l) = Nat.min (hi - lo) (length l - lo).
Proof. unfold Np.slice. now rewrite length_firstn, length_skipn. Qed.

Lemma slice_nth_error {X} lo hi (l : list X) i :
  nth_error (Np.slice lo hi l) i =
  if (i <? hi - lo)%nat then nth_error l (lo + i) else None.
Proof.
  unfold Np.slice. destruct (Nat.ltb_spec i (hi - lo)) as [Hi|Hi].
  - rewrite nth_error_firstn.
    destruct (Nat.ltb_spec i (hi - lo)); [|lia].
    now rewrite nth_error_skipn.
  - apply nth_error_None. rewrite length_firstn. lia.
Qed.

Lemma argmin_from_spec l : forall pre bi b,
  nth_error pre bi = Some b ->
  (forall j y, nth_error pre j = Some y -> b <= y) ->
  (forall j y, (j < bi)%nat -> nth_error pre j = Some y -> b < y) ->
  first_min (pre ++ l) (Np.argmin_from bi b (length pre) l).
Proof.
  induction l as [|x l IH]; intros pre bi b Hb Hmin Hfirst.
  - cbn. rewrite app_nil_r. exists b. auto.
  - cbn [Np.argmin_from].
    replace (pre ++ x :: l) with ((pre ++ [x]) ++ l) by now rewrite <- app_assoc.
    replace (S (length pre)) with (length (pre ++ [x]))
      by (rewrite length_app; cbn; lia).
    assert (Hsplit : forall j y, nth_error (pre ++ [x]) j = Some y ->
                       ((j < length pre)%nat /\ nth_error pre j = Some y)
                       \/ (j = length pre /\ y = x)).
    { intros j y Hj. destruct (Nat.lt_ge_cases j (length pre)) as [Hlt|Hge].
      - left. split; [assumption|]. now rewrite nth_error_app1 in Hj.
      - right. rewrite nth_error_app2 in Hj by assumption.
        destruct (j - length pre)%nat as [|k] eqn:Hk; cbn in Hj.
        + split; [lia | congruence].
        + destruct k; discriminate. }
    destruct (Rlt_dec x b) as [Hlt|Hge].
    + apply IH.
      * rewrite nth_error_app2 by lia. now rewrite Nat.sub_diag.
      * intros j y Hj. destruct (Hsplit j y Hj) as [[_ Hy]|[_ ->]]; [|lra].
        specialize (Hmin j y Hy). lra.
      * intros j y Hjlt Hj. destruct (Hsplit j y Hj) as [[_ Hy]|[-> _]]; [|lia].
        specialize (Hmin j y Hy). lra.
    + apply IH.
      * rewrite nth_error_app1; [assumption|].
        apply nth_error_Some. congruence.
      * intros j y Hj. destruct (Hsplit j y Hj) as [[_ Hy]|[_ ->]]; [|lra].
        now apply (Hmin j).
      * intros j y Hjlt Hj. destruct (Hsplit j y Hj) as [[_ Hy]|[-> _]].
        -- now apply (Hfirst j).
        -- assert (bi < length pre)%nat by (apply nth_error_Some; congruence). lia.
Qed.

Lemma argmin_spec x l :
  exists r, Np.argmin (x :: l) = Ok r /\ first_min (x :: l) r.
Proof.
  eexists. split; [reflexivity|].
  apply (@argmin_from_spec l [x] 0%nat x).
  - reflexivity.
  - intros [|[|j]] y Hj; cbn in Hj; try discriminate. injection Hj as ->. lra.
  - intros j y Hj. lia.
Qed.

Lemma first_min_unique l r r' : first_min l r -> first_min l r' -> r = r'.
Proof.
  intros (v & Hv & Hmin & Hfirst) (v' & Hv' & Hmin' & Hfirst').
  destruct (Nat.lt_trichotomy r r') as [H|[H|H]]; [|assumption|].
  - specialize (Hfirst' r v H Hv). specialize (Hmin r' v' Hv'). lra.
  - specialize (Hfirst r' v' H Hv'). specialize (Hmin' r v Hv). lra.
Qed.

Lemma window_ok x ts t1 t2 :
  exists a b,
    window (x :: ts) t1 t2 = Ok (S a, S b)
    /\ first_min (map (fun y => Rabs (y - t1)) (x :: ts)) a
    /\ first_min (map (fun y => Rabs (y - t2)) (x :: ts)) b.
Proof.
  unfold window. cbn [map].
  destruct (argmin_spec (Rabs (x - t1)) (map (fun y => Rabs (y - t1)) ts))
    as (a & Ha & Hfa).
  destruct (argmin_spec (Rabs (x - t2)) (map (fun y => Rabs (y - t2)) ts))
    as (b & Hb & Hfb).
  exists a, b. rewrite Ha. cbn [rbind]. rewrite Hb. cbn [rbind]. auto.
Qed.

Lemma window_lower_positive ts t1 t2 lo hi :
  window ts t1 t2 = Ok (lo, hi) -> ts <> [] /\ (1 <= lo)%nat /\ (1 <= hi)%nat.
Proof.
  destruct ts as [|x ts]; [discriminate|].
  destruct (window_ok x ts t1 t2) as (a & b & Hw & _).
  rewrite Hw. intros H. injection H as <- <-. repeat split; try lia. discriminate.
Qed.

Lemma unit_axis_nth_error n j :
  nth_error (map (fun y => Rabs (y - INR 0)) (unit_axis n)) j =
  if (j <? n)%nat then Some (INR j) else None.
Proof.
  unfold unit_axis. rewrite !nth_error_map.
  destruct (Nat.ltb_spec j n) as [Hj|Hj].
  - rewrite (nth_error_nth' (seq 0 n) 0%nat) by now rewrite length_seq.
    rewrite seq_nth by assumption. cbn. f_equal.
    rewrite Rminus_0_r. apply Rabs_pos_eq. apply pos_INR.
  - rewrite (proj2 (nth_error_None _ _)) by now rewrite length_seq. reflexivity.
Qed.

Lemma unit_axis_nth_error_end n j :
  nth_error (map (fun y => Rabs (y - INR n)) (unit_axis n)) j =
  if (j <? n)%nat then Some (INR n - INR j) else None.
Proof.
  unfold unit_axis. rewrite !nth_error_map.
  destruct (Nat.ltb_spec j n) as [Hj|Hj].
  - rewrite (nth_error_nth' (seq 0 n) 0%nat) by now rewrite length_seq.
    rewrite seq_nth by assumption. cbn. f_equal.
    rewrite Rabs_minus_sym. apply Rabs_pos_eq.
    apply lt_INR in Hj. lra.
  - rewrite (proj2 (nth_error_None _ _)) by now rewrite length_seq. reflexivity.
Qed.

(** On the axis [0, ..., n] with [t1 = 0] and [t2 = n + 1] the window is the
    index range [[1, n + 1)]. *)
Lemma window_unit_axis n :
  window (unit_axis (S n)) (INR 0) (INR (S n)) = Ok (1%nat, S n).
Proof.
  unfold unit_axis at 1. cbn [seq map].
  destruct (window_ok (INR 0) (map INR (seq 1 n)) (INR 0) (INR (S n)))
    as (a & b & Hw & Ha & Hb).
  rewrite Hw. change (INR 0 :: map INR (seq 1 n)) with (unit_axis (S n)) in *.
  assert (a = 0%nat) as ->.
  { apply (first_min_unique Ha). exists (INR 0). repeat split.
    - now rewrite unit_axis_nth_error.
    - intros j y. rewrite unit_axis_nth_error.
      destruct (j <? S n)%nat; [|discriminate].
      intros [= <-]. apply Rge_le, Rle_ge. cbn. apply pos_INR.
    - intros j y Hj. lia. }
  assert (b = n) as ->.
  { apply (first_min_unique Hb). exists (INR (S n) - INR n). repeat split.
    - rewrite unit_axis_nth_error_end.
      destruct (Nat.ltb_spec n (S n)); [reflexivity | lia].
    - intros j y. rewrite unit_axis_nth_error_end.
      destruct (Nat.ltb_spec j (S n)) as [Hj|]; [|discriminate].
      intros Hy. assert (y = INR (S n) - INR j) as -> by congruence.
      assert (INR j <= INR n) by (apply le_INR; lia). lra.
    - intros j y Hj. rewrite unit_axis_nth_error_end.
      destruct (Nat.ltb_spec j (S n)); [|discriminate].
      intros Hy. assert (y = INR (S n) - INR j) as -> by congruence.
      apply lt_INR in Hj. lra. }
  reflexivity.
Qed.

Section ScorerProperties.

Context {E : Extern}.

(** Once the test has chosen the windowing branch, the window of [h_B] is
    strictly shorter than the one of [h_A] it was compared with. *)
Lemma windowed_branch_is_shorter (h_A' h_B : WaveformModes) t1 t2 lo hi :
  resampling_of h_A' h_B = Windowed ->
  window (Scri.t h_B) t1 t2 = Ok (lo, hi) ->
  (length (Scri.t (Scri.time_slice lo hi h_B)) < length (Scri.t h_A'))%nat.
Proof.
  unfold resampling_of. intros Hr Hw.
  destruct (Nat.eqb_spec (length (Scri.t h_A')) (length (Scri.t h_B))) as [Heq|];
    [|discriminate].
  apply window_lower_positive in Hw. destruct Hw as (Hne & Hlo & _).
  cbn [Scri.time_slice Scri.t]. rewrite slice_length, Heq.
  destruct (Scri.t h_B); [contradiction | cbn [length]; lia].
Qed.

(** C5 (what the code does where the claim fails). When the two waveforms
    have the same time axis, cutting [h_B] by its own window would give as
    many samples as the cut [h_A] has; the test of the scorer compares with
    the uncut [h_B] and chooses interpolation. *)
Theorem resampling_test_uses_uncut_B (h_A h_B : WaveformModes)
    (dA dB : Np.matrix) (t1 t2 : R) (lo hi : nat) :
  Scri.t h_A = Scri.t h_B ->
  window (Scri.t h_A) t1 t2 = Ok (lo, hi) ->
  window (Scri.t h_B) t1 t2 = Ok (lo, hi)
  /\ length (Scri.t (Scri.time_slice lo hi (with_data h_B dB)))
     = length (Scri.t (Scri.time_slice lo hi (with_data h_A dA)))
  /\ resampling_of (Scri.time_slice lo hi (with_data h_A dA)) (with_data h_B dB)
     = Interpolated.
Proof.
  intros Ht Hw. split; [now rewrite <- Ht|].
  split; [cbn [Scri.time_slice with_data Scri.t]; now rewrite Ht|].
  apply window_lower_positive in Hw. destruct Hw as (Hne & Hlo & _).
  unfold resampling_of. cbn [Scri.time_slice with_data Scri.t].
  rewrite slice_length, <- Ht.
  destruct (Scri.t h_A) as [|x ts]; [contradiction|]. cbn [length].
  destruct (Nat.eqb_spec (Nat.min (hi - lo) (S (length ts) - lo)) (S (length ts)));
    [lia | reflexivity].
Qed.

End ScorerProperties.

(** The statement of [resampling_test_uses_uncut_B] for two waveforms on
    the axis [0, 1, ..., 99] with the default window [t1 = 0], [t2 = 100]. *)
Lemma resampling_test_uses_uncut_B_witness :
  let h := {| Scri.t := unit_axis 100; Scri.ell_min := 2; Scri.ell_max := 2;
              Scri.data := zeros 100 5; Scri.history := [] |} in
  window (Scri.t h) 0 100 = Ok (1%nat, 100%nat)
  /\ length (Scri.t (Scri.time_slice 1 100 (with_data h (Scri.data h))))
     = length (Scri.t (Scri.time_slice 1 100 (with_data h (Scri.data h))))
  /\ resampling_of (Scri.time_slice 1 100 (with_data h (Scri.data h)))
                   (with_data h (Scri.data h))
     = Interpolated.
Proof.
  intros h.
  assert (Hw : window (Scri.t h) 0 100 = Ok (1%nat, 100%nat)).
  { replace 100 with (INR 100) by (rewrite INR_IZR_INZ; reflexivity).
    apply (window_unit_axis 99). }
  exact (@resampling_test_uses_uncut_B h h (Scri.data h) (Scri.data h)
           0 100 1%nat 100%nat eq_refl Hw).
Defined.

(** ** The enumeration of the modes *)

Lemma LM_range_In lmin lmax l m :
  In (l, m) (Sf.LM_range lmin lmax) <->
  (lmin <= l <= lmax /\ - l <= m <= l)%Z.
Proof.
  unfold Sf.LM_range. rewrite in_flat_map. split.
  - intros (l0 & Hl0 & Hin). apply zrange_In in Hl0.
    apply in_map_iff in Hin. destruct Hin as (m0 & Heq & Hm0).
    injection Heq as <- <-. apply zrange_In in Hm0. lia.
  - intros [Hl Hm]. exists l. split; [apply zrange_In; lia|].
    apply in_map_iff. exists m. split; [reflexivity | apply zrange_In; lia].
Qed.

Lemma zrange_snoc lo hi :
  (lo <= hi)%Z -> Np.zrange lo (hi + 1) = Np.zrange lo hi ++ [hi].
Proof.
  intros H. unfold Np.zrange.
  replace (Z.to_nat (hi + 1 - lo)) with (S (Z.to_nat (hi - lo))) by lia.
  rewrite seq_S, map_app. cbn [map Nat.add]. do 2 f_equal. lia.
Qed.

Lemma LM_range_snoc lmin lmax :
  (lmin <= lmax + 1)%Z ->
  Sf.LM_range lmin (lmax + 1) =
  Sf.LM_range lmin lmax
  ++ map (fun m => ((lmax + 1)%Z, m)) (Np.zrange (- (lmax + 1)) (lmax + 1 + 1)).
Proof.
  intros H. unfold Sf.LM_range.
  rewrite zrange_snoc by assumption. rewrite flat_map_app. cbn [flat_map].
  now rewrite app_nil_r.
Qed.

Lemma LM_range_empty lmin lmax :
  (lmax < lmin)%Z -> Sf.LM_range lmin lmax = [].
Proof.
  intros H. unfold Sf.LM_range, Np.zrange.
  replace (Z.to_nat (lmax + 1 - lmin)) with 0%nat by lia. reflexivity.
Qed.

Lemma LM_range_length_nat lmin (n : nat) :
  (0 <= lmin)%Z ->
  Z.of_nat (length (Sf.LM_range lmin (lmin + Z.of_nat n - 1))) =
  ((lmin + Z.of_nat n) * (lmin + Z.of_nat n) - lmin * lmin)%Z.
Proof.
  intros Hmin. induction n as [|n IH].
  - rewrite LM_range_empty by lia. cbn [length]. lia.
  - replace (lmin + Z.of_nat (S n) - 1)%Z with (lmin + Z.of_nat n - 1 + 1)%Z by lia.
    rewrite LM_range_snoc by lia.
    rewrite length_app, length_map, zrange_length, Nat2Z.inj_add, IH. lia.
Qed.

Lemma LM_range_length lmin lmax :
  (0 <= lmin <= lmax + 1)%Z ->
  Z.of_nat (length (Sf.LM_range lmin lmax)) =
  ((lmax + 1) * (lmax + 1) - lmin * lmin)%Z.
Proof.
  intros H.
  replace lmax with (lmin + Z.of_nat (Z.to_nat (lmax + 1 - lmin)) - 1)%Z at 1 by lia.
  rewrite LM_range_length_nat by lia. f_equal; f_equal; lia.
Qed.

(** The column of a mode of the range is a valid, non-negative index. *)
Lemma LM_index_valid lmin lmax l m :
  (0 <= lmin)%Z -> In (l, m) (Sf.LM_range lmin lmax) ->
  Np.index (length (Sf.LM_range lmin lmax)) (Sf.LM_index l m lmin)
  = Ok (Z.to_nat (Sf.LM_index l m lmin))
  /\ (0 <= Sf.LM_index l m lmin < Z.of_nat (length (Sf.LM_range lmin lmax)))%Z.
Proof.
  intros Hmin Hin. apply LM_range_In in Hin.
  assert (Hb : (0 <= Sf.LM_index l m lmin
                < Z.of_nat (length (Sf.LM_range lmin lmax)))%Z).
  { rewrite LM_range_length by lia. unfold Sf.LM_index. nia. }
  split; [|assumption]. unfold Np.index.
  destruct (Z.leb_spec 0 (Sf.LM_index l m lmin)); [|lia].
  destruct (Z.ltb_spec (Sf.LM_index l m lmin)
              (Z.of_nat (length (Sf.LM_range lmin lmax)))); [reflexivity | lia].
Qed.

Lemma fold_left_min_lower (ls : list Z) : forall a b,
  (a <= b)%Z -> (forall x, In x ls -> a <= x)%Z -> (a <= fold_left Z.min ls b)%Z.
Proof.
  induction ls as [|y ls IH]; intros a b Hab Hall; cbn; [assumption|].
  apply IH; [|intros x Hx; apply Hall; now right].
  specialize (Hall y (or_introl eq_refl)). lia.
Qed.

Lemma fold_left_min_upper (ls : list Z) : forall b,
  (fold_left Z.min ls b <= b)%Z.
Proof.
  induction ls as [|y ls IH]; intros b; cbn; [lia|].
  specialize (IH (Z.min b y)). lia.
Qed.

(** [min(LM[:, 0])] of a non-empty mode range is its [ell_min]. *)
Lemma min_ell_LM_range lmin lmax :
  (0 <= lmin <= lmax)%Z -> min_ell (Sf.LM_range lmin lmax) = Ok lmin.
Proof.
  intros H.
  assert (Hall : forall l m, In (l, m) (Sf.LM_range lmin lmax) -> (lmin <= l)%Z).
  { intros l m Hin. apply LM_range_In in Hin. lia. }
  assert (Hhd : exists rest, Sf.LM_range lmin lmax = (lmin, (- lmin)%Z) :: rest).
  { unfold Sf.LM_range, Np.zrange.
    destruct (Z.to_nat (lmax + 1 - lmin)) as [|n] eqn:Hn; [lia|].
    cbn [seq map flat_map].
    destruct (Z.to_nat (lmin + Z.of_nat 0 + 1 - - (lmin + Z.of_nat 0))) as [|k] eqn:Hk;
      [lia|].
    cbn [seq map app]. eexists. apply f_equal2; [f_equal; lia | reflexivity]. }
  destruct Hhd as (rest & Heq). rewrite Heq in *. cbn [min_ell]. f_equal.
  apply Z.le_antisymm.
  - apply fold_left_min_upper.
  - apply fold_left_min_lower; [lia|].
    intros x Hx. apply in_map_iff in Hx. destruct Hx as ([l m] & <- & Hin).
    apply (Hall l m). now right.
Qed.

(** ** A mode column that the mixing array does not cover *)

Lemma sfor_first_raise {S X} (body : X -> St S unit) (xs : list X) (e : pyerr) :
  (forall x, In x xs -> forall s,
     snd (body x s) = Ok tt \/ snd (body x s) = Raise e) ->
  (exists x, In x xs /\ forall s, snd (body x s) = Raise e) ->
  forall s, snd (sfor xs body s) = Raise e.
Proof.
  induction xs as [|x xs IH]; intros Hall (y & Hy & Hraise) s; [contradiction|].
  cbn [sfor]. unfold sbind.
  destruct (body x s) as [s1 r] eqn:Hb.
  destruct (Hall x (or_introl eq_refl) s) as [Hr|Hr]; rewrite Hb in Hr;
    cbn [snd] in Hr; subst r; [|reflexivity].
  apply IH; [intros; apply Hall; now right|].
  destruct Hy as [<-|Hy].
  - specialize (Hraise s). rewrite Hb in Hraise. discriminate.
  - exists y. auto.
Qed.

Lemma filter_none {X} (f : X -> bool) (l : list X) :
  (forall x, In x l -> f x = false) -> filter f l = [].
Proof.
  induction l as [|x l IH]; intros H; cbn; [reflexivity|].
  rewrite (H x (or_introl eq_refl)). apply IH. intros; apply H; now right.
Qed.

Lemma mask_select_absent Cs ells l :
  length ells = length Cs -> ~ In l ells -> mask_select Cs ells l = Ok [].
Proof.
  intros Hlen Hnot. unfold mask_select. rewrite Hlen, Nat.eqb_refl. f_equal.
  rewrite filter_none; [reflexivity|].
  intros [l0 c] Hin. apply in_combine_l in Hin. cbn [fst].
  destruct (Z.eqb_spec l0 l); [subst; contradiction | reflexivity].
Qed.

Lemma mask_select_present Cs ells l :
  length ells = length Cs -> In l ells ->
  exists c rest, mask_select Cs ells l = Ok (c :: rest).
Proof.
  intros Hlen Hin. unfold mask_select. rewrite Hlen, Nat.eqb_refl.
  revert Cs Hlen. induction ells as [|l0 ells IH]; intros Cs Hlen; [contradiction|].
  destruct Cs as [|c Cs]; [discriminate|]. cbn [combine filter fst].
  destruct (Z.eqb_spec l0 l) as [->|Hne].
  - cbn [map snd]. eauto.
  - destruct Hin as [->|Hin]; [contradiction|].
    apply IH; [assumption|]. now injection Hlen.
Qed.

Lemma sfor_one {S X} (body : X -> St S unit) (x : X) (s : S) :
  sfor [x] body s = body x s.
Proof.
  cbn [sfor]. unfold sbind, sret. destruct (body x s) as [s' [[]|e]]; reflexivity.
Qed.

Section AbsentColumn.

Context {E : Extern}.

(** [qnm_modes] without a destination buffer, in terms of the loop over
    the terms. *)
Lemma qnm_modes_no_dest chi mass terms t_0 t_ref t lmin lmax :
  qnm_modes chi mass terms t_0 t_ref t lmin lmax None =
  (None,
   match sfor terms (add_term chi mass t_ref t (Sf.LM_range lmin lmax))
              (zeros (length t) (length (Sf.LM_range lmin lmax))) with
   | (d, Ok _) =>
       if Scri.increasing t then
         Ok {| Scri.t := t; Scri.ell_min := lmin; Scri.ell_max := lmax;
               Scri.data := d;
               Scri.history := [{| Scri.stmt_t_0 := t_0;
                                   Scri.stmt_t_ref := t_ref |}] |}
       else Raise AssertionError
   | (_, Raise e) => Raise e
   end).
Proof.
  unfold qnm_modes, Scri.modes_constructor, data_functor, sbind, sret.
  cbn [fst snd].
  destruct (sfor terms _ _) as [d [[]|e]]; [|reflexivity].
  cbn [rbind]. destruct (Scri.increasing t); reflexivity.
Qed.

(** The same on a strictly increasing time axis. *)
Lemma qnm_modes_sorted chi mass terms t_0 t_ref t lmin lmax :
  Scri.increasing t = true ->
  qnm_modes chi mass terms t_0 t_ref t lmin lmax None =
  (None,
   match sfor terms (add_term chi mass t_ref t (Sf.LM_range lmin lmax))
              (zeros (length t) (length (Sf.LM_range lmin lmax))) with
   | (d, Ok _) =>
       Ok {| Scri.t := t; Scri.ell_min := lmin; Scri.ell_max := lmax;
             Scri.data := d;
             Scri.history := [{| Scri.stmt_t_0 := t_0; Scri.stmt_t_ref := t_ref |}] |}
   | (_, Raise e) => Raise e
   end).
Proof. intros Ht. now rewrite qnm_modes_no_dest, Ht. Qed.

(** [qnm_modes] on a strictly increasing time axis, with or without a
    destination buffer: the waveform is built from what the functor
    returns. *)
Lemma qnm_modes_increasing chi mass terms t_0 t_ref t lmin lmax dest :
  Scri.increasing t = true ->
  qnm_modes chi mass terms t_0 t_ref t lmin lmax dest =
  sbind (data_functor chi mass t_ref t (Sf.LM_range lmin lmax) terms)
        (fun d => sret {| Scri.t := t; Scri.ell_min := lmin; Scri.ell_max := lmax;
                          Scri.data := d;
                          Scri.history := [{| Scri.stmt_t_0 := t_0;
                                              Scri.stmt_t_ref := t_ref |}] |})
        dest.
Proof.
  intros Ht. unfold qnm_modes, Scri.modes_constructor. now rewrite Ht.
Qed.

(** A synthesis that returns was given a strictly increasing time axis. *)
Lemma qnm_modes_returns_sorted chi mass terms t_0 t_ref t lmin lmax dest h :
  snd (qnm_modes chi mass terms t_0 t_ref t lmin lmax dest) = Ok h ->
  Scri.increasing t = true.
Proof.
  unfold qnm_modes, Scri.modes_constructor, sbind.
  destruct (data_functor _ _ _ _ _ _ _) as [d [m|e]]; [|discriminate].
  destruct (Scri.increasing t); [reflexivity | discriminate].
Qed.

(** A QNM term on the vectorised path, once the adapter has answered. *)
Lemma add_term_qnm_scalar chi mass t_ref t LM tm ell m n sign A w Cs ells :
  ty tm = Some "QNM"%string -> mode tm = Some (ell, m, n, sign) ->
  amp tm = Some A ->
  qnm_from_tuple (ell, m, n, sign) chi mass (-2) = Ok (w, Cs, ells) ->
  add_term (Scalar chi) (Scalar mass) t_ref t LM tm
  = add_qnm_columns LM m A (map (expiwt_at w t_ref) t) Cs ells.
Proof.
  intros Hty Hmode Hamp Hq. unfold add_term. rewrite Hty, Hmode, Hamp.
  cbn [getitem]. unfold sbind, slift. rewrite Hq. reflexivity.
Qed.

Lemma add_qnm_column_outcome lmin lmax m A expiwt Cs ells l m' data :
  (0 <= lmin)%Z -> length ells = length Cs -> expiwt <> [] ->
  In (l, m') (Sf.LM_range lmin lmax) ->
  snd (add_qnm_column (Sf.LM_range lmin lmax) m A expiwt Cs ells (l, m') data) =
  if (m' =? m)%Z && negb (existsb (Z.eqb l) ells) then Raise ValueError else Ok tt.
Proof.
  intros Hmin Hlen Hne Hin. unfold add_qnm_column.
  destruct (Z.eqb_spec m' m) as [->|Hm]; [|reflexivity]. cbn [andb].
  assert (Hrange : (0 <= lmin <= lmax)%Z) by (apply LM_range_In in Hin; lia).
  unfold sbind, slift. rewrite (min_ell_LM_range Hrange).
  rewrite (proj1 (@LM_index_valid _ _ _ _ Hmin Hin)).
  destruct (existsb (Z.eqb l) ells) eqn:Hex; cbn [negb].
  - apply existsb_exists in Hex. destruct Hex as (l0 & Hl0 & Heq).
    apply Z.eqb_eq in Heq. subst l0.
    destruct (mask_select_present Cs ells l Hlen Hl0) as (c & rest & ->).
    reflexivity.
  - rewrite mask_select_absent; [|assumption|].
    + destruct expiwt; [contradiction | reflexivity].
    + intros Hl. assert (existsb (Z.eqb l) ells = true); [|congruence].
      apply existsb_exists. exists l. split; [assumption | apply Z.eqb_refl].
Qed.

Lemma absent_ell_raises_general chi mass t_0 t_ref t0 ts lmin lmax
    ell m n sign A w Cs ells l' :
  (0 <= lmin)%Z ->
  qnm_from_tuple (ell, m, n, sign) chi mass (-2) = Ok (w, Cs, ells) ->
  length ells = length Cs ->
  In (l', m) (Sf.LM_range lmin lmax) -> ~ In l' ells ->
  snd (qnm_modes (Scalar chi) (Scalar mass)
         [{| ty := Some "QNM"%string; mode := Some (ell, m, n, sign);
             amp := Some A; omega := None; target_mode := None |}]
         t_0 t_ref (t0 :: ts) lmin lmax None) = Raise ValueError.
Proof.
  intros Hmin Hq Hlen Hin Hnot.
  rewrite qnm_modes_no_dest. cbn [snd]. rewrite sfor_one.
  erewrite add_term_qnm_scalar;
    [| reflexivity | reflexivity | reflexivity | exact Hq].
  unfold add_qnm_columns.
  match goal with
  | |- context [sfor ?xs ?body ?s] =>
      pose proof (@sfor_first_raise _ _ body xs ValueError) as Hloop;
      specialize (fun H1 H2 => Hloop H1 H2 s);
      destruct (sfor xs body s) as [d r]
  end.
  cbn [snd] in Hloop. rewrite Hloop; [reflexivity| |].
  - intros [l m'] Hlm s.
    rewrite add_qnm_column_outcome by (try assumption; discriminate).
    destruct ((m' =? m)%Z && negb (existsb (Z.eqb l) ells)); auto.
  - exists (l', m). split; [assumption|]. intros s.
    rewrite add_qnm_column_outcome by (try assumption; discriminate).
    rewrite Z.eqb_refl. cbn [andb].
    destruct (existsb (Z.eqb l') ells) eqn:Hex; [|reflexivity].
    apply existsb_exists in Hex. destruct Hex as (l0 & Hl0 & Heq).
    apply Z.eqb_eq in Heq. subst l0. contradiction.
Qed.

End AbsentColumn.

(** C4 (where the code departs from the claim). A QNM term of azimuthal
    number [m] makes the synthesizer raise ValueError as soon as the output
    has a column [(l', m)] whose [l'] is not among the mixing ells and the
    time axis is not empty: the empty selection [C[ells == l']] is not
    turned into a zero contribution.  This happens with the reference oracle
    (mixing ells 2 to 20) for the term (2, 0, 0, +1) on the modes
    [ell_min = 0 .. ell_max = 2]. *)
Theorem qnm_term_absent_ell_raises :
  (forall (E : Extern) chi mass t_0 t_ref t0 ts lmin lmax ell m n sign A w Cs ells l',
     (0 <= lmin)%Z ->
     qnm_from_tuple (ell, m, n, sign) chi mass (-2) = Ok (w, Cs, ells) ->
     length ells = length Cs ->
     In (l', m) (Sf.LM_range lmin lmax) -> ~ In l' ells ->
     snd (qnm_modes (Scalar chi) (Scalar mass)
            [{| ty := Some "QNM"%string; mode := Some (ell, m, n, sign);
                amp := Some A; omega := None; target_mode := None |}]
            t_0 t_ref (t0 :: ts) lmin lmax None) = Raise ValueError)
  /\
  snd (qnm_modes (E := Reference.extern) (Scalar (7 / 10)) (Scalar 1)
         [Sample.qnm_200 (Some Cx.one)] 0 0 [0; 1] 0 2 None) = Raise ValueError.
Proof.
  split; [intros E; apply absent_ell_raises_general|].
  apply (@absent_ell_raises_general Reference.extern (7 / 10) 1 0 0 0 [1]
           0%Z 2%Z 2%Z 0%Z 0%Z 1%Z Cx.one
           (Cx.div_R Reference.Momega0 1)
           (map (fun _ => Cx.one) (Qnm.ells (-2) 0 20)) (Qnm.ells (-2) 0 20) 0%Z).
  - lia.
  - reflexivity.
  - reflexivity.
  - apply LM_range_In. lia.
  - intros H. apply zrange_In in H. lia.
Qed.

(** The statement of [qnm_term_absent_ell_raises] at the term (2, 0, 0, +1)
    with the reference oracle, for the modes (0, 0) to (2, 2). *)
Lemma qnm_term_absent_ell_raises_witness :
  snd (qnm_modes (E := Reference.extern) (Scalar (7 / 10)) (Scalar 1)
         [Sample.qnm_200 (Some Cx.one)] 5 0 [0; 1; 2] 0 2 None) = Raise ValueError.
Proof.
  apply (proj1 qnm_term_absent_ell_raises Reference.extern (7 / 10) 1 5 0 0 [1; 2]
           0%Z 2%Z 2%Z 0%Z 0%Z 1%Z Cx.one
           (Cx.div_R Reference.Momega0 1)
           (map (fun _ => Cx.one) (Qnm.ells (-2) 0 20)) (Qnm.ells (-2) 0 20) 1%Z).
  - lia.
  - reflexivity.
  - reflexivity.
  - vm_compute. tauto.
  - vm_compute. intuition discriminate.
Defined.

(** ** The score of a waveform against itself *)

Lemma diff_length x : length (Np.diff x) = pred (length x).
Proof.
  induction x as [|x0 [|x1 x] IH]; cbn in *; try reflexivity. now rewrite IH.
Qed.

Lemma pairsum_length y : length (Np.pairsum y) = pred (length y).
Proof.
  induction y as [|y0 [|y1 y] IH]; cbn in *; try reflexivity. now rewrite IH.
Qed.

Lemma trapezoid_same_length y x :
  length y = length x -> Np.trapezoid y x = Ok (trapz y x).
Proof.
  intros Hlen. unfold Np.trapezoid, trapz.
  rewrite map2b_same_length by (rewrite diff_length, pairsum_length; congruence).
  reflexivity.
Qed.

Lemma bget_nth {X} (d : X) l i : (i < length l)%nat -> Np.bget d l i = nth i l d.
Proof.
  intros Hi. destruct l as [|x [|y l]]; cbn in *; try reflexivity.
  destruct i; [reflexivity | lia].
Qed.

Lemma re_mul_conj z : Cx.re (Cx.mul z (Cx.conj z)) = Cx.abs2 z.
Proof. destruct z. unfold Cx.mul, Cx.conj, Cx.abs2. cbn. ring. Qed.

Lemma map_seq_nth {X Y} (f : X -> Y) (d : X) (l : list X) :
  map (fun i => f (nth i l d)) (seq 0 (length l)) = map f l.
Proof.
  apply nth_error_ext. intros i. rewrite !nth_error_map.
  destruct (Nat.lt_ge_cases i (length l)) as [Hi|Hi].
  - rewrite (nth_error_nth' (seq 0 (length l)) 0%nat) by now rewrite length_seq.
    rewrite seq_nth by assumption. cbn [option_map Nat.add].
    now rewrite (nth_error_nth' l d) by assumption.
  - rewrite (proj2 (nth_error_None _ _)) by now rewrite length_seq.
    now rewrite (proj2 (nth_error_None _ _)) by assumption.
Qed.

Lemma map_seq_ext {Y} (f g : nat -> Y) n :
  (forall i, (i < n)%nat -> f i = g i) -> map f (seq 0 n) = map g (seq 0 n).
Proof.
  intros H. apply map_ext_in. intros i Hi. apply in_seq in Hi. apply H. lia.
Qed.

(** The overlap integrand of an array with itself is its power. *)
Lemma mul_conj_self (a : Np.matrix) (n : nat) :
  Forall (fun row => length row = n) a ->
  exists prod, mul_conj a a n n = Ok prod
               /\ map (fun row => Np.rsum (map Cx.re row)) prod
                  = map (fun row => Np.rsum (map Cx.abs2 row)) a.
Proof.
  intros Hrows. unfold mul_conj, Np.broadcast_len. rewrite !Nat.eqb_refl.
  cbn [rbind]. eexists. split; [reflexivity|].
  rewrite map_map.
  rewrite <- (map_seq_nth (fun row => Np.rsum (map Cx.abs2 row)) [] a).
  apply map_seq_ext. intros i Hi. f_equal.
  rewrite bget_nth by assumption.
  assert (Hlen : length (nth i a []) = n).
  { rewrite Forall_forall in Hrows. apply Hrows. now apply nth_In. }
  rewrite map_map. rewrite <- Hlen.
  rewrite <- (map_seq_nth Cx.abs2 Cx.zero (nth i a [])).
  apply map_seq_ext. intros j Hj.
  rewrite bget_nth by assumption. apply re_mul_conj.
Qed.

Lemma col_zero_length j d : length (col_zero j d) = length d.
Proof. unfold col_zero. apply length_map. Qed.

Lemma col_zero_rows j d n :
  Forall (fun row => length row = n) d ->
  Forall (fun row => length row = n) (col_zero j d).
Proof.
  intros H. unfold col_zero. apply Forall_map.
  eapply Forall_impl; [|exact H]. cbn. intros row <-.
  rewrite <- (firstn_skipn j row) at 3. rewrite !length_app. f_equal.
  destruct (skipn j row); reflexivity.
Qed.

Lemma masked_data_shape modes h :
  well_shaped h ->
  length (masked_data modes h) = length (Scri.t h)
  /\ Forall (fun row => length row = Scri.n_modes h) (masked_data modes h).
Proof.
  intros [Hlen Hrows]. destruct modes as [ms|]; [|now split]. cbn [masked_data].
  set (xs := filter _ _). clearbody xs.
  revert Hlen Hrows. generalize (Scri.data h) as d.
  induction xs as [|x xs IH]; intros d Hlen Hrows; cbn [fold_left]; [now split|].
  apply IH; [now rewrite col_zero_length | now apply col_zero_rows].
Qed.

Lemma zero_unlisted_steps ms h h_B (xs : list (Z * Z)) :
  Scri.ell_min h_B = Scri.ell_min h -> Scri.ell_max h_B = Scri.ell_max h ->
  (0 <= Scri.ell_min h <= 2)%Z ->
  (forall lm, In lm xs -> In lm (all_modes_from_2 (Scri.ell_max h))) ->
  forall d,
    sfor xs (zero_unlisted_step ms h h_B) (d, d) =
    (let d' := fold_left
                 (fun d lm =>
                    col_zero (Z.to_nat (Sf.LM_index (fst lm) (snd lm) (Scri.ell_min h))) d)
                 (filter (fun lm => negb (mode_in lm ms)) xs) d in
     ((d', d'), Ok tt)).
Proof.
  intros Hmin Hmax Hell. induction xs as [|[L M] xs IH]; intros Hsub d; [reflexivity|].
  cbn [sfor filter]. unfold sbind at 1. unfold zero_unlisted_step at 1.
  destruct (negb (mode_in (L, M) ms)) eqn:Hin.
  - assert (HLM : In (L, M) (Sf.LM_range (Scri.ell_min h) (Scri.ell_max h))).
    { specialize (Hsub (L, M) (or_introl eq_refl)).
      change (all_modes_from_2 (Scri.ell_max h))
        with (Sf.LM_range 2 (Scri.ell_max h)) in Hsub.
      apply LM_range_In in Hsub. apply LM_range_In. lia. }
    unfold sbind, slift. unfold Scri.n_modes, Scri.LM. rewrite Hmin, Hmax.
    rewrite (proj1 (@LM_index_valid _ _ _ _ (proj1 Hell) HLM)).
    cbn [fst snd fold_left].
    apply IH. intros lm Hlm. apply Hsub. now right.
  - unfold sret. apply IH. intros lm Hlm. apply Hsub. now right.
Qed.

Lemma zero_unlisted_same ms h h_B :
  Scri.ell_min h_B = Scri.ell_min h -> Scri.ell_max h_B = Scri.ell_max h ->
  (0 <= Scri.ell_min h <= 2)%Z ->
  zero_unlisted ms h h_B (Scri.data h, Scri.data h) =
  ((masked_data (Some ms) h, masked_data (Some ms) h), Ok tt).
Proof.
  intros Hmin Hmax Hell. unfold zero_unlisted.
  rewrite zero_unlisted_steps by auto. reflexivity.
Qed.

Lemma first_min_lt l r : first_min l r -> (r < length l)%nat.
Proof. intros (v & Hv & _). apply nth_error_Some. congruence. Qed.

Lemma norm_length h : length (Scri.norm h) = length (Scri.data h).
Proof. unfold Scri.norm. apply length_map. Qed.

Lemma slice_Forall {X} (P : X -> Prop) lo hi l :
  Forall P l -> Forall P (Np.slice lo hi l).
Proof.
  intros H. apply Forall_forall. intros x Hx.
  apply In_nth_error in Hx. destruct Hx as (i & Hi).
  rewrite slice_nth_error in Hi.
  destruct (i <? hi - lo)%nat; [|discriminate].
  rewrite Forall_forall in H. apply H. eapply nth_error_In. exact Hi.
Qed.

Lemma trapz_short y x : (length x <= 1)%nat -> trapz y x = 0.
Proof.
  intros H. unfold trapz. destruct x as [|x0 [|x1 x]]; cbn in *; try reflexivity. lia.
Qed.

Section SelfScore.

Context {E : Extern}.
Hypothesis interp_exact : interpolate_exact_at_samples E.

(** The score of two waveforms with the same samples on the same mode
    range, in terms of the power [N] over a window of at least one sample. *)
Lemma mismatch_same_samples_value (h h_B : WaveformModes) modes t1 t2 lo hi :
  Scri.t h_B = Scri.t h -> Scri.data h_B = Scri.data h ->
  Scri.ell_min h_B = Scri.ell_min h -> Scri.ell_max h_B = Scri.ell_max h ->
  StronglySorted Rlt (Scri.t h) ->
  well_shaped h ->
  (modes <> None -> (0 <= Scri.ell_min h <= 2)%Z) ->
  window (Scri.t h) t1 t2 = Ok (lo, hi) -> (lo < hi)%nat ->
  waveform_mismatch h h_B modes t1 t2 =
  Ok (let N := windowed_power h modes t1 t2 in
      match Np.fdiv N (sqrt (N * N)) with
      | None => None
      | Some q => Some (1 - q)
      end).
Proof.
  intros HtB HdB HminB HmaxB Hsorted Hshape Hell Hwin Hab.
  destruct (masked_data_shape modes Hshape) as [Hmlen Hmrows].
  unfold waveform_mismatch.
  assert (Hstep1 :
    match modes with
    | None => Ok (Scri.data h, Scri.data h_B)
    | Some ms =>
        let (st, r) := zero_unlisted ms h h_B (Scri.data h, Scri.data h_B) in
        rbind r (fun _ => Ok st)
    end = Ok (masked_data modes h, masked_data modes h)).
  { rewrite HdB. destruct modes as [ms|]; [|reflexivity].
    rewrite zero_unlisted_same by (try assumption; apply Hell; discriminate).
    reflexivity. }
  rewrite Hstep1. cbn [rbind]. clear Hstep1.
  unfold windowed_power. rewrite HtB.
  destruct (Scri.t h) as [|x ts] eqn:Ht; [discriminate|].
  destruct (window_ok x ts t1 t2) as (a & b & Hw & Ha & Hb).
  rewrite Hw in Hwin. injection Hwin as <- <-.
  rewrite Hw. cbn [rbind].
  set (A := Scri.time_slice (S a) (S b) (with_data h (masked_data modes h))) in *.
  set (B := with_data h_B (masked_data modes h)).
  assert (HtA : Scri.t A = Np.slice (S a) (S b) (x :: ts)).
  { unfold A. cbn [Scri.time_slice with_data Scri.t]. now rewrite Ht. }
  assert (HtB0 : Scri.t B = x :: ts).
  { unfold B. cbn [with_data Scri.t]. now rewrite HtB. }
  assert (Hb_lt : (b < length (x :: ts))%nat).
  { apply first_min_lt in Hb. now rewrite length_map in Hb. }
  assert (Hres : resampling_of A B = Interpolated).
  { unfold resampling_of. rewrite HtA, HtB0. rewrite slice_length.
    destruct (Nat.eqb_spec (Nat.min (S b - S a) (length (x :: ts) - S a))
                (length (x :: ts))); [cbn [length] in *; lia | reflexivity]. }
  rewrite Hres.
  destruct (interp_exact B (lo := S a) (hi := S b))
    as (h' & Hh' & Ht' & Hd' & Hlmin' & Hlmax').
  { now rewrite HtB0. }
  { rewrite HtB0. exact Hmlen. }
  { rewrite HtB0. lia. }
  { rewrite HtB0. lia. }
  rewrite HtB0 in Hh', Ht'.
  cbn [B with_data Scri.data Scri.ell_min Scri.ell_max] in Hd', Hlmin', Hlmax'.
  rewrite HtA, Hh'. cbn [rbind].
  assert (HdA : Scri.data A = Np.slice (S a) (S b) (masked_data modes h))
    by reflexivity.
  assert (Hn' : Scri.n_modes h' = Scri.n_modes A).
  { unfold Scri.n_modes, Scri.LM. rewrite Hlmin', Hlmax', HminB, HmaxB. reflexivity. }
  assert (HnA : Scri.n_modes A = Scri.n_modes h) by reflexivity.
  rewrite Hd', <- HdA, Hn'.
  destruct (@mul_conj_self (Scri.data A) (Scri.n_modes A)) as (prod & Hprod & Hsum).
  { rewrite HdA, HnA. now apply slice_Forall. }
  rewrite Hprod. cbn [rbind]. rewrite Hsum.
  change (map (fun row => Np.rsum (map Cx.abs2 row)) (Scri.data A))
    with (Scri.norm A).
  assert (Hnorm' : Scri.norm h' = Scri.norm A).
  { unfold Scri.norm. now rewrite Hd', <- HdA. }
  rewrite Hnorm', Ht'.
  rewrite trapezoid_same_length.
  2:{ rewrite norm_length, HdA, !slice_length. now rewrite Hmlen. }
  cbn [rbind].
  set (N := trapz (Scri.norm A) (Np.slice (S a) (S b) (x :: ts))) in *.
  unfold fsqrt. destruct (Rlt_dec (N * N) 0) as [Hneg|_]; [nra|].
  reflexivity.
Qed.

Lemma mismatch_same_samples (h h_B : WaveformModes) modes t1 t2 :
  Scri.t h_B = Scri.t h -> Scri.data h_B = Scri.data h ->
  Scri.ell_min h_B = Scri.ell_min h -> Scri.ell_max h_B = Scri.ell_max h ->
  StronglySorted Rlt (Scri.t h) ->
  well_shaped h ->
  (modes <> None -> (0 <= Scri.ell_min h <= 2)%Z) ->
  0 < windowed_power h modes t1 t2 ->
  waveform_mismatch h h_B modes t1 t2 = Ok (Some 0).
Proof.
  intros HtB HdB HminB HmaxB Hsorted Hshape Hell Hpos.
  assert (Hwin : exists lo hi, window (Scri.t h) t1 t2 = Ok (lo, hi) /\ (lo < hi)%nat).
  { unfold windowed_power in Hpos.
    destruct (window (Scri.t h) t1 t2) as [[lo hi]|e]; [|lra].
    exists lo, hi. split; [reflexivity|].
    destruct (Nat.lt_ge_cases lo hi) as [|Hge]; [assumption|].
    rewrite trapz_short in Hpos; [lra|]. rewrite slice_length. lia. }
  destruct Hwin as (lo & hi & Hw & Hlt).
  rewrite (@mismatch_same_samples_value h h_B modes t1 t2 lo hi) by assumption.
  cbv zeta. set (N := windowed_power h modes t1 t2) in *.
  rewrite sqrt_square by lra.
  unfold Np.fdiv. destruct (Req_dec_T N 0) as [Hz|_]; [lra|].
  do 2 f_equal. field. lra.
Qed.

End SelfScore.

(** ** The reference collaborators meet their contracts *)

Lemma find_time_sorted ts : forall k x,
  StronglySorted Rlt ts -> nth_error ts k = Some x ->
  Reference.find_time x ts = Some k.
Proof.
  induction ts as [|y ts IH]; intros k x Hs Hk; [destruct k; discriminate|].
  apply StronglySorted_inv in Hs. destruct Hs as [Hs Hall].
  cbn [Reference.find_time]. destruct k as [|k]; cbn in Hk.
  - injection Hk as ->. destruct (Req_dec_T x x); [reflexivity | contradiction].
  - assert (Hlt : y < x).
    { rewrite Forall_forall in Hall. apply Hall. eapply nth_error_In. exact Hk. }
    destruct (Req_dec_T y x); [lra|].
    now rewrite (IH k x Hs Hk).
Qed.

Lemma reference_interpolate_exact : interpolate_exact_at_samples Reference.extern.
Proof.
  intros h lo hi Hs Hlen Hlohi. cbn [interpolate Reference.extern].
  unfold Reference.interpolate0.
  set (g := fun tau => match Reference.find_time tau (Scri.t h) with
                       | Some j => nth j (Scri.data h) []
                       | None => []
                       end).
  rewrite (@rmap_ok _ _ _ g).
  2:{ intros tau Hin. apply In_nth_error in Hin. destruct Hin as (i & Hi).
      rewrite slice_nth_error in Hi. destruct (i <? hi - lo)%nat; [|discriminate].
      unfold g. now rewrite (find_time_sorted _ Hs Hi). }
  cbn [rbind]. eexists. split; [reflexivity|]. cbn [Scri.t Scri.data Scri.ell_min Scri.ell_max].
  repeat split.
  apply nth_error_ext. intros i. rewrite nth_error_map, !slice_nth_error.
  destruct (Nat.ltb_spec i (hi - lo)) as [Hi|Hi]; [|reflexivity].
  assert (Hk : (lo + i < length (Scri.t h))%nat) by lia.
  rewrite (nth_error_nth' (Scri.t h) 0 Hk). cbn [option_map].
  unfold g. rewrite (find_time_sorted _ Hs (nth_error_nth' (Scri.t h) 0 Hk)).
  symmetry. apply nth_error_nth'. lia.
Qed.

Lemma reference_lstsq_minimizes : lstsq_minimizes Reference.extern.
Proof.
  intros n_cols B y x Hlen Hmin. cbn [lstsq Reference.extern].
  unfold Reference.lstsq0. eexists. split; [reflexivity|].
  apply (epsilon_spec (inhabits (repeat Cx.zero n_cols))
           (fun x' => length x' = n_cols /\
                      forall z, length z = n_cols ->
                                residual_sq B y x' <= residual_sq B y z)).
  exists x. split; assumption.
Qed.

Lemma unit_axis_sorted n : StronglySorted Rlt (unit_axis n).
Proof.
  unfold unit_axis. generalize 0%nat as s.
  induction n as [|n IH]; intros s; cbn [seq map]; constructor; [apply IH|].
  apply Forall_forall. intros x Hx. apply in_map_iff in Hx.
  destruct Hx as (k & <- & Hk). apply in_seq in Hk. apply lt_INR. lia.
Qed.

(** C9 (as the code has it). Over exact arithmetic, with an interpolation
    that returns the samples at the sample times, the score of a waveform
    against itself is zero whenever the power of the waveform over the
    window and the listed modes is positive (the time axis is strictly
    increasing, the data array has the shape of the mode range, and a mode
    list is used on a range that starts at ell 2 or below). *)
Theorem mismatch_self_is_zero (E : Extern) (h : WaveformModes)
    (modes : option (list (Z * Z))) (t1 t2 : R) :
  interpolate_exact_at_samples E ->
  StronglySorted Rlt (Scri.t h) ->
  well_shaped h ->
  (modes <> None -> (0 <= Scri.ell_min h <= 2)%Z) ->
  0 < windowed_power h modes t1 t2 ->
  waveform_mismatch h h modes t1 t2 = Ok (Some 0).
Proof.
  intros Hinterp Hs Hshape Hell Hpos.
  now apply mismatch_same_samples.
Qed.


Lemma steady_well_shaped n : well_shaped (SampleWaves.steady n).
Proof.
  split; cbn [SampleWaves.steady Scri.data Scri.t].
  - unfold unit_axis. now rewrite repeat_length, length_map, length_seq.
  - apply Forall_forall. intros row Hrow. apply repeat_spec in Hrow. now subst.
Qed.

Lemma steady_power_3 :
  windowed_power (SampleWaves.steady 3) None (INR 0) (INR 3) = 1.
Proof.
  unfold windowed_power. cbn [SampleWaves.steady Scri.t].
  rewrite (window_unit_axis 2).
  unfold trapz, Scri.norm, Np.rsum, Cx.abs2. cbn. lra.
Qed.

Lemma steady_power_2 :
  windowed_power (SampleWaves.steady 2) None (INR 0) (INR 2) = 0.
Proof.
  unfold windowed_power. cbn [SampleWaves.steady Scri.t].
  rewrite (window_unit_axis 1). reflexivity.
Qed.

(** The statement of [mismatch_self_is_zero] for three samples of a constant
    (2, 2) mode, scored over the window that keeps the last two. *)
Lemma mismatch_self_is_zero_witness :
  waveform_mismatch (E := Reference.extern) (SampleWaves.steady 3)
    (SampleWaves.steady 3) None (INR 0) (INR 3) = Ok (Some 0).
Proof.
  apply (@mismatch_self_is_zero Reference.extern (SampleWaves.steady 3) None
           (INR 0) (INR 3)).
  - exact reference_interpolate_exact.
  - apply unit_axis_sorted.
  - apply steady_well_shaped.
  - intros H. now contradiction H.
  - rewrite steady_power_3. lra.
Defined.

(** C9 as stated fails: a waveform with the two samples [t = 0, 1] whose
    (2, 2) mode is one, scored against itself over [t1 = 0], [t2 = 2], is
    cut to its single last sample; both integrals are zero and the score is
    [0 / 0], not a number. *)
Lemma mismatch_self_of_two_samples :
  waveform_mismatch (E := Reference.extern) (SampleWaves.steady 2)
    (SampleWaves.steady 2) None (INR 0) (INR 2) = Ok None
  /\ waveform_mismatch (E := Reference.extern) (SampleWaves.steady 2)
       (SampleWaves.steady 2) None (INR 0) (INR 2) <> Ok (Some 0).
Proof.
  assert (H : waveform_mismatch (E := Reference.extern) (SampleWaves.steady 2)
                (SampleWaves.steady 2) None (INR 0) (INR 2) = Ok None);
    [|split; [exact H | rewrite H; discriminate]].
  rewrite (@mismatch_same_samples_value Reference.extern reference_interpolate_exact
             (SampleWaves.steady 2) (SampleWaves.steady 2) None (INR 0) (INR 2)
             1%nat 2%nat); try reflexivity.
  - cbv zeta. rewrite steady_power_2. rewrite Rmult_0_l, sqrt_0.
    unfold Np.fdiv. destruct (Req_dec_T 0 0); [reflexivity | contradiction].
  - apply unit_axis_sorted.
  - apply steady_well_shaped.
  - intros H. now contradiction H.
  - apply (window_unit_axis 1).
  - lia.
Qed.

(** ** What the fitter writes into the caller's dictionary *)

Lemma same_but_amp_refl tm : same_but_amp tm tm.
Proof. repeat split. Qed.

Lemma heap_frame_refl h : heap_frame h h.
Proof. induction h; constructor; [apply same_but_amp_refl | assumption]. Qed.

Lemma heap_frame_trans h1 h2 h3 :
  heap_frame h1 h2 -> heap_frame h2 h3 -> heap_frame h1 h3.
Proof.
  intros H12. revert h3. induction H12 as [|a b h1 h2 Hab _ IH]; intros h3 H23.
  - inversion H23. constructor.
  - inversion H23 as [|b' c h2' h3' Hbc H23']; subst. constructor.
    + destruct Hab as (? & ? & ? & ?), Hbc as (? & ? & ? & ?).
      repeat split; congruence.
    + now apply IH.
Qed.

Lemma heap_frame_update l a h : heap_frame h (update l (set_amp a) h).
Proof.
  revert l. induction h as [|tm h IH]; intros l; [destruct l; constructor|].
  destruct l as [|l]; cbn [update]; constructor;
    try apply same_but_amp_refl; try apply heap_frame_refl; try apply IH.
  repeat split.
Qed.

Lemma frames_sret {A} (a : A) : frames (sret a).
Proof. intros h. apply heap_frame_refl. Qed.

Lemma frames_sraise {A} e : frames (@sraise heap A e).
Proof. intros h. apply heap_frame_refl. Qed.

Lemma frames_slift {A} (r : result A) : frames (slift r).
Proof. intros h. apply heap_frame_refl. Qed.

Lemma frames_read {A} (f : heap -> result A) : frames (fun h => (h, f h)).
Proof. intros h. apply heap_frame_refl. Qed.

Lemma frames_deref l : frames (deref l).
Proof. intros h. apply heap_frame_refl. Qed.

Lemma frames_store_amp l a : frames (store_amp l a).
Proof. intros h. apply heap_frame_update. Qed.

Lemma frames_sbind {A B} (c : St heap A) (k : A -> St heap B) :
  frames c -> (forall a, frames (k a)) -> frames (sbind c k).
Proof.
  intros Hc Hk h. unfold sbind. specialize (Hc h).
  destruct (c h) as [h1 [a|e]]; cbn [fst] in *; [|assumption].
  eapply heap_frame_trans; [exact Hc | apply Hk].
Qed.

Lemma frames_sfor {X} (xs : list X) (body : X -> St heap unit) :
  (forall x, frames (body x)) -> frames (sfor xs body).
Proof.
  intros Hb. induction xs as [|x xs IH]; cbn [sfor]; [apply frames_sret|].
  apply frames_sbind; [apply Hb | intros _; apply IH].
Qed.

Lemma sbind_ok {S A B} (c : St S A) (k : A -> St S B) s r :
  snd (sbind c k s) = Ok r ->
  exists a s1, c s = (s1, Ok a) /\ snd (k a s1) = Ok r.
Proof.
  unfold sbind. destruct (c s) as [s1 [a|e]]; [eauto | discriminate].
Qed.

Ltac frames_step :=
  repeat first
    [ apply frames_sbind; [|intros ?]
    | apply frames_sret | apply frames_sraise | apply frames_slift
    | apply frames_deref | apply frames_store_amp | apply frames_read
    | match goal with
      | |- frames (match ?x with _ => _ end) => destruct x
      | |- frames (if ?b then _ else _) => destruct b
      | |- frames (let '(_, _) := ?p in _) => destruct p
      end ].

Section Frame.

Context {E : Extern}.

Lemma frames_term_m l : frames (term_m l).
Proof. unfold term_m. frames_step. Qed.

Lemma frames_collect_m ls : forall acc, frames (collect_m ls acc).
Proof.
  induction ls as [|l ls IH]; intros acc; cbn [collect_m]; [apply frames_sret|].
  apply frames_sbind; [apply frames_term_m | intros m; apply IH].
Qed.

Lemma frames_mode_labels m ls : forall i, frames (mode_labels m i ls).
Proof.
  induction ls as [|l ls IH]; intros i; cbn [mode_labels]; [apply frames_sret|].
  apply frames_sbind; [apply frames_term_m | intros m'].
  apply frames_sbind; [apply IH | intros rest; apply frames_sret].
Qed.

Lemma frames_basis_block chi_f M_f times t_ref h_trunc idx n_ell l :
  frames (basis_block times chi_f M_f t_ref h_trunc idx n_ell l).
Proof. unfold basis_block. frames_step. Qed.

Lemma frames_basis_blocks chi_f M_f times t_ref h_trunc idx n_ell labels :
  frames (basis_blocks times chi_f M_f t_ref h_trunc idx n_ell labels).
Proof.
  induction labels as [|[i l] labels IH]; cbn [basis_blocks]; [apply frames_sret|].
  apply frames_sbind; [apply frames_basis_block | intros blk].
  apply frames_sbind; [apply IH | intros rest; apply frames_sret].
Qed.

Lemma frames_write_back fixed_QNMs labels x : forall count,
  frames (write_back fixed_QNMs labels x count).
Proof.
  induction labels as [|[i l] labels IH]; intros count; cbn [write_back];
    [apply frames_sret|].
  apply frames_sbind; [apply frames_slift | intros a].
  apply frames_sbind; [apply frames_slift | intros l'].
  apply frames_sbind; [apply frames_store_amp | intros _; apply IH].
Qed.

Lemma frames_fit_block h_ring modes times chi_f M_f fixed_QNMs t_ref m :
  frames (fit_block h_ring modes times chi_f M_f fixed_QNMs t_ref m).
Proof.
  unfold fit_block.
  apply frames_sbind; [apply frames_mode_labels | intros labels].
  apply frames_sbind; [apply frames_slift | intros [[idx lmin] lmax]].
  destruct (_ <? 0)%Z; [apply frames_sraise|].
  apply frames_sbind; [apply frames_slift | intros h_trunc].
  apply frames_sbind; [apply frames_slift | intros A].
  apply frames_sbind; [apply frames_basis_blocks | intros blocks].
  apply frames_sbind; [apply frames_slift | intros A_flat].
  apply frames_sbind; [apply frames_slift | intros x].
  apply frames_write_back.
Qed.

Lemma frames_fit h_ring modes times chi_f M_f fixed_QNMs t_ref :
  frames (fit_ringdown_waveform_LLSQ_S2 h_ring modes times chi_f M_f
            fixed_QNMs t_ref).
Proof.
  unfold fit_ringdown_waveform_LLSQ_S2.
  apply frames_sbind; [apply frames_collect_m | intros m_list].
  apply frames_sbind; [apply frames_sfor; intros m; apply frames_fit_block | intros _].
  apply frames_sbind; [apply frames_read | intros terms].
  apply frames_sbind; [apply frames_slift | intros h_QNM].
  destruct (residual _ _ _ _) as [diff r].
  frames_step.
Qed.

Lemma fit_returns_its_arguments h_ring modes times chi_f M_f fixed_QNMs t_ref h res :
  snd (fit_ringdown_waveform_LLSQ_S2 h_ring modes times chi_f M_f
         fixed_QNMs t_ref h) = Ok res ->
  fit_fixed_QNMs res = fixed_QNMs /\ fit_h_ring res = h_ring.
Proof.
  unfold fit_ringdown_waveform_LLSQ_S2. intros H.
  apply sbind_ok in H. destruct H as (m_list & h1 & _ & H).
  apply sbind_ok in H. destruct H as (_u & h2 & _ & H).
  apply sbind_ok in H. destruct H as (terms & h3 & _ & H).
  apply sbind_ok in H. destruct H as (h_QNM & h4 & _ & H).
  destruct (residual _ _ _ _) as [diff r].
  apply sbind_ok in H. destruct H as (_u1 & h5 & _ & H).
  apply sbind_ok in H. destruct H as (num & h6 & _ & H).
  apply sbind_ok in H. destruct H as (den & h7 & _ & H).
  apply sbind_ok in H. destruct H as (mm & h8 & _ & H).
  cbn in H. injection H as <-. split; reflexivity.
Qed.

End Frame.

(** C2 (as the code has it). The fitter makes no copy of the dictionary: it
    returns the dictionary it was given, and of the term objects that the
    dictionary refers to it writes the field ['A'] in place; the type, the
    mode, the frequency and the target mode of every term object are the
    same before and after the call, whether it returns or raises. *)
Theorem fit_writes_amplitudes_in_place (E : Extern) h_ring modes times chi_f M_f
    fixed_QNMs t_ref (h : heap) :
  heap_frame h (fst (fit_ringdown_waveform_LLSQ_S2 h_ring modes times chi_f M_f
                       fixed_QNMs t_ref h))
  /\ match snd (fit_ringdown_waveform_LLSQ_S2 h_ring modes times chi_f M_f
                  fixed_QNMs t_ref h) with
     | Ok res => fit_fixed_QNMs res = fixed_QNMs
     | Raise _ => True
     end.
Proof.
  split; [apply frames_fit|].
  destruct (snd _) as [res|e] eqn:Hres; [|exact I].
  now apply fit_returns_its_arguments in Hres.
Qed.

(** ** Complex arithmetic *)

Ltac cx_ring :=
  intros;
  repeat match goal with z : C |- _ => destruct z end;
  unfold Cx.add, Cx.sub, Cx.mul, Cx.neg, Cx.conj, Cx.scale, Cx.zero, Cx.one,
         Cx.of_R, Cx.abs2;
  cbn [Cx.re Cx.im]; try (f_equal; ring).

Lemma cadd_comm a b : Cx.add a b = Cx.add b a.
Proof. cx_ring. Qed.

Lemma cadd_assoc a b c : Cx.add a (Cx.add b c) = Cx.add (Cx.add a b) c.
Proof. cx_ring. Qed.

Lemma cmul_comm a b : Cx.mul a b = Cx.mul b a.
Proof. cx_ring. Qed.

Lemma cmul_assoc a b c : Cx.mul a (Cx.mul b c) = Cx.mul (Cx.mul a b) c.
Proof. cx_ring. Qed.

Lemma cmul_add_distr_l a b c :
  Cx.mul a (Cx.add b c) = Cx.add (Cx.mul a b) (Cx.mul a c).
Proof. cx_ring. Qed.

Lemma cmul_zero_r a : Cx.mul a Cx.zero = Cx.zero.
Proof. cx_ring. Qed.

Lemma cmul_zero_l a : Cx.mul Cx.zero a = Cx.zero.
Proof. cx_ring. Qed.

Lemma csub_diag a : Cx.sub a a = Cx.zero.
Proof. cx_ring. Qed.

Lemma cscale_zero a : Cx.scale 0 a = Cx.zero.
Proof. cx_ring. Qed.

Lemma abs2_nonneg a : 0 <= Cx.abs2 a.
Proof. destruct a. unfold Cx.abs2. cbn. nra. Qed.

Lemma abs2_zero : Cx.abs2 Cx.zero = 0.
Proof. unfold Cx.abs2, Cx.zero. cbn. ring. Qed.

Lemma abs2_eq_0 a : Cx.abs2 a = 0 -> a = Cx.zero.
Proof.
  destruct a as [x y]. unfold Cx.abs2, Cx.zero. cbn. intros H.
  assert (x = 0) by nra. assert (y = 0) by nra. now subst.
Qed.

Lemma csub_eq_zero a b : Cx.sub a b = Cx.zero -> a = b.
Proof.
  destruct a, b. unfold Cx.sub, Cx.zero. cbn. intros [= H1 H2].
  f_equal; lra.
Qed.

Lemma cmul_cancel_l b x y : b <> Cx.zero -> Cx.mul b x = Cx.mul b y -> x = y.
Proof.
  destruct b as [b1 b2], x as [x1 x2], y as [y1 y2].
  unfold Cx.mul, Cx.zero. cbn. intros Hb [= H1 H2].
  assert (Hn : b1 * b1 + b2 * b2 <> 0).
  { intros Hz. apply Hb. assert (b1 = 0) by nra. assert (b2 = 0) by nra. now subst. }
  assert (E1 : (b1 * b1 + b2 * b2) * (x1 - y1) = 0).
  { replace ((b1 * b1 + b2 * b2) * (x1 - y1))
      with (b1 * ((b1 * x1 - b2 * x2) - (b1 * y1 - b2 * y2))
            + b2 * ((b1 * x2 + b2 * x1) - (b1 * y2 + b2 * y1))) by ring.
    rewrite H1, H2. ring. }
  assert (E2 : (b1 * b1 + b2 * b2) * (x2 - y2) = 0).
  { replace ((b1 * b1 + b2 * b2) * (x2 - y2))
      with (b1 * ((b1 * x2 + b2 * x1) - (b1 * y2 + b2 * y1))
            - b2 * ((b1 * x1 - b2 * x2) - (b1 * y1 - b2 * y2))) by ring.
    rewrite H1, H2. ring. }
  apply Rmult_integral in E1, E2.
  f_equal; [destruct E1 | destruct E2]; lra.
Qed.

(** ** Arrays by their entries *)

Lemma has_shape_zeros T N : has_shape T N (zeros T N).
Proof.
  unfold zeros. split; [apply repeat_length|].
  apply Forall_forall. intros row Hrow. apply repeat_spec in Hrow. subst.
  apply repeat_length.
Qed.

Lemma nth_repeat_default {X} (x : X) n i : nth i (repeat x n) x = x.
Proof.
  revert i. induction n as [|n IH]; intros [|i]; cbn; auto.
Qed.

Lemma entry_zeros T N i k : entry (zeros T N) i k = Cx.zero.
Proof.
  unfold entry, zeros.
  destruct (Nat.lt_ge_cases i T) as [Hi|Hi].
  - rewrite (nth_indep _ [] (repeat Cx.zero N)) by now rewrite repeat_length.
    rewrite nth_repeat_default. apply nth_repeat_default.
  - rewrite (nth_overflow (repeat (repeat Cx.zero N) T) [])
      by now rewrite repeat_length.
    now destruct k.
Qed.

Lemma matrix_ext T N d d' :
  has_shape T N d -> has_shape T N d' ->
  (forall i k, (i < T)%nat -> (k < N)%nat -> entry d i k = entry d' i k) ->
  d = d'.
Proof.
  intros [Hl Hr] [Hl' Hr'] Hent.
  apply (nth_ext d d' [] []); [congruence|].
  intros i Hi. rewrite Hl in Hi.
  assert (Hrow : length (nth i d []) = N).
  { rewrite Forall_forall in Hr. apply Hr, nth_In. lia. }
  assert (Hrow' : length (nth i d' []) = N).
  { rewrite Forall_forall in Hr'. apply Hr', nth_In. lia. }
  apply (nth_ext _ _ Cx.zero Cx.zero); [congruence|].
  intros k Hk. apply Hent; [assumption | lia].
Qed.

Lemma row_add_at_length j x (row : list C) :
  length (firstn j row ++ match skipn j row with
                           | [] => []
                           | y :: rest => Cx.add y x :: rest
                           end) = length row.
Proof.
  rewrite <- (firstn_skipn j row) at 3. rewrite !length_app. f_equal.
  destruct (skipn j row); reflexivity.
Qed.

Lemma row_add_at_nth j x (row : list C) k :
  nth k (firstn j row ++ match skipn j row with
                          | [] => []
                          | y :: rest => Cx.add y x :: rest
                          end) Cx.zero =
  if (k =? j)%nat && (j <? length row)%nat then Cx.add (nth k row Cx.zero) x
  else nth k row Cx.zero.
Proof.
  destruct (Nat.ltb_spec j (length row)) as [Hj|Hj].
  - rewrite andb_true_r.
    assert (Hf : length (firstn j row) = j) by (rewrite length_firstn; lia).
    destruct (Nat.lt_trichotomy k j) as [Hk|[->|Hk]].
    + destruct (Nat.eqb_spec k j); [lia|].
      rewrite app_nth1 by lia. rewrite nth_firstn.
      destruct (Nat.ltb_spec k j); [reflexivity | lia].
    + rewrite Nat.eqb_refl. rewrite app_nth2 by lia. rewrite Hf, Nat.sub_diag.
      rewrite <- (firstn_skipn j row) at 2.
      rewrite app_nth2 by lia. rewrite Hf, Nat.sub_diag.
      destruct (skipn j row) as [|y rest] eqn:Hs; [|reflexivity].
      apply (f_equal (@length C)) in Hs. rewrite length_skipn in Hs. cbn in Hs. lia.
    + destruct (Nat.eqb_spec k j); [lia|].
      rewrite app_nth2 by lia. rewrite Hf.
      rewrite <- (firstn_skipn j row) at 2.
      rewrite app_nth2 by lia. rewrite Hf.
      destruct (skipn j row) as [|y rest] eqn:Hs.
      * reflexivity.
      * destruct (k - j)%nat as [|q] eqn:Hq; [lia | reflexivity].
  - rewrite andb_false_r. rewrite skipn_all2 by assumption.
    rewrite app_nil_r, firstn_all2 by assumption. reflexivity.
Qed.

Lemma col_add_shape T N j v d :
  has_shape T N d -> has_shape T N (col_add j v d).
Proof.
  intros [Hl Hr]. subst T. revert v.
  induction d as [|row d IH]; intros v;
    [destruct v; split; [reflexivity | constructor | reflexivity | constructor]|].
  destruct v as [|x v]; cbn [col_add]; [now split|].
  apply Forall_cons_iff in Hr. destruct Hr as [Hrow Hr].
  destruct (IH Hr v) as [Hl' Hr']. split.
  - cbn [length]. now rewrite Hl'.
  - constructor; [now rewrite row_add_at_length | assumption].
Qed.

Lemma entry_col_add T N j v d i k :
  has_shape T N d -> length v = T ->
  entry (col_add j v d) i k =
  if (k =? j)%nat && (j <? N)%nat && (i <? T)%nat
  then Cx.add (entry d i k) (nth i v Cx.zero) else entry d i k.
Proof.
  intros [Hl Hr] Hv. subst T. revert v Hv i.
  induction d as [|row d IH]; intros v Hv i.
  - cbn [length]. destruct (i <? 0)%nat eqn:Hi; [apply Nat.ltb_lt in Hi; lia|].
    rewrite andb_false_r. destruct v; reflexivity.
  - destruct v as [|x v]; [discriminate|]. cbn [col_add].
    apply Forall_cons_iff in Hr. destruct Hr as [Hrow Hr].
    destruct i as [|i].
    + unfold entry. cbn [nth length]. rewrite row_add_at_nth, Hrow.
      rewrite andb_true_r. reflexivity.
    + unfold entry in *. cbn [nth length].
      rewrite (IH Hr v) by (cbn in Hv; lia).
      replace (S i <? S (length d))%nat with (i <? length d)%nat; [reflexivity|].
      destruct (Nat.ltb_spec i (length d)), (Nat.ltb_spec (S i) (S (length d)));
        try reflexivity; lia.
Qed.

(** ** The synthesizer is linear in the amplitudes *)

Lemma index_ok_lt n z j : Np.index n z = Ok j -> (j < n)%nat.
Proof.
  unfold Np.index.
  destruct (Z.leb_spec 0 z).
  - destruct (Z.ltb_spec z (Z.of_nat n)); [|discriminate]. intros [= <-]. lia.
  - destruct (Z.leb_spec (- Z.of_nat n) z); [|discriminate]. intros [= <-]. lia.
Qed.

Lemma nth_map_in {X Y} (f : X -> Y) (l : list X) (i : nat) (dx : X) (dy : Y) :
  (i < length l)%nat -> nth i (map f l) dy = f (nth i l dx).
Proof.
  intros Hi. rewrite (nth_indep _ dy (f dx)) by now rewrite length_map.
  apply map_nth.
Qed.

Lemma column_result_indep LM m A A' expiwt Cs ells lm d d' :
  snd (add_qnm_column LM m A expiwt Cs ells lm d)
  = snd (add_qnm_column LM m A' expiwt Cs ells lm d').
Proof.
  unfold add_qnm_column. destruct lm as [l m'].
  destruct (m' =? m)%Z; [|reflexivity].
  unfold sbind, slift.
  destruct (mask_select Cs ells l) as [[|c cl]|e]; [| |reflexivity];
    (destruct (min_ell LM) as [lmin|e]; [|reflexivity]);
    (destruct (Np.index _ _) as [j|e]; [|reflexivity]); try reflexivity.
  destruct (length expiwt =? 0)%nat; reflexivity.
Qed.

Lemma column_affine LM m A expiwt Cs ells lm d :
  has_shape (length expiwt) (length LM) d ->
  snd (add_qnm_column LM m A expiwt Cs ells lm d) = Ok tt ->
  has_shape (length expiwt) (length LM)
    (fst (add_qnm_column LM m A expiwt Cs ells lm d))
  /\ forall i k,
       entry (fst (add_qnm_column LM m A expiwt Cs ells lm d)) i k
       = Cx.add (entry d i k)
           (Cx.mul A (qnm_column_response LM m expiwt Cs ells lm i k)).
Proof.
  intros Hshape. unfold add_qnm_column, qnm_column_response.
  destruct lm as [l m'].
  destruct (m' =? m)%Z.
  2:{ intros _. split; [assumption|]. intros. cbn [fst sret].
      now rewrite cmul_zero_r, add_zero_r. }
  unfold sbind, slift.
  destruct (mask_select Cs ells l) as [[|c cl]|e]; [| |discriminate];
    (destruct (min_ell LM) as [lmin|e]; [|discriminate]);
    (destruct (Np.index _ _) as [j|e] eqn:Hj; [|discriminate]).
  - destruct (length expiwt =? 0)%nat; [|discriminate].
    intros _. split; [assumption|]. intros. cbn [fst sret].
    now rewrite cmul_zero_r, add_zero_r.
  - intros _. cbn [fst]. split; [now apply col_add_shape|].
    intros i k.
    rewrite (@entry_col_add (length expiwt) (length LM)) by
      (try assumption; now rewrite length_map).
    apply index_ok_lt in Hj.
    destruct (Nat.ltb_spec j (length LM)); [|lia]. rewrite andb_true_r.
    destruct ((k =? j)%nat && (i <? length expiwt)%nat) eqn:Hki.
    + f_equal. apply andb_true_iff in Hki. destruct Hki as [_ Hi].
      apply Nat.ltb_lt in Hi.
      rewrite (nth_map_in _ _ Cx.zero) by assumption.
      now rewrite cmul_assoc.
    + now rewrite cmul_zero_r, add_zero_r.
Qed.

Lemma loop_result_indep LM m A A' expiwt Cs ells xs : forall d d',
  has_shape (length expiwt) (length LM) d ->
  snd (sfor xs (add_qnm_column LM m A expiwt Cs ells) d)
  = snd (sfor xs (add_qnm_column LM m A' expiwt Cs ells) d').
Proof.
  induction xs as [|x xs IH]; intros d d' Hd; [reflexivity|].
  cbn [sfor]. unfold sbind.
  pose proof (column_result_indep LM m A A' expiwt Cs ells x d d') as Hx.
  destruct (add_qnm_column LM m A expiwt Cs ells x d) as [d1 r1] eqn:H1.
  destruct (add_qnm_column LM m A' expiwt Cs ells x d') as [d1' r1'] eqn:H1'.
  cbn [snd] in Hx. subst r1'. destruct r1 as [[]|e]; [|reflexivity].
  apply IH.
  pose proof (@column_affine LM m A expiwt Cs ells x d Hd) as Haff.
  rewrite H1 in Haff. now apply Haff.
Qed.

Lemma loop_affine LM m A expiwt Cs ells xs : forall d,
  has_shape (length expiwt) (length LM) d ->
  snd (sfor xs (add_qnm_column LM m A expiwt Cs ells) d) = Ok tt ->
  has_shape (length expiwt) (length LM)
    (fst (sfor xs (add_qnm_column LM m A expiwt Cs ells) d))
  /\ forall i k,
       entry (fst (sfor xs (add_qnm_column LM m A expiwt Cs ells) d)) i k
       = Cx.add (entry d i k)
           (Cx.mul A (qnm_response LM m expiwt Cs ells xs i k)).
Proof.
  induction xs as [|x xs IH]; intros d Hd Hok.
  - cbn [sfor sret fst]. split; [assumption|]. intros.
    unfold qnm_response. cbn [map Np.csum fold_right].
    now rewrite cmul_zero_r, add_zero_r.
  - cbn [sfor] in *. unfold sbind in *.
    pose proof (@column_affine LM m A expiwt Cs ells x d Hd) as Haff.
    destruct (add_qnm_column LM m A expiwt Cs ells x d) as [d1 [[]|e]];
      [|discriminate].
    destruct (Haff eq_refl) as [Hd1 Hent1]. cbn [fst] in Hd1, Hent1.
    destruct (IH d1 Hd1 Hok) as [Hd2 Hent2]. split; [assumption|].
    intros i k. rewrite Hent2, Hent1.
    unfold qnm_response. cbn [map Np.csum fold_right].
    rewrite cmul_add_distr_l. now rewrite cadd_assoc.
Qed.

Section TermLinearity.

Context {E : Extern}.
Variables (chi mass t_ref : R) (t : list R) (LM : list (Z * Z)).

Let T := length t.
Let N := length LM.
Let run := add_term (Scalar chi) (Scalar mass) t_ref t LM.

Lemma add_term_qnm_cases tm A :
  ty tm = Some "QNM"%string -> amp tm = Some A ->
  run tm =
  match mode tm with
  | None => sraise KeyError
  | Some (ell, m, n, sign) =>
      match qnm_from_tuple (ell, m, n, sign) chi mass (-2) with
      | Ok (w, Cs, ells) =>
          add_qnm_columns LM m A (map (expiwt_at w t_ref) t) Cs ells
      | Raise e => sraise e
      end
  end.
Proof.
  intros Hty Hamp. unfold run, add_term. rewrite Hty, Hamp.
  destruct (mode tm) as [[[[ell m] n] sign]|]; [|reflexivity].
  cbn [getitem]. unfold sbind, slift.
  cbn [String.eqb Ascii.eqb Bool.eqb].
  destruct (qnm_from_tuple (ell, m, n, sign) chi mass (-2)) as [[[w Cs] ells]|e];
    reflexivity.
Qed.

Lemma term_affine tm A d :
  ty tm = Some "QNM"%string -> amp tm = Some A ->
  has_shape T N d -> snd (run tm d) = Ok tt ->
  has_shape T N (fst (run tm d))
  /\ forall i k,
       entry (fst (run tm d)) i k
       = Cx.add (entry d i k) (Cx.mul A (term_response chi mass t_ref t LM tm i k)).
Proof.
  intros Hty Hamp Hd. rewrite (add_term_qnm_cases _ Hty Hamp).
  unfold term_response.
  destruct (mode tm) as [[[[ell m] n] sign]|]; [|discriminate].
  destruct (qnm_from_tuple (ell, m, n, sign) chi mass (-2)) as [[[w Cs] ells]|e];
    [|discriminate].
  unfold add_qnm_columns. intros Hok.
  pose proof (@loop_affine LM m A (map (expiwt_at w t_ref) t) Cs ells LM d) as H.
  rewrite length_map in H. exact (H Hd Hok).
Qed.

Lemma term_result_indep tm tm' A A' d d' :
  ty tm = Some "QNM"%string -> ty tm' = Some "QNM"%string ->
  mode tm = mode tm' -> amp tm = Some A -> amp tm' = Some A' ->
  has_shape T N d ->
  snd (run tm d) = snd (run tm' d').
Proof.
  intros Hty Hty' Hmode Hamp Hamp' Hd.
  rewrite (add_term_qnm_cases _ Hty Hamp), (add_term_qnm_cases _ Hty' Hamp').
  rewrite <- Hmode.
  destruct (mode tm) as [[[[ell m] n] sign]|]; [|reflexivity].
  destruct (qnm_from_tuple (ell, m, n, sign) chi mass (-2)) as [[[w Cs] ells]|e];
    [|reflexivity].
  unfold add_qnm_columns.
  apply loop_result_indep. now rewrite length_map.
Qed.

Lemma synth_affine terms : forall d,
  Forall qnm_with_amp terms ->
  has_shape T N d -> snd (sfor terms run d) = Ok tt ->
  has_shape T N (fst (sfor terms run d))
  /\ (forall i k, entry (fst (sfor terms run d)) i k
                  = Cx.add (entry d i k)
                      (total_response chi mass t_ref t LM terms i k))
  /\ Forall (fun tm => forall d', has_shape T N d' -> snd (run tm d') = Ok tt) terms.
Proof.
  induction terms as [|tm terms IH]; intros d Hq Hd Hok.
  - cbn [sfor sret fst]. repeat split; [apply Hd | apply Hd | | constructor].
    intros. unfold total_response. cbn. now rewrite add_zero_r.
  - apply Forall_cons_iff in Hq. destruct Hq as [[Hty [a Ha]] Hq].
    cbn [sfor] in *. unfold sbind in *.
    pose proof (@term_affine tm a d Hty Ha Hd) as Haff.
    destruct (run tm d) as [d1 [[]|e]] eqn:Hrun; [|discriminate].
    destruct (Haff eq_refl) as [Hd1 Hent1]. cbn [fst] in Hd1, Hent1.
    destruct (IH d1 Hq Hd1 Hok) as (Hd2 & Hent2 & Hall).
    split; [assumption|]. split.
    + intros i k. rewrite Hent2, Hent1. unfold total_response.
      cbn [map Np.csum fold_right]. unfold amp_or_zero at 2. rewrite Ha.
      now rewrite cadd_assoc.
    + constructor; [|assumption]. intros d' Hd'.
      rewrite (@term_result_indep tm tm a a d' d Hty Hty eq_refl Ha Ha Hd').
      now rewrite Hrun.
Qed.

End TermLinearity.

(** ** Least squares on a system whose rows are explained or empty *)

Lemma dot_zero_row row x :
  Forall (fun c => c = Cx.zero) row -> dot row x = Cx.zero.
Proof.
  intros H. revert x. induction H as [|c row -> _ IH]; intros x; [reflexivity|].
  destruct x as [|x0 x]; [reflexivity|].
  unfold dot in *. cbn [combine map Np.csum fold_right fst snd].
  change (fold_right Cx.add Cx.zero ?l) with (Np.csum l).
  rewrite IH. now rewrite cmul_zero_l, add_zero_l.
Qed.

Lemma residual_sq_cons row B y_r y x :
  residual_sq (row :: B) (y_r :: y) x
  = Cx.abs2 (Cx.sub (dot row x) y_r) + residual_sq B y x.
Proof. reflexivity. Qed.

Lemma residual_sq_nil_l y x : residual_sq [] y x = 0.
Proof. reflexivity. Qed.

Lemma explained_term_le a row y_r z :
  row_explained a row y_r ->
  Cx.abs2 (Cx.sub (dot row a) y_r) <= Cx.abs2 (Cx.sub (dot row z) y_r).
Proof.
  intros [->|Hz].
  - rewrite csub_diag, abs2_zero. apply abs2_nonneg.
  - rewrite !(dot_zero_row _ Hz). lra.
Qed.

Lemma ls_minimum a B y :
  Forall2 (row_explained a) B y ->
  forall z, residual_sq B y a <= residual_sq B y z.
Proof.
  induction 1 as [|row y_r B y Hrow _ IH]; intros z.
  - rewrite !residual_sq_nil_l. lra.
  - rewrite !residual_sq_cons.
    pose proof (explained_term_le z Hrow). specialize (IH z). lra.
Qed.

Lemma ls_minimizer_image a B y :
  Forall2 (row_explained a) B y ->
  forall x', residual_sq B y x' <= residual_sq B y a ->
             matvec B x' = matvec B a.
Proof.
  induction 1 as [|row y_r B y Hrow Hrest IH]; intros x' Hle; [reflexivity|].
  rewrite !residual_sq_cons in Hle.
  pose proof (explained_term_le x' Hrow) as Hterm.
  pose proof (ls_minimum Hrest x') as Htail.
  cbn [matvec map]. f_equal.
  - destruct Hrow as [->|Hz].
    + rewrite csub_diag, abs2_zero in Hle, Hterm.
      pose proof (abs2_nonneg (Cx.sub (dot row x') (dot row a))).
      apply csub_eq_zero, abs2_eq_0. lra.
    + now rewrite !(dot_zero_row _ Hz).
  - apply IH. lra.
Qed.

(** ** Flattened arrays *)

Lemma concat_uniform_length {X} (M : list (list X)) W :
  Forall (fun row => length row = W) M -> length (concat M) = (length M * W)%nat.
Proof.
  induction 1 as [|row M Hrow _ IH]; [reflexivity|].
  cbn [concat length]. rewrite length_app, IH, Hrow. lia.
Qed.

Lemma nth_concat_uniform {X} (d : X) (M : list (list X)) W :
  Forall (fun row => length row = W) M ->
  forall r, (r < length M * W)%nat ->
    nth r (concat M) d = nth (r mod W) (nth (r / W) M []) d.
Proof.
  induction 1 as [|row M Hrow _ IH]; intros r Hr; [cbn in Hr; lia|].
  assert (HW : (0 < W)%nat) by (destruct W; [lia | lia]).
  cbn [concat]. destruct (Nat.lt_ge_cases r W) as [Hlt|Hge].
  - rewrite app_nth1 by lia.
    rewrite Nat.div_small, Nat.mod_small by assumption. reflexivity.
  - rewrite app_nth2 by lia. rewrite Hrow.
    rewrite IH by (cbn [length] in Hr; nia).
    replace r with ((r - W) + 1 * W)%nat at 3 4 by lia.
    rewrite Nat.div_add, Nat.Div0.mod_add by lia.
    replace ((r - W) / W + 1)%nat with (S ((r - W) / W)) by lia.
    reflexivity.
Qed.

Lemma Forall2_nth_intro {X Y} (P : X -> Y -> Prop) (dx : X) (dy : Y) l1 l2 :
  length l1 = length l2 ->
  (forall r, (r < length l1)%nat -> P (nth r l1 dx) (nth r l2 dy)) ->
  Forall2 P l1 l2.
Proof.
  revert l2. induction l1 as [|x l1 IH]; intros [|y l2] Hlen H; try discriminate.
  - constructor.
  - constructor.
    + apply (H 0%nat). cbn. lia.
    + apply IH; [cbn in Hlen; lia|].
      intros r Hr. apply (H (S r)). cbn. lia.
Qed.

Lemma csum_filter {X} (f : X -> bool) (g : X -> C) (l : list X) :
  (forall x, In x l -> f x = false -> g x = Cx.zero) ->
  Np.csum (map g l) = Np.csum (map g (filter f l)).
Proof.
  induction l as [|x l IH]; intros H; [reflexivity|].
  cbn [map filter Np.csum fold_right].
  change (fold_right Cx.add Cx.zero ?l) with (Np.csum l).
  rewrite IH by (intros; apply H; [now right | assumption]).
  destruct (f x) eqn:Hf.
  - reflexivity.
  - rewrite (H x (or_introl eq_refl) Hf). apply add_zero_l.
Qed.

Lemma csum_all_zero (l : list C) :
  Forall (fun c => c = Cx.zero) l -> Np.csum l = Cx.zero.
Proof.
  induction 1 as [|c l -> _ IH]; [reflexivity|].
  cbn [Np.csum fold_right]. change (fold_right Cx.add Cx.zero l) with (Np.csum l).
  rewrite IH. apply add_zero_l.
Qed.

Lemma dot_map {X} (f : X -> C) (a : X -> C) (l : list X) :
  dot (map f l) (map a l) = Np.csum (map (fun x => Cx.mul (f x) (a x)) l).
Proof.
  unfold dot, Np.csum. induction l as [|x l IH]; [reflexivity|].
  cbn [combine map fold_right fst snd]. now rewrite IH.
Qed.

(** ** Where a QNM term writes *)

Lemma qnm_response_support LM m expiwt Cs ells xs i k :
  qnm_response LM m expiwt Cs ells xs i k <> Cx.zero ->
  exists l lmin, In (l, m) xs /\ min_ell LM = Ok lmin
                 /\ Np.index (length LM) (Sf.LM_index l m lmin) = Ok k
                 /\ (i < length expiwt)%nat.
Proof.
  unfold qnm_response. induction xs as [|[l m'] xs IH]; intros Hne.
  - now contradiction Hne.
  - cbn [map Np.csum fold_right] in Hne.
    change (fold_right Cx.add Cx.zero ?l) with (Np.csum l) in Hne.
    destruct (Classical_Prop.classic
                (qnm_column_response LM m expiwt Cs ells (l, m') i k = Cx.zero))
      as [Hz|Hnz].
    + rewrite Hz, add_zero_l in Hne.
      destruct (IH Hne) as (l0 & lmin & Hin & Hmin & Hidx & Hi).
      exists l0, lmin. repeat split; [now right | assumption | assumption | assumption].
    + unfold qnm_column_response in Hnz.
      destruct (Z.eqb_spec m' m) as [->|]; [|now contradiction Hnz].
      destruct (mask_select Cs ells l) as [[|c cl]|e]; try now contradiction Hnz.
      destruct (min_ell LM) as [lmin|e]; [|now contradiction Hnz].
      destruct (Np.index _ _) as [j|e] eqn:Hj; [|now contradiction Hnz].
      destruct (Nat.eqb_spec k j) as [->|]; [|now contradiction Hnz].
      destruct (Nat.ltb_spec i (length expiwt)); [|now contradiction Hnz].
      exists l, lmin. repeat split; [now left | assumption | assumption].
Qed.

Lemma LM_index_inj l m l' m' e :
  (- l <= m <= l)%Z -> (- l' <= m' <= l')%Z -> (0 <= l)%Z -> (0 <= l')%Z ->
  Sf.LM_index l m e = Sf.LM_index l' m' e -> l = l' /\ m = m'.
Proof.
  unfold Sf.LM_index. intros Hm Hm' Hl Hl' Heq.
  assert (l = l') by nia. subst. split; [reflexivity | lia].
Qed.

Section BlockSystem.

Context {E : Extern}.
Variables (chi mass t_ref : R) (t : list R) (L : Z).
Hypothesis HL : (2 <= L)%Z.

Let LM := Sf.LM_range 2 L.
Let T := length t.
Let N := length LM.
Let run := add_term (Scalar chi) (Scalar mass) t_ref t LM.

Lemma N_value : Z.of_nat N = ((L + 1) * (L + 1) - 4)%Z.
Proof. unfold N, LM. rewrite LM_range_length by lia. lia. Qed.

Lemma term_response_set_amp a tm i k :
  term_response chi mass t_ref t LM (set_amp a tm) i k
  = term_response chi mass t_ref t LM tm i k.
Proof. reflexivity. Qed.

Lemma term_response_support tm i k :
  term_response chi mass t_ref t LM tm i k <> Cx.zero ->
  exists l, In (l, m_of tm) LM /\ k = Z.to_nat (Sf.LM_index l (m_of tm) 2)
            /\ (0 <= Sf.LM_index l (m_of tm) 2 < Z.of_nat N)%Z
            /\ (i < T)%nat.
Proof.
  unfold term_response, m_of.
  destruct (mode tm) as [[[[ell m] n] sign]|]; [|intros H; now contradiction H].
  destruct (qnm_from_tuple _ _ _ _) as [[[w Cs] ells]|e];
    [|intros H; now contradiction H].
  intros Hne. apply qnm_response_support in Hne.
  destruct Hne as (l & lmin & Hin & Hmin & Hidx & Hi).
  unfold LM in Hmin. rewrite min_ell_LM_range in Hmin by lia.
  injection Hmin as <-.
  destruct (@LM_index_valid 2 L l m ltac:(lia) Hin) as [Hv Hb].
  fold LM in Hv, Hb. fold N in Hb. rewrite Hv in Hidx. injection Hidx as <-.
  rewrite length_map in Hi.
  exists l. auto.
Qed.

Variable terms0 : list term.
Hypothesis Hq : Forall qnm_with_amp terms0.
Variable D : Np.matrix.
Hypothesis Hsynth : sfor terms0 run (zeros T N) = (D, Ok tt).

Lemma target_facts :
  has_shape T N D
  /\ (forall i k, entry D i k = total_response chi mass t_ref t LM terms0 i k)
  /\ Forall (fun tm => forall d', has_shape T N d' -> snd (run tm d') = Ok tt) terms0.
Proof.
  pose proof (@synth_affine E chi mass t_ref t LM terms0 (zeros T N) Hq
                (has_shape_zeros T N)) as H.
  fold run in H. rewrite Hsynth in H. cbn [fst snd] in H.
  destruct (H eq_refl) as (Hs & Hent & Hall). repeat split; try apply Hs.
  - intros i k. rewrite Hent, entry_zeros. apply add_zero_l.
  - exact Hall.
Qed.

Lemma unit_run_ok tm a d :
  In tm terms0 -> has_shape T N d -> snd (run (set_amp a tm) d) = Ok tt.
Proof.
  intros Hin Hd. destruct target_facts as (_ & _ & Hall).
  rewrite Forall_forall in Hall.
  destruct (proj1 (Forall_forall _ _) Hq tm Hin) as [Hty [a0 Ha0]].
  rewrite <- (Hall tm Hin d Hd).
  apply (@term_result_indep E chi mass t_ref t LM (set_amp a tm) tm a a0 d d);
    try assumption; reflexivity.
Qed.

Lemma unit_data_facts tm :
  In tm terms0 ->
  has_shape T N (unit_data (Scalar chi) (Scalar mass) t_ref t LM tm)
  /\ forall i k, entry (unit_data (Scalar chi) (Scalar mass) t_ref t LM tm) i k
                 = term_response chi mass t_ref t LM tm i k.
Proof.
  intros Hin. unfold unit_data. fold T N LM run.
  destruct (proj1 (Forall_forall _ _) Hq tm Hin) as [Hty _].
  destruct (@term_affine E chi mass t_ref t LM (set_amp Cx.one tm) Cx.one
              (zeros T N) Hty eq_refl (has_shape_zeros T N)
              (@unit_run_ok tm Cx.one (zeros T N) Hin (has_shape_zeros T N)))
    as [Hs Hent].
  split; [exact Hs|]. intros i k. fold run in Hent. rewrite Hent.
  rewrite entry_zeros, add_zero_l, mul_one_l. apply term_response_set_amp.
Qed.

(** *** The system of one azimuthal number *)

Variable m : Z.
Hypothesis Hm : (- L <= m <= L)%Z.

Let ls := Np.zrange 2 (L + 1).
Let idx := map (fun l => Sf.LM_index l m 2) ls.
Let js := map (col_of L m) ls.
Let W := length ls.
Let sel (d : Np.matrix) : Np.matrix :=
  map (fun row => map (fun j => nth j row Cx.zero) js) d.
Let tms := block_terms m terms0.
Let a_m := map amp_or_zero tms.
Let y := concat (sel D).
Let B := reshape_design (T * W)
           (map (fun tm => sel (unit_data (Scalar chi) (Scalar mass) t_ref t LM tm)) tms).

Lemma col_of_ok l :
  In l ls -> Np.index N (Sf.LM_index l m 2) = Ok (col_of L m l).
Proof.
  intros Hl. apply zrange_In in Hl. unfold col_of. fold LM N.
  pose proof N_value as HN. unfold Np.index, Sf.LM_index.
  destruct (Z.leb_spec 0 (l * (l + 1) - 2 * 2 + m)).
  - destruct (Z.ltb_spec (l * (l + 1) - 2 * 2 + m) (Z.of_nat N)); [reflexivity | nia].
  - destruct (Z.leb_spec (- Z.of_nat N) (l * (l + 1) - 2 * 2 + m)); [reflexivity | nia].
Qed.

Lemma idx_valid : rmap (Np.index N) idx = Ok js.
Proof.
  unfold idx, js. rewrite rmap_map. apply rmap_ok.
  intros l Hl. now apply (@col_of_ok l).
Qed.

Lemma select_cols_idx d : select_cols N idx d = Ok (sel d).
Proof. unfold select_cols. now rewrite idx_valid. Qed.

Lemma col_of_proper l :
  In l ls -> (Z.abs m <= l)%Z ->
  In (l, m) LM /\ col_of L m l = Z.to_nat (Sf.LM_index l m 2)
  /\ (0 <= Sf.LM_index l m 2)%Z.
Proof.
  intros Hl Hml. pose proof Hl as Hl'. apply zrange_In in Hl'.
  assert (Hin : In (l, m) LM) by (apply LM_range_In; lia).
  destruct (@LM_index_valid 2 L l m ltac:(lia) Hin) as [Hv Hb].
  split; [assumption|]. split; [|lia].
  pose proof (@col_of_ok l Hl) as Hc. unfold N, LM in Hc. rewrite Hv in Hc.
  now injection Hc.
Qed.

Lemma proper_column tm l i :
  In l ls -> (Z.abs m <= l)%Z -> m_of tm <> m ->
  term_response chi mass t_ref t LM tm i (col_of L m l) = Cx.zero.
Proof.
  intros Hl Hml Hne.
  destruct (Classical_Prop.classic
              (term_response chi mass t_ref t LM tm i (col_of L m l) = Cx.zero))
    as [Hz|Hnz]; [assumption|].
  exfalso. apply term_response_support in Hnz.
  destruct Hnz as (l' & Hin' & Hk & Hb' & _).
  destruct (@col_of_proper l Hl Hml) as (Hin & Hc & Hb).
  rewrite Hc in Hk. apply Z2Nat.inj in Hk; [|lia|lia].
  apply LM_range_In in Hin, Hin'.
  apply LM_index_inj in Hk; [|lia|lia|lia|lia].
  destruct Hk as [_ Hk]. congruence.
Qed.

Lemma aliased_column tm l i :
  In l ls -> (l < Z.abs m)%Z -> m_of tm = m ->
  term_response chi mass t_ref t LM tm i (col_of L m l) = Cx.zero.
Proof.
  intros Hl Hml Heq.
  destruct (Classical_Prop.classic
              (term_response chi mass t_ref t LM tm i (col_of L m l) = Cx.zero))
    as [Hz|Hnz]; [assumption|].
  exfalso. apply term_response_support in Hnz.
  destruct Hnz as (l' & Hin' & Hk & Hb' & _).
  rewrite Heq in *. apply LM_range_In in Hin'.
  pose proof (@col_of_ok l Hl) as Hc. apply zrange_In in Hl.
  pose proof N_value as HN.
  unfold Np.index in Hc. unfold Sf.LM_index in *.
  destruct (Z.leb_spec 0 (l * (l + 1) - 2 * 2 + m)).
  - destruct (Z.ltb_spec (l * (l + 1) - 2 * 2 + m) (Z.of_nat N)); [|discriminate].
    injection Hc as Hc. rewrite <- Hc in Hk. apply Z2Nat.inj in Hk; nia.
  - destruct (Z.leb_spec (- Z.of_nat N) (l * (l + 1) - 2 * 2 + m)); [|discriminate].
    injection Hc as Hc. rewrite <- Hc in Hk. apply Z2Nat.inj in Hk; nia.
Qed.

Lemma W_eq : length js = W /\ length idx = W.
Proof. unfold js, idx, W. now rewrite !length_map. Qed.

Lemma sel_shape d : length (sel d) = length d
                    /\ Forall (fun row => length row = W) (sel d).
Proof.
  unfold sel. split; [apply length_map|].
  apply Forall_map, Forall_forall. intros row _. rewrite length_map. apply W_eq.
Qed.

Lemma entry_sel d i p :
  (i < length d)%nat -> (p < W)%nat ->
  nth p (nth i (sel d) []) Cx.zero = entry d i (col_of L m (nth p ls 0%Z)).
Proof.
  intros Hi Hp. unfold sel, entry.
  rewrite (nth_map_in _ _ (@nil C)) by assumption.
  rewrite (nth_map_in _ _ 0%nat) by (now rewrite (proj1 W_eq)).
  unfold js. now rewrite (nth_map_in _ _ 0%Z) by assumption.
Qed.

Lemma flat_entry d r :
  length d = T -> (r < T * W)%nat ->
  nth r (concat (sel d)) Cx.zero
  = entry d (r / W) (col_of L m (nth (r mod W) ls 0%Z))
  /\ (r / W < T)%nat /\ (r mod W < W)%nat.
Proof.
  intros Hd Hr.
  assert (HW : (0 < W)%nat) by (destruct W; lia).
  assert (Hi : (r / W < T)%nat) by (apply Nat.Div0.div_lt_upper_bound; lia).
  assert (Hp : (r mod W < W)%nat) by (apply Nat.mod_upper_bound; lia).
  destruct (sel_shape d) as [Hlen Hrows].
  rewrite (nth_concat_uniform Cx.zero Hrows) by (rewrite Hlen, Hd; lia).
  rewrite entry_sel by (try assumption; lia). auto.
Qed.

Lemma system_rows : Forall2 (row_explained a_m) B y.
Proof.
  destruct target_facts as (HsD & HentD & _).
  assert (HlenB : length B = (T * W)%nat).
  { unfold B, reshape_design. now rewrite length_map, length_seq. }
  assert (Hleny : length y = (T * W)%nat).
  { unfold y. destruct (sel_shape D) as [Hlen Hrows].
    rewrite (concat_uniform_length Hrows), Hlen. now rewrite (proj1 HsD). }
  apply (Forall2_nth_intro _ [] Cx.zero); [congruence|].
  intros r Hr. rewrite HlenB in Hr.
  destruct (@flat_entry D r (proj1 HsD) Hr) as (Hy & Hi & Hp).
  unfold y. rewrite Hy.
  set (i := (r / W)%nat) in *. set (l := nth (r mod W) ls 0%Z) in *.
  assert (Hl : In l ls) by (apply nth_In; exact Hp).
  assert (Hrow : nth r B [] =
                 map (fun tm => term_response chi mass t_ref t LM tm i (col_of L m l)) tms).
  { unfold B, reshape_design.
    rewrite (nth_map_in _ _ 0%nat) by now rewrite length_seq.
    rewrite seq_nth by assumption. cbn [Nat.add]. rewrite map_map.
    apply map_ext_in. intros tm Htm.
    assert (Hin : In tm terms0) by (apply filter_In in Htm; tauto).
    destruct (@unit_data_facts tm Hin) as [Hsu Hentu].
    destruct (@flat_entry (unit_data (Scalar chi) (Scalar mass) t_ref t LM tm) r (proj1 Hsu) Hr)
      as (Hu & _ & _).
    rewrite Hu. apply Hentu. }
  rewrite Hrow, HentD.
  destruct (Z_le_gt_dec (Z.abs m) l) as [Hml|Hml].
  - left. unfold a_m. rewrite dot_map. unfold total_response.
    rewrite (csum_filter (fun tm => (m_of tm =? m)%Z)).
    + fold (block_terms m terms0). fold tms. f_equal.
      apply map_ext. intros tm. apply cmul_comm.
    + intros tm _ Hf. apply Z.eqb_neq in Hf.
      rewrite (@proper_column tm l i Hl Hml Hf). apply cmul_zero_r.
  - right. apply Forall_map, Forall_forall. intros tm Htm.
    apply filter_In in Htm. destruct Htm as [_ Htm]. apply Z.eqb_eq in Htm.
    apply aliased_column; [assumption | lia | assumption].
Qed.

Lemma system_injective x' :
  independent_units (Scalar chi) (Scalar mass) t_ref t LM tms ->
  length x' = length tms ->
  matvec B x' = matvec B a_m -> x' = a_m.
Proof.
  intros Hind Hlen Hmv. apply Hind; [assumption | unfold a_m; apply length_map|].
  intros i k. unfold combination.
  destruct (Classical_Prop.classic
              (exists l, In l ls /\ (Z.abs m <= l)%Z /\ k = col_of L m l
                         /\ (i < T)%nat)) as [(l & Hl & Hml & -> & Hi)|Hno].
  - destruct (In_nth ls l 0%Z Hl) as (p & Hp & Hnth). fold W in Hp.
    set (r := (i * W + p)%nat).
    assert (Hr : (r < T * W)%nat) by (unfold r; nia).
    assert (Hdiv : (r / W = i)%nat).
    { unfold r. rewrite Nat.div_add_l by lia. rewrite Nat.div_small by lia. lia. }
    assert (Hmod : (r mod W = p)%nat).
    { unfold r. rewrite Nat.add_comm, Nat.Div0.mod_add. now apply Nat.mod_small. }
    assert (Hrow : nth r B [] =
                   map (fun tm => entry (unit_data (Scalar chi) (Scalar mass) t_ref t LM tm) i
                                    (col_of L m l)) tms).
    { unfold B, reshape_design.
      rewrite (nth_map_in _ _ 0%nat) by now rewrite length_seq.
      rewrite seq_nth by assumption. cbn [Nat.add]. rewrite map_map.
      apply map_ext_in. intros tm Htm.
      assert (Hin : In tm terms0) by (apply filter_In in Htm; tauto).
      destruct (@unit_data_facts tm Hin) as [Hsu Hentu].
      destruct (@flat_entry (unit_data (Scalar chi) (Scalar mass) t_ref t LM tm) r (proj1 Hsu) Hr)
        as (Hu & _ & _).
      rewrite Hu, Hdiv, Hmod, Hnth. reflexivity. }
    apply (f_equal (fun v => nth r v Cx.zero)) in Hmv.
    unfold matvec in Hmv.
    assert (HlenB : (r < length B)%nat).
    { unfold B, reshape_design. now rewrite length_map, length_seq. }
    rewrite !(nth_map_in _ _ (@nil C)) in Hmv by assumption.
    now rewrite Hrow in Hmv.
  - assert (Hz : Forall (fun c => c = Cx.zero)
                   (map (fun tm => entry (unit_data (Scalar chi) (Scalar mass) t_ref t LM tm) i k) tms)).
    { apply Forall_map, Forall_forall. intros tm Htm.
      apply filter_In in Htm. destruct Htm as [Hin Hmt]. apply Z.eqb_eq in Hmt.
      rewrite (proj2 (@unit_data_facts tm Hin)).
      destruct (Classical_Prop.classic
                  (term_response chi mass t_ref t LM tm i k = Cx.zero))
        as [Hz|Hnz]; [assumption|].
      exfalso. apply Hno. apply term_response_support in Hnz.
      destruct Hnz as (l' & Hin' & Hk & Hb' & Hi). rewrite Hmt in *.
      apply LM_range_In in Hin'.
      assert (Hl' : In l' ls) by (apply zrange_In; lia).
      exists l'. repeat split; [assumption | lia | | assumption].
      rewrite Hk. symmetry. apply (@col_of_proper l' Hl'). lia. }
    now rewrite !(dot_zero_row _ Hz).
Qed.

Lemma block_solution :
  lstsq_minimizes E ->
  independent_units (Scalar chi) (Scalar mass) t_ref t LM tms ->
  lstsq (length tms) B y = Ok a_m.
Proof.
  intros Hls Hind.
  assert (Hlen : length a_m = length tms) by (unfold a_m; apply length_map).
  destruct (Hls (length tms) B y a_m Hlen) as (x' & Hx' & Hlen' & Hmin).
  { intros z _. apply (ls_minimum system_rows). }
  rewrite Hx'. f_equal. apply system_injective; [assumption | assumption|].
  apply (ls_minimizer_image system_rows). now apply Hmin.
Qed.

End BlockSystem.

(** ** The heap of term objects during the fit *)

Lemma nth_error_update {X} (f : X -> X) (h : list X) : forall l i,
  nth_error (update l f h) i =
  if (i =? l)%nat then option_map f (nth_error h i) else nth_error h i.
Proof.
  induction h as [|x h IH]; intros l i.
  - destruct l, i; cbn; try reflexivity; now destruct (i =? l)%nat.
  - destruct l as [|l], i as [|i]; cbn [update nth_error Nat.eqb option_map];
      try reflexivity.
    apply IH.
Qed.

Lemma update_length {X} (f : X -> X) (h : list X) : forall l,
  length (update l f h) = length h.
Proof.
  induction h as [|x h IH]; intros [|l]; cbn; try reflexivity. now rewrite IH.
Qed.

Lemma set_amp_frame a tm0 tm' :
  same_but_amp tm0 tm' -> set_amp a tm' = set_amp a tm0.
Proof.
  intros (H1 & H2 & H3 & H4). unfold set_amp. now rewrite H1, H2, H3, H4.
Qed.

Lemma same_amp_eq tm0 tm' :
  same_but_amp tm0 tm' -> amp tm' = amp tm0 -> tm' = tm0.
Proof.
  intros (H1 & H2 & H3 & H4) H5. destruct tm0, tm'. cbn in *. congruence.
Qed.

Lemma heap_frame_nth terms0 h i tm0 :
  heap_frame terms0 h -> nth_error terms0 i = Some tm0 ->
  exists tm', nth_error h i = Some tm' /\ same_but_amp tm0 tm'.
Proof.
  intros Hf. revert i. induction Hf as [|a b l l' Hab _ IH]; intros i Hi.
  - destruct i; discriminate.
  - destruct i as [|i]; cbn in *.
    + injection Hi as <-. eauto.
    + now apply IH.
Qed.

Lemma distinct_after_In ms : forall acc m,
  In m (distinct_after acc ms) <-> In m acc \/ In m ms.
Proof.
  induction ms as [|m0 ms IH]; intros acc m; cbn [distinct_after fold_left].
  - cbn [In]. tauto.
  - fold (distinct_after (if existsb (Z.eqb m0) acc then acc else acc ++ [m0]) ms).
    rewrite IH. destruct (existsb (Z.eqb m0) acc) eqn:Hex.
    + apply existsb_exists in Hex. destruct Hex as (m1 & Hm1 & Heq).
      apply Z.eqb_eq in Heq. subst m1. cbn [In]. intuition (subst; auto).
    + rewrite in_app_iff. cbn [In]. intuition (subst; auto).
Qed.

Section HeapReads.

Variables (terms0 : list term).
Hypothesis Hmodes : Forall (fun tm => exists label, mode tm = Some label) terms0.

Lemma term_m_frame h i :
  heap_frame terms0 h -> (i < length terms0)%nat ->
  term_m i h = (h, Ok (m_of (nth i terms0 no_term))).
Proof.
  intros Hf Hi.
  pose proof (nth_error_nth' terms0 no_term Hi) as Hnth.
  destruct (@heap_frame_nth terms0 h i _ Hf Hnth) as (tm' & Htm' & Hsame).
  unfold term_m, sbind, deref. rewrite Htm'.
  destruct Hsame as (_ & Hmode & _). rewrite <- Hmode.
  rewrite Forall_forall in Hmodes.
  destruct (Hmodes (nth i terms0 no_term)) as ([[[ell m] n] sign] & Hlabel);
    [now apply nth_In|].
  unfold m_of. rewrite Hlabel. reflexivity.
Qed.

Lemma collect_m_seq h k : forall i0 acc,
  heap_frame terms0 h -> (i0 + k <= length terms0)%nat ->
  collect_m (seq i0 k) acc h
  = (h, Ok (distinct_after acc
              (map (fun i => m_of (nth i terms0 no_term)) (seq i0 k)))).
Proof.
  induction k as [|k IH]; intros i0 acc Hf Hk; [reflexivity|].
  cbn [seq collect_m map]. unfold sbind.
  rewrite term_m_frame by (try assumption; lia).
  rewrite IH by (try assumption; lia). reflexivity.
Qed.

Lemma mode_labels_seq m h k : forall i0,
  heap_frame terms0 h -> (i0 + k <= length terms0)%nat ->
  mode_labels m i0 (seq i0 k) h
  = (h, Ok (map (fun i => (i, i)) (positions_of m terms0 i0 k))).
Proof.
  induction k as [|k IH]; intros i0 Hf Hk; [reflexivity|].
  cbn [seq mode_labels]. unfold sbind.
  rewrite term_m_frame by (try assumption; lia).
  rewrite IH by (try assumption; lia). unfold sret, positions_of.
  cbn [seq filter]. now destruct (_ =? m)%Z.
Qed.

End HeapReads.

Lemma map_nth_positions (f : term -> bool) (terms : list term) :
  map (fun i => nth i terms no_term)
      (filter (fun i => f (nth i terms no_term)) (seq 0 (length terms)))
  = filter f terms.
Proof.
  induction terms as [|tm terms IH] using rev_ind; [reflexivity|].
  rewrite length_app. cbn [length]. rewrite Nat.add_1_r, seq_S.
  rewrite !filter_app, map_app. cbn [Nat.add]. f_equal.
  - rewrite <- IH.
    rewrite (filter_ext_in (fun i => f (nth i (terms ++ [tm]) no_term))
               (fun i => f (nth i terms no_term))).
    + apply map_ext_in. intros i Hi. apply filter_In in Hi.
      destruct Hi as [Hi _]. apply in_seq in Hi. now rewrite app_nth1 by lia.
    + intros i Hi. apply in_seq in Hi. now rewrite app_nth1 by lia.
  - cbn [filter]. rewrite app_nth2 by lia. rewrite Nat.sub_diag. cbn [nth].
    destruct (f tm); cbn [map]; [|reflexivity].
    rewrite app_nth2 by lia. now rewrite Nat.sub_diag.
Qed.

(** ** Writing the amplitudes back *)

Lemma dict_get_positional_from k : forall s i,
  (s <= i < s + k)%nat ->
  dict_get (map (fun j => (KInt (Z.of_nat j), j)) (seq s k)) (KInt (Z.of_nat i))
  = Ok i.
Proof.
  induction k as [|k IH]; intros s i Hi; [lia|].
  cbn [seq map dict_get key_eqb].
  destruct (Z.eqb_spec (Z.of_nat s) (Z.of_nat i)) as [Heq|Hne].
  - f_equal. lia.
  - apply IH. lia.
Qed.

Lemma dict_get_positional n i :
  (i < n)%nat -> dict_get (positional_dict n) (KInt (Z.of_nat i)) = Ok i.
Proof. intros Hi. apply dict_get_positional_from. lia. Qed.

Lemma write_back_positional n (g : nat -> C) positions : forall pre h,
  Forall (fun i => (i < n)%nat) positions ->
  write_back (positional_dict n) (map (fun i => (i, i)) positions)
    (pre ++ map g positions) (length pre) h
  = (fold_left (fun h i => update i (set_amp (g i)) h) positions h, Ok tt).
Proof.
  induction positions as [|i positions IH]; intros pre h Hpos; [reflexivity|].
  apply Forall_cons_iff in Hpos. destruct Hpos as [Hi Hpos].
  cbn [map write_back fold_left]. unfold sbind at 1, slift at 1.
  rewrite nth_error_app2 by lia. rewrite Nat.sub_diag. cbn [nth_error].
  unfold sbind at 1, slift at 1. rewrite dict_get_positional by assumption.
  unfold sbind at 1. unfold store_amp at 1.
  replace (pre ++ g i :: map g positions) with ((pre ++ [g i]) ++ map g positions)
    by now rewrite <- app_assoc.
  replace (S (length pre)) with (length (pre ++ [g i]))
    by (rewrite length_app; cbn; lia).
  now apply IH.
Qed.

Lemma nth_error_fold_update {X} (F : nat -> X -> X) positions : forall h j,
  NoDup positions ->
  nth_error (fold_left (fun h i => update i (F i) h) positions h) j
  = if existsb (Nat.eqb j) positions then option_map (F j) (nth_error h j)
    else nth_error h j.
Proof.
  induction positions as [|i positions IH]; intros h j Hnd; [reflexivity|].
  apply NoDup_cons_iff in Hnd. destruct Hnd as [Hni Hnd].
  cbn [fold_left existsb]. rewrite IH by assumption.
  rewrite nth_error_update.
  destruct (Nat.eqb_spec j i) as [->|Hne]; cbn [orb]; [|reflexivity].
  destruct (existsb (Nat.eqb i) positions) eqn:Hex; [|reflexivity].
  apply existsb_exists in Hex. destruct Hex as (i' & Hi' & Heq).
  apply Nat.eqb_eq in Heq. subst i'. contradiction.
Qed.

Lemma fold_update_length {X} (F : nat -> X -> X) positions : forall h,
  length (fold_left (fun h i => update i (F i) h) positions h) = length h.
Proof.
  induction positions as [|i positions IH]; intros h; [reflexivity|].
  cbn [fold_left]. now rewrite IH, update_length.
Qed.

Lemma Forall2_nth_error {X Y} (P : X -> Y -> Prop) l1 l2 :
  Forall2 P l1 l2 <->
  (length l1 = length l2
   /\ forall i x y, nth_error l1 i = Some x -> nth_error l2 i = Some y -> P x y).
Proof.
  split.
  - induction 1 as [|x y l1 l2 Hxy _ [IHl IHp]]; split; try reflexivity.
    + intros [|i]; discriminate.
    + cbn. now rewrite IHl.
    + intros [|i] x' y'; cbn.
      * now intros [= <-] [= <-].
      * apply IHp.
  - revert l2. induction l1 as [|x l1 IH]; intros [|y l2] [Hlen Hp]; try discriminate.
    + constructor.
    + constructor; [now apply (Hp 0%nat)|].
      apply IH. split; [cbn in Hlen; lia|].
      intros i x' y'. apply (Hp (S i)).
Qed.

Lemma Forall2_eq {X} (l1 l2 : list X) : Forall2 eq l1 l2 -> l1 = l2.
Proof. induction 1; congruence. Qed.

(** ** The residual of a waveform against itself and its integrals *)

Lemma rmap_read_from (h : heap) : forall pre,
  rmap (fun l => match nth_error (pre ++ h) l with
                 | Some tm => Ok tm
                 | None => Raise LibraryError
                 end) (seq (length pre) (length h)) = Ok h.
Proof.
  induction h as [|x h IH]; intros pre; [reflexivity|].
  cbn [length seq rmap]. rewrite nth_error_app2 by lia.
  rewrite Nat.sub_diag. cbn [nth_error rbind].
  specialize (IH (pre ++ [x])). rewrite <- app_assoc in IH. cbn [app] in IH.
  rewrite length_app in IH. cbn [length] in IH. rewrite Nat.add_1_r in IH.
  now rewrite IH.
Qed.

Lemma rmap_read (h : heap) :
  rmap (fun l => match nth_error h l with
                 | Some tm => Ok tm
                 | None => Raise LibraryError
                 end) (seq 0 (length h)) = Ok h.
Proof. exact (rmap_read_from h []). Qed.

Lemma zero_row_set j : forall N,
  firstn j (repeat Cx.zero N)
  ++ match skipn j (repeat Cx.zero N) with
     | [] => []
     | _ :: rest => Cx.zero :: rest
     end
  = repeat Cx.zero N.
Proof.
  induction j as [|j IH]; intros [|N]; cbn; try reflexivity.
  f_equal. apply IH.
Qed.

Lemma col_set_zeros j T N :
  col_set j (repeat Cx.zero T) (zeros T N) = zeros T N.
Proof.
  unfold col_set, zeros. induction T as [|T IH]; [reflexivity|].
  cbn [repeat combine map]. rewrite IH. f_equal. apply zero_row_set.
Qed.

Lemma scaled_by_zero T N d :
  has_shape T N d -> map (map (Cx.scale 0)) d = zeros T N.
Proof.
  intros [Hlen Hrows]. subst T. unfold zeros.
  induction d as [|row d IH]; [reflexivity|].
  apply Forall_cons_iff in Hrows. destruct Hrows as [Hrow Hrows].
  cbn [map length repeat]. rewrite IH by assumption. f_equal.
  subst N. clear. induction row as [|c row IH]; [reflexivity|].
  cbn [map length repeat]. now rewrite IH, cscale_zero.
Qed.

Lemma self_difference j (d : Np.matrix) :
  map (fun '(r1, r2) => Cx.sub (nth j r1 Cx.zero) (nth j r2 Cx.zero)) (combine d d)
  = repeat Cx.zero (length d).
Proof.
  induction d as [|row d IH]; [reflexivity|].
  cbn [combine map length repeat]. now rewrite IH, csub_diag.
Qed.

Lemma norm_zeros h T N :
  Scri.norm (with_data h (zeros T N)) = repeat 0 T.
Proof.
  unfold Scri.norm, with_data, zeros. cbn [Scri.data].
  induction T as [|T IH]; [reflexivity|]. cbn [repeat map]. rewrite IH. f_equal.
  clear. induction N as [|N IH]; [reflexivity|].
  cbn [repeat map Np.rsum fold_right]. unfold Np.rsum in IH. rewrite IH, abs2_zero.
  ring.
Qed.

Lemma trapz_cons y0 y1 ys x0 x1 xs :
  trapz (y0 :: y1 :: ys) (x0 :: x1 :: xs)
  = (x1 - x0) * (y1 + y0) / 2 + trapz (y1 :: ys) (x1 :: xs).
Proof. reflexivity. Qed.

Lemma trapz_nil_l x : trapz [] x = 0.
Proof. unfold trapz. cbn [Np.pairsum]. now destruct (Np.diff x). Qed.

Lemma trapz_one_l y0 x : trapz [y0] x = 0.
Proof. unfold trapz. cbn [Np.pairsum]. now destruct (Np.diff x). Qed.

Lemma trapz_nil_r y : trapz y [] = 0.
Proof. reflexivity. Qed.

Lemma trapz_one_r y x0 : trapz y [x0] = 0.
Proof. reflexivity. Qed.

Lemma trapz_zero n : forall x, trapz (repeat 0 n) x = 0.
Proof.
  induction n as [|[|n] IH]; intros [|x0 [|x1 xs]]; try reflexivity.
  change (repeat 0 (S (S n))) with (0 :: 0 :: repeat 0 n).
  rewrite trapz_cons. change (0 :: repeat 0 n) with (repeat 0 (S n)).
  rewrite IH. lra.
Qed.

Lemma trapz_nonneg y : forall x,
  Forall (fun v => 0 <= v) y -> StronglySorted Rlt x -> 0 <= trapz y x.
Proof.
  induction y as [|y0 y IH]; intros x Hy Hx; [rewrite trapz_nil_l; lra|].
  destruct y as [|y1 ys]; [rewrite trapz_one_l; lra|].
  destruct x as [|x0 [|x1 xs]]; [cbn; lra | cbn; lra |].
  rewrite trapz_cons.
  apply Forall_cons_iff in Hy. destruct Hy as [Hy0 Hy].
  pose proof (proj1 (Forall_cons_iff _ _ _) Hy) as [Hy1 _].
  apply StronglySorted_inv in Hx. destruct Hx as [Hx Hlt].
  apply Forall_cons_iff in Hlt. destruct Hlt as [Hlt _].
  specialize (IH (x1 :: xs) Hy Hx). nra.
Qed.

Lemma trapz_skipn_le k : forall y x,
  Forall (fun v => 0 <= v) y -> StronglySorted Rlt x ->
  trapz (skipn k y) (skipn k x) <= trapz y x.
Proof.
  induction k as [|k IH]; intros y x Hy Hx; [cbn [skipn]; lra|].
  destruct y as [|y0 y]; [cbn [skipn]; rewrite !trapz_nil_l; lra|].
  destruct x as [|x0 x]; [cbn [skipn]; rewrite !trapz_nil_r; lra|].
  cbn [skipn].
  apply Forall_cons_iff in Hy. destruct Hy as [Hy0 Hy].
  apply StronglySorted_inv in Hx. destruct Hx as [Hx Hlt].
  apply Rle_trans with (trapz y x); [now apply IH|].
  destruct y as [|y1 ys]; [rewrite trapz_nil_l, trapz_one_l; lra|].
  destruct x as [|x1 xs]; [rewrite trapz_nil_r, trapz_one_r; lra|].
  rewrite trapz_cons.
  apply Forall_cons_iff in Hlt. destruct Hlt as [Hlt _].
  pose proof (proj1 (Forall_cons_iff _ _ _) Hy) as [Hy1 _].
  nra.
Qed.

Lemma trapz_firstn_le k : forall y x,
  Forall (fun v => 0 <= v) y -> StronglySorted Rlt x ->
  trapz (firstn k y) (firstn k x) <= trapz y x.
Proof.
  induction k as [|k IH]; intros y x Hy Hx.
  - cbn [firstn]. rewrite trapz_nil_l. now apply trapz_nonneg.
  - destruct y as [|y0 y]; [cbn [firstn]; rewrite !trapz_nil_l; lra|].
    destruct x as [|x0 x]; [cbn [firstn]; rewrite !trapz_nil_r; lra|].
    cbn [firstn].
    apply Forall_cons_iff in Hy. destruct Hy as [Hy0 Hy].
    apply StronglySorted_inv in Hx. destruct Hx as [Hx Hlt].
    specialize (IH y x Hy Hx).
    destruct y as [|y1 ys];
      [rewrite firstn_nil, !trapz_one_l; lra|].
    destruct x as [|x1 xs];
      [rewrite firstn_nil, !trapz_one_r; lra|].
    destruct k as [|k].
    + cbn [firstn]. rewrite trapz_one_l, trapz_cons.
      apply Forall_cons_iff in Hlt. destruct Hlt as [Hlt _].
      pose proof (proj1 (Forall_cons_iff _ _ _) Hy) as [Hy1 _].
      pose proof (trapz_nonneg Hy Hx). nra.
    + cbn [firstn] in *. rewrite !trapz_cons. lra.
Qed.

Lemma skipn_sorted {X} (R0 : X -> X -> Prop) k : forall l,
  StronglySorted R0 l -> StronglySorted R0 (skipn k l).
Proof.
  induction k as [|k IH]; intros [|x l] H; cbn [skipn]; try assumption.
  apply IH. now apply StronglySorted_inv in H.
Qed.

Lemma trapz_slice_le lo hi y x :
  Forall (fun v => 0 <= v) y -> StronglySorted Rlt x ->
  trapz (Np.slice lo hi y) (Np.slice lo hi x) <= trapz y x.
Proof.
  intros Hy Hx. unfold Np.slice.
  apply Rle_trans with (trapz (skipn lo y) (skipn lo x)).
  - apply trapz_firstn_le; [|now apply skipn_sorted].
    apply Forall_forall. intros v Hv.
    rewrite Forall_forall in Hy. apply Hy.
    rewrite <- (firstn_skipn lo y). apply in_or_app. now right.
  - now apply trapz_skipn_le.
Qed.

Lemma norm_nonneg h : Forall (fun v => 0 <= v) (Scri.norm h).
Proof.
  unfold Scri.norm. apply Forall_forall. intros v Hv.
  apply in_map_iff in Hv. destruct Hv as (row & <- & _).
  induction row as [|c row IH]; cbn; [lra|].
  pose proof (abs2_nonneg c). unfold Np.rsum in IH. lra.
Qed.

Lemma norm_slice lo hi h :
  Scri.norm (Scri.time_slice lo hi h) = Np.slice lo hi (Scri.norm h).
Proof.
  unfold Scri.norm, Scri.time_slice, Np.slice. cbn [Scri.data].
  now rewrite skipn_map, firstn_map.
Qed.

Lemma mode_in_In lm ms : In lm ms -> mode_in lm ms = true.
Proof.
  intros Hin. unfold mode_in. apply existsb_exists. exists lm.
  split; [assumption|]. now rewrite !Z.eqb_refl.
Qed.

Lemma masked_data_all h :
  masked_data (Some (all_modes_from_2 (Scri.ell_max h))) h = Scri.data h.
Proof.
  unfold masked_data.
  replace (filter _ (all_modes_from_2 (Scri.ell_max h))) with (@nil (Z * Z));
    [reflexivity|].
  symmetry. apply filter_none. intros lm Hin. now rewrite mode_in_In.
Qed.

(** ** The fit of a synthesized target, block by block *)

Lemma dot_app r1 r2 x1 x2 :
  length r1 = length x1 ->
  dot (r1 ++ r2) (x1 ++ x2) = Cx.add (dot r1 x1) (dot r2 x2).
Proof.
  revert x1. unfold dot, Np.csum.
  induction r1 as [|c r1 IH]; intros [|x0 x1] Hlen; try discriminate.
  - cbn. now rewrite add_zero_l.
  - cbn [app combine map fold_right fst snd].
    rewrite IH by (cbn in Hlen; lia). now rewrite cadd_assoc.
Qed.

Lemma dot_zeros row n : dot row (repeat Cx.zero n) = Cx.zero.
Proof.
  revert n. unfold dot, Np.csum.
  induction row as [|c row IH]; intros [|n]; cbn; try reflexivity.
  rewrite IH. now rewrite cmul_zero_r, add_zero_l.
Qed.

Section FitRun.

Context {E : Extern}.
Hypothesis Hls : lstsq_minimizes E.

Variables (chi mass t_ref : R) (t : list R) (L : Z).
Hypothesis HL : (2 <= L)%Z.

Let LM := Sf.LM_range 2 L.
Let T := length t.
Let N := length LM.
Let run := add_term (Scalar chi) (Scalar mass) t_ref t LM.

Variable terms0 : list term.
Hypothesis Hq : Forall qnm_with_amp terms0.
Variable D : Np.matrix.
Hypothesis Hsynth : sfor terms0 run (zeros T N) = (D, Ok tt).
Hypothesis Hindep :
  forall m, In m (map m_of terms0) ->
            independent_units (Scalar chi) (Scalar mass) t_ref t LM (block_terms m terms0).
Hypothesis Hinc : Scri.increasing t = true.

Let n := length terms0.

Lemma synth_modes :
  Forall (fun tm => exists label, mode tm = Some label) terms0.
Proof.
  destruct (@target_facts E chi mass t_ref t L terms0 Hq D Hsynth) as (_ & _ & Hall).
  apply Forall_forall. intros tm Hin.
  rewrite Forall_forall in Hall. specialize (Hall tm Hin (zeros T N) (has_shape_zeros T N)).
  destruct (proj1 (Forall_forall _ _) Hq tm Hin) as [Hty [a Ha]].
  fold LM in Hall.
  rewrite (@add_term_qnm_cases E chi mass t_ref t LM tm a Hty Ha) in Hall.
  destruct (mode tm) as [label|]; [eauto | discriminate].
Qed.

Lemma unit_not_zero m tm :
  In m (map m_of terms0) -> In tm (block_terms m terms0) ->
  exists i k, entry (unit_data (Scalar chi) (Scalar mass) t_ref t LM tm) i k <> Cx.zero.
Proof.
  intros Hm Htm.
  destruct (Classical_Prop.classic
              (exists i k, entry (unit_data (Scalar chi) (Scalar mass) t_ref t LM tm) i k <> Cx.zero))
    as [H|Hno]; [assumption|exfalso].
  assert (Hz : forall i k, entry (unit_data (Scalar chi) (Scalar mass) t_ref t LM tm) i k = Cx.zero).
  { intros i k.
    destruct (Classical_Prop.classic
                (entry (unit_data (Scalar chi) (Scalar mass) t_ref t LM tm) i k = Cx.zero)); [assumption|].
    exfalso. apply Hno. eauto. }
  apply in_split in Htm. destruct Htm as (pre & post & Hsplit).
  pose proof (Hindep m Hm) as Hind. unfold independent_units in Hind.
  rewrite Hsplit in Hind.
  assert (Heq : repeat Cx.zero (length pre) ++ Cx.one :: repeat Cx.zero (length post)
                = repeat Cx.zero (length pre) ++ Cx.zero :: repeat Cx.zero (length post)).
  { apply Hind.
    - rewrite !length_app. cbn [length]. now rewrite !repeat_length.
    - rewrite !length_app. cbn [length]. now rewrite !repeat_length.
    - intros i k. unfold combination. rewrite !map_app. cbn [map].
      rewrite !dot_app by (now rewrite length_map, repeat_length).
      f_equal.
      change (?c :: map ?f post) with ([c] ++ map f post).
      change (Cx.one :: ?l) with ([Cx.one] ++ l).
      change (Cx.zero :: repeat Cx.zero (length post))
        with ([Cx.zero] ++ repeat Cx.zero (length post)).
      rewrite !dot_app by reflexivity. f_equal.
      unfold dot. cbn. rewrite Hz. now rewrite !cmul_zero_l. }
  apply app_inv_head in Heq.
  assert (H1 : Cx.re Cx.one = Cx.re Cx.zero) by congruence.
  cbn in H1. lra.
Qed.

Lemma m_bound m : In m (map m_of terms0) -> (- L <= m <= L)%Z.
Proof.
  intros Hm. pose proof Hm as Hm'. apply in_map_iff in Hm'.
  destruct Hm' as (tm & Hmt & Hin).
  assert (Hblock : In tm (block_terms m terms0)).
  { apply filter_In. split; [assumption | now apply Z.eqb_eq]. }
  destruct (@unit_not_zero m tm Hm Hblock) as (i & k & Hne).
  rewrite (proj2 (unit_data_facts chi mass t_ref t L Hq Hsynth tm Hin)) in Hne.
  apply (term_response_support chi mass t_ref t HL) in Hne.
  destruct Hne as (l & Hl & _). rewrite Hmt in Hl. apply LM_range_In in Hl. lia.
Qed.

Variables (hist : list Scri.ctor_statement) (times : R * R).

Let h_ring : WaveformModes :=
  {| Scri.t := t; Scri.ell_min := 2; Scri.ell_max := L; Scri.data := D;
     Scri.history := hist |}.

Lemma D_shape : has_shape T N D.
Proof. exact (proj1 (target_facts chi mass t_ref t L Hq Hsynth)). Qed.

Lemma ell_slice_full : Scri.ell_slice_to (L + 1) h_ring = Ok h_ring.
Proof.
  unfold Scri.ell_slice_to. cbn [Scri.ell_max Scri.ell_min Scri.t Scri.data
                                 Scri.history h_ring].
  rewrite Z.add_simpl_r.
  destruct (Z.ltb_spec L L); [lia|].
  destruct (Z.ltb_spec L (2 - 1)); [lia|]. unfold h_ring. do 2 f_equal.
  transitivity (map (fun row : list C => row) D); [|apply map_id].
  apply map_ext_in. intros row Hrow.
  apply firstn_all2.
  destruct D_shape as [_ Hrows]. rewrite Forall_forall in Hrows.
  rewrite (Hrows row Hrow).
  unfold Scri.n_modes, Scri.LM. cbn [Scri.ell_min Scri.ell_max]. fold LM N.
  pose proof (N_value t HL) as HN. fold LM N in HN.
  unfold Scri.py_stop.
  destruct (Z.ltb_spec (L * (L + 2) + 1 - 2 * 2) 0); lia.
Qed.

Section Block.

Variable m : Z.
Hypothesis Hm : In m (map m_of terms0).

Let ls := Np.zrange 2 (L + 1).
Let idx := map (fun l => Sf.LM_index l m 2) ls.
Let W := length ls.
Let sel (d : Np.matrix) : Np.matrix :=
  map (fun row => map (fun j => nth j row Cx.zero) (map (col_of L m) ls)) d.

Lemma basis_block_run h i :
  heap_frame terms0 h -> (i < n)%nat ->
  basis_block times (Scalar chi) (Scalar mass) t_ref h_ring idx W i h
  = (update i (set_amp Cx.one) h,
     Ok (sel (unit_data (Scalar chi) (Scalar mass) t_ref t LM (nth i terms0 no_term)))).
Proof.
  intros Hf Hi.
  pose proof (nth_error_nth' terms0 no_term Hi) as Hnth.
  destruct (@heap_frame_nth terms0 h i _ Hf Hnth) as (tm' & Htm' & Hsame).
  assert (Hin : In (nth i terms0 no_term) terms0) by now apply nth_In.
  unfold basis_block. unfold sbind at 1. unfold deref at 1. rewrite Htm'.
  unfold sbind at 1. unfold store_amp at 1.
  unfold sbind at 1. unfold deref at 1.
  rewrite nth_error_update, Nat.eqb_refl, Htm'. cbn [option_map].
  rewrite (set_amp_frame Cx.one Hsame).
  unfold qnm_modes_as. cbn [Scri.t Scri.ell_min Scri.ell_max h_ring].
  rewrite qnm_modes_sorted by exact Hinc. cbn [snd]. rewrite sfor_one.
  fold LM T N run.
  pose proof (unit_run_ok chi mass t_ref t L Hq Hsynth (nth i terms0 no_term)
                Cx.one Hin (has_shape_zeros T N)) as Hok.
  fold LM T N run in Hok.
  change (run (set_amp Cx.one (nth i terms0 no_term)) (zeros T N))
    with (add_term (Scalar chi) (Scalar mass) t_ref t LM
            (set_amp Cx.one (nth i terms0 no_term))
            (zeros (length t) (length LM))) in *.
  destruct (add_term _ _ _ _ _ _ _) as [d r] eqn:Hrun.
  cbn [snd] in Hok. subst r.
  assert (Hd : d = unit_data (Scalar chi) (Scalar mass) t_ref t LM (nth i terms0 no_term)).
  { unfold unit_data. now rewrite Hrun. }
  subst d. unfold sbind, slift.
  unfold Scri.n_modes, Scri.LM. cbn [Scri.ell_min Scri.ell_max Scri.data].
  rewrite (select_cols_idx t HL (@m_bound m Hm)).
  unfold assign_block. unfold idx, W. rewrite length_map, Nat.eqb_refl.
  reflexivity.
Qed.

Lemma basis_blocks_run positions : forall h,
  heap_frame terms0 h -> Forall (fun i => (i < n)%nat) positions ->
  basis_blocks times (Scalar chi) (Scalar mass) t_ref h_ring idx W
    (map (fun i => (i, i)) positions) h
  = (fold_left (fun h i => update i (set_amp Cx.one) h) positions h,
     Ok (map (fun i => sel (unit_data (Scalar chi) (Scalar mass) t_ref t LM (nth i terms0 no_term)))
             positions)).
Proof.
  induction positions as [|i positions IH]; intros h Hf Hpos; [reflexivity|].
  apply Forall_cons_iff in Hpos. destruct Hpos as [Hi Hpos].
  cbn [map basis_blocks fold_left]. unfold sbind at 1.
  rewrite basis_block_run by assumption.
  unfold sbind at 1. rewrite IH; [reflexivity | | assumption].
  eapply heap_frame_trans; [exact Hf | apply heap_frame_update].
Qed.

Variable fixed_QNMs : dict.
Hypothesis Hvalues : values fixed_QNMs = seq 0 n.

Lemma positions_lt : Forall (fun i => (i < n)%nat) (positions_of m terms0 0 n).
Proof.
  apply Forall_forall. intros i Hi. unfold positions_of in Hi.
  apply filter_In in Hi. destruct Hi as [Hi _]. apply in_seq in Hi. lia.
Qed.

Lemma positions_terms :
  map (fun i => nth i terms0 no_term) (positions_of m terms0 0 n)
  = block_terms m terms0.
Proof. apply (map_nth_positions (fun tm => (m_of tm =? m)%Z)). Qed.

(** One pass of the loop over the azimuthal numbers: the basis columns are
    built with the amplitude of each term of the block set to one, the
    solver returns the amplitudes of the target, and they are written
    back. *)
Lemma fit_block_run h :
  heap_frame terms0 h ->
  fit_block h_ring None times (Scalar chi) (Scalar mass) fixed_QNMs t_ref m h
  = write_back fixed_QNMs
      (map (fun i => (i, i)) (positions_of m terms0 0 n))
      (map amp_or_zero (block_terms m terms0)) 0
      (fold_left (fun h i => update i (set_amp Cx.one) h)
                 (positions_of m terms0 0 n) h).
Proof.
  intros Hf. unfold fit_block. rewrite Hvalues.
  unfold sbind at 1.
  rewrite (@mode_labels_seq terms0 synth_modes m h n 0 Hf) by (unfold n; lia).
  unfold block_range. cbn [Scri.ell_min Scri.ell_max h_ring].
  unfold sbind at 1, slift at 1.
  destruct (Z.ltb_spec (L - 2 + 1) 0); [lia|].
  replace (Z.to_nat (L - 2 + 1)) with W
    by (unfold W, ls; rewrite zrange_length; lia).
  unfold sbind at 1, slift at 1. rewrite ell_slice_full.
  unfold sbind at 1, slift at 1.
  unfold Scri.n_modes, Scri.LM. cbn [Scri.ell_min Scri.ell_max Scri.data h_ring].
  rewrite (select_cols_idx t HL (@m_bound m Hm)).
  unfold sbind at 1. fold ls idx.
  rewrite basis_blocks_run by (try assumption; apply positions_lt).
  unfold sbind at 1, slift at 1. cbn [Scri.t h_ring].
  unfold reshape_flat. unfold idx at 1. rewrite length_map. fold W T.
  rewrite Nat.eqb_refl.
  unfold sbind at 1, slift at 1.
  rewrite length_map.
  rewrite <- (map_map (fun i => nth i terms0 no_term)
                (fun tm => sel (unit_data (Scalar chi) (Scalar mass) t_ref t LM tm))).
  rewrite positions_terms.
  replace (length (positions_of m terms0 0 n))
    with (length (block_terms m terms0))
    by (rewrite <- positions_terms; apply length_map).
  pose proof (block_solution HL Hq Hsynth (@m_bound m Hm) Hls (Hindep m Hm)) as Hsol.
  match goal with
  | |- match ?X with Ok _ => _ | Raise _ => _ end = _ =>
      replace X with (Ok (map amp_or_zero (block_terms m terms0)))
        by (symmetry; exact Hsol)
  end.
  reflexivity.
Qed.

End Block.

(** The objects of the heap once the azimuthal numbers [processed] have been
    fitted: every object is the original term up to its amplitude, and the
    terms of a processed azimuthal number carry their original amplitude. *)
Let settled (processed : list Z) (h : heap) : Prop :=
  Forall2 (fun tm0 tm' => same_but_amp tm0 tm'
                          /\ (In (m_of tm0) processed -> amp tm' = amp tm0))
          terms0 h.

Lemma settled_frame processed h : settled processed h -> heap_frame terms0 h.
Proof. apply Forall2_impl. now intros tm0 tm' [H _]. Qed.

Lemma frame_settled h : heap_frame terms0 h -> settled [] h.
Proof. apply Forall2_impl. intros tm0 tm' H. split; [assumption | intros []]. Qed.

Lemma values_positional k : values (positional_dict k) = seq 0 k.
Proof.
  unfold values, positional_dict. rewrite map_map. cbn [snd]. apply map_id.
Qed.

Lemma positions_NoDup m : NoDup (positions_of m terms0 0 n).
Proof. apply NoDup_filter, seq_NoDup. Qed.

Lemma positions_mem m i :
  existsb (Nat.eqb i) (positions_of m terms0 0 n) = true
  <-> (i < n)%nat /\ m_of (nth i terms0 no_term) = m.
Proof.
  rewrite existsb_exists. unfold positions_of. split.
  - intros (j & Hj & Heq). apply Nat.eqb_eq in Heq. subst j.
    apply filter_In in Hj. destruct Hj as [Hj Hmj]. apply in_seq in Hj.
    apply Z.eqb_eq in Hmj. split; [lia | assumption].
  - intros [Hi Hmi]. exists i. split; [|apply Nat.eqb_refl].
    apply filter_In. split; [apply in_seq; lia | now apply Z.eqb_eq].
Qed.

Lemma fit_block_settles m processed h :
  In m (map m_of terms0) -> settled processed h ->
  exists h',
    fit_block h_ring None times (Scalar chi) (Scalar mass) (positional_dict n)
      t_ref m h = (h', Ok tt)
    /\ settled (processed ++ [m]) h'.
Proof.
  intros Hm Hs. pose proof (settled_frame Hs) as Hf.
  rewrite (@fit_block_run m Hm (positional_dict n) (values_positional n) h Hf).
  rewrite <- (positions_terms m), map_map.
  rewrite (@write_back_positional n (fun i => amp_or_zero (nth i terms0 no_term))
             (positions_of m terms0 0 n) [] _ (positions_lt m)).
  eexists. split; [reflexivity|].
  apply Forall2_nth_error in Hs. destruct Hs as [Hlen Hs].
  apply Forall2_nth_error. split.
  - now rewrite !fold_update_length.
  - intros i tm0 y Htm0 Hy.
    rewrite !nth_error_fold_update in Hy by apply positions_NoDup.
    assert (Hi : (i < n)%nat) by (apply nth_error_Some; congruence).
    assert (Hnth : nth i terms0 no_term = tm0) by now apply nth_error_nth.
    destruct (nth_error h i) as [tm'|] eqn:Htm';
      [|apply nth_error_None in Htm'; unfold n in Hi; lia].
    destruct (Hs i tm0 tm' Htm0 Htm') as [Hsame Hamp].
    destruct (existsb (Nat.eqb i) (positions_of m terms0 0 n)) eqn:Hex.
    + cbn [option_map] in Hy. injection Hy as <-.
      split; [exact Hsame|]. intros _. cbn [set_amp amp]. rewrite Hnth.
      assert (Hin : In tm0 terms0) by (eapply nth_error_In; eassumption).
      destruct (proj1 (Forall_forall _ _) Hq tm0 Hin) as [_ [a Ha]].
      unfold amp_or_zero. now rewrite Ha.
    + injection Hy as <-. split; [exact Hsame|].
      intros Hin. apply in_app_iff in Hin. destruct Hin as [Hin|[Hin|[]]].
      * now apply Hamp.
      * assert (Hex' : existsb (Nat.eqb i) (positions_of m terms0 0 n) = true)
          by (apply positions_mem; split; [assumption | congruence]).
        congruence.
Qed.

Lemma fit_blocks_settle ms : forall processed h,
  (forall m, In m ms -> In m (map m_of terms0)) -> settled processed h ->
  exists h',
    sfor ms (fit_block h_ring None times (Scalar chi) (Scalar mass)
               (positional_dict n) t_ref) h = (h', Ok tt)
    /\ settled (processed ++ ms) h'.
Proof.
  induction ms as [|m ms IH]; intros processed h Hms Hs.
  - exists h. split; [reflexivity | now rewrite app_nil_r].
  - destruct (@fit_block_settles m processed h (Hms m (or_introl eq_refl)) Hs)
      as (h1 & Hrun1 & Hs1).
    destruct (IH (processed ++ [m]) h1 (fun m' H => Hms m' (or_intror H)) Hs1)
      as (h2 & Hrun2 & Hs2).
    exists h2. split.
    + cbn [sfor]. unfold sbind at 1. now rewrite Hrun1.
    + now rewrite <- app_assoc in Hs2.
Qed.

Lemma settled_all h :
  settled (distinct_after [] (map m_of terms0)) h -> h = terms0.
Proof.
  intros Hs. symmetry. apply Forall2_eq.
  apply Forall2_nth_error in Hs. destruct Hs as [Hlen Hs].
  apply Forall2_nth_error. split; [assumption|].
  intros i tm0 tm' Htm0 Htm'. destruct (Hs i tm0 tm' Htm0 Htm') as [Hsame Hamp].
  symmetry. apply same_amp_eq; [assumption|]. apply Hamp.
  apply distinct_after_In. right. apply in_map. eapply nth_error_In; eassumption.
Qed.

(** *** The scores of the fitted waveform *)

Let h_fit : WaveformModes :=
  {| Scri.t := t; Scri.ell_min := 2; Scri.ell_max := L; Scri.data := D;
     Scri.history := [{| Scri.stmt_t_0 := fst times; Scri.stmt_t_ref := t_ref |}] |}.

Lemma target_well_shaped : well_shaped h_ring.
Proof.
  destruct D_shape as [Hlen Hrows]. split; [exact Hlen | exact Hrows].
Qed.

Lemma synthesis_of_fitted_terms :
  snd (qnm_modes_as (Scalar chi) (Scalar mass) terms0 h_ring (fst times) t_ref None)
  = Ok h_fit.
Proof.
  unfold qnm_modes_as. cbn [Scri.t Scri.ell_min Scri.ell_max h_ring].
  rewrite qnm_modes_sorted by exact Hinc. cbn [snd]. fold LM T N run.
  now rewrite Hsynth.
Qed.

Lemma residual_self ms :
  (forall lm, In lm ms -> In lm LM) ->
  residual h_ring h_fit ms (zeros T N) = (zeros T N, Ok tt).
Proof.
  induction ms as [|[l m] ms IH]; intros Hms; [reflexivity|].
  unfold residual. cbn [sfor]. fold (residual h_ring h_fit ms).
  unfold Scri.n_modes, Scri.LM. cbn [Scri.ell_min Scri.ell_max Scri.data h_ring h_fit].
  fold LM.
  destruct (@LM_index_valid 2 L l m ltac:(lia) (Hms (l, m) (or_introl eq_refl)))
    as [Hidx _].
  fold LM in Hidx. unfold sbind, slift. rewrite Hidx.
  rewrite self_difference.
  replace (length D) with T by (symmetry; apply D_shape).
  rewrite col_set_zeros. apply IH. intros lm Hlm. apply Hms. now right.
Qed.

(** The whole fit of the synthesized target, up to the two scores: the
    objects of the dictionary end up with the amplitudes of the target, the
    fitted waveform has the data of the target, and the residual is zero
    everywhere. *)
Lemma fit_run_scores h :
  heap_frame terms0 h ->
  fit_ringdown_waveform_LLSQ_S2 h_ring None times (Scalar chi) (Scalar mass)
    (positional_dict n) t_ref h
  = (terms0,
     match waveform_mismatch h_ring h_fit (Some LM) (fst times) (snd times) with
     | Ok mismatch =>
         Ok {| fit_h_QNM := h_fit; fit_h_ring := h_ring;
               fit_error := Np.fdiv (0.5 * 0) (trapz (Scri.norm h_ring) t);
               fit_mismatch := mismatch; fit_fixed_QNMs := positional_dict n |}
     | Raise e => Raise e
     end).
Proof.
  intros Hf. unfold fit_ringdown_waveform_LLSQ_S2.
  rewrite values_positional.
  unfold sbind at 1.
  rewrite (@collect_m_seq terms0 synth_modes h n 0 [] Hf) by (unfold n; lia).
  replace (map (fun i => m_of (nth i terms0 no_term)) (seq 0 n))
    with (map m_of terms0)
    by (symmetry; apply map_seq_nth).
  destruct (@fit_blocks_settle (distinct_after [] (map m_of terms0)) [] h)
    as (h' & Hrun & Hs).
  { intros m Hm. apply distinct_after_In in Hm. destruct Hm as [[]|Hm]. exact Hm. }
  { now apply frame_settled. }
  cbn [app] in Hs. apply settled_all in Hs. subst h'.
  unfold sbind at 1. rewrite Hrun.
  unfold sbind at 1. unfold n. rewrite rmap_read.
  unfold sbind at 1, slift at 1. rewrite synthesis_of_fitted_terms.
  cbn [Scri.data Scri.ell_max h_ring].
  rewrite (scaled_by_zero D_shape).
  change (all_modes_from_2 L) with LM.
  rewrite residual_self by auto.
  unfold sbind at 1, slift at 1.
  rewrite norm_zeros. cbn [Scri.t with_data h_ring].
  unfold sbind at 1, slift at 1.
  rewrite trapezoid_same_length by (rewrite repeat_length; reflexivity).
  rewrite trapz_zero.
  unfold sbind at 1, slift at 1.
  rewrite trapezoid_same_length by (rewrite norm_length; apply D_shape).
  unfold sbind at 1, slift at 1.
  now destruct (waveform_mismatch _ _ _ _ _).
Qed.

Lemma power_of_all_modes t1 t2 :
  windowed_power h_ring (Some LM) t1 t2 = windowed_power h_ring None t1 t2.
Proof.
  unfold windowed_power.
  change (Some LM) with (Some (all_modes_from_2 (Scri.ell_max h_ring))).
  now rewrite masked_data_all.
Qed.

Hypothesis Hinterp : interpolate_exact_at_samples E.
Hypothesis Hsorted : StronglySorted Rlt t.

(** The scores of a target without power: both are [0 / 0]. *)
Lemma fit_run_without_power h lo hi :
  heap_frame terms0 h ->
  window t (fst times) (snd times) = Ok (lo, hi) -> (lo < hi)%nat ->
  windowed_power h_ring None (fst times) (snd times) = 0 ->
  trapz (Scri.norm h_ring) t = 0 ->
  fit_ringdown_waveform_LLSQ_S2 h_ring None times (Scalar chi) (Scalar mass)
    (positional_dict n) t_ref h
  = (terms0,
     Ok {| fit_h_QNM := h_fit; fit_h_ring := h_ring; fit_error := None;
           fit_mismatch := None; fit_fixed_QNMs := positional_dict n |}).
Proof.
  intros Hf Hwin Hlt Hzero Hden. rewrite (fit_run_scores Hf).
  rewrite (@mismatch_same_samples_value E Hinterp h_ring h_fit (Some LM)
             (fst times) (snd times) lo hi); try reflexivity; try assumption.
  - cbv zeta. rewrite power_of_all_modes, Hzero, Hden, Rmult_0_l, sqrt_0.
    unfold Np.fdiv. destruct (Req_dec_T 0 0); [reflexivity | contradiction].
  - exact target_well_shaped.
  - cbn [Scri.ell_min h_ring]. lia.
Qed.

Hypothesis Hpower : 0 < windowed_power h_ring None (fst times) (snd times).

Lemma target_power_positive : 0 < trapz (Scri.norm h_ring) t.
Proof.
  unfold windowed_power in Hpower. cbn [Scri.t h_ring] in Hpower.
  destruct (window t (fst times) (snd times)) as [[lo hi]|e]; [|lra].
  cbn [masked_data] in Hpower.
  replace (with_data h_ring (Scri.data h_ring)) with h_ring in Hpower by reflexivity.
  rewrite norm_slice in Hpower.
  eapply Rlt_le_trans; [exact Hpower|].
  apply trapz_slice_le; [apply norm_nonneg | exact Hsorted].
Qed.

(** The whole fit of a synthesized target with power in the window: the
    objects of the dictionary end up with the amplitudes of the target, and
    both scores are zero. *)
Lemma fit_run h :
  heap_frame terms0 h ->
  fit_ringdown_waveform_LLSQ_S2 h_ring None times (Scalar chi) (Scalar mass)
    (positional_dict n) t_ref h
  = (terms0,
     Ok {| fit_h_QNM := h_fit; fit_h_ring := h_ring; fit_error := Some 0;
           fit_mismatch := Some 0; fit_fixed_QNMs := positional_dict n |}).
Proof.
  intros Hf. rewrite (fit_run_scores Hf).
  rewrite (@mismatch_same_samples E Hinterp h_ring h_fit (Some LM)
             (fst times) (snd times)); try reflexivity.
  - do 3 f_equal. unfold Np.fdiv.
    pose proof target_power_positive as Hpos.
    destruct (Req_dec_T _ 0) as [Hz|Hnz]; [lra|].
    f_equal. field. exact Hnz.
  - exact Hsorted.
  - exact target_well_shaped.
  - cbn [Scri.ell_min h_ring]. lia.
  - now rewrite power_of_all_modes.
Qed.

End FitRun.

(** ** The fit of one synthesized term *)

Lemma expiwt_nonzero w t_ref ti : expiwt_at w t_ref ti <> Cx.zero.
Proof. unfold expiwt_at. apply cexp_nonzero. Qed.

Lemma cmul_nonzero a b : a <> Cx.zero -> b <> Cx.zero -> Cx.mul a b <> Cx.zero.
Proof.
  intros Ha Hb H. apply Hb. apply (cmul_cancel_l Ha).
  now rewrite H, cmul_zero_r.
Qed.

Lemma abs2_pos a : a <> Cx.zero -> 0 < Cx.abs2 a.
Proof.
  intros Ha. destruct (Rle_lt_or_eq_dec 0 (Cx.abs2 a) (abs2_nonneg a)) as [H|H];
    [assumption|].
  exfalso. apply Ha. now apply abs2_eq_0.
Qed.

Lemma column_nonzero a ti : a <> Cx.zero -> SampleFit.column a ti <> Cx.zero.
Proof.
  intros Ha. unfold SampleFit.column. rewrite add_zero_l, mul_one_r.
  apply cmul_nonzero; [assumption | apply expiwt_nonzero].
Qed.

Lemma column_zero ti : SampleFit.column Cx.zero ti = Cx.zero.
Proof.
  unfold SampleFit.column. now rewrite cmul_zero_l, cmul_zero_l, add_zero_l.
Qed.

(** A single term whose unit waveform does not vanish is independent. *)
Lemma independent_single (E : Extern) chi mass t_ref t LM tm i k :
  entry (unit_data (Scalar chi) (Scalar mass) t_ref t LM tm) i k <> Cx.zero ->
  independent_units (Scalar chi) (Scalar mass) t_ref t LM [tm].
Proof.
  intros Hne x x' Hx Hx' Hc.
  destruct x as [|x0 [|]]; try discriminate.
  destruct x' as [|x0' [|]]; try discriminate.
  specialize (Hc i k). unfold combination, dot, Np.csum in Hc.
  cbn [map combine fold_right fst snd] in Hc. rewrite !add_zero_r in Hc.
  f_equal. exact (cmul_cancel_l Hne Hc).
Qed.

Lemma sample_synthesis a :
  sfor [Sample.qnm_220 (Some a)]
    (add_term (E := Reference.extern) (Scalar SampleFit.chi) (Scalar SampleFit.mass)
       0 (unit_axis 3) (Sf.LM_range 2 2))
    (zeros (length (unit_axis 3)) (length (Sf.LM_range 2 2)))
  = (Scri.data (SampleFit.target a), Ok tt).
Proof. py_eval. reflexivity. Qed.

Lemma sample_synthesis2 a b :
  sfor [Sample.qnm_220 (Some a); Sample.qnm_200 (Some b)]
    (add_term (E := Reference.extern) (Scalar SampleFit.chi) (Scalar SampleFit.mass)
       0 (unit_axis 3) (Sf.LM_range 2 2))
    (zeros (length (unit_axis 3)) (length (Sf.LM_range 2 2)))
  = (Scri.data (SampleFit.target2 a b), Ok tt).
Proof. py_eval. reflexivity. Qed.

Lemma sample_is_synthesized a :
  snd (qnm_modes (E := Reference.extern) (Scalar SampleFit.chi)
         (Scalar SampleFit.mass) [Sample.qnm_220 (Some a)] 0 0 (unit_axis 3) 2 2 None)
  = Ok (SampleFit.target a).
Proof.
  rewrite qnm_modes_sorted by apply increasing_unit_axis. cbn [snd].
  now rewrite sample_synthesis.
Qed.

Lemma sample2_is_synthesized a b :
  snd (qnm_modes (E := Reference.extern) (Scalar SampleFit.chi)
         (Scalar SampleFit.mass)
         [Sample.qnm_220 (Some a); Sample.qnm_200 (Some b)] 0 0 (unit_axis 3) 2 2 None)
  = Ok (SampleFit.target2 a b).
Proof.
  rewrite qnm_modes_sorted by apply increasing_unit_axis. cbn [snd].
  now rewrite sample_synthesis2.
Qed.

(** The power over the window [(1, 3)] of three samples whose rows are
    [[0, 0, c, 0, e]]. *)
Lemma sample_power (c e : R -> C) hist :
  windowed_power
    {| Scri.t := unit_axis 3; Scri.ell_min := 2; Scri.ell_max := 2;
       Scri.data := map (fun ti => [Cx.zero; Cx.zero; c ti; Cx.zero; e ti])
                        (unit_axis 3);
       Scri.history := hist |}
    None (INR 0) (INR 3)
  = (Cx.abs2 (c (INR 2)) + Cx.abs2 (e (INR 2))
     + (Cx.abs2 (c (INR 1)) + Cx.abs2 (e (INR 1)))) / 2.
Proof.
  unfold windowed_power. cbn [Scri.t].
  rewrite (window_unit_axis 2).
  unfold trapz, Scri.norm, Np.rsum. cbn -[Cx.abs2 INR].
  rewrite !abs2_zero. cbn [INR]. field.
Qed.

Lemma sample_total_power (c e : R -> C) hist :
  (forall ti, c ti = Cx.zero) -> (forall ti, e ti = Cx.zero) ->
  trapz (Scri.norm
           {| Scri.t := unit_axis 3; Scri.ell_min := 2; Scri.ell_max := 2;
              Scri.data := map (fun ti => [Cx.zero; Cx.zero; c ti; Cx.zero; e ti])
                               (unit_axis 3);
              Scri.history := hist |})
        (unit_axis 3) = 0.
Proof.
  intros Hc He.
  unfold trapz, Scri.norm, Np.rsum. cbn -[Cx.abs2 INR].
  rewrite !Hc, !He, !abs2_zero. cbn [INR]. field.
Qed.

Lemma sample_units_independent a m :
  In m (map m_of [Sample.qnm_220 (Some a)]) ->
  independent_units (E := Reference.extern) (Scalar SampleFit.chi)
    (Scalar SampleFit.mass) 0
    (unit_axis 3) (Sf.LM_range 2 2) (block_terms m [Sample.qnm_220 (Some a)]).
Proof.
  intros [<-|[]]. apply (@independent_single _ _ _ _ _ _ _ 0%nat 4%nat).
  change (SampleFit.column Cx.one 0 <> Cx.zero).
  apply column_nonzero. intros H. apply (f_equal Cx.re) in H. cbn in H. lra.
Qed.

Lemma sample2_units_independent a b m :
  In m (map m_of [Sample.qnm_220 (Some a); Sample.qnm_200 (Some b)]) ->
  independent_units (E := Reference.extern) (Scalar SampleFit.chi)
    (Scalar SampleFit.mass) 0
    (unit_axis 3) (Sf.LM_range 2 2)
    (block_terms m [Sample.qnm_220 (Some a); Sample.qnm_200 (Some b)]).
Proof.
  assert (Hone : Cx.one <> Cx.zero)
    by (intros H; apply (f_equal Cx.re) in H; cbn in H; lra).
  intros [<-|[<-|[]]].
  - apply (@independent_single _ _ _ _ _ _ _ 0%nat 4%nat).
    change (SampleFit.column Cx.one 0 <> Cx.zero). now apply column_nonzero.
  - apply (@independent_single _ _ _ _ _ _ _ 0%nat 2%nat).
    change (SampleFit.column Cx.one 0 <> Cx.zero). now apply column_nonzero.
Qed.

Lemma a0_nonzero : SampleFit.a0 <> Cx.zero.
Proof. intros H. apply (f_equal Cx.re) in H. cbn in H. lra. Qed.

(** C1 as stated fails for a term of amplitude zero: the target is zero
    everywhere, the amplitude is recovered, and the normalised error and
    the mismatch are both [0 / 0], not a number. *)
Lemma fit_of_zero_target_has_no_scores :
  snd (qnm_modes (E := Reference.extern) (Scalar SampleFit.chi)
         (Scalar SampleFit.mass) [Sample.qnm_220 (Some Cx.zero)] 0 0
         (unit_axis 3) 2 2 None)
  = Ok (SampleFit.target Cx.zero)
  /\ exists res,
       fit_ringdown_waveform_LLSQ_S2 (E := Reference.extern)
         (SampleFit.target Cx.zero) None (INR 0, INR 3)
         (Scalar SampleFit.chi) (Scalar SampleFit.mass) (positional_dict 1) 0
         [Sample.qnm_220 None]
       = ([Sample.qnm_220 (Some Cx.zero)], Ok res)
       /\ fit_error res = None /\ fit_mismatch res = None.
Proof.
  split; [apply sample_is_synthesized|].
  eexists. split.
  - apply (@fit_run_without_power Reference.extern reference_lstsq_minimizes
             SampleFit.chi SampleFit.mass 0 (unit_axis 3) 2 ltac:(lia)
             [Sample.qnm_220 (Some Cx.zero)]
             ltac:(constructor; [split; [reflexivity | eexists; reflexivity]
                                | constructor])
             _ (sample_synthesis Cx.zero) (@sample_units_independent Cx.zero)
             (increasing_unit_axis 3)
             _ (INR 0, INR 3) reference_interpolate_exact (unit_axis_sorted 3)
             [Sample.qnm_220 None] 1%nat 3%nat).
    + constructor; [|constructor]. repeat split.
    + apply (window_unit_axis 2).
    + lia.
    + refine (eq_trans (sample_power (fun _ => Cx.zero)
                          (SampleFit.column Cx.zero) _) _).
      rewrite !column_zero, abs2_zero. lra.
    + apply (sample_total_power (fun _ => Cx.zero) (SampleFit.column Cx.zero));
        [reflexivity | apply column_zero].
  - split; reflexivity.
Qed.

(** ** The objects of the dictionary after the fit *)

(** After the loop over the azimuthal numbers the fitter only reads the
    term objects: the heap that the loop leaves is the heap of the end. *)
Lemma fit_final_heap (E : Extern) h_ring modes times chi_f M_f fixed_QNMs t_ref
    h h1 m_list h' :
  collect_m (values fixed_QNMs) [] h = (h1, Ok m_list) ->
  sfor m_list (fit_block h_ring modes times chi_f M_f fixed_QNMs t_ref) h1
  = (h', Ok tt) ->
  fst (fit_ringdown_waveform_LLSQ_S2 h_ring modes times chi_f M_f fixed_QNMs
         t_ref h) = h'.
Proof.
  intros Hc Hb. unfold fit_ringdown_waveform_LLSQ_S2.
  unfold sbind at 1. rewrite Hc. unfold sbind at 1. rewrite Hb.
  unfold sbind at 1. destruct (rmap _ _) as [terms|e]; [|reflexivity].
  unfold sbind at 1, slift at 1.
  destruct (snd (qnm_modes_as _ _ _ _ _ _ _)) as [h_QNM|e]; [|reflexivity].
  destruct (residual _ _ _ _) as [diff r].
  unfold sbind at 1, slift at 1. destruct r as [[]|e]; [|reflexivity].
  unfold sbind at 1, slift at 1. destruct (Np.trapezoid _ _) as [num|e]; [|reflexivity].
  unfold sbind at 1, slift at 1. destruct (Np.trapezoid _ _) as [den|e]; [|reflexivity].
  unfold sbind at 1, slift at 1.
  destruct (waveform_mismatch _ _ _ _ _) as [mm|e]; reflexivity.
Qed.

(** An exception of the loop over the azimuthal numbers is the outcome of
    the fit. *)
Lemma fit_raises_in_loop (E : Extern) h_ring modes times chi_f M_f fixed_QNMs t_ref
    h h1 m_list h' e :
  collect_m (values fixed_QNMs) [] h = (h1, Ok m_list) ->
  sfor m_list (fit_block h_ring modes times chi_f M_f fixed_QNMs t_ref) h1
  = (h', Raise e) ->
  fit_ringdown_waveform_LLSQ_S2 h_ring modes times chi_f M_f fixed_QNMs t_ref h
  = (h', Raise e).
Proof.
  intros Hc Hb. unfold fit_ringdown_waveform_LLSQ_S2.
  unfold sbind at 1. rewrite Hc. unfold sbind at 1. now rewrite Hb.
Qed.

(** The pass of [fit_block_run] for a target given by its fields. *)
Lemma fit_block_on (E : Extern) chi mass t_ref L terms0 h_ring times m fixed_QNMs h :
  lstsq_minimizes E -> (2 <= L)%Z ->
  Forall qnm_with_amp terms0 ->
  Scri.ell_min h_ring = 2%Z -> Scri.ell_max h_ring = L ->
  sfor terms0
    (add_term (Scalar chi) (Scalar mass) t_ref (Scri.t h_ring) (Sf.LM_range 2 L))
    (zeros (length (Scri.t h_ring)) (length (Sf.LM_range 2 L)))
  = (Scri.data h_ring, Ok tt) ->
  (forall m, In m (map m_of terms0) ->
     independent_units (Scalar chi) (Scalar mass) t_ref (Scri.t h_ring) (Sf.LM_range 2 L)
       (block_terms m terms0)) ->
  Scri.increasing (Scri.t h_ring) = true ->
  In m (map m_of terms0) ->
  values fixed_QNMs = seq 0 (length terms0) ->
  heap_frame terms0 h ->
  fit_block h_ring None times (Scalar chi) (Scalar mass) fixed_QNMs t_ref m h
  = write_back fixed_QNMs
      (map (fun i => (i, i)) (positions_of m terms0 0 (length terms0)))
      (map amp_or_zero (block_terms m terms0)) 0
      (fold_left (fun h i => update i (set_amp Cx.one) h)
                 (positions_of m terms0 0 (length terms0)) h).
Proof.
  destruct h_ring as [t lmin lmax D hist]. cbn [Scri.t Scri.ell_min Scri.ell_max Scri.data].
  intros Hls HL Hq -> -> Hsynth Hind Hinc Hm Hvalues Hf.
  exact (@fit_block_run E Hls chi mass t_ref t L HL terms0 Hq D Hsynth Hind Hinc hist
           times m Hm fixed_QNMs Hvalues h Hf).
Qed.

Lemma sample_terms_qnm a : Forall qnm_with_amp [Sample.qnm_220 (Some a)].
Proof. constructor; [|constructor]. split; [reflexivity | eexists; reflexivity]. Qed.

Lemma sample2_terms_qnm a b :
  Forall qnm_with_amp [Sample.qnm_220 (Some a); Sample.qnm_200 (Some b)].
Proof. repeat constructor; eexists; reflexivity. Qed.

Lemma sample_string_keyed a :
  fit_ringdown_waveform_LLSQ_S2 (E := Reference.extern)
    (SampleFit.target a) None (INR 0, INR 3)
    (Scalar SampleFit.chi) (Scalar SampleFit.mass) SampleFit.string_keyed 0
    [Sample.qnm_220 None]
  = ([Sample.qnm_220 (Some Cx.one)], Raise KeyError).
Proof.
  apply (@fit_raises_in_loop _ _ _ _ _ _ _ _ _ [Sample.qnm_220 None] [2%Z]);
    [reflexivity|].
  cbn [sfor]. unfold sbind at 1.
  rewrite (@fit_block_on Reference.extern SampleFit.chi SampleFit.mass 0 2
             [Sample.qnm_220 (Some a)]);
    [reflexivity | exact reference_lstsq_minimizes | lia | apply sample_terms_qnm
     | reflexivity | reflexivity | apply sample_synthesis
     | apply sample_units_independent | apply increasing_unit_axis
     | now left | reflexivity
     | repeat constructor].
Qed.

Lemma sample_swapped_keys a b :
  fst (fit_ringdown_waveform_LLSQ_S2 (E := Reference.extern)
         (SampleFit.target2 a b) None (INR 0, INR 3)
         (Scalar SampleFit.chi) (Scalar SampleFit.mass) SampleFit.swapped_keys 0
         [Sample.qnm_220 None; Sample.qnm_200 None])
  = [Sample.qnm_220 (Some b); Sample.qnm_200 (Some Cx.one)].
Proof.
  apply (@fit_final_heap _ _ _ _ _ _ _ _ _
           [Sample.qnm_220 None; Sample.qnm_200 None] [2%Z; 0%Z]);
    [reflexivity|].
  cbn [sfor]. unfold sbind at 1.
  rewrite (@fit_block_on Reference.extern SampleFit.chi SampleFit.mass 0 2
             [Sample.qnm_220 (Some a); Sample.qnm_200 (Some b)]);
    [ | exact reference_lstsq_minimizes | lia | apply sample2_terms_qnm
     | reflexivity | reflexivity | apply sample_synthesis2
     | apply sample2_units_independent | apply increasing_unit_axis
     | now left | reflexivity
     | repeat constructor].
  cbn -[fit_block]. unfold sbind at 1.
  rewrite (@fit_block_on Reference.extern SampleFit.chi SampleFit.mass 0 2
             [Sample.qnm_220 (Some a); Sample.qnm_200 (Some b)]);
    [reflexivity | exact reference_lstsq_minimizes | lia | apply sample2_terms_qnm
     | reflexivity | reflexivity | apply sample_synthesis2
     | apply sample2_units_independent | apply increasing_unit_axis
     | right; now left | reflexivity
     | repeat constructor].
Qed.

Lemma sample_positional_keys a b :
  fst (fit_ringdown_waveform_LLSQ_S2 (E := Reference.extern)
         (SampleFit.target2 a b) None (INR 0, INR 3)
         (Scalar SampleFit.chi) (Scalar SampleFit.mass) (positional_dict 2) 0
         [Sample.qnm_220 None; Sample.qnm_200 None])
  = [Sample.qnm_220 (Some a); Sample.qnm_200 (Some b)].
Proof.
  apply (@fit_final_heap _ _ _ _ _ _ _ _ _
           [Sample.qnm_220 None; Sample.qnm_200 None] [2%Z; 0%Z]);
    [reflexivity|].
  cbn [sfor]. unfold sbind at 1.
  rewrite (@fit_block_on Reference.extern SampleFit.chi SampleFit.mass 0 2
             [Sample.qnm_220 (Some a); Sample.qnm_200 (Some b)]);
    [ | exact reference_lstsq_minimizes | lia | apply sample2_terms_qnm
     | reflexivity | reflexivity | apply sample_synthesis2
     | apply sample2_units_independent | apply increasing_unit_axis
     | now left | reflexivity
     | repeat constructor].
  cbn -[fit_block]. unfold sbind at 1.
  rewrite (@fit_block_on Reference.extern SampleFit.chi SampleFit.mass 0 2
             [Sample.qnm_220 (Some a); Sample.qnm_200 (Some b)]);
    [reflexivity | exact reference_lstsq_minimizes | lia | apply sample2_terms_qnm
     | reflexivity | reflexivity | apply sample_synthesis2
     | apply sample2_units_independent | apply increasing_unit_axis
     | right; now left | reflexivity
     | repeat constructor].
Qed.

Lemma sample_fit_heap a :
  fst (fit_ringdown_waveform_LLSQ_S2 (E := Reference.extern)
         (SampleFit.target a) None (INR 0, INR 3)
         (Scalar SampleFit.chi) (Scalar SampleFit.mass) (positional_dict 1) 0
         [Sample.qnm_220 None])
  = [Sample.qnm_220 (Some a)].
Proof.
  apply (@fit_final_heap _ _ _ _ _ _ _ _ _ [Sample.qnm_220 None] [2%Z]);
    [reflexivity|].
  cbn [sfor]. unfold sbind at 1.
  rewrite (@fit_block_on Reference.extern SampleFit.chi SampleFit.mass 0 2
             [Sample.qnm_220 (Some a)]);
    [reflexivity | exact reference_lstsq_minimizes | lia | apply sample_terms_qnm
     | reflexivity | reflexivity | apply sample_synthesis
     | apply sample_units_independent | apply increasing_unit_axis
     | now left | reflexivity
     | repeat constructor].
Qed.

(** C2 as stated fails: the fitter works on the term objects of the caller.
    After the fit of the target of [{0: (2, 2, 0, +1)}] with amplitude
    [1e-2], the object that the caller passed without an amplitude holds
    the fitted amplitude. *)
Lemma fit_changes_the_input_terms :
  fst (fit_ringdown_waveform_LLSQ_S2 (E := Reference.extern)
         (SampleFit.target SampleFit.a0) None (INR 0, INR 3)
         (Scalar SampleFit.chi) (Scalar SampleFit.mass) (positional_dict 1) 0
         [Sample.qnm_220 None])
  = [Sample.qnm_220 (Some SampleFit.a0)]
  /\ [Sample.qnm_220 (Some SampleFit.a0)] <> [Sample.qnm_220 None].
Proof.
  split; [apply sample_fit_heap | discriminate].
Qed.

(** C3 (what the code does instead). The write-back [fixed_QNMs[i]["A"]]
    takes the position [i] of the term in the iteration order for its key.
    With the key ["a"] the fit of a one-term target raises KeyError, after
    the unit amplitude was stored in the term. With the keys [{1: ., 0: .}]
    on the terms (2, 2, 0, +1) and (2, 0, 0, +1) of a target built with the
    amplitudes [a] and [b], the amplitude [b] of the second term is stored
    in the first and the second keeps the unit amplitude; with the keys
    [{0: ., 1: .}] the same terms get [a] and [b]. *)
Theorem write_back_takes_positions_for_keys (a b : C) :
  fit_ringdown_waveform_LLSQ_S2 (E := Reference.extern)
    (SampleFit.target a) None (INR 0, INR 3)
    (Scalar SampleFit.chi) (Scalar SampleFit.mass) SampleFit.string_keyed 0
    [Sample.qnm_220 None]
  = ([Sample.qnm_220 (Some Cx.one)], Raise KeyError)
  /\ fst (fit_ringdown_waveform_LLSQ_S2 (E := Reference.extern)
            (SampleFit.target2 a b) None (INR 0, INR 3)
            (Scalar SampleFit.chi) (Scalar SampleFit.mass) SampleFit.swapped_keys 0
            [Sample.qnm_220 None; Sample.qnm_200 None])
     = [Sample.qnm_220 (Some b); Sample.qnm_200 (Some Cx.one)]
  /\ fst (fit_ringdown_waveform_LLSQ_S2 (E := Reference.extern)
            (SampleFit.target2 a b) None (INR 0, INR 3)
            (Scalar SampleFit.chi) (Scalar SampleFit.mass) (positional_dict 2) 0
            [Sample.qnm_220 None; Sample.qnm_200 None])
     = [Sample.qnm_220 (Some a); Sample.qnm_200 (Some b)].
Proof.
  split; [apply sample_string_keyed|].
  split; [apply sample_swapped_keys | apply sample_positional_keys].
Qed.

(* ===================================================================== *)
(** * Further properties of the module *)
(* ===================================================================== *)

(** ** Loops *)

Lemma sfor_ext_in {S X} (xs : list X) (body body' : X -> St S unit) :
  (forall x, In x xs -> forall s, body x s = body' x s) ->
  forall s, sfor xs body s = sfor xs body' s.
Proof.
  induction xs as [|x xs IH]; intros H s; [reflexivity|].
  cbn [sfor]. unfold sbind. rewrite (H x (or_introl eq_refl)).
  destruct (body' x s) as [s' [[]|e]]; [|reflexivity].
  apply IH. intros y Hy. apply H. now right.
Qed.

Lemma sfor_preserves {S X} (P : S -> Prop) (xs : list X) (body : X -> St S unit) :
  (forall x s, P s -> P (fst (body x s))) ->
  forall s, P s -> P (fst (sfor xs body s)).
Proof.
  intros H. induction xs as [|x xs IH]; intros s Hs; [exact Hs|].
  cbn [sfor]. unfold sbind. specialize (H x s Hs).
  destruct (body x s) as [s' [[]|e]]; cbn [fst] in *; [now apply IH | exact H].
Qed.

Lemma sbind_preserves {S A B} (P : S -> Prop) (c : St S A) (k : A -> St S B) s :
  P (fst (c s)) -> (forall a s', P s' -> P (fst (k a s'))) ->
  P (fst (sbind c k s)).
Proof.
  intros Hc Hk. unfold sbind. destruct (c s) as [s' [a|e]]; cbn [fst] in *;
    [now apply Hk | exact Hc].
Qed.

(** ** The synthesizer only sees time differences *)

Lemma expiwt_at_shift w t_ref ti delta :
  expiwt_at w (t_ref + delta) (ti + delta) = expiwt_at w t_ref ti.
Proof.
  unfold expiwt_at. do 3 f_equal. ring.
Qed.

Lemma add_term_shift (E : Extern) chi mass t_ref t LM delta tm d :
  add_term chi mass (t_ref + delta) (map (fun x => x + delta) t) LM tm d
  = add_term chi mass t_ref t LM tm d.
Proof.
  unfold add_term, sbind, slift.
  destruct (getitem (ty tm)) as [type|e]; [|reflexivity].
  destruct (String.eqb type "QNM").
  - destruct chi as [chi_value|chis], mass as [mass_value|masses];
      try (rewrite length_map; apply sfor_ext_in; intros i Hi s;
           apply in_seq in Hi;
           destruct (param_at _ i) as [chi_i|e]; [|reflexivity];
           destruct (param_at _ i) as [mass_i|e]; [|reflexivity];
           destruct (getitem (mode tm)) as [[[[ell m] n] sign]|e]; [|reflexivity];
           destruct (qnm_from_tuple _ _ _ _) as [[[w Cs] ells]|e]; [|reflexivity];
           destruct (getitem (amp tm)) as [A|e]; [|reflexivity];
           rewrite (@nth_map_in _ _ (fun x => x + delta) t i 0 0) by lia;
           now rewrite expiwt_at_shift).
    destruct (getitem (mode tm)) as [[[[ell m] n] sign]|e]; [|reflexivity].
    destruct (qnm_from_tuple _ _ _ _) as [[[w Cs] ells]|e]; [|reflexivity].
    destruct (getitem (amp tm)) as [A|e]; [|reflexivity].
    rewrite map_map.
    now rewrite (map_ext _ _ (fun ti => expiwt_at_shift w t_ref ti delta)).
  - destruct (String.eqb type "other"); [|reflexivity].
    destruct (getitem (omega tm)) as [w|e]; [|reflexivity].
    destruct (getitem (amp tm)) as [A|e]; [|reflexivity].
    destruct (getitem (target_mode tm)) as [[tl tmm]|e]; [|reflexivity].
    destruct (min_ell LM) as [lmin|e]; [|reflexivity].
    destruct (Np.index _ _) as [j|e]; [|reflexivity].
    rewrite map_map.
    rewrite (map_ext _ (fun ti => Cx.mul A (expiwt_at w t_ref ti))); [reflexivity|].
    intros ti. now rewrite expiwt_at_shift.
Qed.

(** X1. Over exact arithmetic (the sample times are real numbers here, not
    doubles, so that [(t + delta) - (t_ref + delta)] is [t - t_ref]), the
    synthesizer reads the time axis and [t_ref] through the differences
    [t - t_ref] only: moving both by the same [delta] changes neither the
    data (or the exception) nor what is left in a destination buffer, for
    every dictionary, scalar or per-sample spin and mass. *)
Theorem qnm_modes_time_shift (E : Extern) chi mass mode_dict t_0 t_ref t lmin lmax
    dest delta :
  fst (qnm_modes chi mass mode_dict t_0 (t_ref + delta)
         (map (fun x => x + delta) t) lmin lmax dest)
  = fst (qnm_modes chi mass mode_dict t_0 t_ref t lmin lmax dest)
  /\ result_map Scri.data
       (snd (qnm_modes chi mass mode_dict t_0 (t_ref + delta)
               (map (fun x => x + delta) t) lmin lmax dest))
     = result_map Scri.data
         (snd (qnm_modes chi mass mode_dict t_0 t_ref t lmin lmax dest)).
Proof.
  unfold qnm_modes, Scri.modes_constructor, sbind, sret.
  assert (Hdf : data_functor chi mass (t_ref + delta) (map (fun x => x + delta) t)
                  (Sf.LM_range lmin lmax) mode_dict dest
                = data_functor chi mass t_ref t (Sf.LM_range lmin lmax) mode_dict dest).
  { unfold data_functor. rewrite length_map. cbn [fst snd].
    rewrite (sfor_ext_in mode_dict _
               (add_term chi mass t_ref t (Sf.LM_range lmin lmax)));
      [reflexivity|].
    intros tm _ s. apply add_term_shift. }
  rewrite Hdf. clear Hdf.
  rewrite (increasing_map (fun x => x + delta)) by (intros x y; lra).
  destruct (data_functor _ _ _ _ _ _ _) as [d [m|e]];
    destruct (Scri.increasing t); split; reflexivity.
Qed.

(** ** The shape of the synthesized array *)

Lemma cell_add_shape T N i j x d :
  has_shape T N d -> has_shape T N (cell_add i j x d).
Proof.
  intros [Hl Hr]. unfold cell_add.
  rewrite <- (firstn_skipn i d) in Hr. apply Forall_app in Hr.
  destruct Hr as [Hfirst Hskip]. split.
  - rewrite <- Hl. rewrite <- (firstn_skipn i d) at 3. rewrite !length_app. f_equal.
    destruct (skipn i d); reflexivity.
  - apply Forall_app. split; [exact Hfirst|].
    destruct (skipn i d) as [|row rest]; [constructor|].
    apply Forall_cons_iff in Hskip. destruct Hskip as [Hrow Hrest].
    constructor; [|exact Hrest]. now rewrite row_add_at_length.
Qed.

Section SynthShape.

Context {E : Extern}.
Variables (chi mass : param) (t_ref : R) (t : list R) (LM : list (Z * Z)).

Let T := length t.
Let N := length LM.

Lemma add_qnm_column_shape m A expiwt Cs ells lm d :
  has_shape T N d ->
  has_shape T N (fst (add_qnm_column LM m A expiwt Cs ells lm d)).
Proof.
  intros Hd. unfold add_qnm_column. destruct lm as [l m'].
  destruct (m' =? m)%Z; [|exact Hd].
  unfold sbind, slift.
  destruct (mask_select Cs ells l) as [c_l|e]; [|exact Hd].
  destruct (min_ell LM) as [lmin|e]; [|exact Hd].
  destruct (Np.index _ _) as [j|e]; [|exact Hd].
  destruct c_l as [|c c_l].
  - destruct (length expiwt =? 0)%nat; exact Hd.
  - cbn [fst]. now apply col_add_shape.
Qed.

Lemma add_qnm_cell_shape i m A e Cs ells lm d :
  has_shape T N d ->
  has_shape T N (fst (add_qnm_cell LM i m A e Cs ells lm d)).
Proof.
  intros Hd. unfold add_qnm_cell. destruct lm as [l m'].
  destruct (m' =? m)%Z; [|exact Hd].
  unfold sbind, slift.
  destruct (mask_select Cs ells l) as [c_l|e0]; [|exact Hd].
  destruct (min_ell LM) as [lmin|e0]; [|exact Hd].
  destruct (Np.index _ _) as [j|e0]; [|exact Hd].
  destruct c_l as [|c c_l]; [exact Hd|].
  cbn [fst]. now apply cell_add_shape.
Qed.

(** Every pass of the loop over the terms keeps the shape of the array,
    whether it returns or raises. *)
Lemma add_term_shape tm d :
  has_shape T N d -> has_shape T N (fst (add_term chi mass t_ref t LM tm d)).
Proof.
  intros Hd. unfold add_term.
  apply sbind_preserves; [exact Hd | intros type d1 Hd1].
  destruct (String.eqb type "QNM").
  - assert (Hps : has_shape T N
        (fst (sfor (seq 0 (length t)) (fun i =>
          sbind (slift (param_at chi i)) (fun chi_value =>
          sbind (slift (param_at mass i)) (fun mass_value =>
          sbind (slift (getitem (mode tm))) (fun '(ell, m, n, sign) =>
          sbind (slift (qnm_from_tuple (ell, m, n, sign) chi_value mass_value (-2)))
                (fun '(omega, Cs, ells) =>
          sbind (slift (getitem (amp tm))) (fun A =>
          add_qnm_cells LM i m A (expiwt_at omega t_ref (nth i t 0%R)) Cs ells))))))
          d1))).
    { apply sfor_preserves; [|exact Hd1]. intros i d2 Hd2.
      apply sbind_preserves; [exact Hd2 | intros chi_value d3 Hd3].
      apply sbind_preserves; [exact Hd3 | intros mass_value d4 Hd4].
      apply sbind_preserves; [exact Hd4 | intros [[[ell m] n] sign] d5 Hd5].
      apply sbind_preserves; [exact Hd5 | intros [[w Cs] ells] d6 Hd6].
      apply sbind_preserves; [exact Hd6 | intros A d7 Hd7].
      unfold add_qnm_cells. apply sfor_preserves; [|exact Hd7].
      intros lm d8 Hd8. now apply add_qnm_cell_shape. }
    destruct chi as [chi_value|chis], mass as [mass_value|masses]; try exact Hps.
    apply sbind_preserves; [exact Hd1 | intros [[[ell m] n] sign] d2 Hd2].
    apply sbind_preserves; [exact Hd2 | intros [[w Cs] ells] d3 Hd3].
    apply sbind_preserves; [exact Hd3 | intros A d4 Hd4].
    unfold add_qnm_columns. apply sfor_preserves; [|exact Hd4].
    intros lm d5 Hd5. now apply add_qnm_column_shape.
  - destruct (String.eqb type "other"); [|exact Hd1].
    apply sbind_preserves; [exact Hd1 | intros w d2 Hd2].
    apply sbind_preserves; [exact Hd2 | intros A d3 Hd3].
    apply sbind_preserves; [exact Hd3 | intros [tl tmm] d4 Hd4].
    apply sbind_preserves; [exact Hd4 | intros lmin d5 Hd5].
    apply sbind_preserves; [exact Hd5 | intros j d6 Hd6].
    cbn [fst]. now apply col_add_shape.
Qed.

Lemma synth_shape terms d :
  has_shape T N d ->
  has_shape T N (fst (sfor terms (add_term chi mass t_ref t LM) d)).
Proof.
  apply sfor_preserves. intros tm d1. apply add_term_shape.
Qed.

End SynthShape.

(** X2. A waveform returned by [qnm_modes_as] has the structure of
    [W_other]: its time axis and its mode range, and a data array with one
    row per time sample and one column per mode, for every dictionary, for
    scalar and per-sample spin and mass, with or without a destination
    buffer. *)
Theorem qnm_modes_as_structure (E : Extern) chi mass mode_dict W_other t_0 t_ref
    dest h :
  snd (qnm_modes_as chi mass mode_dict W_other t_0 t_ref dest) = Ok h ->
  Scri.t h = Scri.t W_other
  /\ Scri.ell_min h = Scri.ell_min W_other
  /\ Scri.ell_max h = Scri.ell_max W_other
  /\ well_shaped h.
Proof.
  unfold qnm_modes_as, qnm_modes, Scri.modes_constructor, sbind, sret.
  set (LM := Sf.LM_range (Scri.ell_min W_other) (Scri.ell_max W_other)).
  pose proof (@synth_shape E chi mass t_ref (Scri.t W_other) LM mode_dict
                (zeros (length (Scri.t W_other)) (length LM))
                (has_shape_zeros _ _)) as Hs.
  unfold data_functor. cbn [fst snd].
  destruct (sfor mode_dict _ _) as [d r]. cbn [fst] in Hs.
  assert (Hgoal : forall d', Ok {| Scri.t := Scri.t W_other;
                                   Scri.ell_min := Scri.ell_min W_other;
                                   Scri.ell_max := Scri.ell_max W_other;
                                   Scri.data := d;
                                   Scri.history := d' |} = Ok h ->
            Scri.t h = Scri.t W_other
            /\ Scri.ell_min h = Scri.ell_min W_other
            /\ Scri.ell_max h = Scri.ell_max W_other
            /\ well_shaped h).
  { intros d' [= <-]. cbn. repeat split; apply Hs. }
  destruct dest as [buf|].
  - destruct (negb _ || negb _); [discriminate|].
    destruct r as [[]|e]; cbn [rbind snd]; [|discriminate].
    destruct (Scri.increasing _); [apply Hgoal | discriminate].
  - destruct r as [[]|e]; cbn [rbind snd]; [|discriminate].
    destruct (Scri.increasing _); [apply Hgoal | discriminate].
Qed.

(** The statement of [qnm_modes_as_structure] for the dictionary
    [{0: other_22}] laid out like three steady samples. *)
Lemma qnm_modes_as_structure_witness :
  exists h,
    snd (qnm_modes_as (E := Reference.extern) (Scalar (7 / 10)) (Scalar 1)
           [Sample.other_22] (SampleWaves.steady 3) 0 0 None) = Ok h
    /\ Scri.t h = unit_axis 3 /\ well_shaped h.
Proof.
  assert (Hrun : exists h,
             snd (qnm_modes_as (E := Reference.extern) (Scalar (7 / 10)) (Scalar 1)
                    [Sample.other_22] (SampleWaves.steady 3) 0 0 None) = Ok h).
  { unfold qnm_modes_as.
    rewrite qnm_modes_increasing by apply increasing_unit_axis.
    eexists. py_eval. reflexivity. }
  destruct Hrun as [h Hrun]. exists h. split; [exact Hrun|].
  destruct (@qnm_modes_as_structure Reference.extern (Scalar (7 / 10))
              (Scalar 1) [Sample.other_22] (SampleWaves.steady 3) 0 0 None h Hrun)
    as (Ht & _ & _ & Hw).
  split; [exact Ht | exact Hw].
Defined.

(** ** Every term adds its own waveform *)

Lemma entry_cell_add T N i j x d i' k :
  has_shape T N d ->
  entry (cell_add i j x d) i' k =
  if (i' =? i)%nat && (k =? j)%nat && (j <? N)%nat && (i <? T)%nat
  then Cx.add (entry d i' k) x else entry d i' k.
Proof.
  intros [Hl Hr]. unfold entry, cell_add.
  destruct (Nat.ltb_spec i T) as [Hi|Hi].
  2:{ rewrite andb_false_r. rewrite skipn_all2 by lia.
      rewrite firstn_all2 by lia. now rewrite app_nil_r. }
  rewrite andb_true_r.
  assert (Hsplit : d = firstn i d ++ nth i d [] :: skipn (S i) d).
  { rewrite <- (firstn_skipn i d) at 1. f_equal.
    rewrite <- Hl in Hi. clear - Hi. revert i Hi.
    induction d as [|row d IH]; intros [|i] Hi; cbn in *; try lia; try reflexivity.
    apply IH. lia. }
  assert (Hsk : skipn i d = nth i d [] :: skipn (S i) d).
  { rewrite Hsplit at 1. rewrite skipn_app, skipn_firstn_comm.
    rewrite Nat.sub_diag. cbn [firstn app].
    rewrite length_firstn. replace (i - Nat.min i (length d))%nat with 0%nat by lia.
    reflexivity. }
  rewrite Hsk.
  assert (Hrow : length (nth i d []) = N).
  { rewrite Forall_forall in Hr. apply Hr. apply nth_In. lia. }
  destruct (Nat.eqb_spec i' i) as [->|Hne].
  - rewrite app_nth2 by (rewrite length_firstn; lia).
    rewrite length_firstn. replace (i - Nat.min i (length d))%nat with 0%nat by lia.
    cbn [nth andb]. rewrite row_add_at_nth. now rewrite Hrow.
  - cbn [andb].
    destruct (Nat.lt_ge_cases i' i) as [Hlt|Hge].
    + rewrite app_nth1 by (rewrite length_firstn; lia).
      rewrite nth_firstn. now destruct (Nat.ltb_spec i' i); [|lia].
    + rewrite app_nth2 by (rewrite length_firstn; lia).
      rewrite length_firstn. replace (Nat.min i (length d)) with i by lia.
      destruct (i' - i)%nat as [|r] eqn:Hr'; [lia|]. cbn [nth].
      rewrite nth_skipn. do 2 f_equal. lia.
Qed.

Lemma additive_sret T N : additive T N (sret tt).
Proof.
  split; [|split]; intros; unfold sret; cbn [fst snd]; try assumption.
  - reflexivity.
  - now rewrite entry_zeros, add_zero_r.
Qed.

Lemma additive_sraise T N e : additive T N (sraise e).
Proof.
  split; [|split]; intros; unfold sraise in *; cbn [fst snd] in *;
    try assumption; [reflexivity | discriminate].
Qed.

Lemma additive_lift_bind T N {X} (r : result X) (k : X -> St Np.matrix unit) :
  (forall a, additive T N (k a)) -> additive T N (sbind (slift r) k).
Proof.
  intros Hk. destruct r as [a|e].
  - exact (Hk a).
  - apply additive_sraise.
Qed.

Lemma additive_seq T N (c1 c2 : St Np.matrix unit) :
  additive T N c1 -> additive T N c2 -> additive T N (sbind c1 (fun _ => c2)).
Proof.
  intros (Hr1 & Hs1 & He1) (Hr2 & Hs2 & He2). unfold sbind. split; [|split].
  - intros d d' Hd Hd'. specialize (Hr1 d d' Hd Hd').
    pose proof (Hs1 d Hd) as Hsd. pose proof (Hs1 d' Hd') as Hsd'.
    destruct (c1 d) as [d1 [[]|e]], (c1 d') as [d1' [[]|e']];
      cbn [fst snd] in *; try discriminate; try assumption.
    now apply Hr2.
  - intros d Hd. pose proof (Hs1 d Hd) as Hsd.
    destruct (c1 d) as [d1 [[]|e]]; cbn [fst] in *; [now apply Hs2 | assumption].
  - intros d Hd Hok i k.
    pose proof (Hs1 d Hd) as Hsd. pose proof (He1 d Hd) as Hed.
    pose proof (Hr1 d (zeros T N) Hd (has_shape_zeros T N)) as Hrz.
    pose proof (Hs1 _ (has_shape_zeros T N)) as Hsz.
    pose proof (He1 _ (has_shape_zeros T N)) as Hez.
    destruct (c1 d) as [d1 [[]|e]]; [|discriminate].
    destruct (c1 (zeros T N)) as [z1 [[]|e]]; [|discriminate].
    cbn [fst snd] in *.
    rewrite (He2 d1 Hsd Hok).
    assert (Hokz : snd (c2 z1) = Ok tt) by (rewrite <- Hok; now apply Hr2).
    rewrite (He2 z1 Hsz Hokz), (Hed eq_refl).
    now rewrite cadd_assoc.
Qed.

Lemma additive_sfor T N {X} (xs : list X) (body : X -> St Np.matrix unit) :
  (forall x, additive T N (body x)) -> additive T N (sfor xs body).
Proof.
  intros Hb. induction xs as [|x xs IH]; cbn [sfor]; [apply additive_sret|].
  apply additive_seq; [apply Hb | exact IH].
Qed.

Lemma additive_col_add T N j v :
  length v = T -> additive T N (fun d => (col_add j v d, Ok tt)).
Proof.
  intros Hv. split; [|split]; cbn [fst snd].
  - reflexivity.
  - intros. now apply col_add_shape.
  - intros d Hd _ i k.
    rewrite (@entry_col_add T N) by assumption.
    rewrite (@entry_col_add T N) by (try assumption; apply has_shape_zeros).
    rewrite entry_zeros.
    destruct ((k =? j)%nat && (j <? N)%nat && (i <? T)%nat).
    + now rewrite add_zero_l.
    + now rewrite add_zero_r.
Qed.

Lemma additive_cell_add T N i j x :
  additive T N (fun d => (cell_add i j x d, Ok tt)).
Proof.
  split; [|split]; cbn [fst snd].
  - reflexivity.
  - intros. now apply cell_add_shape.
  - intros d Hd _ i' k.
    rewrite (@entry_cell_add T N) by assumption.
    rewrite (@entry_cell_add T N) by apply has_shape_zeros.
    rewrite entry_zeros.
    destruct ((i' =? i)%nat && (k =? j)%nat && (j <? N)%nat && (i <? T)%nat).
    + now rewrite add_zero_l.
    + now rewrite add_zero_r.
Qed.

Lemma additive_add_term (E : Extern) chi mass t_ref t LM tm :
  additive (length t) (length LM) (add_term chi mass t_ref t LM tm).
Proof.
  unfold add_term. apply additive_lift_bind. intros type.
  destruct (String.eqb type "QNM").
  - assert (Hps : additive (length t) (length LM)
        (sfor (seq 0 (length t)) (fun i =>
          sbind (slift (param_at chi i)) (fun chi_value =>
          sbind (slift (param_at mass i)) (fun mass_value =>
          sbind (slift (getitem (mode tm))) (fun '(ell, m, n, sign) =>
          sbind (slift (qnm_from_tuple (ell, m, n, sign) chi_value mass_value (-2)))
                (fun '(omega, Cs, ells) =>
          sbind (slift (getitem (amp tm))) (fun A =>
          add_qnm_cells LM i m A (expiwt_at omega t_ref (nth i t 0%R)) Cs ells)))))))).
    { apply additive_sfor. intros i.
      apply additive_lift_bind. intros chi_value.
      apply additive_lift_bind. intros mass_value.
      apply additive_lift_bind. intros [[[ell m] n] sign].
      apply additive_lift_bind. intros [[w Cs] ells].
      apply additive_lift_bind. intros A.
      unfold add_qnm_cells. apply additive_sfor. intros [l m'].
      unfold add_qnm_cell. destruct (m' =? m)%Z; [|apply additive_sret].
      apply additive_lift_bind. intros c_l.
      apply additive_lift_bind. intros lmin.
      apply additive_lift_bind. intros j.
      destruct c_l as [|c c_l]; [apply additive_sraise | apply additive_cell_add]. }
    destruct chi as [chi_value|chis], mass as [mass_value|masses]; try exact Hps.
    apply additive_lift_bind. intros [[[ell m] n] sign].
    apply additive_lift_bind. intros [[w Cs] ells].
    apply additive_lift_bind. intros A.
    unfold add_qnm_columns. apply additive_sfor. intros [l m'].
    unfold add_qnm_column. destruct (m' =? m)%Z; [|apply additive_sret].
    apply additive_lift_bind. intros c_l.
    apply additive_lift_bind. intros lmin.
    apply additive_lift_bind. intros j.
    destruct c_l as [|c c_l].
    + destruct (_ =? 0)%nat; [apply additive_sret | apply additive_sraise].
    + apply additive_col_add. now rewrite !length_map.
  - destruct (String.eqb type "other"); [|apply additive_sraise].
    apply additive_lift_bind. intros w.
    apply additive_lift_bind. intros A.
    apply additive_lift_bind. intros [tl tmm].
    apply additive_lift_bind. intros lmin.
    apply additive_lift_bind. intros j.
    apply additive_col_add. now rewrite length_map.
Qed.

Lemma mat_add_shape T N a b :
  has_shape T N a -> has_shape T N b -> has_shape T N (mat_add a b).
Proof.
  intros [Hla Hra] [Hlb Hrb]. unfold mat_add. split.
  - rewrite length_map, length_combine. lia.
  - apply Forall_forall. intros row Hrow. apply in_map_iff in Hrow.
    destruct Hrow as ([ra rb] & <- & Hin). cbn [fst snd].
    rewrite length_map, length_combine.
    rewrite Forall_forall in Hra, Hrb.
    rewrite (Hra ra (in_combine_l _ _ _ _ Hin)), (Hrb rb (in_combine_r _ _ _ _ Hin)).
    lia.
Qed.

Lemma entry_mat_add T N a b i k :
  has_shape T N a -> has_shape T N b -> (i < T)%nat -> (k < N)%nat ->
  entry (mat_add a b) i k = Cx.add (entry a i k) (entry b i k).
Proof.
  intros [Hla Hra] [Hlb Hrb] Hi Hk. unfold entry, mat_add.
  rewrite (@nth_map_in _ _ _ (combine a b) i ([], []) [])
    by (rewrite length_combine; lia).
  rewrite (combine_nth a b i [] []) by lia. cbn [fst snd].
  assert (Ha : length (nth i a []) = N)
    by (rewrite Forall_forall in Hra; apply Hra, nth_In; lia).
  assert (Hb : length (nth i b []) = N)
    by (rewrite Forall_forall in Hrb; apply Hrb, nth_In; lia).
  rewrite (@nth_map_in _ _ _ (combine (nth i a []) (nth i b [])) k
             (Cx.zero, Cx.zero) Cx.zero)
    by (rewrite length_combine; lia).
  rewrite (combine_nth (nth i a []) (nth i b []) k Cx.zero Cx.zero) by lia.
  reflexivity.
Qed.

Section Superposition.

Context {E : Extern}.
Variables (chi mass : param) (t_ref : R) (t : list R) (LM : list (Z * Z)).

Let T := length t.
Let N := length LM.
Let run := add_term chi mass t_ref t LM.

Lemma synth_additive terms : additive T N (sfor terms run).
Proof. apply additive_sfor. intros tm. apply additive_add_term. Qed.

Lemma synth_concat terms1 terms2 D1 D2 :
  sfor terms1 run (zeros T N) = (D1, Ok tt) ->
  sfor terms2 run (zeros T N) = (D2, Ok tt) ->
  sfor (terms1 ++ terms2) run (zeros T N) = (mat_add D1 D2, Ok tt).
Proof.
  intros H1 H2. rewrite sfor_app, H1.
  destruct (synth_additive terms1) as (_ & Hs1 & _).
  destruct (synth_additive terms2) as (Hr2 & Hs2 & He2).
  pose proof (Hs1 _ (has_shape_zeros T N)) as HD1. rewrite H1 in HD1. cbn [fst] in HD1.
  pose proof (Hs2 _ (has_shape_zeros T N)) as HD2. rewrite H2 in HD2. cbn [fst] in HD2.
  pose proof (Hr2 D1 (zeros T N) HD1 (has_shape_zeros T N)) as Hr.
  pose proof (Hs2 D1 HD1) as Hs. pose proof (He2 D1 HD1) as He.
  rewrite H2 in Hr, He. cbn [fst snd] in Hr, He.
  destruct (sfor terms2 run D1) as [D r]. cbn [fst snd] in *. subst r.
  f_equal. apply (@matrix_ext T N); [assumption | now apply mat_add_shape |].
  intros i k Hi Hk. rewrite (He eq_refl).
  now rewrite (@entry_mat_add T N).
Qed.

Lemma synth_permutation terms terms' :
  Permutation terms terms' ->
  forall d D, has_shape T N d ->
    sfor terms run d = (D, Ok tt) -> sfor terms' run d = (D, Ok tt).
Proof.
  induction 1 as [|x l l' Hp IH|x y l|l l' l'' Hp1 IH1 Hp2 IH2]; intros d D Hd Hrun.
  - exact Hrun.
  - cbn [sfor] in *. unfold sbind in *.
    destruct (additive_add_term E chi mass t_ref t LM x) as (_ & Hs & _).
    specialize (Hs d Hd). fold run in Hs.
    destruct (run x d) as [d1 [[]|e]]; [|discriminate]. now apply IH.
  - cbn [sfor] in *. unfold sbind in *.
    destruct (additive_add_term E chi mass t_ref t LM x) as (Hrx & Hsx & Hex).
    destruct (additive_add_term E chi mass t_ref t LM y) as (Hry & Hsy & Hey).
    fold run in Hrx, Hsx, Hex, Hry, Hsy, Hey.
    pose proof (Hsy d Hd) as Hy1. pose proof (Hey d Hd) as Hye1.
    destruct (run y d) as [dy [[]|e]] eqn:Hyd; [|discriminate]. cbn [fst snd] in *.
    pose proof (Hsx dy Hy1) as Hx2. pose proof (Hex dy Hy1) as Hxe2.
    pose proof (Hrx dy d Hy1 Hd) as Hxr.
    destruct (run x dy) as [dyx [[]|e]] eqn:Hxdy; [|discriminate]. cbn [fst snd] in *.
    pose proof (Hsx d Hd) as Hx1. pose proof (Hex d Hd) as Hxe1.
    destruct (run x d) as [dx r] eqn:Hxd. cbn [fst snd] in *. subst r.
    pose proof (Hsy dx Hx1) as Hy2. pose proof (Hey dx Hx1) as Hye2.
    pose proof (Hry dx d Hx1 Hd) as Hyr. rewrite Hyd in Hyr.
    destruct (run y dx) as [dxy r] eqn:Hydx. cbn [fst snd] in *. subst r.
    replace dxy with dyx; [exact Hrun|].
    apply (@matrix_ext T N); try assumption.
    intros i k _ _.
    rewrite (Hxe2 eq_refl), (Hye1 eq_refl), (Hye2 eq_refl), (Hxe1 eq_refl).
    rewrite <- !cadd_assoc. f_equal. apply cadd_comm.
  - apply IH2; [exact Hd|]. now apply IH1.
Qed.

End Superposition.

(** X3. Superposition, over exact arithmetic (the complex numbers are pairs
    of real numbers here, not of doubles, so that sums may be regrouped):
    when two dictionaries are synthesized without error on the same time
    axis and mode range, the dictionary that holds the terms of the first
    followed by the terms of the second is synthesized without error and
    its data are the entrywise sum of the two, for terms of both types and
    for scalar and per-sample spin and mass. *)
Theorem qnm_modes_superposition (E : Extern) chi mass terms1 terms2 t_0 t_ref t
    lmin lmax h1 h2 :
  snd (qnm_modes chi mass terms1 t_0 t_ref t lmin lmax None) = Ok h1 ->
  snd (qnm_modes chi mass terms2 t_0 t_ref t lmin lmax None) = Ok h2 ->
  exists h,
    snd (qnm_modes chi mass (terms1 ++ terms2) t_0 t_ref t lmin lmax None) = Ok h
    /\ Scri.data h = mat_add (Scri.data h1) (Scri.data h2).
Proof.
  intros H1 H2. pose proof (qnm_modes_returns_sorted _ _ _ _ _ _ _ _ _ H1) as Hinc.
  rewrite qnm_modes_sorted in H1, H2 by exact Hinc.
  rewrite qnm_modes_sorted by exact Hinc. cbn [snd] in *.
  destruct (sfor terms1 _ _) as [D1 [[]|e1]] eqn:Hrun1; [|discriminate].
  destruct (sfor terms2 _ _) as [D2 [[]|e2]] eqn:Hrun2; [|discriminate].
  injection H1 as <-. injection H2 as <-.
  rewrite (@synth_concat E chi mass t_ref t _ terms1 terms2 D1 D2 Hrun1 Hrun2).
  eexists. split; reflexivity.
Qed.

(** X4. Over exact arithmetic (the complex numbers are pairs of real
    numbers here, not of doubles, so that sums may be reordered), the order
    of the terms in the dictionary does not matter: a dictionary that holds
    the same terms in another order is synthesized to the same waveform. *)
Theorem qnm_modes_order_irrelevant (E : Extern) chi mass terms terms' t_0 t_ref t
    lmin lmax h :
  Permutation terms terms' ->
  snd (qnm_modes chi mass terms t_0 t_ref t lmin lmax None) = Ok h ->
  snd (qnm_modes chi mass terms' t_0 t_ref t lmin lmax None) = Ok h.
Proof.
  intros Hp H. pose proof (qnm_modes_returns_sorted _ _ _ _ _ _ _ _ _ H) as Hinc.
  rewrite qnm_modes_sorted in H by exact Hinc.
  rewrite qnm_modes_sorted by exact Hinc. cbn [snd] in *.
  destruct (sfor terms _ _) as [D [[]|e]] eqn:Hrun; [|discriminate].
  now rewrite (@synth_permutation E chi mass t_ref t _ terms terms' Hp _ D
                 (has_shape_zeros _ _) Hrun).
Qed.

Lemma sample_other_synthesized :
  exists h,
    snd (qnm_modes (E := Reference.extern) (Scalar SampleFit.chi)
           (Scalar SampleFit.mass) [Sample.other_22] 0 0 (unit_axis 3) 2 2 None)
    = Ok h.
Proof.
  rewrite qnm_modes_increasing by apply increasing_unit_axis.
  eexists. py_eval. reflexivity.
Qed.

(** The statement of [qnm_modes_superposition] for the dictionaries
    [{0: (2, 2, 0, +1)}] and [{0: other_22}]. *)
Lemma qnm_modes_superposition_witness :
  exists h2 h,
    snd (qnm_modes (E := Reference.extern) (Scalar SampleFit.chi)
           (Scalar SampleFit.mass) [Sample.other_22] 0 0 (unit_axis 3) 2 2 None)
    = Ok h2
    /\ snd (qnm_modes (E := Reference.extern) (Scalar SampleFit.chi)
              (Scalar SampleFit.mass)
              ([Sample.qnm_220 (Some SampleFit.a0)] ++ [Sample.other_22])
              0 0 (unit_axis 3) 2 2 None) = Ok h
    /\ Scri.data h = mat_add (Scri.data (SampleFit.target SampleFit.a0)) (Scri.data h2).
Proof.
  destruct sample_other_synthesized as [h2 H2].
  destruct (@qnm_modes_superposition Reference.extern (Scalar SampleFit.chi)
              (Scalar SampleFit.mass) [Sample.qnm_220 (Some SampleFit.a0)]
              [Sample.other_22] 0 0 (unit_axis 3) 2 2
              (SampleFit.target SampleFit.a0) h2
              (sample_is_synthesized SampleFit.a0) H2) as (h & Hh & Hd).
  exists h2, h. repeat split; assumption.
Defined.

(** The statement of [qnm_modes_order_irrelevant] for the dictionaries
    [{0: (2, 2, 0, +1), 1: other_22}] and [{0: other_22, 1: (2, 2, 0, +1)}]. *)
Lemma qnm_modes_order_irrelevant_witness :
  exists h,
    snd (qnm_modes (E := Reference.extern) (Scalar SampleFit.chi)
           (Scalar SampleFit.mass)
           [Sample.qnm_220 (Some SampleFit.a0); Sample.other_22]
           0 0 (unit_axis 3) 2 2 None) = Ok h
    /\ snd (qnm_modes (E := Reference.extern) (Scalar SampleFit.chi)
              (Scalar SampleFit.mass)
              [Sample.other_22; Sample.qnm_220 (Some SampleFit.a0)]
              0 0 (unit_axis 3) 2 2 None) = Ok h.
Proof.
  assert (H : exists h,
             snd (qnm_modes (E := Reference.extern) (Scalar SampleFit.chi)
                    (Scalar SampleFit.mass)
                    [Sample.qnm_220 (Some SampleFit.a0); Sample.other_22]
                    0 0 (unit_axis 3) 2 2 None) = Ok h)
    by (rewrite qnm_modes_increasing by apply increasing_unit_axis;
        eexists; py_eval; reflexivity).
  destruct H as [h H]. exists h. split; [exact H|].
  apply (@qnm_modes_order_irrelevant Reference.extern (Scalar SampleFit.chi)
           (Scalar SampleFit.mass)
           [Sample.qnm_220 (Some SampleFit.a0); Sample.other_22]
           [Sample.other_22; Sample.qnm_220 (Some SampleFit.a0)]
           0 0 (unit_axis 3) 2 2 h).
  - apply perm_swap.
  - exact H.
Defined.

(** ** Terms of type "other" *)




(** ** Per-sample spin and mass that do not vary *)

Lemma additive_sum T N {X} (xs : list X) (body : X -> St Np.matrix unit) :
  (forall x, additive T N (body x)) ->
  snd (sfor xs body (zeros T N)) = Ok tt ->
  (forall x, In x xs -> snd (body x (zeros T N)) = Ok tt)
  /\ forall i k, entry (fst (sfor xs body (zeros T N))) i k
                 = Np.csum (map (fun x => entry (fst (body x (zeros T N))) i k) xs).
Proof.
  intros Hb. induction xs as [|x xs IH]; intros Hok.
  - split; [intros x []|]. intros i k. apply entry_zeros.
  - cbn [sfor] in Hok |- *. unfold sbind in Hok |- *.
    destruct (Hb x) as (_ & Hsx & _).
    pose proof (Hsx _ (has_shape_zeros T N)) as Hs1.
    destruct (additive_sfor xs body Hb) as (Hr & _ & He).
    destruct (body x (zeros T N)) as [d1 [[]|e]] eqn:Hx; [|discriminate].
    cbn [fst] in Hs1.
    assert (Hokz : snd (sfor xs body (zeros T N)) = Ok tt)
      by (rewrite <- Hok; apply Hr; [apply has_shape_zeros | assumption]).
    destruct (IH Hokz) as [Hall Hsum]. split.
    + intros y [<-|Hy]; [now rewrite Hx | now apply Hall].
    + intros i k. rewrite (He d1 Hs1 Hok). cbn [map Np.csum fold_right].
      rewrite Hx. cbn [fst]. f_equal. apply Hsum.
Qed.

Lemma additive_cell_step T LM i m A e Cs ells lm :
  additive T (length LM) (add_qnm_cell LM i m A e Cs ells lm).
Proof.
  destruct lm as [l m']. unfold add_qnm_cell.
  destruct (m' =? m)%Z; [|apply additive_sret].
  apply additive_lift_bind. intros c_l.
  apply additive_lift_bind. intros lmin.
  apply additive_lift_bind. intros j.
  destruct c_l as [|c c_l]; [apply additive_sraise | apply additive_cell_add].
Qed.

Lemma additive_col_step LM m A expiwt Cs ells lm :
  additive (length expiwt) (length LM) (add_qnm_column LM m A expiwt Cs ells lm).
Proof.
  destruct lm as [l m']. unfold add_qnm_column.
  destruct (m' =? m)%Z; [|apply additive_sret].
  apply additive_lift_bind. intros c_l.
  apply additive_lift_bind. intros lmin.
  apply additive_lift_bind. intros j.
  destruct c_l as [|c c_l].
  - destruct (_ =? 0)%nat; [apply additive_sret | apply additive_sraise].
  - apply additive_col_add. now rewrite length_map.
Qed.

Lemma per_sample_outcome_refl {A} (r : result A) : per_sample_outcome r r.
Proof. now left. Qed.

Lemma per_sample_outcome_ok {A} (a : A) r' :
  per_sample_outcome (Ok a) r' -> r' = Ok a.
Proof. intros [H|[H _]]; [exact H | discriminate]. Qed.

Lemma per_sample_outcome_returns {A} r (a : A) :
  per_sample_outcome r (Ok a) -> r = Ok a.
Proof. intros [H|[_ H]]; [now symmetry | discriminate]. Qed.

Lemma cell_col_outcome LM i m A e expiwt Cs ells lm d d' :
  length expiwt <> 0%nat ->
  per_sample_outcome (snd (add_qnm_column LM m A expiwt Cs ells lm d'))
                     (snd (add_qnm_cell LM i m A e Cs ells lm d)).
Proof.
  intros HT. destruct lm as [l m']. unfold add_qnm_cell, add_qnm_column.
  destruct (m' =? m)%Z; [|now left].
  unfold sbind, slift.
  destruct (mask_select Cs ells l) as [c_l|e0]; [|now left].
  destruct (min_ell LM) as [lmin|e0]; [|now left].
  destruct (Np.index _ _) as [j|e0]; [|now left].
  destruct c_l as [|c c_l]; [|now left].
  destruct (Nat.eqb_spec (length expiwt) 0); [contradiction | now right].
Qed.

Lemma cells_cols_outcome LM i m A e expiwt Cs ells xs : forall d d',
  length expiwt <> 0%nat ->
  per_sample_outcome (snd (sfor xs (add_qnm_column LM m A expiwt Cs ells) d'))
                     (snd (sfor xs (add_qnm_cell LM i m A e Cs ells) d)).
Proof.
  induction xs as [|x xs IH]; intros d d' HT; [now left|].
  cbn [sfor]. unfold sbind.
  pose proof (@cell_col_outcome LM i m A e expiwt Cs ells x d d' HT) as Hx.
  destruct (add_qnm_cell LM i m A e Cs ells x d) as [d1 r1].
  destruct (add_qnm_column LM m A expiwt Cs ells x d') as [d1' r1'].
  cbn [snd] in Hx. destruct r1' as [[]|e0].
  - rewrite (per_sample_outcome_ok Hx). now apply IH.
  - destruct Hx as [->|[He ->]]; [now left | now right].
Qed.

Lemma cell_col_entry LM i0 m A expiwt Cs ells lm i k :
  (i0 < length expiwt)%nat ->
  snd (add_qnm_column LM m A expiwt Cs ells lm
         (zeros (length expiwt) (length LM))) = Ok tt ->
  entry (fst (add_qnm_cell LM i0 m A (nth i0 expiwt Cx.zero) Cs ells lm
                (zeros (length expiwt) (length LM)))) i k
  = if (i =? i0)%nat
    then entry (fst (add_qnm_column LM m A expiwt Cs ells lm
                       (zeros (length expiwt) (length LM)))) i k
    else Cx.zero.
Proof.
  intros Hi0. destruct lm as [l m']. unfold add_qnm_cell, add_qnm_column.
  destruct (m' =? m)%Z.
  2:{ intros _. unfold sret. cbn [fst]. rewrite entry_zeros. now destruct (i =? i0)%nat. }
  unfold sbind, slift.
  destruct (mask_select Cs ells l) as [c_l|e0]; [|discriminate].
  destruct (min_ell LM) as [lmin|e0]; [|discriminate].
  destruct (Np.index _ _) as [j|e0]; [|discriminate].
  destruct c_l as [|c c_l].
  - destruct (Nat.eqb_spec (length expiwt) 0); [lia | discriminate].
  - intros _. cbn [fst].
    rewrite (@entry_cell_add (length expiwt) (length LM)) by apply has_shape_zeros.
    rewrite (@entry_col_add (length expiwt) (length LM))
      by (try apply has_shape_zeros; now rewrite length_map).
    rewrite entry_zeros.
    destruct (Nat.eqb_spec i i0) as [->|Hne]; [|reflexivity].
    destruct (Nat.ltb_spec i0 (length expiwt)); [|lia].
    cbn [andb]. rewrite !andb_true_r.
    destruct ((k =? j)%nat && (j <? length LM)%nat); [|reflexivity].
    f_equal.
    now rewrite (@nth_map_in _ _ _ expiwt i0 Cx.zero Cx.zero).
Qed.

Lemma csum_indicator_seq (i : nat) (v : C) n : forall s,
  Np.csum (map (fun i0 => if (i =? i0)%nat then v else Cx.zero) (seq s n))
  = if (s <=? i)%nat && (i <? s + n)%nat then v else Cx.zero.
Proof.
  induction n as [|n IH]; intros s.
  - cbn [seq map Np.csum fold_right].
    destruct (Nat.leb_spec s i), (Nat.ltb_spec i (s + 0)); cbn [andb];
      try reflexivity; lia.
  - cbn [seq map Np.csum fold_right].
    change (fold_right Cx.add Cx.zero ?l) with (Np.csum l). rewrite IH.
    destruct (Nat.eqb_spec i s) as [->|Hne].
    + destruct (Nat.leb_spec (S s) s); [lia|]. cbn [andb]. rewrite add_zero_r.
      destruct (Nat.leb_spec s s), (Nat.ltb_spec s (s + S n)); cbn [andb];
        try reflexivity; lia.
    + rewrite add_zero_l.
      destruct (Nat.leb_spec (S s) i), (Nat.ltb_spec i (S s + n)),
               (Nat.leb_spec s i), (Nat.ltb_spec i (s + S n));
        cbn [andb]; try reflexivity; lia.
Qed.

Section ConstantArrays.

Context {E : Extern}.
Variables (chi mass : R) (chi' mass' : param) (t_ref : R) (t : list R).
Variable LM : list (Z * Z).

Let T := length t.
Let N := length LM.

Hypothesis HT : t <> [].

(** The two loops of a QNM term once the oracle has answered. *)
Let cols m A w Cs ells : St Np.matrix unit :=
  sfor LM (add_qnm_column LM m A (map (expiwt_at w t_ref) t) Cs ells).
Let cells m A w Cs ells : St Np.matrix unit :=
  sfor (seq 0 T)
       (fun i => sfor LM (add_qnm_cell LM i m A (expiwt_at w t_ref (nth i t 0)) Cs ells)).

Lemma T_positive : (0 < T)%nat.
Proof. unfold T. destruct t; [contradiction | cbn; lia]. Qed.

Lemma expiwt_length w : length (map (expiwt_at w t_ref) t) = T.
Proof. apply length_map. Qed.

Lemma cells_outcome m A w Cs ells n : forall s d d0,
  per_sample_outcome
    (snd (cols m A w Cs ells d0))
    (snd (sfor (seq s (S n))
            (fun i => sfor LM (add_qnm_cell LM i m A (expiwt_at w t_ref (nth i t 0))
                                  Cs ells)) d)).
Proof.
  assert (Hne : length (map (expiwt_at w t_ref) t) <> 0%nat)
    by (rewrite expiwt_length; pose proof T_positive; lia).
  induction n as [|n IH]; intros s d d0.
  - cbn [seq]. rewrite sfor_one. now apply cells_cols_outcome.
  - change (seq s (S (S n))) with (s :: seq (S s) (S n)).
    cbn [sfor]. unfold sbind.
    pose proof (@cells_cols_outcome LM s m A (expiwt_at w t_ref (nth s t 0))
                  (map (expiwt_at w t_ref) t) Cs ells LM d d0 Hne) as H1.
    fold (cols m A w Cs ells) in H1.
    destruct (sfor LM _ d) as [d1 [[]|e]]; cbn [snd] in H1 |- *.
    + apply IH.
    + exact H1.
Qed.

Lemma loops_agree m A w Cs ells d :
  has_shape T N d ->
  per_sample_outcome (snd (cols m A w Cs ells d)) (snd (cells m A w Cs ells d))
  /\ (snd (cols m A w Cs ells d) = Ok tt ->
      fst (cells m A w Cs ells d) = fst (cols m A w Cs ells d)).
Proof.
  intros Hd. pose proof T_positive as HTpos.
  assert (Hout' : forall d1 d0,
            per_sample_outcome (snd (cols m A w Cs ells d0))
                               (snd (cells m A w Cs ells d1))).
  { intros d1 d0. unfold cells. replace T with (S (pred T)) by lia.
    apply cells_outcome. }
  assert (Hout : forall d1 d0, snd (cols m A w Cs ells d0) = Ok tt ->
                               snd (cells m A w Cs ells d1) = Ok tt).
  { intros d1 d0 H0. apply per_sample_outcome_ok. rewrite <- H0. apply Hout'. }
  split; [apply Hout'|]. intros Hok.
  assert (Hacols : additive T N (cols m A w Cs ells)).
  { unfold cols. apply additive_sfor. intros lm.
    pose proof (additive_col_step LM m A (map (expiwt_at w t_ref) t) Cs ells lm) as H.
    now rewrite expiwt_length in H. }
  assert (Hainner : forall i, additive T N
            (sfor LM (add_qnm_cell LM i m A (expiwt_at w t_ref (nth i t 0)) Cs ells))).
  { intros i. apply additive_sfor. intros lm. apply additive_cell_step. }
  assert (Hacells : additive T N (cells m A w Cs ells)).
  { unfold cells. apply additive_sfor. exact Hainner. }
  destruct Hacols as (Hrc & Hsc & Hec). destruct Hacells as (Hrx & Hsx & Hex).
  assert (Hokc : snd (cells m A w Cs ells d) = Ok tt) by now apply (Hout d d).
  assert (Hokz : snd (cols m A w Cs ells (zeros T N)) = Ok tt)
    by (rewrite <- Hok; apply Hrc; [apply has_shape_zeros | assumption]).
  assert (Hokcz : snd (cells m A w Cs ells (zeros T N)) = Ok tt)
    by now apply (Hout _ (zeros T N)).
  apply (@matrix_ext T N); [now apply Hsx | now apply Hsc |].
  intros i k Hi Hk. rewrite (Hex d Hd Hokc), (Hec d Hd Hok). f_equal.
  (* what the two loops leave in an array of zeros *)
  destruct (@additive_sum T N _ (seq 0 T) _ Hainner Hokcz) as [Hinner_ok Hsum_cells].
  fold (cells m A w Cs ells) in Hsum_cells. rewrite Hsum_cells.
  assert (Hstep : forall lm, additive T N
            (add_qnm_column LM m A (map (expiwt_at w t_ref) t) Cs ells lm)).
  { intros lm.
    pose proof (additive_col_step LM m A (map (expiwt_at w t_ref) t) Cs ells lm) as H.
    now rewrite expiwt_length in H. }
  destruct (@additive_sum T N _ LM _ Hstep Hokz) as [Hcol_ok Hsum_cols].
  fold (cols m A w Cs ells) in Hsum_cols. rewrite Hsum_cols.
  set (S0 := Np.csum (map (fun lm => entry (fst (add_qnm_column LM m A
                 (map (expiwt_at w t_ref) t) Cs ells lm (zeros T N))) i k) LM)).
  rewrite (map_ext_in _ (fun i0 => if (i =? i0)%nat then S0 else Cx.zero)).
  - rewrite csum_indicator_seq. cbn [Nat.add].
    destruct (Nat.leb_spec 0 i), (Nat.ltb_spec i T); cbn [andb]; try reflexivity; lia.
  - intros i0 Hi0. apply in_seq in Hi0.
    destruct (@additive_sum T N _ LM _ (fun lm => @additive_cell_step T LM i0 m A
                 (expiwt_at w t_ref (nth i0 t 0)) Cs ells lm)
                (Hinner_ok i0 (proj2 (in_seq _ _ _) Hi0))) as [_ Hsum_inner].
    rewrite Hsum_inner.
    destruct (Nat.eqb_spec i i0) as [->|Hne].
    + unfold S0. apply f_equal. apply map_ext_in. intros lm Hlm.
      pose proof (@cell_col_entry LM i0 m A (map (expiwt_at w t_ref) t) Cs ells lm
                    i0 k) as Hce.
      rewrite expiwt_length in Hce.
      rewrite (@nth_map_in _ _ _ t i0 0 Cx.zero) in Hce by (fold T; lia).
      fold N in Hce. rewrite Hce by (try lia; now apply Hcol_ok).
      now rewrite Nat.eqb_refl.
    + apply csum_all_zero. apply Forall_forall. intros c Hc.
      apply in_map_iff in Hc. destruct Hc as (lm & <- & Hlm).
      pose proof (@cell_col_entry LM i0 m A (map (expiwt_at w t_ref) t) Cs ells lm
                    i k) as Hce.
      rewrite expiwt_length in Hce.
      rewrite (@nth_map_in _ _ _ t i0 0 Cx.zero) in Hce by (fold T; lia).
      fold N in Hce. rewrite Hce by (try lia; now apply Hcol_ok).
      destruct (Nat.eqb_spec i i0); [contradiction | reflexivity].
Qed.

Hypothesis Hchi : constant_param chi' chi T.
Hypothesis Hmass : constant_param mass' mass T.

(** The pass of a QNM term over the samples, one oracle query per sample. *)
Let per_sample (c m0 : param) (tm : term) : St Np.matrix unit :=
  sfor (seq 0 (length t)) (fun i =>
    sbind (slift (param_at c i)) (fun chi_value =>
    sbind (slift (param_at m0 i)) (fun mass_value =>
    sbind (slift (getitem (mode tm))) (fun '(ell, m, n, sign) =>
    sbind (slift (qnm_from_tuple (ell, m, n, sign) chi_value mass_value (-2)))
          (fun '(omega, Cs, ells) =>
    sbind (slift (getitem (amp tm))) (fun A =>
    add_qnm_cells LM i m A (expiwt_at omega t_ref (nth i t 0%R)) Cs ells)))))).

(** The vectorised pass. *)
Let vectorised (tm : term) : St Np.matrix unit :=
  sbind (slift (getitem (mode tm))) (fun '(ell, m, n, sign) =>
  sbind (slift (qnm_from_tuple (ell, m, n, sign) chi mass (-2)))
        (fun '(omega, Cs, ells) =>
  sbind (slift (getitem (amp tm))) (fun A =>
  add_qnm_columns LM m A (map (expiwt_at omega t_ref) t) Cs ells))).

Lemma per_sample_constant tm d :
  per_sample chi' mass' tm d = per_sample (Scalar chi) (Scalar mass) tm d.
Proof.
  unfold per_sample. apply sfor_ext_in. intros i Hi s. apply in_seq in Hi.
  unfold sbind at 1. unfold slift at 1. rewrite Hchi by (unfold T; lia).
  unfold sbind at 1. unfold slift at 1. rewrite Hmass by (unfold T; lia).
  reflexivity.
Qed.

Lemma sfor_raises_at_once {X} (body : X -> St Np.matrix unit) x xs d e :
  body x d = (d, Raise e) -> sfor (x :: xs) body d = (d, Raise e).
Proof. intros H. cbn [sfor]. unfold sbind. now rewrite H. Qed.

Lemma per_sample_vectorised tm d :
  has_shape T N d ->
  per_sample_outcome (snd (vectorised tm d))
                     (snd (per_sample (Scalar chi) (Scalar mass) tm d))
  /\ (snd (vectorised tm d) = Ok tt ->
      fst (per_sample (Scalar chi) (Scalar mass) tm d) = fst (vectorised tm d)).
Proof.
  intros Hd. pose proof T_positive as HTpos.
  assert (Hseq : seq 0 (length t) = 0%nat :: seq 1 (pred (length t))).
  { fold T. destruct T; [lia | reflexivity]. }
  unfold per_sample, vectorised.
  destruct (mode tm) as [[[[ell m] n] sign]|].
  2:{ rewrite Hseq. rewrite sfor_raises_at_once with (e := KeyError) by reflexivity.
      split; [now left | discriminate]. }
  destruct (qnm_from_tuple (ell, m, n, sign) chi mass (-2))
    as [[[w Cs] ells]|e] eqn:Hq.
  2:{ rewrite Hseq. rewrite sfor_raises_at_once with (e := e).
      - unfold sbind, slift. cbn [getitem]. rewrite Hq. split; [now left | discriminate].
      - unfold sbind, slift. cbn [getitem param_at]. now rewrite Hq. }
  destruct (amp tm) as [A|].
  2:{ rewrite Hseq. rewrite sfor_raises_at_once with (e := KeyError).
      - unfold sbind, slift. cbn [getitem]. rewrite Hq. split; [now left | discriminate].
      - unfold sbind, slift. cbn [getitem param_at]. now rewrite Hq. }
  rewrite (sfor_ext_in (seq 0 (length t)) _
             (fun i => sfor LM (add_qnm_cell LM i m A
                                  (expiwt_at w t_ref (nth i t 0)) Cs ells))).
  2:{ intros i _ s. unfold sbind, slift. cbn [getitem param_at]. now rewrite Hq. }
  assert (Hv : forall s,
            sbind (slift (getitem (Some (ell, m, n, sign))))
              (fun '(ell0, m0, n0, sign0) =>
               sbind (slift (qnm_from_tuple (ell0, m0, n0, sign0) chi mass (-2)))
                 (fun '(omega, Cs0, ells0) =>
                  sbind (slift (getitem (Some A)))
                    (fun A0 => add_qnm_columns LM m0 A0
                                 (map (expiwt_at omega t_ref) t) Cs0 ells0))) s
            = sfor LM (add_qnm_column LM m A (map (expiwt_at w t_ref) t) Cs ells) s).
  { intros s. unfold sbind, slift. cbn [getitem]. now rewrite Hq. }
  rewrite Hv.
  exact (@loops_agree m A w Cs ells d Hd).
Qed.

Lemma add_term_not_qnm c m0 c2 m2 tm type d :
  ty tm = Some type -> String.eqb type "QNM" = false ->
  add_term c m0 t_ref t LM tm d = add_term c2 m2 t_ref t LM tm d.
Proof.
  intros Hty Hq. unfold add_term, sbind, slift.
  rewrite Hty. cbn [getitem]. now rewrite Hq.
Qed.

Lemma add_term_qnm_vectorised tm type d :
  ty tm = Some type -> String.eqb type "QNM" = true ->
  add_term (Scalar chi) (Scalar mass) t_ref t LM tm d = vectorised tm d.
Proof.
  intros Hty Hq. unfold add_term. unfold sbind at 1. unfold slift at 1.
  rewrite Hty. cbn [getitem]. now rewrite Hq.
Qed.

Lemma add_term_qnm_per_sample c m0 tm type d :
  ty tm = Some type -> String.eqb type "QNM" = true ->
  is_array c || is_array m0 = true ->
  add_term c m0 t_ref t LM tm d = per_sample c m0 tm d.
Proof.
  intros Hty Hq Harr. unfold add_term. unfold sbind at 1. unfold slift at 1.
  rewrite Hty. cbn [getitem]. rewrite Hq.
  destruct c, m0; try reflexivity. discriminate.
Qed.

(** One pass over a term: with spin and mass that hold the same value at
    every sample the per-sample path returns when the vectorised path
    returns, and leaves the same array; it raises when the vectorised path
    raises, the same exception but for the empty selection. *)
Lemma term_paths_agree tm d :
  has_shape T N d ->
  per_sample_outcome
    (snd (add_term (Scalar chi) (Scalar mass) t_ref t LM tm d))
    (snd (add_term chi' mass' t_ref t LM tm d))
  /\ (snd (add_term (Scalar chi) (Scalar mass) t_ref t LM tm d) = Ok tt ->
      fst (add_term chi' mass' t_ref t LM tm d)
      = fst (add_term (Scalar chi) (Scalar mass) t_ref t LM tm d)).
Proof.
  intros Hd. pose proof T_positive as HTpos.
  destruct (ty tm) as [type|] eqn:Hty.
  2:{ unfold add_term, sbind, slift. rewrite Hty. split; [now left | reflexivity]. }
  destruct (String.eqb type "QNM") eqn:Hq.
  2:{ rewrite (@add_term_not_qnm chi' mass' (Scalar chi) (Scalar mass) tm type d Hty Hq).
      split; [now left | reflexivity]. }
  rewrite (add_term_qnm_vectorised tm d Hty Hq).
  destruct (is_array chi' || is_array mass') eqn:Harr.
  - rewrite (add_term_qnm_per_sample chi' mass' tm d Hty Hq Harr).
    rewrite per_sample_constant. now apply per_sample_vectorised.
  - pose proof (Hchi HTpos) as Hc. pose proof (Hmass HTpos) as Hm.
    destruct chi' as [c|cs], mass' as [ms|mss]; try discriminate.
    cbn [param_at] in Hc, Hm. injection Hc as ->. injection Hm as ->.
    rewrite (add_term_qnm_vectorised tm d Hty Hq). split; [now left | reflexivity].
Qed.

Lemma synth_paths_agree terms : forall d,
  has_shape T N d ->
  per_sample_outcome
    (snd (sfor terms (add_term (Scalar chi) (Scalar mass) t_ref t LM) d))
    (snd (sfor terms (add_term chi' mass' t_ref t LM) d))
  /\ (snd (sfor terms (add_term (Scalar chi) (Scalar mass) t_ref t LM) d) = Ok tt ->
      fst (sfor terms (add_term chi' mass' t_ref t LM) d)
      = fst (sfor terms (add_term (Scalar chi) (Scalar mass) t_ref t LM) d)).
Proof.
  induction terms as [|tm terms IH]; intros d Hd; [split; [now left | reflexivity]|].
  cbn [sfor]. unfold sbind.
  destruct (term_paths_agree tm Hd) as [Hsnd Hfst].
  pose proof (@add_term_shape E (Scalar chi) (Scalar mass) t_ref t LM tm d Hd) as Hs.
  destruct (add_term (Scalar chi) (Scalar mass) t_ref t LM tm d) as [d1 r1].
  destruct (add_term chi' mass' t_ref t LM tm d) as [d1' r1'].
  cbn [fst snd] in *. destruct r1 as [[]|e].
  - rewrite (per_sample_outcome_ok Hsnd). rewrite (Hfst eq_refl). now apply IH.
  - split; [|discriminate].
    destruct Hsnd as [->|[He ->]]; [now left | now right].
Qed.

End ConstantArrays.

(** X6. The two code paths of a QNM term agree: on a non-empty time axis,
    a spin and a mass given as lists or arrays that hold the same value at
    every sample give what the floats give, for every dictionary: the same
    waveform when the call with the floats returns, and an exception when
    it raises one.  The exception is the same, with one difference: where
    the output has a column [(l', m)] of a QNM term whose [l'] is not
    among the mixing ells, the floats raise ValueError and the lists
    raise TypeError, as for the term (2, 0, 0, +1) on the modes
    [ell_min = 0 .. ell_max = 2] with the reference oracle. *)
Theorem constant_arrays_as_scalars :
  (forall (E : Extern) chi mass chi' mass' mode_dict t_0 t_ref t lmin lmax,
     t <> [] ->
     constant_param chi' chi (length t) -> constant_param mass' mass (length t) ->
     per_sample_outcome
       (snd (qnm_modes (Scalar chi) (Scalar mass) mode_dict t_0 t_ref t lmin lmax None))
       (snd (qnm_modes chi' mass' mode_dict t_0 t_ref t lmin lmax None)))
  /\
  (snd (qnm_modes (E := Reference.extern) (Scalar (7 / 10)) (Scalar 1)
          [Sample.qnm_200 (Some Cx.one)] 0 0 [0; 1] 0 2 None) = Raise ValueError
   /\ snd (qnm_modes (E := Reference.extern) (PerSample [7 / 10; 7 / 10]) (Scalar 1)
             [Sample.qnm_200 (Some Cx.one)] 0 0 [0; 1] 0 2 None) = Raise TypeError).
Proof.
  split.
  - intros E chi mass chi' mass' mode_dict t_0 t_ref t lmin lmax Ht Hchi Hmass.
    rewrite !qnm_modes_no_dest. cbn [snd].
    destruct (@synth_paths_agree E chi mass chi' mass' t_ref t
                (Sf.LM_range lmin lmax) Ht Hchi Hmass mode_dict _
                (has_shape_zeros _ _)) as [Hs Hf].
    destruct (sfor mode_dict (add_term (Scalar chi) (Scalar mass) _ _ _) _) as [d r].
    destruct (sfor mode_dict (add_term chi' mass' _ _ _) _) as [d' r'].
    cbn [fst snd] in *. destruct r as [[]|e].
    + rewrite (per_sample_outcome_ok Hs). rewrite (Hf eq_refl). now left.
    + destruct Hs as [->|[He ->]]; [now left|].
      injection He as ->. now right.
  - split; rewrite qnm_modes_no_dest; py_eval; reflexivity.
Qed.

(** The statement of [constant_arrays_as_scalars] for the spin
    [[0.7, 0.7, 0.7]] and the mass [1.0] on three samples. *)
Lemma constant_arrays_as_scalars_witness :
  per_sample_outcome
    (snd (qnm_modes (E := Reference.extern) (Scalar SampleFit.chi)
            (Scalar SampleFit.mass) [Sample.qnm_220 (Some SampleFit.a0)]
            0 0 (unit_axis 3) 2 2 None))
    (snd (qnm_modes (E := Reference.extern) (PerSample (repeat SampleFit.chi 3))
            (Scalar SampleFit.mass) [Sample.qnm_220 (Some SampleFit.a0)]
            0 0 (unit_axis 3) 2 2 None)).
Proof.
  apply (proj1 constant_arrays_as_scalars Reference.extern SampleFit.chi SampleFit.mass).
  - discriminate.
  - intros [|[|[|i]]] Hi; try reflexivity. cbn in Hi. lia.
  - intros i _. reflexivity.
Defined.

(** ** The mode list of the scorer *)

Lemma zero_unlisted_ext ms ms' h_A h_B st :
  (forall L M, (2 <= L <= Scri.ell_max h_A)%Z -> (- L <= M <= L)%Z ->
     mode_in (L, M) ms = mode_in (L, M) ms') ->
  zero_unlisted ms h_A h_B st = zero_unlisted ms' h_A h_B st.
Proof.
  intros H. unfold zero_unlisted. apply sfor_ext_in.
  intros [L M] Hin s.
  change (all_modes_from_2 (Scri.ell_max h_A))
    with (Sf.LM_range 2 (Scri.ell_max h_A)) in Hin.
  apply LM_range_In in Hin.
  unfold zero_unlisted_step. now rewrite (H L M) by lia.
Qed.

(** X7. The scorer looks at its mode list only to ask whether it contains
    [(L, M)] for [2 <= L <= ell_max] and [-L <= M <= L]: two lists that
    give the same answers give the same score or exception. The order of
    the list, repeated entries, entries outside the mode range and entries
    with [L < 2] make no difference. *)
Theorem mismatch_mode_list_membership (E : Extern) h_A h_B ms ms' t1 t2 :
  (forall L M, (2 <= L <= Scri.ell_max h_A)%Z -> (- L <= M <= L)%Z ->
     mode_in (L, M) ms = mode_in (L, M) ms') ->
  waveform_mismatch h_A h_B (Some ms) t1 t2
  = waveform_mismatch h_A h_B (Some ms') t1 t2.
Proof.
  intros H. unfold waveform_mismatch.
  now rewrite (zero_unlisted_ext ms ms' h_A h_B _ H).
Qed.

Lemma zero_unlisted_nothing ms h_A h_B st :
  (forall L M, (2 <= L <= Scri.ell_max h_A)%Z -> (- L <= M <= L)%Z ->
     mode_in (L, M) ms = true) ->
  zero_unlisted ms h_A h_B st = (st, Ok tt).
Proof.
  intros H. unfold zero_unlisted.
  assert (Hall : forall lm, In lm (all_modes_from_2 (Scri.ell_max h_A)) ->
                            mode_in lm ms = true).
  { intros [L M] Hin.
    change (all_modes_from_2 (Scri.ell_max h_A))
      with (Sf.LM_range 2 (Scri.ell_max h_A)) in Hin.
    apply LM_range_In in Hin. apply H; lia. }
  revert Hall. generalize (all_modes_from_2 (Scri.ell_max h_A)) as xs.
  induction xs as [|[L M] xs IH]; intros Hall; [reflexivity|].
  cbn [sfor]. unfold sbind. unfold zero_unlisted_step at 1.
  rewrite (Hall (L, M) (or_introl eq_refl)). cbn [negb]. unfold sret.
  apply IH. intros lm Hlm. apply Hall. now right.
Qed.

(** X8. A mode list that contains every [(L, M)] with [2 <= L <= ell_max]
    and [-L <= M <= L] gives what the default, no list, gives: no column
    is masked and no column index is computed. *)
Theorem mismatch_full_list_is_default (E : Extern) h_A h_B ms t1 t2 :
  (forall L M, (2 <= L <= Scri.ell_max h_A)%Z -> (- L <= M <= L)%Z ->
     mode_in (L, M) ms = true) ->
  waveform_mismatch h_A h_B (Some ms) t1 t2
  = waveform_mismatch h_A h_B None t1 t2.
Proof.
  intros H. unfold waveform_mismatch.
  now rewrite (zero_unlisted_nothing ms h_A h_B _ H).
Qed.

Lemma steady_modes_cases L M :
  (2 <= L <= 2)%Z -> (- L <= M <= L)%Z ->
  L = 2%Z /\ (M = (-2)%Z \/ M = (-1)%Z \/ M = 0%Z \/ M = 1%Z \/ M = 2%Z).
Proof. lia. Qed.

(** The statement of [mismatch_mode_list_membership] for the lists
    [[(2, 2)]] and [[(7, 0), (2, 2), (1, 0), (2, 2)]]. *)
Lemma mismatch_mode_list_membership_witness :
  waveform_mismatch (E := Reference.extern) (SampleWaves.steady 3)
    (SampleWaves.steady 3) (Some [(2, 2)%Z]) (INR 0) (INR 3)
  = waveform_mismatch (E := Reference.extern) (SampleWaves.steady 3)
      (SampleWaves.steady 3) (Some [(7, 0); (2, 2); (1, 0); (2, 2)]%Z)
      (INR 0) (INR 3).
Proof.
  apply (@mismatch_mode_list_membership Reference.extern).
  intros L M HL HM. cbn [SampleWaves.steady Scri.ell_max] in HL.
  destruct (steady_modes_cases HL HM) as [-> [-> | [-> | [-> | [-> | ->]]]]];
    reflexivity.
Defined.

(** The statement of [mismatch_full_list_is_default] for the list of the
    five modes with [L = 2]. *)
Lemma mismatch_full_list_is_default_witness :
  waveform_mismatch (E := Reference.extern) (SampleWaves.steady 3)
    (SampleWaves.steady 3)
    (Some [(2, -2); (2, -1); (2, 0); (2, 1); (2, 2)]%Z) (INR 0) (INR 3)
  = waveform_mismatch (E := Reference.extern) (SampleWaves.steady 3)
      (SampleWaves.steady 3) None (INR 0) (INR 3).
Proof.
  apply (@mismatch_full_list_is_default Reference.extern).
  intros L M HL HM. cbn [SampleWaves.steady Scri.ell_max] in HL.
  destruct (steady_modes_cases HL HM) as [-> [-> | [-> | [-> | [-> | ->]]]]];
    reflexivity.
Defined.

(** ** The score of two waveforms on the same time axis *)

Lemma combine_as_seq {X Y} (a : list X) (b : list Y) (dx : X) (dy : Y) :
  length a = length b ->
  combine a b = map (fun i => (nth i a dx, nth i b dy)) (seq 0 (length a)).
Proof.
  intros Hlen.
  rewrite <- (map_id (combine a b)) at 1.
  rewrite <- (map_seq_nth (fun p => p) (dx, dy) (combine a b)).
  rewrite length_combine, <- Hlen, Nat.min_id.
  apply map_seq_ext. intros i Hi. now apply combine_nth.
Qed.

Lemma mul_conj_rows (a b : Np.matrix) (n : nat) :
  length a = length b ->
  Forall (fun row => length row = n) a -> Forall (fun row => length row = n) b ->
  exists prod, mul_conj a b n n = Ok prod
               /\ map (fun row => Np.rsum (map Cx.re row)) prod = overlap_rows a b.
Proof.
  intros Hlen Ha Hb. unfold mul_conj, Np.broadcast_len.
  rewrite <- Hlen, !Nat.eqb_refl. cbn [rbind]. eexists. split; [reflexivity|].
  unfold overlap_rows. rewrite map_map.
  rewrite (combine_as_seq a b [] [] Hlen), map_map. cbn [fst snd].
  apply map_seq_ext. intros i Hi. f_equal.
  rewrite !bget_nth by lia.
  assert (Hra : length (nth i a []) = n)
    by (rewrite Forall_forall in Ha; apply Ha, nth_In; lia).
  assert (Hrb : length (nth i b []) = n)
    by (rewrite Forall_forall in Hb; apply Hb, nth_In; lia).
  rewrite (combine_as_seq (nth i a []) (nth i b []) Cx.zero Cx.zero) by congruence.
  rewrite Hra, !map_map. cbn [fst snd].
  apply map_seq_ext. intros j Hj.
  now rewrite !bget_nth by lia.
Qed.

Lemma zero_unlisted_pair ms h h_B (xs : list (Z * Z)) :
  Scri.ell_min h_B = Scri.ell_min h -> Scri.ell_max h_B = Scri.ell_max h ->
  (0 <= Scri.ell_min h <= 2)%Z ->
  (forall lm, In lm xs -> In lm (all_modes_from_2 (Scri.ell_max h))) ->
  forall dA dB,
    sfor xs (zero_unlisted_step ms h h_B) (dA, dB) =
    (let mask := fold_left
                   (fun d lm =>
                      col_zero (Z.to_nat (Sf.LM_index (fst lm) (snd lm) (Scri.ell_min h))) d)
                   (filter (fun lm => negb (mode_in lm ms)) xs) in
     ((mask dA, mask dB), Ok tt)).
Proof.
  intros Hmin Hmax Hell. induction xs as [|[L M] xs IH]; intros Hsub dA dB;
    [reflexivity|].
  cbn [sfor filter]. unfold sbind at 1. unfold zero_unlisted_step at 1.
  destruct (negb (mode_in (L, M) ms)) eqn:Hin.
  - assert (HLM : In (L, M) (Sf.LM_range (Scri.ell_min h) (Scri.ell_max h))).
    { specialize (Hsub (L, M) (or_introl eq_refl)).
      change (all_modes_from_2 (Scri.ell_max h))
        with (Sf.LM_range 2 (Scri.ell_max h)) in Hsub.
      apply LM_range_In in Hsub. apply LM_range_In. lia. }
    unfold sbind, slift. unfold Scri.n_modes, Scri.LM. rewrite Hmin, Hmax.
    rewrite (proj1 (@LM_index_valid _ _ _ _ (proj1 Hell) HLM)).
    cbn [fst snd fold_left].
    apply IH. intros lm Hlm. apply Hsub. now right.
  - unfold sret. apply IH. intros lm Hlm. apply Hsub. now right.
Qed.

Lemma masked_pair modes h h_B :
  Scri.ell_min h_B = Scri.ell_min h -> Scri.ell_max h_B = Scri.ell_max h ->
  (modes <> None -> (0 <= Scri.ell_min h <= 2)%Z) ->
  match modes with
  | None => Ok (Scri.data h, Scri.data h_B)
  | Some ms =>
      let (st, r) := zero_unlisted ms h h_B (Scri.data h, Scri.data h_B) in
      rbind r (fun _ => Ok st)
  end = Ok (masked_data modes h, masked_data modes h_B).
Proof.
  intros Hmin Hmax Hell. destruct modes as [ms|]; [|reflexivity].
  unfold zero_unlisted.
  rewrite zero_unlisted_pair by (try assumption; auto; apply Hell; discriminate).
  cbv zeta. cbn [rbind masked_data]. now rewrite Hmin, Hmax.
Qed.

Lemma window_some ts t1 t2 lo hi :
  window ts t1 t2 = Ok (lo, hi) ->
  (1 <= lo <= length ts)%nat /\ (1 <= hi <= length ts)%nat.
Proof.
  intros Hw. destruct ts as [|x ts]; [discriminate|].
  destruct (window_ok x ts t1 t2) as (a & b & Hw' & Ha & Hb).
  rewrite Hw' in Hw. injection Hw as <- <-.
  apply first_min_lt in Ha, Hb. rewrite length_map in Ha, Hb. lia.
Qed.

Section AlignedScore.

Context {E : Extern}.
Hypothesis interp_exact : interpolate_exact_at_samples E.

(** The three integrals of the score when the two waveforms share the time
    axis and the mode range: the interpolation hands back the samples of
    [h_B] in the window of [h_A]. *)
Lemma mismatch_aligned_value (h h_B : WaveformModes) modes t1 t2 lo hi :
  aligned h h_B ->
  StronglySorted Rlt (Scri.t h) ->
  (modes <> None -> (0 <= Scri.ell_min h <= 2)%Z) ->
  window (Scri.t h) t1 t2 = Ok (lo, hi) -> (lo < hi)%nat ->
  waveform_mismatch h h_B modes t1 t2 =
  Ok (score (windowed_overlap h h_B modes t1 t2)
            (windowed_power h modes t1 t2)
            (windowed_power h_B modes t1 t2)).
Proof.
  intros (HtB & HminB & HmaxB & Hshape & HshapeB) Hsorted Hell Hwin Hab.
  destruct (masked_data_shape modes Hshape) as [Hmlen Hmrows].
  destruct (masked_data_shape modes HshapeB) as [HmlenB HmrowsB].
  destruct (window_some _ _ _ Hwin) as [Hlo Hhi].
  unfold waveform_mismatch.
  rewrite (@masked_pair modes h h_B HminB HmaxB Hell). cbn [rbind].
  unfold windowed_overlap, windowed_power. rewrite HtB, Hwin. cbn [rbind].
  set (A := Scri.time_slice lo hi (with_data h (masked_data modes h))) in *.
  set (B := with_data h_B (masked_data modes h_B)).
  assert (HtA : Scri.t A = Np.slice lo hi (Scri.t h)) by reflexivity.
  assert (HtB0 : Scri.t B = Scri.t h) by exact HtB.
  assert (Hres : resampling_of A B = Interpolated).
  { unfold resampling_of. rewrite HtA, HtB0, slice_length.
    destruct (Nat.eqb_spec (Nat.min (hi - lo) (length (Scri.t h) - lo))
                (length (Scri.t h))); [lia | reflexivity]. }
  rewrite Hres.
  destruct (interp_exact B (lo := lo) (hi := hi))
    as (h' & Hh' & Ht' & Hd' & Hlmin' & Hlmax').
  { now rewrite HtB0. }
  { rewrite HtB0. cbn [B with_data Scri.data]. rewrite HmlenB. now rewrite HtB. }
  { rewrite HtB0. lia. }
  { rewrite HtB0. lia. }
  rewrite HtB0 in Hh', Ht'.
  cbn [B with_data Scri.data Scri.ell_min Scri.ell_max] in Hd', Hlmin', Hlmax'.
  rewrite HtA, Hh'. cbn [rbind].
  assert (HdA : Scri.data A = Np.slice lo hi (masked_data modes h)) by reflexivity.
  assert (Hn' : Scri.n_modes h' = Scri.n_modes h).
  { unfold Scri.n_modes, Scri.LM. now rewrite Hlmin', Hlmax', HminB, HmaxB. }
  assert (HnB : Scri.n_modes h_B = Scri.n_modes h).
  { unfold Scri.n_modes, Scri.LM. now rewrite HminB, HmaxB. }
  assert (HnA : Scri.n_modes A = Scri.n_modes h) by reflexivity.
  rewrite HdA, Hd', Hn', HnA.
  destruct (@mul_conj_rows (Np.slice lo hi (masked_data modes h))
              (Np.slice lo hi (masked_data modes h_B)) (Scri.n_modes h))
    as (prod & Hprod & Hsum).
  { rewrite !slice_length. rewrite Hmlen, HmlenB, HtB. reflexivity. }
  { now apply slice_Forall. }
  { apply slice_Forall. now rewrite <- HnB. }
  rewrite Hprod. cbn [rbind]. rewrite Hsum.
  rewrite trapezoid_same_length.
  2:{ unfold overlap_rows. rewrite length_map, length_combine, !slice_length.
      rewrite Hmlen, HmlenB, HtB. lia. }
  cbn [rbind].
  rewrite trapezoid_same_length.
  2:{ rewrite norm_length, HdA, !slice_length. now rewrite Hmlen. }
  cbn [rbind]. rewrite Ht'.
  rewrite trapezoid_same_length.
  2:{ rewrite norm_length, Hd', !slice_length. rewrite HmlenB. now rewrite HtB. }
  cbn [rbind]. unfold score.
  assert (HnormB : Scri.norm h'
                   = Scri.norm (Scri.time_slice lo hi
                                  (with_data h_B (masked_data modes h_B)))).
  { unfold Scri.norm. now rewrite Hd'. }
  rewrite HnormB. reflexivity.
Qed.

End AlignedScore.

Lemma combine_swap {X Y W} (f : X * Y -> W) (a : list X) (b : list Y) :
  map f (combine a b) = map (fun p => f (snd p, fst p)) (combine b a).
Proof.
  revert b. induction a as [|x a IH]; intros [|y b]; cbn; try reflexivity.
  now rewrite IH.
Qed.

Lemma re_mul_conj_sym x y :
  Cx.re (Cx.mul x (Cx.conj y)) = Cx.re (Cx.mul y (Cx.conj x)).
Proof. destruct x, y. unfold Cx.mul, Cx.conj. cbn. ring. Qed.

Lemma overlap_rows_sym a b : overlap_rows a b = overlap_rows b a.
Proof.
  unfold overlap_rows. rewrite combine_swap. cbn [fst snd].
  apply map_ext. intros [rb ra]. cbn [fst snd]. f_equal.
  rewrite combine_swap. cbn [fst snd].
  apply map_ext. intros [y x]. cbn [fst snd]. apply re_mul_conj_sym.
Qed.

Lemma aligned_sym h_A h_B : aligned h_A h_B -> aligned h_B h_A.
Proof.
  intros (Ht & Hmin & Hmax & Ha & Hb). repeat split; try congruence; try apply Hb;
    apply Ha.
Qed.

Lemma windowed_overlap_sym h_A h_B modes t1 t2 :
  Scri.t h_B = Scri.t h_A ->
  windowed_overlap h_B h_A modes t1 t2 = windowed_overlap h_A h_B modes t1 t2.
Proof.
  intros Ht. unfold windowed_overlap. rewrite Ht.
  destruct (window (Scri.t h_A) t1 t2) as [[lo hi]|e]; [|reflexivity].
  now rewrite overlap_rows_sym.
Qed.

(** X9. The score is symmetric in its two waveforms when they share the
    time axis and the mode range and the window of [t1] and [t2] keeps at
    least one sample (over exact arithmetic, with an interpolation that
    returns the samples at the sample times). *)
Theorem mismatch_symmetric (E : Extern) h_A h_B modes t1 t2 lo hi :
  interpolate_exact_at_samples E ->
  aligned h_A h_B ->
  StronglySorted Rlt (Scri.t h_A) ->
  (modes <> None -> (0 <= Scri.ell_min h_A <= 2)%Z) ->
  window (Scri.t h_A) t1 t2 = Ok (lo, hi) -> (lo < hi)%nat ->
  waveform_mismatch h_A h_B modes t1 t2 = waveform_mismatch h_B h_A modes t1 t2.
Proof.
  intros Hinterp Hal Hsorted Hell Hwin Hlt.
  pose proof Hal as (Ht & Hmin & Hmax & _ & _).
  rewrite (@mismatch_aligned_value E Hinterp h_A h_B modes t1 t2 lo hi)
    by assumption.
  rewrite (@mismatch_aligned_value E Hinterp h_B h_A modes t1 t2 lo hi).
  - rewrite (windowed_overlap_sym h_A h_B modes t1 t2 Ht).
    unfold score. now rewrite (Rmult_comm (windowed_power h_B modes t1 t2)).
  - now apply aligned_sym.
  - now rewrite Ht.
  - rewrite Hmin. exact Hell.
  - now rewrite Ht.
  - exact Hlt.
Qed.

Lemma sample_target_well_shaped a : well_shaped (SampleFit.target a).
Proof. split; [reflexivity | repeat constructor]. Qed.

Lemma sample_aligned a : aligned (SampleWaves.steady 3) (SampleFit.target a).
Proof.
  repeat split; try reflexivity; try apply steady_well_shaped;
    apply sample_target_well_shaped.
Qed.

(** The statement of [mismatch_symmetric] for three steady samples and the
    waveform of the term (2, 2, 0, +1). *)
Lemma mismatch_symmetric_witness :
  waveform_mismatch (E := Reference.extern) (SampleWaves.steady 3)
    (SampleFit.target SampleFit.a0) None (INR 0) (INR 3)
  = waveform_mismatch (E := Reference.extern) (SampleFit.target SampleFit.a0)
      (SampleWaves.steady 3) None (INR 0) (INR 3).
Proof.
  apply (@mismatch_symmetric Reference.extern (SampleWaves.steady 3)
           (SampleFit.target SampleFit.a0) None (INR 0) (INR 3) 1%nat 3%nat).
  - exact reference_interpolate_exact.
  - apply sample_aligned.
  - apply unit_axis_sorted.
  - intros H. now contradiction H.
  - apply (window_unit_axis 2).
  - lia.
Defined.

(** ** The score against a rescaled copy *)

Lemma cscale_zero_mul c y : Cx.scale 0 (Cx.mul c y) = Cx.mul c (Cx.scale 0 y).
Proof. cx_ring. Qed.

Lemma col_zero_scaled c j d :
  col_zero j (map (map (Cx.mul c)) d) = map (map (Cx.mul c)) (col_zero j d).
Proof.
  unfold col_zero. rewrite !map_map. apply map_ext. intros row.
  rewrite map_app, firstn_map, skipn_map. f_equal.
  destruct (skipn j row) as [|y rest]; [reflexivity|].
  cbn [map]. now rewrite cscale_zero_mul.
Qed.

Lemma masked_data_scaled c modes h :
  masked_data modes (with_data h (map (map (Cx.mul c)) (Scri.data h)))
  = map (map (Cx.mul c)) (masked_data modes h).
Proof.
  destruct modes as [ms|]; [|reflexivity].
  cbn [masked_data with_data Scri.data Scri.ell_min Scri.ell_max].
  generalize (filter (fun lm => negb (mode_in lm ms))
                (all_modes_from_2 (Scri.ell_max h))) as xs.
  generalize (Scri.data h) as d.
  intros d xs. revert d. induction xs as [|x xs IH]; intros d; [reflexivity|].
  cbn [fold_left]. rewrite col_zero_scaled. apply IH.
Qed.

Lemma slice_map {X Y} (f : X -> Y) lo hi l :
  Np.slice lo hi (map f l) = map f (Np.slice lo hi l).
Proof. unfold Np.slice. now rewrite skipn_map, firstn_map. Qed.

Lemma combine_map_self {X Y} (f : X -> Y) (l : list X) :
  combine l (map f l) = map (fun x => (x, f x)) l.
Proof. induction l as [|x l IH]; cbn; [reflexivity | now rewrite IH]. Qed.

Lemma rsum_scale {X} (k : R) (f : X -> R) (l : list X) :
  Np.rsum (map (fun x => k * f x) l) = k * Np.rsum (map f l).
Proof.
  unfold Np.rsum. induction l as [|x l IH]; cbn; [ring|]. rewrite IH. ring.
Qed.

Lemma overlap_rows_scaled c a :
  overlap_rows a (map (map (Cx.mul c)) a)
  = map (fun row => Cx.re c * Np.rsum (map Cx.abs2 row)) a.
Proof.
  unfold overlap_rows. rewrite combine_map_self, map_map. cbn [fst snd].
  apply map_ext. intros row. rewrite combine_map_self, map_map. cbn [fst snd].
  rewrite <- rsum_scale. f_equal. apply map_ext. intros [x y].
  destruct c as [c1 c2]. unfold Cx.mul, Cx.conj, Cx.abs2. cbn. ring.
Qed.

Lemma norm_rows_scaled c (a : Np.matrix) :
  map (fun row => Np.rsum (map Cx.abs2 row)) (map (map (Cx.mul c)) a)
  = map (fun row => Cx.abs2 c * Np.rsum (map Cx.abs2 row)) a.
Proof.
  rewrite map_map. apply map_ext. intros row. rewrite map_map.
  rewrite <- rsum_scale. f_equal. apply map_ext. intros [x y].
  destruct c as [c1 c2]. unfold Cx.mul, Cx.abs2. cbn. ring.
Qed.

Lemma trapz_scale {X} (k : R) (f : X -> R) (l : list X) : forall x,
  trapz (map (fun r => k * f r) l) x = k * trapz (map f l) x.
Proof.
  induction l as [|r0 [|r1 l] IH]; intros x.
  - cbn [map]. rewrite !trapz_nil_l. ring.
  - cbn [map]. rewrite !trapz_one_l. ring.
  - destruct x as [|x0 [|x1 x]].
    + rewrite !trapz_nil_r. ring.
    + rewrite !trapz_one_r. ring.
    + change (map (fun r => k * f r) (r0 :: r1 :: l))
        with (k * f r0 :: k * f r1 :: map (fun r => k * f r) l).
      change (map f (r0 :: r1 :: l)) with (f r0 :: f r1 :: map f l).
      rewrite !trapz_cons.
      change (k * f r1 :: map (fun r => k * f r) l)
        with (map (fun r => k * f r) (r1 :: l)).
      change (f r1 :: map f l) with (map f (r1 :: l)).
      rewrite IH. field.
Qed.

Lemma power_window h modes t1 t2 :
  0 < windowed_power h modes t1 t2 ->
  exists lo hi, window (Scri.t h) t1 t2 = Ok (lo, hi) /\ (lo < hi)%nat.
Proof.
  intros Hpos. unfold windowed_power in Hpos.
  destruct (window (Scri.t h) t1 t2) as [[lo hi]|e]; [|lra].
  exists lo, hi. split; [reflexivity|].
  destruct (Nat.lt_ge_cases lo hi) as [|Hge]; [assumption|].
  rewrite trapz_short in Hpos; [lra|]. rewrite slice_length. lia.
Qed.

(** X10. Over exact arithmetic and with an interpolation that returns the
    samples at the sample times: for a waveform of the container's shape on
    a strictly increasing time axis, with [0 <= ell_min <= 2] when a mode
    list is given, that has power over the window and the listed modes, and
    for a complex number [c] other than zero, the score against the copy
    whose data are multiplied by [c] is [1 - Re c / |c|].  The score does
    not see a positive rescaling ([0] for [c > 0]) but it does see a phase
    ([1] for [c = i], [2] for [c = -1]). *)
Theorem mismatch_of_rescaled_copy (E : Extern) h c modes t1 t2 :
  interpolate_exact_at_samples E ->
  StronglySorted Rlt (Scri.t h) -> well_shaped h ->
  (modes <> None -> (0 <= Scri.ell_min h <= 2)%Z) ->
  c <> Cx.zero ->
  0 < windowed_power h modes t1 t2 ->
  waveform_mismatch h (with_data h (map (map (Cx.mul c)) (Scri.data h))) modes t1 t2
  = Ok (Some (1 - Cx.re c / sqrt (Cx.abs2 c))).
Proof.
  intros Hinterp Hsorted Hshape Hell Hc Hpos.
  destruct (power_window _ _ _ _ Hpos) as (lo & hi & Hwin & Hlt).
  set (h_B := with_data h (map (map (Cx.mul c)) (Scri.data h))).
  assert (Hal : aligned h h_B).
  { repeat split; try apply Hshape.
    - unfold h_B. cbn [with_data Scri.data Scri.t]. rewrite length_map.
      apply Hshape.
    - unfold h_B. cbn [with_data Scri.data]. apply Forall_map.
      destruct Hshape as [_ Hr]. eapply Forall_impl; [|exact Hr].
      intros row Hrow. rewrite length_map. exact Hrow. }
  rewrite (@mismatch_aligned_value E Hinterp h h_B modes t1 t2 lo hi) by assumption.
  set (P := windowed_power h modes t1 t2) in *.
  assert (HO : windowed_overlap h h_B modes t1 t2 = Cx.re c * P).
  { unfold windowed_overlap, P, windowed_power. rewrite Hwin.
    unfold h_B. rewrite masked_data_scaled, slice_map, overlap_rows_scaled.
    rewrite trapz_scale. reflexivity. }
  assert (HB : windowed_power h_B modes t1 t2 = Cx.abs2 c * P).
  { unfold P, windowed_power. cbn [h_B with_data Scri.t]. rewrite Hwin.
    unfold h_B. rewrite masked_data_scaled.
    unfold Scri.norm. cbn [Scri.time_slice with_data Scri.data].
    rewrite slice_map, norm_rows_scaled. rewrite trapz_scale. reflexivity. }
  rewrite HO, HB. unfold score, fsqrt.
  pose proof (abs2_pos Hc) as Hc2.
  destruct (Rlt_dec (P * (Cx.abs2 c * P)) 0) as [Hneg|_]; [nra|].
  replace (P * (Cx.abs2 c * P)) with (Cx.abs2 c * (P * P)) by ring.
  rewrite sqrt_mult by nra. rewrite sqrt_square by lra.
  pose proof (sqrt_lt_R0 _ Hc2) as Hs.
  unfold Np.fdiv. destruct (Req_dec_T (sqrt (Cx.abs2 c) * P) 0) as [Hz|_]; [nra|].
  do 3 f_equal. field. lra.
Qed.

(** The statement of [mismatch_of_rescaled_copy] for three steady samples
    and [c = 2]. *)
Lemma mismatch_of_rescaled_copy_witness :
  waveform_mismatch (E := Reference.extern) (SampleWaves.steady 3)
    (with_data (SampleWaves.steady 3)
       (map (map (Cx.mul (Cx.mk 2 0))) (Scri.data (SampleWaves.steady 3))))
    None (INR 0) (INR 3)
  = Ok (Some (1 - Cx.re (Cx.mk 2 0) / sqrt (Cx.abs2 (Cx.mk 2 0)))).
Proof.
  apply (@mismatch_of_rescaled_copy Reference.extern (SampleWaves.steady 3)
           (Cx.mk 2 0) None (INR 0) (INR 3)).
  - exact reference_interpolate_exact.
  - apply unit_axis_sorted.
  - apply steady_well_shaped.
  - intros H. now contradiction H.
  - intros H. apply (f_equal Cx.re) in H. cbn in H. lra.
  - rewrite steady_power_3. lra.
Defined.

(** ** The samples of [h_A] that the scorer reads *)










(** ** The range of the score *)

Lemma row_quadratic_nonneg (lam : R) (ra : list C) : forall rb,
  0 <= Np.rsum (map Cx.abs2 ra)
       + 2 * lam * Np.rsum (map (fun xy => Cx.re (Cx.mul (fst xy) (Cx.conj (snd xy))))
                                (combine ra rb))
       + lam * lam * Np.rsum (map Cx.abs2 (firstn (length ra) rb)).
Proof.
  unfold Np.rsum.
  induction ra as [|[a1 a2] ra IH]; intros rb.
  - cbn. nra.
  - destruct rb as [|[b1 b2] rb].
    + cbn [combine map fold_right firstn length]. clear IH.
      assert (H : 0 <= fold_right Rplus 0 (map Cx.abs2 ra)).
      { induction ra as [|c ra IH]; cbn; [lra|]. pose proof (abs2_nonneg c). lra. }
      unfold Cx.abs2 at 1. cbn [Cx.re Cx.im]. nra.
    + cbn [combine map fold_right firstn length fst snd].
      specialize (IH rb).
      set (Sa := fold_right Rplus 0 (map Cx.abs2 ra)) in *.
      set (So := fold_right Rplus 0 (map _ (combine ra rb))) in *.
      set (Sb := fold_right Rplus 0 (map Cx.abs2 (firstn (length ra) rb))) in *.
      unfold Cx.abs2, Cx.mul, Cx.conj. cbn [Cx.re Cx.im].
      pose proof (Rle_0_sqr (a1 + lam * b1)) as H1.
      pose proof (Rle_0_sqr (a2 + lam * b2)) as H2. unfold Rsqr in H1, H2.
      nra.
Qed.

Lemma trapz_quadratic_nonneg (lam : R) (x : list R) : forall ya yo yb,
  StronglySorted Rlt x ->
  length yo = length ya -> length yb = length ya ->
  (forall k, 0 <= nth k ya 0 + 2 * lam * nth k yo 0 + lam * lam * nth k yb 0) ->
  0 <= trapz ya x + 2 * lam * trapz yo x + lam * lam * trapz yb x.
Proof.
  induction x as [|x0 x IH]; intros ya yo yb Hs Ho Hb Hk.
  - rewrite !trapz_nil_r. lra.
  - destruct x as [|x1 x]; [rewrite !trapz_one_r; lra|].
    destruct ya as [|a0 [|a1 ya]].
    + destruct yo, yb; try discriminate. rewrite !trapz_nil_l. lra.
    + destruct yo as [|o0 [|o1 yo]], yb as [|b0 [|b1 yb]]; try discriminate.
      rewrite !trapz_one_l. lra.
    + destruct yo as [|o0 [|o1 yo]], yb as [|b0 [|b1 yb]]; try discriminate.
      rewrite !trapz_cons.
      apply StronglySorted_inv in Hs. destruct Hs as [Hs Hlt].
      apply Forall_cons_iff in Hlt. destruct Hlt as [Hlt _].
      pose proof (Hk 0%nat) as H0. pose proof (Hk 1%nat) as H1. cbn [nth] in H0, H1.
      assert (IH' := IH (a1 :: ya) (o1 :: yo) (b1 :: yb) Hs
                       ltac:(cbn in *; lia) ltac:(cbn in *; lia)
                       (fun k => Hk (S k))).
      nra.
Qed.

Lemma discriminant_bound (p q r : R) :
  (forall lam, 0 <= p + 2 * lam * q + lam * lam * r) -> q * q <= p * r.
Proof.
  intros H.
  destruct (Req_dec_T r 0) as [Hr|Hr].
  - subst r. destruct (Req_dec_T q 0) as [Hq|Hq]; [subst; nra|].
    exfalso. pose proof (H (- (p + 1) / (2 * q))) as H1.
    replace (p + 2 * (- (p + 1) / (2 * q)) * q
             + - (p + 1) / (2 * q) * (- (p + 1) / (2 * q)) * 0)
      with (-1) in H1 by (field; assumption).
    lra.
  - pose proof (H (- q / r)) as H1.
    replace (p + 2 * (- q / r) * q + - q / r * (- q / r) * r)
      with ((p * r - q * q) / r) in H1 by (field; assumption).
    pose proof (H 0) as H2. pose proof (H 1) as H3. pose proof (H (-1)) as H4.
    assert (Hrpos : 0 < r).
    { destruct (Rlt_le_dec 0 r) as [|Hle]; [assumption|exfalso].
      assert (Hneg : r < 0) by lra.
      (* a downward parabola is negative far out *)
      pose proof (H ((Rabs q + Rabs p + 1) / - r + 1)) as H5.
      set (m := - r) in *. assert (Hm : 0 < m) by (unfold m; lra).
      set (u := (Rabs q + Rabs p + 1) / m + 1) in *.
      assert (Hu : 1 <= u).
      { unfold u. pose proof (Rabs_pos q). pose proof (Rabs_pos p).
        assert (0 <= (Rabs q + Rabs p + 1) / m)
          by (apply Rmult_le_pos; [lra | left; now apply Rinv_0_lt_compat]).
        lra. }
      assert (Hmu : m * u = Rabs q + Rabs p + 1 + m) by (unfold u; field; lra).
      pose proof (Rle_abs q). pose proof (Rle_abs p).
      replace r with (- m) in H5 by (unfold m; ring).
      assert (Hq2 : 2 * u * q <= 2 * u * Rabs q) by nra.
      assert (Hkey : u * u * m = u * (Rabs q + Rabs p + 1 + m)) by (rewrite <- Hmu; ring).
      pose proof (Rabs_pos q). pose proof (Rabs_pos p).
      nra. }
    assert (0 <= p * r - q * q).
    { apply Rmult_le_reg_r with (/ r); [now apply Rinv_0_lt_compat|].
      rewrite Rmult_0_l. exact H1. }
    lra.
Qed.

Lemma firstn_sorted {X} (R0 : X -> X -> Prop) k : forall l,
  StronglySorted R0 l -> StronglySorted R0 (firstn k l).
Proof.
  induction k as [|k IH]; intros [|x l] H; cbn [firstn]; try constructor.
  - apply IH. now apply StronglySorted_inv in H.
  - apply StronglySorted_inv in H. destruct H as [_ H].
    apply Forall_forall. intros y Hy. rewrite Forall_forall in H. apply H.
    rewrite <- (firstn_skipn k l). apply in_or_app. now left.
Qed.

Lemma slice_sorted {X} (R0 : X -> X -> Prop) lo hi l :
  StronglySorted R0 l -> StronglySorted R0 (Np.slice lo hi l).
Proof. intros H. unfold Np.slice. now apply firstn_sorted, skipn_sorted. Qed.

(** Cauchy-Schwarz for the three integrals of two arrays of the same
    shape. *)
Lemma overlap_bound (a b : Np.matrix) (n : nat) (x : list R) :
  length a = length b ->
  Forall (fun row => length row = n) a -> Forall (fun row => length row = n) b ->
  StronglySorted Rlt x ->
  trapz (overlap_rows a b) x * trapz (overlap_rows a b) x
  <= trapz (map (fun row => Np.rsum (map Cx.abs2 row)) a) x
     * trapz (map (fun row => Np.rsum (map Cx.abs2 row)) b) x.
Proof.
  intros Hlen Ha Hb Hs. apply discriminant_bound. intros lam.
  apply trapz_quadratic_nonneg; try assumption.
  - unfold overlap_rows. rewrite !length_map, length_combine. lia.
  - rewrite !length_map. lia.
  - intros k. destruct (Nat.lt_ge_cases k (length a)) as [Hk|Hk].
    + unfold overlap_rows.
      rewrite (@nth_map_in _ _ _ a k [] 0) by assumption.
      rewrite (@nth_map_in _ _ _ b k [] 0) by lia.
      rewrite (@nth_map_in _ _ _ (combine a b) k ([], []) 0)
        by (rewrite length_combine; lia).
      rewrite (combine_nth a b k [] [] Hlen). cbn [fst snd].
      pose proof (row_quadratic_nonneg lam (nth k a []) (nth k b [])) as H.
      assert (Hra : length (nth k a []) = n)
        by (rewrite Forall_forall in Ha; apply Ha, nth_In; lia).
      assert (Hrb : length (nth k b []) = n)
        by (rewrite Forall_forall in Hb; apply Hb, nth_In; lia).
      rewrite firstn_all2 in H by lia. exact H.
    + rewrite !nth_overflow;
        [lra | rewrite length_map; lia
         | unfold overlap_rows; rewrite length_map, length_combine; lia
         | rewrite length_map; lia].
Qed.

Lemma score_range o nA nB v :
  o * o <= nA * nB -> score o nA nB = Some v -> 0 <= v <= 2.
Proof.
  intros Hcs. unfold score, fsqrt, Np.fdiv.
  destruct (Rlt_dec (nA * nB) 0) as [|Hnn]; [discriminate|].
  destruct (Req_dec_T (sqrt (nA * nB)) 0) as [|Hd]; [discriminate|].
  intros [= <-].
  assert (Hpos : 0 <= nA * nB) by lra.
  pose proof (sqrt_pos (nA * nB)) as Hs0.
  pose proof (sqrt_sqrt _ Hpos) as Hss.
  set (d := sqrt (nA * nB)) in *.
  assert (Hdpos : 0 < d) by lra.
  assert (Hq : - 1 <= o / d <= 1).
  { assert (Ho : - d <= o <= d) by (split; nra).
    split.
    - apply Rmult_le_reg_r with d; [assumption|].
      replace (o / d * d) with o by (field; lra). lra.
    - apply Rmult_le_reg_r with d; [assumption|].
      replace (o / d * d) with o by (field; lra). lra. }
  lra.
Qed.

Section ScoreRange.

Context {E : Extern}.
Hypothesis interp_exact : interpolate_exact_at_samples E.

(** With a window that keeps no sample the score is never a number. *)
Lemma mismatch_empty_window (h h_B : WaveformModes) modes t1 t2 lo hi v :
  Scri.ell_min h_B = Scri.ell_min h -> Scri.ell_max h_B = Scri.ell_max h ->
  (modes <> None -> (0 <= Scri.ell_min h <= 2)%Z) ->
  Scri.t h_B = Scri.t h ->
  window (Scri.t h) t1 t2 = Ok (lo, hi) -> (hi <= lo)%nat ->
  waveform_mismatch h h_B modes t1 t2 <> Ok (Some v).
Proof.
  intros Hmin Hmax Hell Ht Hwin Hle.
  destruct (window_some _ _ _ Hwin) as [Hlo Hhi].
  unfold waveform_mismatch.
  rewrite (@masked_pair modes h h_B Hmin Hmax Hell). cbn [rbind].
  rewrite Hwin. cbn [rbind].
  assert (Hempty : forall X (l : list X), Np.slice lo hi l = []).
  { intros X l. unfold Np.slice. replace (hi - lo)%nat with 0%nat by lia.
    reflexivity. }
  unfold resampling_of.
  cbn [Scri.time_slice with_data Scri.t Scri.data Scri.ell_min Scri.ell_max].
  rewrite !Hempty. cbn [length]. rewrite Ht.
  destruct (Nat.eqb_spec 0 (length (Scri.t h))) as [H0|_]; [lia|]. cbn [negb].
  destruct (interpolate _ _) as [h'|e]; [|discriminate]. cbn [rbind].
  unfold mul_conj. cbn [length].
  destruct (Np.broadcast_len 0 (length (Scri.data h'))) as [nr|e] eqn:Hnr;
    [|discriminate].
  assert (Hnr0 : nr = 0%nat).
  { unfold Np.broadcast_len in Hnr.
    destruct (0 =? length (Scri.data h'))%nat; [congruence|].
    cbn [Nat.eqb] in Hnr.
    destruct (length (Scri.data h') =? 1)%nat; [congruence | discriminate]. }
  subst nr. cbn [rbind].
  destruct (Np.broadcast_len (Scri.n_modes _) (Scri.n_modes h')) as [nc|e];
    [|discriminate].
  cbn [rbind seq map]. unfold Scri.norm at 1.
  cbn [Scri.time_slice with_data Scri.data]. rewrite Hempty. cbn [map].
  change (Np.trapezoid [] []) with (@Ok R 0). cbn [rbind].
  destruct (Np.trapezoid (Scri.norm h') (Scri.t h')) as [nB|e]; [|discriminate].
  cbn [rbind]. rewrite Rmult_0_l. unfold fsqrt.
  destruct (Rlt_dec 0 0) as [|_]; [lra|]. rewrite sqrt_0. unfold Np.fdiv.
  destruct (Req_dec_T 0 0) as [_|Hn]; [discriminate | contradiction].
Qed.

Lemma mismatch_range (h h_B : WaveformModes) modes t1 t2 v :
  aligned h h_B -> StronglySorted Rlt (Scri.t h) ->
  (modes <> None -> (0 <= Scri.ell_min h <= 2)%Z) ->
  waveform_mismatch h h_B modes t1 t2 = Ok (Some v) -> 0 <= v <= 2.
Proof.
  intros Hal Hsorted Hell Hv.
  pose proof Hal as (Ht & Hmin & Hmax & Hshape & HshapeB).
  destruct (window (Scri.t h) t1 t2) as [[lo hi]|e] eqn:Hwin.
  2:{ exfalso. unfold waveform_mismatch in Hv.
      rewrite (@masked_pair modes h h_B Hmin Hmax Hell) in Hv. cbn [rbind] in Hv.
      rewrite Hwin in Hv. discriminate. }
  destruct (Nat.lt_ge_cases lo hi) as [Hlt|Hge].
  2:{ exfalso. now apply (@mismatch_empty_window h h_B modes t1 t2 lo hi v). }
  rewrite (@mismatch_aligned_value E interp_exact h h_B modes t1 t2 lo hi) in Hv
    by assumption.
  injection Hv as Hv. apply score_range in Hv; [exact Hv|].
  unfold windowed_overlap, windowed_power. rewrite Ht, Hwin.
  destruct (masked_data_shape modes Hshape) as [Hmlen Hmrows].
  destruct (masked_data_shape modes HshapeB) as [HmlenB HmrowsB].
  apply (@overlap_bound _ _ (Scri.n_modes h)).
  - rewrite !slice_length, Hmlen, HmlenB, Ht. reflexivity.
  - now apply slice_Forall.
  - apply slice_Forall.
    replace (Scri.n_modes h) with (Scri.n_modes h_B); [assumption|].
    unfold Scri.n_modes, Scri.LM. now rewrite Hmin, Hmax.
  - now apply slice_sorted.
Qed.

End ScoreRange.

(** X11. Whenever the score of two waveforms on the same time axis and
    mode range is a number, it lies between 0 and 2 (Cauchy-Schwarz for the
    trapezoidal integrals), over exact arithmetic and with an interpolation
    that returns the samples at the sample times. *)
Theorem mismatch_between_0_and_2 (E : Extern) h_A h_B modes t1 t2 v :
  interpolate_exact_at_samples E ->
  aligned h_A h_B -> StronglySorted Rlt (Scri.t h_A) ->
  (modes <> None -> (0 <= Scri.ell_min h_A <= 2)%Z) ->
  waveform_mismatch h_A h_B modes t1 t2 = Ok (Some v) -> 0 <= v <= 2.
Proof. intros Hinterp. now apply mismatch_range. Qed.

Lemma steady_aligned n : aligned (SampleWaves.steady n) (SampleWaves.steady n).
Proof. repeat split; apply steady_well_shaped. Qed.

(** The statement of [mismatch_between_0_and_2] for three steady samples
    scored against themselves. *)
Lemma mismatch_between_0_and_2_witness :
  waveform_mismatch (E := Reference.extern) (SampleWaves.steady 3)
    (SampleWaves.steady 3) None (INR 0) (INR 3) = Ok (Some 0)
  /\ 0 <= 0 <= 2.
Proof.
  assert (H : waveform_mismatch (E := Reference.extern) (SampleWaves.steady 3)
                (SampleWaves.steady 3) None (INR 0) (INR 3) = Ok (Some 0)).
  { apply (@mismatch_same_samples Reference.extern reference_interpolate_exact);
      try reflexivity.
    - apply unit_axis_sorted.
    - apply steady_well_shaped.
    - intros Hn. now contradiction Hn.
    - rewrite steady_power_3. lra. }
  split; [exact H|].
  apply (@mismatch_between_0_and_2 Reference.extern (SampleWaves.steady 3)
           (SampleWaves.steady 3) None (INR 0) (INR 3) 0).
  - exact reference_interpolate_exact.
  - apply steady_aligned.
  - apply unit_axis_sorted.
  - intros Hn. now contradiction Hn.
  - exact H.
Defined.

(** X12. A window that keeps fewer than two samples never gives a number:
    for two waveforms on the same time axis and mode range whose window
    [[lo, hi)] has [hi <= lo + 1], the scorer returns not-a-number or
    raises. *)
Theorem mismatch_needs_two_samples (E : Extern) h_A h_B modes t1 t2 lo hi v :
  interpolate_exact_at_samples E ->
  aligned h_A h_B -> StronglySorted Rlt (Scri.t h_A) ->
  (modes <> None -> (0 <= Scri.ell_min h_A <= 2)%Z) ->
  window (Scri.t h_A) t1 t2 = Ok (lo, hi) -> (hi <= lo + 1)%nat ->
  waveform_mismatch h_A h_B modes t1 t2 <> Ok (Some v).
Proof.
  intros Hinterp Hal Hsorted Hell Hwin Hle.
  pose proof Hal as (Ht & Hmin & Hmax & Hshape & HshapeB).
  destruct (Nat.lt_ge_cases lo hi) as [Hlt|Hge].
  2:{ now apply (@mismatch_empty_window E h_A h_B modes t1 t2 lo hi v). }
  rewrite (@mismatch_aligned_value E Hinterp h_A h_B modes t1 t2 lo hi)
    by assumption.
  assert (HP : windowed_power h_A modes t1 t2 = 0).
  { unfold windowed_power. rewrite Hwin. apply trapz_short.
    rewrite slice_length. lia. }
  rewrite HP. unfold score. rewrite Rmult_0_l. unfold fsqrt.
  destruct (Rlt_dec 0 0) as [|_]; [lra|]. rewrite sqrt_0. unfold Np.fdiv.
  destruct (Req_dec_T 0 0) as [_|Hn]; [discriminate | contradiction].
Qed.

(** The statement of [mismatch_needs_two_samples] for two steady samples,
    whose window for [t1 = 0], [t2 = 2] keeps the last one. *)
Lemma mismatch_needs_two_samples_witness :
  waveform_mismatch (E := Reference.extern) (SampleWaves.steady 2)
    (SampleWaves.steady 2) None (INR 0) (INR 2) <> Ok (Some 0).
Proof.
  apply (@mismatch_needs_two_samples Reference.extern (SampleWaves.steady 2)
           (SampleWaves.steady 2) None (INR 0) (INR 2) 1%nat 2%nat 0).
  - exact reference_interpolate_exact.
  - apply steady_aligned.
  - apply unit_axis_sorted.
  - intros Hn. now contradiction Hn.
  - apply (window_unit_axis 1).
  - lia.
Defined.

(** ** What the fitter checks before it touches a term *)

Lemma term_m_ok h l :
  has_mode_at h l -> term_m l h = (h, Ok (m_at h l)).
Proof.
  intros (tm & [[[ell m] n] sign] & Hl & Hmode).
  unfold term_m, sbind, deref, slift. rewrite Hl, Hmode. cbn [getitem]. unfold sret.
  unfold m_at, m_of. now rewrite (nth_error_nth _ _ no_term Hl), Hmode.
Qed.

Lemma term_m_no_mode h l tm :
  nth_error h l = Some tm -> mode tm = None -> term_m l h = (h, Raise KeyError).
Proof.
  intros Hl Hmode. unfold term_m, sbind, deref, slift. now rewrite Hl, Hmode.
Qed.

Lemma collect_m_missing_mode h ls : forall acc,
  Forall (fun l => (l < length h)%nat) ls ->
  (exists l tm, In l ls /\ nth_error h l = Some tm /\ mode tm = None) ->
  collect_m ls acc h = (h, Raise KeyError).
Proof.
  induction ls as [|l ls IH]; intros acc Hvalid (l0 & tm0 & Hin & Hl0 & Hnone);
    [contradiction|].
  apply Forall_cons_iff in Hvalid. destruct Hvalid as [Hl Hvalid].
  cbn [collect_m]. unfold sbind.
  destruct (nth_error h l) as [tm|] eqn:Htm;
    [|apply nth_error_None in Htm; lia].
  destruct (mode tm) as [label|] eqn:Hmode.
  - rewrite term_m_ok by (exists tm, label; auto).
    apply IH; [assumption|].
    destruct Hin as [->|Hin]; [congruence|]. exists l0, tm0. auto.
  - now rewrite (@term_m_no_mode h l tm Htm Hmode).
Qed.

(** X13. A dictionary with a term that has no key ['mode'] makes the fitter
    raise KeyError before it writes to any term: the azimuthal numbers are
    collected from every term first, terms of type "other" included. *)
Theorem fit_missing_mode_raises (E : Extern) h_ring modes times chi_f M_f fixed_QNMs
    t_ref (h : heap) :
  Forall (fun l => (l < length h)%nat) (values fixed_QNMs) ->
  (exists l tm, In l (values fixed_QNMs) /\ nth_error h l = Some tm
                /\ mode tm = None) ->
  fit_ringdown_waveform_LLSQ_S2 h_ring modes times chi_f M_f fixed_QNMs t_ref h
  = (h, Raise KeyError).
Proof.
  intros Hvalid Hmissing. unfold fit_ringdown_waveform_LLSQ_S2.
  unfold sbind at 1. now rewrite collect_m_missing_mode.
Qed.

(** The statement of [fit_missing_mode_raises] for the dictionary
    [{0: (2, 2, 0, +1), 1: other_22}]: the second term has no ['mode']. *)
Lemma fit_missing_mode_raises_witness :
  fit_ringdown_waveform_LLSQ_S2 (E := Reference.extern)
    (SampleFit.target SampleFit.a0) None (INR 0, INR 3)
    (Scalar SampleFit.chi) (Scalar SampleFit.mass) (positional_dict 2) 0
    [Sample.qnm_220 None; Sample.other_22]
  = ([Sample.qnm_220 None; Sample.other_22], Raise KeyError).
Proof.
  apply (@fit_missing_mode_raises Reference.extern).
  - repeat constructor.
  - exists 1%nat, Sample.other_22. repeat split. right. now left.
Defined.

Lemma collect_m_total h ls : forall acc,
  Forall (has_mode_at h) ls ->
  collect_m ls acc h = (h, Ok (distinct_after acc (map (m_at h) ls))).
Proof.
  induction ls as [|l ls IH]; intros acc Hall; [reflexivity|].
  apply Forall_cons_iff in Hall. destruct Hall as [Hl Hall].
  cbn [collect_m]. unfold sbind. rewrite term_m_ok by assumption.
  now rewrite IH.
Qed.

Lemma mode_labels_total h m ls : forall i,
  Forall (has_mode_at h) ls ->
  exists labels, mode_labels m i ls h = (h, Ok labels)
                 /\ map snd labels = filter (fun l => (m_at h l =? m)%Z) ls.
Proof.
  induction ls as [|l ls IH]; intros i Hall; [exists []; split; reflexivity|].
  apply Forall_cons_iff in Hall. destruct Hall as [Hl Hall].
  destruct (IH (S i) Hall) as (rest & Hrest & Hsnd).
  cbn [mode_labels filter]. unfold sbind. rewrite term_m_ok by assumption.
  rewrite Hrest. unfold sret. eexists. split; [reflexivity|].
  destruct (m_at h l =? m)%Z; cbn [map snd]; now rewrite Hsnd.
Qed.

Lemma distinct_after_prefix ms : forall acc,
  exists rest, distinct_after acc ms = acc ++ rest.
Proof.
  induction ms as [|m ms IH]; intros acc; cbn [distinct_after fold_left].
  - exists []. now rewrite app_nil_r.
  - fold (distinct_after (if existsb (Z.eqb m) acc then acc else acc ++ [m]) ms).
    destruct (existsb (Z.eqb m) acc).
    + apply IH.
    + destruct (IH (acc ++ [m])) as [rest Hrest]. exists (m :: rest).
      rewrite Hrest. now rewrite <- app_assoc.
Qed.

(** X14. With a mode list in which no mode has the azimuthal number of the
    first term of the dictionary, the empty list for one, the fitter raises
    ValueError (the minimum of no ell) before it writes to any term. *)
Theorem fit_unlisted_azimuthal_number_raises (E : Extern) h_ring ms times chi_f M_f
    fixed_QNMs t_ref (h : heap) l0 ls :
  values fixed_QNMs = l0 :: ls ->
  Forall (has_mode_at h) (values fixed_QNMs) ->
  filter (fun lm => (m_at h l0 =? snd lm)%Z) ms = [] ->
  fit_ringdown_waveform_LLSQ_S2 h_ring (Some ms) times chi_f M_f fixed_QNMs t_ref h
  = (h, Raise ValueError).
Proof.
  intros Hvalues Hall Hnone. unfold fit_ringdown_waveform_LLSQ_S2.
  unfold sbind at 1. rewrite collect_m_total by assumption.
  rewrite Hvalues. cbn [map distinct_after fold_left existsb app].
  fold (distinct_after [m_at h l0] (map (m_at h) ls)).
  destruct (distinct_after_prefix (map (m_at h) ls) [m_at h l0]) as [rest Hrest].
  rewrite Hrest. cbn [app sfor].
  unfold sbind at 1. unfold sbind at 1. unfold fit_block at 1.
  unfold sbind at 1.
  destruct (@mode_labels_total h (m_at h l0) (values fixed_QNMs) 0 Hall)
    as (labels & Hlabels & _).
  rewrite Hlabels. unfold sbind at 1, slift at 1.
  unfold block_range. now rewrite Hnone.
Qed.

(** The statement of [fit_unlisted_azimuthal_number_raises] for the term
    (2, 2, 0, +1) and the mode list [[(2, 0)]]. *)
Lemma fit_unlisted_azimuthal_number_raises_witness :
  fit_ringdown_waveform_LLSQ_S2 (E := Reference.extern)
    (SampleFit.target SampleFit.a0) (Some [(2, 0)%Z]) (INR 0, INR 3)
    (Scalar SampleFit.chi) (Scalar SampleFit.mass) (positional_dict 1) 0
    [Sample.qnm_220 None]
  = ([Sample.qnm_220 None], Raise ValueError).
Proof.
  apply (@fit_unlisted_azimuthal_number_raises Reference.extern
           (SampleFit.target SampleFit.a0) [(2, 0)%Z] (INR 0, INR 3)
           (Scalar SampleFit.chi) (Scalar SampleFit.mass) (positional_dict 1) 0
           [Sample.qnm_220 None] 0%nat []).
  - reflexivity.
  - constructor; [|constructor].
    exists (Sample.qnm_220 None), (2, 2, 0, 1)%Z. split; reflexivity.
  - reflexivity.
Defined.

(** ** The amplitudes that the terms hold on entry *)

Lemma alike_sret {A} (P : heap -> heap -> Prop) (a : A) :
  alike P (fun _ => P) (sret a).
Proof. intros h1 h2 HP. split; [reflexivity | intros _ _; exact HP]. Qed.

Lemma alike_sraise {A} (P : heap -> heap -> Prop) Q e :
  alike P Q (@sraise heap A e).
Proof. intros h1 h2 HP. split; [reflexivity | discriminate]. Qed.

Lemma alike_slift {A} (P : heap -> heap -> Prop) (r : result A) :
  alike P (fun _ => P) (slift r).
Proof.
  intros h1 h2 HP. split; [reflexivity | intros a _].
  unfold slift. exact HP.
Qed.

Lemma alike_sbind {A B} P Q R (c : St heap A) (k : A -> St heap B) :
  alike P Q c -> (forall a, alike (Q a) R (k a)) -> alike P R (sbind c k).
Proof.
  intros Hc Hk h1 h2 HP. destruct (Hc h1 h2 HP) as [Hres Hpost]. unfold sbind.
  destruct (c h1) as [h1' [a|e]], (c h2) as [h2' [a'|e']]; cbn [fst snd] in *;
    try discriminate.
  - injection Hres as <-. apply (Hk a). now apply Hpost.
  - injection Hres as <-. split; [reflexivity | discriminate].
Qed.

Lemma alike_post {A} P (Q Q' : A -> heap -> heap -> Prop) (c : St heap A) :
  alike P Q c -> (forall a h1 h2, Q a h1 h2 -> Q' a h1 h2) -> alike P Q' c.
Proof.
  intros Hc HQ h1 h2 HP. destruct (Hc h1 h2 HP) as [Hres Hpost].
  split; [assumption | intros a Ha; apply HQ; now apply Hpost].
Qed.

Lemma alike_fact {A} (F : Prop) P Q (c : St heap A) :
  (F -> alike P Q c) -> alike (fun h1 h2 => P h1 h2 /\ F) Q c.
Proof. intros Hc h1 h2 [HP HF]. now apply Hc. Qed.

Lemma agree_on_weaken h0 W W' h1 h2 :
  (forall l, In l W' -> In l W) -> agree_on h0 W h1 h2 -> agree_on h0 W' h1 h2.
Proof.
  intros Hsub (H1 & H2 & Hag). repeat split; try assumption.
  intros l Hl. apply Hag. now apply Hsub.
Qed.

Lemma heap_frame_nth_error h0 h l :
  heap_frame h0 h ->
  match nth_error h0 l, nth_error h l with
  | Some tm0, Some tm => same_but_amp tm0 tm
  | None, None => True
  | _, _ => False
  end.
Proof.
  intros Hf. revert l. induction Hf as [|a b h0 h Hab _ IH]; intros [|l]; cbn;
    try exact I; [exact Hab | apply IH].
Qed.

Lemma agree_on_update h0 W h1 h2 l a :
  agree_on h0 W h1 h2 ->
  agree_on h0 (l :: W) (update l (set_amp a) h1) (update l (set_amp a) h2).
Proof.
  intros (H1 & H2 & Hag). repeat split.
  - eapply heap_frame_trans; [exact H1 | apply heap_frame_update].
  - eapply heap_frame_trans; [exact H2 | apply heap_frame_update].
  - intros l' Hl'. rewrite !nth_error_update.
    destruct (l' =? l)%nat eqn:Heq.
    + pose proof (heap_frame_nth_error l' H1) as F1.
      pose proof (heap_frame_nth_error l' H2) as F2.
      destruct (nth_error h0 l') as [tm0|], (nth_error h1 l') as [tm1|],
        (nth_error h2 l') as [tm2|]; try contradiction; cbn [option_map];
        [|reflexivity].
      now rewrite (set_amp_frame a F1), (set_amp_frame a F2).
    + destruct Hl' as [<-|Hl']; [apply Nat.eqb_neq in Heq; congruence|].
      now apply Hag.
Qed.

Lemma m_at_frame h0 h l : heap_frame h0 h -> m_at h l = m_at h0 l.
Proof.
  intros Hf. pose proof (heap_frame_nth_error l Hf) as F. unfold m_at, m_of.
  destruct (nth_error h0 l) as [tm0|] eqn:H0, (nth_error h l) as [tm|] eqn:H1;
    try contradiction.
  - rewrite (nth_error_nth _ _ no_term H0), (nth_error_nth _ _ no_term H1).
    destruct F as (_ & Hmode & _). now rewrite Hmode.
  - apply nth_error_None in H0, H1. now rewrite !nth_overflow by assumption.
Qed.

Lemma term_m_framed h0 h l :
  heap_frame h0 h -> term_m l h = (h, snd (term_m l h0)).
Proof.
  intros Hf. pose proof (heap_frame_nth_error l Hf) as F.
  unfold term_m, sbind, deref, slift.
  destruct (nth_error h0 l) as [tm0|], (nth_error h l) as [tm|];
    try contradiction; [|reflexivity].
  destruct F as (_ & Hmode & _). rewrite <- Hmode.
  destruct (mode tm0) as [[[[ell m] n] sign]|]; reflexivity.
Qed.

Lemma term_m_value h l m : snd (term_m l h) = Ok m -> m = m_at h l.
Proof.
  unfold term_m, sbind, deref, slift, m_at, m_of.
  destruct (nth_error h l) as [tm|] eqn:Hl; [|discriminate].
  rewrite (nth_error_nth _ _ no_term Hl).
  destruct (mode tm) as [[[[ell m'] n] sign]|]; cbn; [|discriminate].
  unfold sret. cbn. congruence.
Qed.

Lemma term_m_pure h l : fst (term_m l h) = h.
Proof. now rewrite (term_m_framed l (heap_frame_refl h)). Qed.

Lemma collect_m_framed h0 ls : forall acc h,
  heap_frame h0 h -> collect_m ls acc h = (h, snd (collect_m ls acc h0)).
Proof.
  induction ls as [|l ls IH]; intros acc h Hf; [reflexivity|].
  cbn [collect_m]. unfold sbind. rewrite (term_m_framed l Hf).
  pose proof (term_m_pure h0 l) as Hpure.
  destruct (term_m l h0) as [s [m|e]]; cbn [fst snd] in *; subst s;
    [|reflexivity].
  now apply IH.
Qed.

Lemma collect_m_value h ls : forall acc ml,
  snd (collect_m ls acc h) = Ok ml -> ml = distinct_after acc (map (m_at h) ls).
Proof.
  induction ls as [|l ls IH]; intros acc ml Hrun.
  - cbn in Hrun. unfold sret in Hrun. cbn in Hrun. injection Hrun as <-.
    reflexivity.
  - cbn [collect_m] in Hrun. unfold sbind in Hrun.
    pose proof (term_m_pure h l) as Hpure.
    destruct (term_m l h) as [s [m|e]] eqn:Hm; cbn [fst snd] in *; subst s;
      [|discriminate].
    assert (Hv : m = m_at h l) by (apply term_m_value; now rewrite Hm).
    subst m. now apply IH in Hrun.
Qed.

Lemma mode_labels_framed h0 m ls : forall i h,
  heap_frame h0 h -> mode_labels m i ls h = (h, snd (mode_labels m i ls h0)).
Proof.
  induction ls as [|l ls IH]; intros i h Hf; [reflexivity|].
  cbn [mode_labels]. unfold sbind. rewrite (term_m_framed l Hf).
  pose proof (term_m_pure h0 l) as Hpure.
  destruct (term_m l h0) as [s [m'|e]]; cbn [fst snd] in *; subst s;
    [|reflexivity].
  rewrite (IH _ _ Hf), (IH _ h0 (heap_frame_refl h0)). cbn [snd].
  destruct (snd (mode_labels m (S i) ls h0)); reflexivity.
Qed.

Lemma mode_labels_value h m ls : forall i labels,
  snd (mode_labels m i ls h) = Ok labels ->
  map snd labels = filter (fun l => (m_at h l =? m)%Z) ls.
Proof.
  induction ls as [|l ls IH]; intros i labels Hrun.
  - cbn in Hrun. unfold sret in Hrun. cbn in Hrun. injection Hrun as <-. reflexivity.
  - cbn [mode_labels] in Hrun. unfold sbind in Hrun.
    pose proof (term_m_pure h l) as Hpure.
    destruct (term_m l h) as [s [m'|e]] eqn:Hm; cbn [fst snd] in *; subst s;
      [|discriminate].
    assert (Hv : m' = m_at h l) by (apply term_m_value; now rewrite Hm).
    subst m'.
    destruct (mode_labels m (S i) ls h) as [s [rest|e]] eqn:Hrest;
      cbn [snd] in Hrun; [|discriminate].
    assert (Hr : map snd rest = filter (fun l => (m_at h l =? m)%Z) ls)
      by (apply (IH (S i)); now rewrite Hrest).
    clear Hrest. rename Hr into Hrest.
    unfold sret in Hrun. cbn [snd] in Hrun.
    injection Hrun as <-. cbn [filter].
    destruct (m_at h l =? m)%Z; cbn [map snd]; now rewrite Hrest.
Qed.

Section EntryAmplitudes.

Context {E : Extern}.
Variables (h_ring : WaveformModes) (modes : option (list (Z * Z))).
Variables (times : R * R) (chi_f M_f : param) (fixed_QNMs : dict) (t_ref : R).
Variable h0 : heap.

Lemma alike_store_amp W l a :
  alike (agree_on h0 W) (fun _ => agree_on h0 (l :: W)) (store_amp l a).
Proof.
  intros h1 h2 Hag. split; [reflexivity | intros _ _].
  unfold store_amp. cbn [fst]. now apply agree_on_update.
Qed.

Lemma alike_basis_block W h_trunc idx n_ell l :
  alike (agree_on h0 W) (fun _ => agree_on h0 (l :: W))
        (basis_block times chi_f M_f t_ref h_trunc idx n_ell l).
Proof.
  intros h1 h2 Hag. pose proof (agree_on_update l Cx.one Hag) as Hup.
  destruct Hag as (H1 & H2 & Hag).
  pose proof (heap_frame_nth_error l H1) as F1.
  pose proof (heap_frame_nth_error l H2) as F2.
  unfold basis_block, sbind, deref, store_amp.
  destruct (nth_error h0 l) as [tm0|], (nth_error h1 l) as [tm1|] eqn:E1,
    (nth_error h2 l) as [tm2|] eqn:E2; try contradiction;
    [|split; [reflexivity | discriminate]].
  rewrite !nth_error_update, Nat.eqb_refl, E1, E2. cbn [option_map].
  rewrite (set_amp_frame Cx.one F1), (set_amp_frame Cx.one F2).
  unfold slift.
  destruct (snd (qnm_modes_as chi_f M_f [set_amp Cx.one tm0] h_trunc (fst times)
                   t_ref None)) as [h_QNM|e];
    [|split; [reflexivity | discriminate]].
  destruct (select_cols _ idx _) as [cols|e];
    [|split; [reflexivity | discriminate]].
  split; [reflexivity | intros blk _; exact Hup].
Qed.

Lemma alike_basis_blocks h_trunc idx n_ell labels : forall W,
  alike (agree_on h0 W) (fun _ => agree_on h0 (map snd labels ++ W))
        (basis_blocks times chi_f M_f t_ref h_trunc idx n_ell labels).
Proof.
  induction labels as [|[i l] labels IH]; intros W; cbn [basis_blocks].
  - apply alike_sret.
  - eapply alike_sbind; [apply alike_basis_block | intros blk].
    eapply alike_sbind; [apply IH | intros rest].
    eapply alike_post; [apply alike_sret|].
    intros ? h1 h2. apply agree_on_weaken. intros l'. cbn [map snd app In].
    rewrite !in_app_iff. cbn [In]. tauto.
Qed.

Lemma alike_write_back W labels x : forall count,
  alike (agree_on h0 W) (fun _ => agree_on h0 W)
        (write_back fixed_QNMs labels x count).
Proof.
  induction labels as [|[i l] labels IH]; intros count; cbn [write_back].
  - apply alike_sret.
  - eapply alike_sbind; [apply alike_slift | intros a].
    eapply alike_sbind; [apply alike_slift | intros l'].
    eapply alike_sbind; [|intros ?; apply IH].
    eapply alike_post; [apply alike_store_amp|].
    intros ? h1 h2. apply agree_on_weaken. intros l1 Hl1. now right.
Qed.

(** The references of the dictionary whose term has the azimuthal number
    [m], or one of [ms]. *)
Let of_m (m : Z) : list nat :=
  filter (fun l => (m_at h0 l =? m)%Z) (values fixed_QNMs).

Let of_ms (ms : list Z) : list nat :=
  filter (fun l => existsb (Z.eqb (m_at h0 l)) ms) (values fixed_QNMs).

Lemma alike_mode_labels W m :
  alike (agree_on h0 W)
        (fun labels h1 h2 => agree_on h0 W h1 h2 /\ map snd labels = of_m m)
        (mode_labels m 0 (values fixed_QNMs)).
Proof.
  intros h1 h2 Hag. pose proof Hag as (H1 & H2 & _).
  rewrite (@mode_labels_framed h0 m (values fixed_QNMs) 0 h1 H1).
  rewrite (@mode_labels_framed h0 m (values fixed_QNMs) 0 h2 H2). cbn [fst snd].
  split; [reflexivity | intros labels Hrun]. split; [assumption|].
  now apply mode_labels_value in Hrun.
Qed.

Lemma alike_fit_block W m :
  alike (agree_on h0 W) (fun _ => agree_on h0 (of_m m ++ W))
        (fit_block h_ring modes times chi_f M_f fixed_QNMs t_ref m).
Proof.
  unfold fit_block.
  eapply alike_sbind; [apply alike_mode_labels | intros labels].
  apply alike_fact. intros Hlabels.
  eapply alike_sbind; [apply alike_slift | intros [[idx lmin] lmax]].
  destruct (_ <? 0)%Z; [apply alike_sraise|].
  eapply alike_sbind; [apply alike_slift | intros h_trunc].
  eapply alike_sbind; [apply alike_slift | intros A].
  eapply alike_sbind; [apply alike_basis_blocks | intros blocks].
  eapply alike_sbind; [apply alike_slift | intros A_flat].
  eapply alike_sbind; [apply alike_slift | intros x].
  rewrite Hlabels. apply alike_write_back.
Qed.

Lemma alike_fit_blocks ms : forall W,
  alike (agree_on h0 W) (fun _ => agree_on h0 (of_ms ms ++ W))
        (sfor ms (fit_block h_ring modes times chi_f M_f fixed_QNMs t_ref)).
Proof.
  induction ms as [|m ms IH]; intros W; cbn [sfor].
  - eapply alike_post; [apply alike_sret|].
    intros ? h1 h2. apply agree_on_weaken. intros l. rewrite in_app_iff.
    unfold of_ms. rewrite filter_In. cbn [existsb]. intros [[_ ?]|?];
      [discriminate | assumption].
  - eapply alike_sbind; [apply alike_fit_block | intros ?].
    eapply alike_post; [apply IH|].
    intros ? h1 h2. apply agree_on_weaken. intros l. rewrite !in_app_iff.
    unfold of_ms, of_m. rewrite !filter_In. cbn [existsb].
    rewrite orb_true_iff. intros [[Hl [Hm|Hm]]|Hl]; auto.
Qed.

Lemma alike_read W :
  (forall l, In l (values fixed_QNMs) -> In l W) ->
  alike (agree_on h0 W) (fun _ => agree_on h0 W)
        (fun h => (h, rmap (fun l => match nth_error h l with
                                     | Some tm => Ok tm
                                     | None => Raise LibraryError
                                     end) (values fixed_QNMs))).
Proof.
  intros Hsub h1 h2 Hag. cbn [fst snd]. split; [|intros _ _; exact Hag].
  destruct Hag as (_ & _ & Hag).
  induction (values fixed_QNMs) as [|l ls IH]; [reflexivity|].
  cbn [rmap]. rewrite (Hag l) by (apply Hsub; now left).
  rewrite IH by (intros l' Hl'; apply Hsub; now right). reflexivity.
Qed.

Lemma alike_fit :
  alike (agree_on h0 [])
        (fun _ => agree_on h0 (values fixed_QNMs))
        (fit_ringdown_waveform_LLSQ_S2 h_ring modes times chi_f M_f fixed_QNMs t_ref).
Proof.
  unfold fit_ringdown_waveform_LLSQ_S2.
  eapply alike_sbind with
    (Q := fun ml h1 h2 => agree_on h0 [] h1 h2
          /\ ml = distinct_after [] (map (m_at h0) (values fixed_QNMs))).
  { intros h1 h2 Hag. pose proof Hag as (H1 & H2 & _).
    rewrite (@collect_m_framed h0 (values fixed_QNMs) [] h1 H1).
    rewrite (@collect_m_framed h0 (values fixed_QNMs) [] h2 H2). cbn [fst snd].
    split; [reflexivity | intros ml Hrun]. split; [assumption|].
    now apply collect_m_value in Hrun. }
  intros m_list. apply alike_fact. intros Hm_list.
  eapply alike_sbind with (Q := fun _ => agree_on h0 (values fixed_QNMs)).
  { eapply alike_post; [apply alike_fit_blocks|].
    intros ? h1 h2. apply agree_on_weaken. intros l Hl. rewrite in_app_iff. left.
    unfold of_ms. rewrite filter_In. split; [assumption|].
    apply existsb_exists. exists (m_at h0 l). split; [|apply Z.eqb_refl].
    rewrite Hm_list. apply distinct_after_In. right. now apply in_map. }
  intros ?.
  eapply alike_sbind; [apply alike_read; auto | intros terms].
  eapply alike_sbind; [apply alike_slift | intros h_QNM].
  destruct (residual _ _ _ _) as [diff r].
  eapply alike_sbind; [apply alike_slift | intros ?].
  eapply alike_sbind; [apply alike_slift | intros num].
  eapply alike_sbind; [apply alike_slift | intros den].
  eapply alike_sbind; [apply alike_slift | intros mismatch].
  apply alike_sret.
Qed.

End EntryAmplitudes.

(** X15. The fit does not depend on the amplitudes that the terms hold on
    entry: run on two heaps whose objects differ at most in the field ['A'],
    the fitter returns the same result or raises the same exception, and when
    it returns, every term of the dictionary holds the same amplitude in
    both. *)
Theorem fit_ignores_entry_amplitudes (E : Extern) h_ring modes times chi_f M_f
    fixed_QNMs t_ref (h h' : heap) :
  heap_frame h h' ->
  let run := fit_ringdown_waveform_LLSQ_S2 h_ring modes times chi_f M_f
               fixed_QNMs t_ref in
  snd (run h) = snd (run h')
  /\ forall res, snd (run h) = Ok res ->
       forall l, In l (values fixed_QNMs) ->
         nth_error (fst (run h)) l = nth_error (fst (run h')) l.
Proof.
  intros Hf run.
  assert (Hag : agree_on h [] h h').
  { repeat split; [apply heap_frame_refl | assumption | intros l []]. }
  destruct (@alike_fit E h_ring modes times chi_f M_f fixed_QNMs t_ref h h h' Hag)
    as [Hres Hpost].
  split; [exact Hres|]. intros res Hrun l Hl.
  destruct (Hpost res Hrun) as (_ & _ & Hsame). now apply Hsame.
Qed.

(** The statement of [fit_ignores_entry_amplitudes] for the term
    (2, 2, 0, +1), once without an amplitude and once with one. *)
Lemma fit_ignores_entry_amplitudes_witness :
  let run := fit_ringdown_waveform_LLSQ_S2 (E := Reference.extern)
               (SampleFit.target SampleFit.a0) None (INR 0, INR 3)
               (Scalar SampleFit.chi) (Scalar SampleFit.mass)
               (positional_dict 1) 0 in
  snd (run [Sample.qnm_220 None]) = snd (run [Sample.qnm_220 (Some SampleFit.a0)])
  /\ forall res, snd (run [Sample.qnm_220 None]) = Ok res ->
       forall l, In l (values (positional_dict 1)) ->
         nth_error (fst (run [Sample.qnm_220 None])) l
         = nth_error (fst (run [Sample.qnm_220 (Some SampleFit.a0)])) l.
Proof.
  apply (@fit_ignores_entry_amplitudes Reference.extern
           (SampleFit.target SampleFit.a0) None (INR 0, INR 3)
           (Scalar SampleFit.chi) (Scalar SampleFit.mass) (positional_dict 1) 0
           [Sample.qnm_220 None] [Sample.qnm_220 (Some SampleFit.a0)]).
  constructor; [repeat split | constructor].
Defined.

(** ** The objects that the fitter writes to *)

Lemma leaves_sret {A} l (a : A) : leaves l (sret a).
Proof. intros h. reflexivity. Qed.

Lemma leaves_sraise {A} l e : leaves l (@sraise heap A e).
Proof. intros h. reflexivity. Qed.

Lemma leaves_slift {A} l (r : result A) : leaves l (slift r).
Proof. intros h. reflexivity. Qed.

Lemma leaves_read {A} l (f : heap -> result A) : leaves l (fun h => (h, f h)).
Proof. intros h. reflexivity. Qed.

Lemma leaves_store_amp l l' a : l' <> l -> leaves l (store_amp l' a).
Proof.
  intros Hne h. unfold store_amp. cbn [fst]. rewrite nth_error_update.
  destruct (l =? l')%nat eqn:Heq; [|reflexivity].
  apply Nat.eqb_eq in Heq. congruence.
Qed.

Lemma leaves_sbind_post {A B} l (Q : A -> Prop) (c : St heap A) (k : A -> St heap B) :
  leaves l c -> (forall h a, snd (c h) = Ok a -> Q a) ->
  (forall a, Q a -> leaves l (k a)) -> leaves l (sbind c k).
Proof.
  intros Hc HQ Hk h. unfold sbind. specialize (Hc h). specialize (HQ h).
  destruct (c h) as [h1 [a|e]]; cbn [fst snd] in *; [|assumption].
  rewrite <- Hc. apply Hk. now apply HQ.
Qed.

Lemma leaves_sbind {A B} l (c : St heap A) (k : A -> St heap B) :
  leaves l c -> (forall a, leaves l (k a)) -> leaves l (sbind c k).
Proof.
  intros Hc Hk. apply leaves_sbind_post with (Q := fun _ => True); auto.
Qed.

Lemma leaves_sfor {X} l (xs : list X) (body : X -> St heap unit) :
  (forall x, leaves l (body x)) -> leaves l (sfor xs body).
Proof.
  intros Hb. induction xs as [|x xs IH]; cbn [sfor]; [apply leaves_sret|].
  apply leaves_sbind; [apply Hb | intros ?; apply IH].
Qed.

Lemma dict_get_In (d : dict) k l : dict_get d k = Ok l -> In l (values d).
Proof.
  induction d as [|[k' l'] d IH]; cbn [dict_get values map snd]; [discriminate|].
  destruct (key_eqb k' k); [intros [= ->]; now left | intros H; right; now apply IH].
Qed.

Lemma mode_labels_among h m ls i labels :
  snd (mode_labels m i ls h) = Ok labels -> forall l, In l (map snd labels) -> In l ls.
Proof.
  intros Hrun l. rewrite (mode_labels_value _ _ _ _ Hrun), filter_In. tauto.
Qed.

Section Untouched.

Context {E : Extern}.
Variables (h_ring : WaveformModes) (modes : option (list (Z * Z))).
Variables (times : R * R) (chi_f M_f : param) (fixed_QNMs : dict) (t_ref : R).
Variable l : nat.
Hypothesis Houtside : ~ In l (values fixed_QNMs).

Lemma leaves_basis_block h_trunc idx n_ell l' :
  l' <> l -> leaves l (basis_block times chi_f M_f t_ref h_trunc idx n_ell l').
Proof.
  intros Hne. unfold basis_block.
  apply leaves_sbind; [apply leaves_read | intros tm].
  apply leaves_sbind; [now apply leaves_store_amp | intros ?].
  apply leaves_sbind; [apply leaves_read | intros tm1].
  apply leaves_sbind; [apply leaves_slift | intros h_QNM].
  apply leaves_sbind; [apply leaves_slift | intros cols].
  apply leaves_slift.
Qed.

Lemma leaves_basis_blocks h_trunc idx n_ell labels :
  ~ In l (map snd labels) ->
  leaves l (basis_blocks times chi_f M_f t_ref h_trunc idx n_ell labels).
Proof.
  induction labels as [|[i l'] labels IH]; intros Hout; cbn [basis_blocks];
    [apply leaves_sret|].
  cbn [map snd In] in Hout.
  apply leaves_sbind; [apply leaves_basis_block; tauto | intros blk].
  apply leaves_sbind; [apply IH; tauto | intros rest; apply leaves_sret].
Qed.

Lemma leaves_write_back labels x : forall count,
  leaves l (write_back fixed_QNMs labels x count).
Proof.
  induction labels as [|[i l'] labels IH]; intros count; cbn [write_back];
    [apply leaves_sret|].
  apply leaves_sbind; [apply leaves_slift | intros a].
  apply leaves_sbind_post with (Q := fun l1 => In l1 (values fixed_QNMs)).
  - apply leaves_slift.
  - intros h l1 Hl1. unfold slift in Hl1. cbn [snd] in Hl1.
    now apply dict_get_In in Hl1.
  - intros l1 Hl1.
    apply leaves_sbind; [apply leaves_store_amp; congruence | intros ?; apply IH].
Qed.

Lemma leaves_term_m l' : leaves l (term_m l').
Proof. intros h. now rewrite term_m_pure. Qed.

Lemma leaves_mode_labels m ls : forall i, leaves l (mode_labels m i ls).
Proof.
  induction ls as [|l' ls IH]; intros i; cbn [mode_labels]; [apply leaves_sret|].
  apply leaves_sbind; [apply leaves_term_m | intros m'].
  apply leaves_sbind; [apply IH | intros rest; apply leaves_sret].
Qed.

Lemma leaves_collect_m ls : forall acc, leaves l (collect_m ls acc).
Proof.
  induction ls as [|l' ls IH]; intros acc; cbn [collect_m]; [apply leaves_sret|].
  apply leaves_sbind; [apply leaves_term_m | intros m; apply IH].
Qed.

Lemma leaves_fit_block m :
  leaves l (fit_block h_ring modes times chi_f M_f fixed_QNMs t_ref m).
Proof.
  unfold fit_block.
  apply leaves_sbind_post
    with (Q := fun labels => forall l', In l' (map snd labels)
                                         -> In l' (values fixed_QNMs)).
  - apply leaves_mode_labels.
  - intros h labels Hrun. exact (mode_labels_among _ _ _ _ Hrun).
  - intros labels Hlabels.
    apply leaves_sbind; [apply leaves_slift | intros [[idx lmin] lmax]].
    destruct (_ <? 0)%Z; [apply leaves_sraise|].
    apply leaves_sbind; [apply leaves_slift | intros h_trunc].
    apply leaves_sbind; [apply leaves_slift | intros A].
    apply leaves_sbind;
      [apply leaves_basis_blocks; intros Hin; apply Houtside; now apply Hlabels
      | intros blocks].
    apply leaves_sbind; [apply leaves_slift | intros A_flat].
    apply leaves_sbind; [apply leaves_slift | intros x].
    apply leaves_write_back.
Qed.

Lemma leaves_fit :
  leaves l (fit_ringdown_waveform_LLSQ_S2 h_ring modes times chi_f M_f
              fixed_QNMs t_ref).
Proof.
  unfold fit_ringdown_waveform_LLSQ_S2.
  apply leaves_sbind; [apply leaves_collect_m | intros m_list].
  apply leaves_sbind; [apply leaves_sfor; intros m; apply leaves_fit_block | intros ?].
  apply leaves_sbind; [apply leaves_read | intros terms].
  apply leaves_sbind; [apply leaves_slift | intros h_QNM].
  destruct (residual _ _ _ _) as [diff r].
  apply leaves_sbind; [apply leaves_slift | intros ?].
  apply leaves_sbind; [apply leaves_slift | intros num].
  apply leaves_sbind; [apply leaves_slift | intros den].
  apply leaves_sbind; [apply leaves_slift | intros mismatch].
  apply leaves_sret.
Qed.

End Untouched.

(** X16. The fitter writes only to the term objects of the dictionary it is
    given: an object that the dictionary does not hold is the same, amplitude
    included, after the call as before, whether the call returns or raises. *)
Theorem fit_writes_only_dictionary_terms (E : Extern) h_ring modes times chi_f M_f
    fixed_QNMs t_ref (h : heap) (l : nat) :
  ~ In l (values fixed_QNMs) ->
  nth_error (fst (fit_ringdown_waveform_LLSQ_S2 h_ring modes times chi_f M_f
                    fixed_QNMs t_ref h)) l
  = nth_error h l.
Proof.
  intros Hout. now apply leaves_fit.
Qed.

(** The statement of [fit_writes_only_dictionary_terms] for the dictionary
    [{0: (2, 2, 0, +1)}] next to a second term object. *)
Lemma fit_writes_only_dictionary_terms_witness :
  nth_error (fst (fit_ringdown_waveform_LLSQ_S2 (E := Reference.extern)
                    (SampleFit.target SampleFit.a0) None (INR 0, INR 3)
                    (Scalar SampleFit.chi) (Scalar SampleFit.mass)
                    (positional_dict 1) 0
                    [Sample.qnm_220 None; Sample.qnm_200 None])) 1
  = nth_error [Sample.qnm_220 None; Sample.qnm_200 None] 1.
Proof.
  apply (@fit_writes_only_dictionary_terms Reference.extern).
  cbn. intros [H|[]]. discriminate.
Defined.

(** ** The synthesizer is homogeneous in the amplitudes *)

Lemma scaled_sret c T N : scaled c T N (sret tt) (sret tt).
Proof.
  split; [reflexivity|]. intros _ i k. unfold sret. cbn [fst].
  now rewrite entry_zeros, cmul_zero_r.
Qed.

Lemma scaled_sraise c T N e : scaled c T N (sraise e) (sraise e).
Proof. split; [reflexivity | discriminate]. Qed.

Lemma scaled_lift_bind c T N {X} (r : result X) (k k' : X -> St Np.matrix unit) :
  (forall a, scaled c T N (k a) (k' a)) ->
  scaled c T N (sbind (slift r) k) (sbind (slift r) k').
Proof.
  intros Hk. destruct r as [a|e]; [exact (Hk a) | apply scaled_sraise].
Qed.

Lemma scaled_seq c T N (p1 p2 q1 q2 : St Np.matrix unit) :
  additive T N p1 -> additive T N p2 -> additive T N q1 -> additive T N q2 ->
  scaled c T N p1 q1 -> scaled c T N p2 q2 ->
  scaled c T N (sbind p1 (fun _ => p2)) (sbind q1 (fun _ => q2)).
Proof.
  intros (_ & Hsp1 & _) (Hrp2 & _ & Hep2) (_ & Hsq1 & _) (Hrq2 & _ & Heq2)
         (Hr1 & He1) (Hr2 & He2).
  unfold sbind. split.
  - intros d d' Hd Hd'. specialize (Hr1 d d' Hd Hd').
    pose proof (Hsp1 d Hd) as Hs. pose proof (Hsq1 d' Hd') as Hs'.
    destruct (p1 d) as [d1 [[]|e]], (q1 d') as [d1' [[]|e']];
      cbn [fst snd] in *; try discriminate; try assumption.
    now apply Hr2.
  - pose proof (has_shape_zeros T N) as Hz.
    specialize (Hr1 _ _ Hz Hz).
    pose proof (Hsp1 _ Hz) as Hs. pose proof (Hsq1 _ Hz) as Hs'.
    destruct (p1 (zeros T N)) as [d1 [[]|e]]; [|discriminate].
    destruct (q1 (zeros T N)) as [d1' [[]|e']]; [|discriminate].
    cbn [fst snd] in *. intros Hok i k.
    assert (Hokz : snd (p2 (zeros T N)) = Ok tt)
      by (rewrite <- Hok; now apply Hrp2).
    assert (Hok' : snd (q2 d1') = Ok tt)
      by (rewrite <- Hok; symmetry; now apply Hr2).
    rewrite (Heq2 d1' Hs' Hok'), (Hep2 d1 Hs Hok).
    rewrite (He1 eq_refl), (He2 Hokz). now rewrite cmul_add_distr_l.
Qed.

Lemma scaled_sfor c T N {X} (xs : list X) (f g : X -> St Np.matrix unit) :
  (forall x, additive T N (f x)) -> (forall x, additive T N (g x)) ->
  (forall x, scaled c T N (f x) (g x)) ->
  scaled c T N (sfor xs f) (sfor xs g).
Proof.
  intros Hf Hg Hfg. induction xs as [|x xs IH]; cbn [sfor]; [apply scaled_sret|].
  apply scaled_seq; auto using additive_sfor.
Qed.

Lemma scaled_col_add c T N j v v' :
  length v = T -> length v' = T ->
  (forall i, nth i v' Cx.zero = Cx.mul c (nth i v Cx.zero)) ->
  scaled c T N (fun d => (col_add j v d, Ok tt)) (fun d => (col_add j v' d, Ok tt)).
Proof.
  intros Hv Hv' Hnth. split; [reflexivity|]. cbn [fst snd]. intros _ i k.
  rewrite !(@entry_col_add T N) by (try assumption; apply has_shape_zeros).
  rewrite entry_zeros.
  destruct ((k =? j)%nat && (j <? N)%nat && (i <? T)%nat).
  - now rewrite !add_zero_l.
  - now rewrite cmul_zero_r.
Qed.

Lemma scaled_cell_add c T N i j x :
  scaled c T N (fun d => (cell_add i j x d, Ok tt))
               (fun d => (cell_add i j (Cx.mul c x) d, Ok tt)).
Proof.
  split; [reflexivity|]. cbn [fst snd]. intros _ i' k.
  rewrite !(@entry_cell_add T N) by apply has_shape_zeros.
  rewrite entry_zeros.
  destruct ((i' =? i)%nat && (k =? j)%nat && (j <? N)%nat && (i <? T)%nat).
  - now rewrite !add_zero_l.
  - now rewrite cmul_zero_r.
Qed.

Lemma additive_add_qnm_column LM m A expiwt Cs ells lm :
  additive (length expiwt) (length LM) (add_qnm_column LM m A expiwt Cs ells lm).
Proof.
  destruct lm as [l m']. unfold add_qnm_column.
  destruct (m' =? m)%Z; [|apply additive_sret].
  apply additive_lift_bind. intros c_l.
  apply additive_lift_bind. intros lmin.
  apply additive_lift_bind. intros j.
  destruct c_l as [|c0 c_l].
  - destruct (_ =? 0)%nat; [apply additive_sret | apply additive_sraise].
  - apply additive_col_add. now rewrite length_map.
Qed.

Lemma scaled_add_qnm_columns c LM m A expiwt Cs ells :
  scaled c (length expiwt) (length LM)
    (add_qnm_columns LM m A expiwt Cs ells)
    (add_qnm_columns LM m (Cx.mul c A) expiwt Cs ells).
Proof.
  unfold add_qnm_columns.
  apply scaled_sfor; try (intros lm; apply additive_add_qnm_column).
  intros [l m']. unfold add_qnm_column.
  destruct (m' =? m)%Z; [|apply scaled_sret].
  apply scaled_lift_bind. intros c_l.
  apply scaled_lift_bind. intros lmin.
  apply scaled_lift_bind. intros j.
  destruct c_l as [|c0 c_l].
  - destruct (_ =? 0)%nat; [apply scaled_sret | apply scaled_sraise].
  - apply scaled_col_add; try now rewrite length_map.
    intros i. destruct (Nat.lt_ge_cases i (length expiwt)) as [Hi|Hi].
    + rewrite !(nth_map_in _ _ Cx.zero) by assumption.
      now rewrite !cmul_assoc.
    + rewrite !nth_overflow by now rewrite length_map.
      now rewrite cmul_zero_r.
Qed.

Lemma additive_add_qnm_cell T LM i m A e Cs ells lm :
  additive T (length LM) (add_qnm_cell LM i m A e Cs ells lm).
Proof.
  destruct lm as [l m']. unfold add_qnm_cell.
  destruct (m' =? m)%Z; [|apply additive_sret].
  apply additive_lift_bind. intros c_l.
  apply additive_lift_bind. intros lmin.
  apply additive_lift_bind. intros j.
  destruct c_l as [|c0 c_l]; [apply additive_sraise | apply additive_cell_add].
Qed.

Lemma scaled_add_qnm_cells c T LM i m A e Cs ells :
  scaled c T (length LM) (add_qnm_cells LM i m A e Cs ells)
                         (add_qnm_cells LM i m (Cx.mul c A) e Cs ells).
Proof.
  unfold add_qnm_cells.
  apply scaled_sfor; try (intros lm; apply additive_add_qnm_cell).
  intros [l m']. unfold add_qnm_cell.
  destruct (m' =? m)%Z; [|apply scaled_sret].
  apply scaled_lift_bind. intros c_l.
  apply scaled_lift_bind. intros lmin.
  apply scaled_lift_bind. intros j.
  destruct c_l as [|c0 c_l]; [apply scaled_sraise|].
  replace (Cx.mul (Cx.mul (Cx.mul c A) e) c0)
    with (Cx.mul c (Cx.mul (Cx.mul A e) c0)) by (now rewrite !cmul_assoc).
  apply scaled_cell_add.
Qed.

Lemma scaled_amp_bind c T N (a : option C) (k : C -> St Np.matrix unit) :
  (forall A, scaled c T N (k A) (k (Cx.mul c A))) ->
  scaled c T N (sbind (slift (getitem a)) k)
               (sbind (slift (getitem (option_map (Cx.mul c) a))) k).
Proof.
  intros Hk. destruct a as [A|]; [exact (Hk A) | apply scaled_sraise].
Qed.

Lemma scaled_add_term (E : Extern) c chi mass t_ref t LM tm :
  scaled c (length t) (length LM)
    (add_term chi mass t_ref t LM tm)
    (add_term chi mass t_ref t LM (scale_amp c tm)).
Proof.
  unfold add_term. cbn [scale_amp ty mode amp omega target_mode].
  apply scaled_lift_bind. intros type.
  destruct (String.eqb type "QNM").
  - assert (Hps : scaled c (length t) (length LM)
        (sfor (seq 0 (length t)) (fun i =>
          sbind (slift (param_at chi i)) (fun chi_value =>
          sbind (slift (param_at mass i)) (fun mass_value =>
          sbind (slift (getitem (mode tm))) (fun '(ell, m, n, sign) =>
          sbind (slift (qnm_from_tuple (ell, m, n, sign) chi_value mass_value (-2)))
                (fun '(omega, Cs, ells) =>
          sbind (slift (getitem (amp tm))) (fun A =>
          add_qnm_cells LM i m A (expiwt_at omega t_ref (nth i t 0%R)) Cs ells)))))))
        (sfor (seq 0 (length t)) (fun i =>
          sbind (slift (param_at chi i)) (fun chi_value =>
          sbind (slift (param_at mass i)) (fun mass_value =>
          sbind (slift (getitem (mode tm))) (fun '(ell, m, n, sign) =>
          sbind (slift (qnm_from_tuple (ell, m, n, sign) chi_value mass_value (-2)))
                (fun '(omega, Cs, ells) =>
          sbind (slift (getitem (option_map (Cx.mul c) (amp tm)))) (fun A =>
          add_qnm_cells LM i m A (expiwt_at omega t_ref (nth i t 0%R)) Cs
            ells)))))))).
    { apply scaled_sfor.
      - intros i.
        apply additive_lift_bind. intros chi_value.
        apply additive_lift_bind. intros mass_value.
        apply additive_lift_bind. intros [[[ell m] n] sign].
        apply additive_lift_bind. intros [[w Cs] ells].
        apply additive_lift_bind. intros A.
        apply additive_sfor. intros lm. apply additive_add_qnm_cell.
      - intros i.
        apply additive_lift_bind. intros chi_value.
        apply additive_lift_bind. intros mass_value.
        apply additive_lift_bind. intros [[[ell m] n] sign].
        apply additive_lift_bind. intros [[w Cs] ells].
        apply additive_lift_bind. intros A.
        apply additive_sfor. intros lm. apply additive_add_qnm_cell.
      - intros i.
        apply scaled_lift_bind. intros chi_value.
        apply scaled_lift_bind. intros mass_value.
        apply scaled_lift_bind. intros [[[ell m] n] sign].
        apply scaled_lift_bind. intros [[w Cs] ells].
        apply scaled_amp_bind. intros A. apply scaled_add_qnm_cells. }
    destruct chi as [chi_value|chis], mass as [mass_value|masses]; try exact Hps.
    apply scaled_lift_bind. intros [[[ell m] n] sign].
    apply scaled_lift_bind. intros [[w Cs] ells].
    apply scaled_amp_bind. intros A.
    pose proof (@scaled_add_qnm_columns c LM m A (map (expiwt_at w t_ref) t) Cs ells)
      as H.
    now rewrite length_map in H.
  - destruct (String.eqb type "other"); [|apply scaled_sraise].
    apply scaled_lift_bind. intros w.
    apply scaled_amp_bind. intros A.
    apply scaled_lift_bind. intros [tl tmm].
    apply scaled_lift_bind. intros lmin.
    apply scaled_lift_bind. intros j.
    apply scaled_col_add; try now rewrite length_map.
    intros i. destruct (Nat.lt_ge_cases i (length t)) as [Hi|Hi].
    + rewrite !(nth_map_in _ _ 0%R) by assumption. now rewrite cmul_assoc.
    + rewrite !nth_overflow by now rewrite length_map.
      now rewrite cmul_zero_r.
Qed.

Lemma sfor_map {S X Y} (f : X -> Y) (xs : list X) (body : Y -> St S unit) :
  sfor (map f xs) body = sfor xs (fun x => body (f x)).
Proof.
  induction xs as [|x xs IH]; cbn [map sfor]; [reflexivity|]. now rewrite IH.
Qed.

Lemma map_map_shape T N (f : C -> C) d :
  has_shape T N d -> has_shape T N (map (map f) d).
Proof.
  intros [Hl Hr]. split; [now rewrite length_map|].
  apply Forall_map. eapply Forall_impl; [|exact Hr].
  intros row Hrow. cbn. now rewrite length_map.
Qed.

Lemma entry_map_map T N (f : C -> C) d i k :
  has_shape T N d -> (i < T)%nat -> (k < N)%nat ->
  entry (map (map f) d) i k = f (entry d i k).
Proof.
  intros [Hl Hr] Hi Hk. unfold entry.
  rewrite (nth_map_in _ _ []) by lia.
  rewrite Forall_forall in Hr.
  rewrite (nth_map_in _ _ Cx.zero) by (rewrite Hr; [assumption | apply nth_In; lia]).
  reflexivity.
Qed.

(** X17. The synthesizer is homogeneous in the amplitudes: when a dictionary
    is synthesized without error, so is the dictionary whose amplitudes are
    all multiplied by the same complex number, and its data are that number
    times the data of the first, for terms of both types and for scalar and
    per-sample spin and mass. *)
Theorem qnm_modes_amplitude_scaling (E : Extern) (c : C) chi mass terms t_0 t_ref t
    lmin lmax h :
  snd (qnm_modes chi mass terms t_0 t_ref t lmin lmax None) = Ok h ->
  exists h',
    snd (qnm_modes chi mass (map (scale_amp c) terms) t_0 t_ref t lmin lmax None)
    = Ok h'
    /\ Scri.data h' = map (map (Cx.mul c)) (Scri.data h).
Proof.
  intros H.
  pose proof (qnm_modes_returns_sorted _ _ _ _ _ _ _ _ _ H) as Hinc. revert H.
  rewrite !qnm_modes_sorted by exact Hinc. cbn [snd]. intros H.
  set (T := length t). set (LM := Sf.LM_range lmin lmax) in *.
  assert (Hsc : scaled c T (length LM)
                  (sfor terms (add_term chi mass t_ref t LM))
                  (sfor (map (scale_amp c) terms) (add_term chi mass t_ref t LM))).
  { rewrite sfor_map.
    apply scaled_sfor; intros tm;
      [apply additive_add_term | apply additive_add_term | apply scaled_add_term]. }
  destruct Hsc as [Hres Hent].
  pose proof (has_shape_zeros T (length LM)) as Hz.
  specialize (Hres _ _ Hz Hz).
  destruct (additive_sfor (T := T) (N := length LM) terms
              (add_term chi mass t_ref t LM)
              (fun tm => additive_add_term E chi mass t_ref t LM tm))
    as (_ & Hs & _).
  destruct (additive_sfor (T := T) (N := length LM) (map (scale_amp c) terms)
              (add_term chi mass t_ref t LM)
              (fun tm => additive_add_term E chi mass t_ref t LM tm))
    as (_ & Hs' & _).
  specialize (Hs _ Hz). specialize (Hs' _ Hz).
  fold T in H. 
  destruct (sfor terms _ _) as [D [[]|e]]; [|discriminate].
  destruct (sfor (map (scale_amp c) terms) _ _) as [D' [[]|e']]; [|discriminate].
  cbn [fst snd] in *. injection H as <-.
  eexists. split; [reflexivity|]. cbn [Scri.data].
  apply (@matrix_ext T (length LM)); [assumption | now apply map_map_shape|].
  intros i k Hi Hk. rewrite (Hent eq_refl).
  now rewrite (@entry_map_map T (length LM)).
Qed.

(** The statement of [qnm_modes_amplitude_scaling] for the dictionary
    [{0: (2, 2, 0, +1), 1: other_22}] and the factor 2. *)
Lemma qnm_modes_amplitude_scaling_witness :
  exists h h',
    snd (qnm_modes (E := Reference.extern) (Scalar SampleFit.chi)
           (Scalar SampleFit.mass)
           [Sample.qnm_220 (Some SampleFit.a0); Sample.other_22]
           0 0 (unit_axis 3) 2 2 None) = Ok h
    /\ snd (qnm_modes (E := Reference.extern) (Scalar SampleFit.chi)
              (Scalar SampleFit.mass)
              (map (scale_amp (Cx.of_R 2))
                   [Sample.qnm_220 (Some SampleFit.a0); Sample.other_22])
              0 0 (unit_axis 3) 2 2 None) = Ok h'
    /\ Scri.data h' = map (map (Cx.mul (Cx.of_R 2))) (Scri.data h).
Proof.
  assert (H : exists h,
             snd (qnm_modes (E := Reference.extern) (Scalar SampleFit.chi)
                    (Scalar SampleFit.mass)
                    [Sample.qnm_220 (Some SampleFit.a0); Sample.other_22]
                    0 0 (unit_axis 3) 2 2 None) = Ok h)
    by (eexists; rewrite qnm_modes_sorted by apply increasing_unit_axis;
        py_eval; reflexivity).
  destruct H as [h H].
  destruct (@qnm_modes_amplitude_scaling Reference.extern (Cx.of_R 2)
              (Scalar SampleFit.chi) (Scalar SampleFit.mass)
              [Sample.qnm_220 (Some SampleFit.a0); Sample.other_22]
              0 0 (unit_axis 3) 2 2 h H) as (h' & Hh' & Hd).
  exists h, h'. repeat split; assumption.
Defined.

(** ** The time window of the fit *)

Lemma sbind_ext {S A B} (c : St S A) (k k' : A -> St S B) s :
  (forall a s1, k a s1 = k' a s1) -> sbind c k s = sbind c k' s.
Proof.
  intros H. unfold sbind. destruct (c s) as [s1 [a|e]]; [apply H | reflexivity].
Qed.

Section FitTimes.

Context {E : Extern}.
Variables (h_ring : WaveformModes) (modes : option (list (Z * Z))).
Variables (times times' : R * R) (chi_f M_f : param) (fixed_QNMs : dict) (t_ref : R).

Lemma basis_block_times h_trunc idx n_ell l h :
  basis_block times chi_f M_f t_ref h_trunc idx n_ell l h
  = basis_block times' chi_f M_f t_ref h_trunc idx n_ell l h.
Proof.
  unfold basis_block.
  apply sbind_ext. intros tm h1.
  apply sbind_ext. intros _u h2.
  apply sbind_ext. intros tm1 h3.
  unfold qnm_modes_as. rewrite !qnm_modes_no_dest. cbn [snd].
  destruct (sfor [tm1] _ _) as [d [[]|e]]; [|reflexivity].
  destruct (Scri.increasing _); reflexivity.
Qed.

Lemma basis_blocks_times h_trunc idx n_ell labels : forall h,
  basis_blocks times chi_f M_f t_ref h_trunc idx n_ell labels h
  = basis_blocks times' chi_f M_f t_ref h_trunc idx n_ell labels h.
Proof.
  induction labels as [|[i l] labels IH]; intros h; cbn [basis_blocks];
    [reflexivity|].
  unfold sbind at 1 3. rewrite basis_block_times.
  destruct (basis_block times' _ _ _ _ _ _ _ _) as [h1 [blk|e]]; [|reflexivity].
  unfold sbind. now rewrite IH.
Qed.

Lemma fit_block_times m h :
  fit_block h_ring modes times chi_f M_f fixed_QNMs t_ref m h
  = fit_block h_ring modes times' chi_f M_f fixed_QNMs t_ref m h.
Proof.
  unfold fit_block.
  apply sbind_ext. intros labels h1.
  apply sbind_ext. intros [[idx lmin] lmax] h2.
  destruct (_ <? 0)%Z; [reflexivity|].
  apply sbind_ext. intros h_trunc h3.
  apply sbind_ext. intros A h4.
  unfold sbind at 1 3. now rewrite basis_blocks_times.
Qed.

Lemma fit_blocks_times ms h :
  sfor ms (fit_block h_ring modes times chi_f M_f fixed_QNMs t_ref) h
  = sfor ms (fit_block h_ring modes times' chi_f M_f fixed_QNMs t_ref) h.
Proof. apply sfor_ext_in. intros m _ s. apply fit_block_times. Qed.

End FitTimes.

Lemma fit_heap_after_blocks (E : Extern) h_ring modes times chi_f M_f fixed_QNMs
    t_ref h h1 r :
  collect_m (values fixed_QNMs) [] h = (h1, r) ->
  fst (fit_ringdown_waveform_LLSQ_S2 h_ring modes times chi_f M_f fixed_QNMs t_ref h)
  = match r with
    | Ok m_list =>
        fst (sfor m_list (fit_block h_ring modes times chi_f M_f fixed_QNMs t_ref) h1)
    | Raise _ => h1
    end.
Proof.
  intros Hc. unfold fit_ringdown_waveform_LLSQ_S2.
  unfold sbind at 1. rewrite Hc. destruct r as [ml|e]; [|reflexivity].
  unfold sbind at 1.
  destruct (sfor ml _ h1) as [h2 [[]|e]]; [|reflexivity].
  unfold sbind at 1. destruct (rmap _ _) as [terms|e]; [|reflexivity].
  unfold sbind at 1, slift at 1.
  destruct (snd (qnm_modes_as _ _ _ _ _ _ _)) as [h_QNM|e]; [|reflexivity].
  destruct (residual _ _ _ _) as [diff r].
  unfold sbind, slift, sret.
  destruct r as [[]|e]; [|reflexivity].
  destruct (Np.trapezoid (Scri.norm _) _) as [num|e]; [|reflexivity].
  destruct (Np.trapezoid (Scri.norm h_ring) _) as [den|e]; [|reflexivity].
  destruct (waveform_mismatch _ _ _ _ _) as [mm|e]; reflexivity.
Qed.

(** X18. The fitter fits over the whole time axis of the target, whatever
    the tuple [times] is: the amplitudes it leaves in the terms do not depend
    on [times], and when two calls that differ only in [times] both return,
    the fitted waveforms have the same data and the errors are equal; only
    the mismatch is computed over the window. *)
Theorem fit_amplitudes_ignore_times (E : Extern) h_ring modes times times' chi_f M_f
    fixed_QNMs t_ref (h : heap) :
  let run := fun tms => fit_ringdown_waveform_LLSQ_S2 h_ring modes tms chi_f M_f
                          fixed_QNMs t_ref h in
  fst (run times) = fst (run times')
  /\ forall res res', snd (run times) = Ok res -> snd (run times') = Ok res' ->
       Scri.data (fit_h_QNM res) = Scri.data (fit_h_QNM res')
       /\ fit_error res = fit_error res'.
Proof.
  cbv zeta. split.
  - destruct (collect_m (values fixed_QNMs) [] h) as [h1 r] eqn:Hc.
    rewrite (@fit_heap_after_blocks E h_ring modes times chi_f M_f fixed_QNMs t_ref
               h h1 r Hc).
    rewrite (@fit_heap_after_blocks E h_ring modes times' chi_f M_f fixed_QNMs t_ref
               h h1 r Hc).
    destruct r as [ml|e]; [|reflexivity].
    now rewrite (@fit_blocks_times E h_ring modes times times' chi_f M_f
                   fixed_QNMs t_ref ml h1).
  - intros res res' H H'. unfold fit_ringdown_waveform_LLSQ_S2 in H, H'.
    apply sbind_ok in H. destruct H as (ml & h1 & Hc & H).
    apply sbind_ok in H'. destruct H' as (ml' & h1' & Hc' & H').
    rewrite Hc in Hc'. injection Hc' as <- <-.
    apply sbind_ok in H. destruct H as (u & h2 & Hb & H).
    apply sbind_ok in H'. destruct H' as (u' & h2' & Hb' & H').
    rewrite (@fit_blocks_times E h_ring modes times times' chi_f M_f fixed_QNMs
               t_ref ml h1) in Hb.
    rewrite Hb in Hb'. injection Hb' as <- <-.
    apply sbind_ok in H. destruct H as (terms & h3 & Hr & H).
    apply sbind_ok in H'. destruct H' as (terms' & h3' & Hr' & H').
    rewrite Hr in Hr'. injection Hr' as <- <-.
    apply sbind_ok in H. destruct H as (h_QNM & h4 & Hq & H).
    apply sbind_ok in H'. destruct H' as (h_QNM' & h4' & Hq' & H').
    unfold slift, qnm_modes_as in Hq, Hq'. rewrite qnm_modes_no_dest in Hq, Hq'.
    cbn [snd] in Hq, Hq'.
    destruct (sfor terms _ _) as [D [[]|e]]; [|discriminate].
    destruct (Scri.increasing _); [|discriminate].
    injection Hq as <- <-. injection Hq' as <- <-.
    match type of H with
    | context [residual h_ring ?hq ?ms ?d] =>
        destruct (residual h_ring hq ms d) as [diff r] eqn:Hres
    end.
    match type of H' with
    | context [residual h_ring ?hq ?ms ?d] =>
        change (residual h_ring hq ms d) with
          (residual h_ring
             {| Scri.t := Scri.t h_ring; Scri.ell_min := Scri.ell_min h_ring;
                Scri.ell_max := Scri.ell_max h_ring; Scri.data := D;
                Scri.history := [{| Scri.stmt_t_0 := fst times;
                                    Scri.stmt_t_ref := t_ref |}] |} ms d) in H'
    end.
    rewrite Hres in H'.
    apply sbind_ok in H. destruct H as (u1 & h5 & _ & H).
    apply sbind_ok in H'. destruct H' as (u1' & h5' & _ & H').
    apply sbind_ok in H. destruct H as (num & h6 & Hn & H).
    apply sbind_ok in H'. destruct H' as (num' & h6' & Hn' & H').
    unfold slift in Hn, Hn'. injection Hn as _ Hn. injection Hn' as _ Hn'.
    rewrite Hn in Hn'. injection Hn' as <-.
    apply sbind_ok in H. destruct H as (den & h7 & Hd & H).
    apply sbind_ok in H'. destruct H' as (den' & h7' & Hd' & H').
    unfold slift in Hd, Hd'. injection Hd as _ Hd. injection Hd' as _ Hd'.
    rewrite Hd in Hd'. injection Hd' as <-.
    apply sbind_ok in H. destruct H as (mm & h8 & _ & H).
    apply sbind_ok in H'. destruct H' as (mm' & h8' & _ & H').
    unfold sret in H, H'. cbn [snd] in H, H'.
    injection H as <-. injection H' as <-. split; reflexivity.
Qed.

(** ** The mismatch that the fitter reports *)

Lemma sample_target_has_power :
  0 < windowed_power (SampleFit.target SampleFit.a0) None (INR 0) (INR 3).
Proof.
  unfold SampleFit.target.
  rewrite (sample_power (fun _ => Cx.zero) (SampleFit.column SampleFit.a0)).
  rewrite abs2_zero.
  pose proof (abs2_pos (@column_nonzero SampleFit.a0 (INR 1) a0_nonzero)).
  pose proof (abs2_pos (@column_nonzero SampleFit.a0 (INR 2) a0_nonzero)). lra.
Qed.

Lemma sample_fit_returns :
  exists h' res,
    fit_ringdown_waveform_LLSQ_S2 (E := Reference.extern)
      (SampleFit.target SampleFit.a0) None (INR 0, INR 3)
      (Scalar SampleFit.chi) (Scalar SampleFit.mass) (positional_dict 1) 0
      [Sample.qnm_220 None] = (h', Ok res).
Proof.
  eexists. eexists.
  apply (@fit_run Reference.extern reference_lstsq_minimizes SampleFit.chi
           SampleFit.mass 0 (unit_axis 3) 2 ltac:(lia)
           [Sample.qnm_220 (Some SampleFit.a0)] (sample_terms_qnm SampleFit.a0)
           _ (sample_synthesis SampleFit.a0)
           (@sample_units_independent SampleFit.a0) (increasing_unit_axis 3)
           _ (INR 0, INR 3)
           reference_interpolate_exact (unit_axis_sorted 3)
           sample_target_has_power [Sample.qnm_220 None]).
  constructor; [|constructor]. repeat split.
Qed.

Lemma mismatch_all_modes_is_default (E : Extern) h_A h_B t1 t2 :
  waveform_mismatch h_A h_B (Some (all_modes_from_2 (Scri.ell_max h_A))) t1 t2
  = waveform_mismatch h_A h_B None t1 t2.
Proof.
  unfold waveform_mismatch. rewrite zero_unlisted_nothing; [reflexivity|].
  intros L M HL HM. apply mode_in_In.
  change (all_modes_from_2 (Scri.ell_max h_A))
    with (Sf.LM_range 2 (Scri.ell_max h_A)).
  apply LM_range_In. lia.
Qed.

(** X20. The mismatch that the fitter reports is the one that the scorer
    gives for the pair of waveforms it returns, with the mode list and the
    window of the call: the list of all modes that the fitter builds when it
    is given no list masks nothing. *)
Theorem fit_reports_mismatch_of_returned_waveforms (E : Extern) h_ring modes times
    chi_f M_f fixed_QNMs t_ref (h : heap) res :
  snd (fit_ringdown_waveform_LLSQ_S2 h_ring modes times chi_f M_f fixed_QNMs
         t_ref h) = Ok res ->
  waveform_mismatch (fit_h_ring res) (fit_h_QNM res) modes (fst times) (snd times)
  = Ok (fit_mismatch res).
Proof.
  unfold fit_ringdown_waveform_LLSQ_S2. intros H.
  apply sbind_ok in H. destruct H as (ml & h1 & _ & H).
  apply sbind_ok in H. destruct H as (u & h2 & _ & H).
  apply sbind_ok in H. destruct H as (terms & h3 & _ & H).
  apply sbind_ok in H. destruct H as (h_QNM & h4 & _ & H).
  destruct (residual _ _ _ _) as [diff r].
  apply sbind_ok in H. destruct H as (u1 & h5 & _ & H).
  apply sbind_ok in H. destruct H as (num & h6 & _ & H).
  apply sbind_ok in H. destruct H as (den & h7 & _ & H).
  apply sbind_ok in H. destruct H as (mm & h8 & Hmm & H).
  unfold slift in Hmm. injection Hmm as _ Hmm.
  unfold sret in H. cbn [snd] in H. injection H as <-.
  cbn [fit_h_ring fit_h_QNM fit_mismatch]. rewrite <- Hmm.
  destruct modes as [ms|]; [reflexivity|].
  symmetry. apply mismatch_all_modes_is_default.
Qed.

(** The statement of [fit_reports_mismatch_of_returned_waveforms] for the fit
    of the term (2, 2, 0, +1) to its own waveform. *)
Lemma fit_reports_mismatch_of_returned_waveforms_witness :
  exists res,
    snd (fit_ringdown_waveform_LLSQ_S2 (E := Reference.extern)
           (SampleFit.target SampleFit.a0) None (INR 0, INR 3)
           (Scalar SampleFit.chi) (Scalar SampleFit.mass) (positional_dict 1) 0
           [Sample.qnm_220 None]) = Ok res
    /\ waveform_mismatch (E := Reference.extern) (fit_h_ring res) (fit_h_QNM res)
         None (fst (INR 0, INR 3)) (snd (INR 0, INR 3))
       = Ok (fit_mismatch res).
Proof.
  destruct sample_fit_returns as (h' & res & Hrun).
  assert (Hres : snd (fit_ringdown_waveform_LLSQ_S2 (E := Reference.extern)
                        (SampleFit.target SampleFit.a0) None (INR 0, INR 3)
                        (Scalar SampleFit.chi) (Scalar SampleFit.mass)
                        (positional_dict 1) 0 [Sample.qnm_220 None]) = Ok res)
    by (now rewrite Hrun).
  exists res. split; [exact Hres|].
  exact (@fit_reports_mismatch_of_returned_waveforms Reference.extern
           (SampleFit.target SampleFit.a0) None (INR 0, INR 3)
           (Scalar SampleFit.chi) (Scalar SampleFit.mass) (positional_dict 1) 0
           [Sample.qnm_220 None] res Hres).
Defined.

(** ** Units of mass and time *)

Lemma div_R_rescaled w lam m :
  lam <> 0 -> m <> 0 -> Cx.div_R w (lam * m) = Cx.div_R (Cx.div_R w m) lam.
Proof.
  intros Hl Hm. destruct w as [x y]. unfold Cx.div_R. cbn [Cx.re Cx.im].
  f_equal; field; auto.
Qed.

Lemma expiwt_at_rescaled w lam t_ref ti :
  lam <> 0 ->
  expiwt_at (Cx.div_R w lam) (lam * t_ref) (lam * ti) = expiwt_at w t_ref ti.
Proof.
  intros Hl. unfold expiwt_at. f_equal. destruct w as [x y].
  unfold Cx.mul, Cx.div_R, Cx.minus_i, Cx.of_R. cbn [Cx.re Cx.im].
  f_equal; field; assumption.
Qed.

Lemma qnm_from_tuple_rescaled (E : Extern) tup chi m s lam :
  lam <> 0 -> m <> 0 ->
  qnm_from_tuple tup chi (lam * m) s
  = match qnm_from_tuple tup chi m s with
    | Ok (w, Cs, ells) => Ok (Cx.div_R w lam, Cs, ells)
    | Raise e => Raise e
    end.
Proof.
  intros Hl Hm. destruct tup as [[[ell mm] n] sign]. unfold qnm_from_tuple.
  destruct (if (sign =? 1)%Z then _ else _) as [mode_seq|e]; [|reflexivity].
  cbn [rbind].
  destruct (solve_with_fallback mode_seq chi) as [[Momega Cs]|e]; [|reflexivity].
  cbn [rbind].
  destruct (if (sign =? -1)%Z then _ else _) as [[Momega' Cs']|e]; [|reflexivity].
  cbn [rbind]. now rewrite div_R_rescaled.
Qed.

Lemma param_at_scaled lam p i :
  param_at (scale_param lam p) i
  = match param_at p i with Ok x => Ok (lam * x) | Raise e => Raise e end.
Proof.
  destruct p as [x|xs]; cbn [scale_param param_at]; [reflexivity|].
  rewrite nth_error_map. now destruct (nth_error xs i).
Qed.

Lemma add_term_rescaled (E : Extern) chi mass t_ref t LM lam tm d :
  lam <> 0 -> (forall i x, param_at mass i = Ok x -> x <> 0) ->
  add_term chi (scale_param lam mass) (lam * t_ref) (map (Rmult lam) t) LM
    (rescale_omega lam tm) d
  = add_term chi mass t_ref t LM tm d.
Proof.
  intros Hl Hmass.
  unfold add_term, sbind, slift. cbn [rescale_omega ty mode amp omega target_mode].
  destruct (getitem (ty tm)) as [type|e]; [|reflexivity].
  destruct (String.eqb type "QNM").
  - destruct chi as [chi_value|chis], mass as [mass_value|masses];
      try (rewrite length_map; apply sfor_ext_in; intros i Hi s;
           apply in_seq in Hi;
           destruct (param_at _ i) as [chi_i|e]; [|reflexivity];
           rewrite param_at_scaled;
           match goal with
           | |- context [param_at ?p i] =>
               destruct (param_at p i) as [mass_i|e] eqn:Hm; [|reflexivity]
           end;
           destruct (getitem (mode tm)) as [[[[ell m] n] sign]|e]; [|reflexivity];
           rewrite (@qnm_from_tuple_rescaled E (ell, m, n, sign) chi_i mass_i (-2)
                      lam Hl (Hmass i mass_i Hm));
           destruct (qnm_from_tuple _ _ _ _) as [[[w Cs] ells]|e]; [|reflexivity];
           destruct (getitem (amp tm)) as [A|e]; [|reflexivity];
           rewrite (@nth_map_in _ _ (Rmult lam) t i 0 0) by lia;
           now rewrite expiwt_at_rescaled).
    cbn [scale_param].
    destruct (getitem (mode tm)) as [[[[ell m] n] sign]|e]; [|reflexivity].
    rewrite (@qnm_from_tuple_rescaled E (ell, m, n, sign) chi_value mass_value (-2)
               lam Hl (Hmass 0%nat mass_value eq_refl)).
    destruct (qnm_from_tuple _ _ _ _) as [[[w Cs] ells]|e]; [|reflexivity].
    destruct (getitem (amp tm)) as [A|e]; [|reflexivity].
    rewrite map_map.
    now rewrite (map_ext _ _ (fun ti => @expiwt_at_rescaled w lam t_ref ti Hl)).
  - destruct (String.eqb type "other"); [|reflexivity].
    destruct (omega tm) as [w|]; [|reflexivity]. cbn [option_map getitem].
    destruct (getitem (amp tm)) as [A|e]; [|reflexivity].
    destruct (getitem (target_mode tm)) as [[tl tmm]|e]; [|reflexivity].
    destruct (min_ell LM) as [lmin|e]; [|reflexivity].
    destruct (Np.index _ _) as [j|e]; [|reflexivity].
    rewrite map_map.
    rewrite (map_ext _ (fun ti => Cx.mul A (expiwt_at w t_ref ti))); [reflexivity|].
    intros ti. now rewrite expiwt_at_rescaled.
Qed.

(** X21. Over exact arithmetic (the complex numbers are pairs of real
    numbers here, not of doubles), the synthesizer reads mass and time
    through the ratio [(t - t_ref) / mass] only: multiplying the mass, every
    sample time and [t_ref] by the same positive factor, and dividing the
    frequency of every term that carries one by it, changes neither the
    data (or the exception) nor what is left in a destination buffer, for
    a mass that is nowhere zero.  A positive factor keeps the order of the
    sample times, which the waveform constructor tests. *)
Theorem qnm_modes_unit_rescaling (E : Extern) chi mass mode_dict t_0 t_ref t lmin lmax
    dest lam :
  0 < lam -> (forall i x, param_at mass i = Ok x -> x <> 0) ->
  fst (qnm_modes chi (scale_param lam mass) (map (rescale_omega lam) mode_dict)
         t_0 (lam * t_ref) (map (Rmult lam) t) lmin lmax dest)
  = fst (qnm_modes chi mass mode_dict t_0 t_ref t lmin lmax dest)
  /\ result_map Scri.data
       (snd (qnm_modes chi (scale_param lam mass) (map (rescale_omega lam) mode_dict)
               t_0 (lam * t_ref) (map (Rmult lam) t) lmin lmax dest))
     = result_map Scri.data
         (snd (qnm_modes chi mass mode_dict t_0 t_ref t lmin lmax dest)).
Proof.
  intros Hpos Hmass. assert (Hl : lam <> 0) by lra.
  unfold qnm_modes, Scri.modes_constructor, sbind, sret, sraise.
  rewrite (increasing_map (Rmult lam)) by (intros x y; split; intros; nra).
  assert (Hdf : data_functor chi (scale_param lam mass) (lam * t_ref)
                  (map (Rmult lam) t) (Sf.LM_range lmin lmax)
                  (map (rescale_omega lam) mode_dict) dest
                = data_functor chi mass t_ref t (Sf.LM_range lmin lmax) mode_dict dest).
  { unfold data_functor. rewrite length_map. cbn [fst snd]. rewrite sfor_map.
    rewrite (sfor_ext_in mode_dict _
               (add_term chi mass t_ref t (Sf.LM_range lmin lmax)));
      [reflexivity|].
    intros tm _ s. now apply add_term_rescaled. }
  rewrite Hdf. clear Hdf.
  destruct (data_functor _ _ _ _ _ _ _) as [d [m|e]]; [|split; reflexivity].
  destruct (Scri.increasing t); split; reflexivity.
Qed.

(** The statement of [qnm_modes_unit_rescaling] for the dictionary
    [{0: (2, 2, 0, +1), 1: other_22}], mass 1 and the factor 2. *)
Lemma qnm_modes_unit_rescaling_witness :
  fst (qnm_modes (E := Reference.extern) (Scalar SampleFit.chi)
         (scale_param 2 (Scalar SampleFit.mass))
         (map (rescale_omega 2) [Sample.qnm_220 (Some SampleFit.a0); Sample.other_22])
         0 (2 * 0) (map (Rmult 2) (unit_axis 3)) 2 2 None)
  = fst (qnm_modes (E := Reference.extern) (Scalar SampleFit.chi)
           (Scalar SampleFit.mass)
           [Sample.qnm_220 (Some SampleFit.a0); Sample.other_22]
           0 0 (unit_axis 3) 2 2 None)
  /\ result_map Scri.data
       (snd (qnm_modes (E := Reference.extern) (Scalar SampleFit.chi)
               (scale_param 2 (Scalar SampleFit.mass))
               (map (rescale_omega 2)
                    [Sample.qnm_220 (Some SampleFit.a0); Sample.other_22])
               0 (2 * 0) (map (Rmult 2) (unit_axis 3)) 2 2 None))
     = result_map Scri.data
         (snd (qnm_modes (E := Reference.extern) (Scalar SampleFit.chi)
                 (Scalar SampleFit.mass)
                 [Sample.qnm_220 (Some SampleFit.a0); Sample.other_22]
                 0 0 (unit_axis 3) 2 2 None)).
Proof.
  apply (@qnm_modes_unit_rescaling Reference.extern (Scalar SampleFit.chi)
           (Scalar SampleFit.mass)
           [Sample.qnm_220 (Some SampleFit.a0); Sample.other_22]
           0 0 (unit_axis 3) 2 2 None 2).
  - lra.
  - intros i x Hx. cbn [param_at] in Hx. injection Hx as <-.
    unfold SampleFit.mass. lra.
Defined.

(** ** The power of a masked waveform *)

Lemma trapz_mono y y' : forall x,
  Forall2 Rle y y' -> StronglySorted Rlt x -> trapz y x <= trapz y' x.
Proof.
  intros x H. revert x.
  induction H as [|y0 y0' y y' H0 H IH]; intros x Hx;
    [rewrite !trapz_nil_l; lra|].
  destruct H as [|y1 y1' ys ys' H1 H].
  { rewrite !trapz_one_l. lra. }
  destruct x as [|x0 [|x1 xs]]; [cbn; lra | cbn; lra |].
  rewrite !trapz_cons.
  apply StronglySorted_inv in Hx. destruct Hx as [Hx Hlt].
  apply Forall_cons_iff in Hlt. destruct Hlt as [Hlt _].
  specialize (IH (x1 :: xs) Hx). nra.
Qed.

Lemma Forall2_Rle_refl l : Forall2 Rle l l.
Proof. induction l; constructor; [lra | assumption]. Qed.

Lemma Forall2_Rle_trans a b c :
  Forall2 Rle a b -> Forall2 Rle b c -> Forall2 Rle a c.
Proof.
  intros H. revert c. induction H as [|x y a b Hxy _ IH]; intros c Hc;
    inversion Hc; subst; constructor; [lra | now apply IH].
Qed.

Lemma rsum_abs2_app r1 r2 :
  Np.rsum (map Cx.abs2 (r1 ++ r2))
  = Np.rsum (map Cx.abs2 r1) + Np.rsum (map Cx.abs2 r2).
Proof.
  unfold Np.rsum. induction r1 as [|c r1 IH]; cbn; [lra|]. rewrite IH. lra.
Qed.

Lemma rsum_abs2_nonneg row : 0 <= Np.rsum (map Cx.abs2 row).
Proof.
  unfold Np.rsum. induction row as [|c row IH]; cbn; [lra|].
  pose proof (abs2_nonneg c). lra.
Qed.

Lemma col_zero_norm_le j d :
  Forall2 Rle (map (fun row => Np.rsum (map Cx.abs2 row)) (col_zero j d))
              (map (fun row => Np.rsum (map Cx.abs2 row)) d).
Proof.
  unfold col_zero. induction d as [|row d IH]; cbn [map]; constructor;
    [|exact IH].
  rewrite <- (firstn_skipn j row) at 3. rewrite !rsum_abs2_app.
  destruct (skipn j row) as [|y rest]; [lra|].
  cbn [map]. unfold Np.rsum. cbn [fold_right].
  rewrite cscale_zero, abs2_zero. pose proof (abs2_nonneg y). lra.
Qed.

Lemma masked_norm_le modes h :
  Forall2 Rle (Scri.norm (with_data h (masked_data modes h))) (Scri.norm h).
Proof.
  unfold Scri.norm, with_data. cbn [Scri.data].
  destruct modes as [ms|]; cbn [masked_data]; [|apply Forall2_Rle_refl].
  generalize (filter (fun lm => negb (mode_in lm ms))
                     (all_modes_from_2 (Scri.ell_max h))).
  intros xs. generalize (Scri.data h).
  induction xs as [|lm xs IH]; intros d; cbn [fold_left];
    [apply Forall2_Rle_refl|].
  eapply Forall2_Rle_trans; [apply IH | apply col_zero_norm_le].
Qed.

(** The power over a window and a mode list is at most the power over the
    whole time axis and every mode. *)
Lemma windowed_power_le h modes t1 t2 :
  StronglySorted Rlt (Scri.t h) ->
  windowed_power h modes t1 t2 <= trapz (Scri.norm h) (Scri.t h).
Proof.
  intros Hs. unfold windowed_power.
  destruct (window (Scri.t h) t1 t2) as [[lo hi]|e].
  - rewrite norm_slice.
    eapply Rle_trans; [apply trapz_slice_le; [apply norm_nonneg | exact Hs]|].
    apply trapz_mono; [apply masked_norm_le | exact Hs].
  - apply trapz_nonneg; [apply norm_nonneg | exact Hs].
Qed.

(** ** The columns that a QNM term writes, and a cut of the mode range *)

Lemma sfor_preserves_in {S X} (P : S -> Prop) (xs : list X)
    (body : X -> St S unit) :
  (forall x s, In x xs -> P s -> P (fst (body x s))) ->
  forall s, P s -> P (fst (sfor xs body s)).
Proof.
  induction xs as [|x xs IH]; intros H s Hs; [exact Hs|].
  cbn [sfor]. unfold sbind.
  pose proof (H x s (or_introl eq_refl) Hs) as Hx.
  destruct (body x s) as [s' [[]|e]]; cbn [fst] in *; [|exact Hx].
  apply IH; [|exact Hx]. intros y s1 Hy. apply H. now right.
Qed.

Lemma slift_preserves {S A B} (P : S -> Prop) (r : result A)
    (k : A -> St S B) s :
  P s -> (forall a, r = Ok a -> P (fst (k a s))) ->
  P (fst (sbind (slift r) k s)).
Proof.
  intros Hs Hk. unfold sbind, slift. destruct r as [a|e]; [now apply Hk | exact Hs].
Qed.

Lemma map_seq_from {X} (f : nat -> X) n a :
  map f (seq a n) = map (fun k => f (a + k)%nat) (seq 0 n).
Proof.
  rewrite <- (Nat.add_0_r a) at 1. rewrite <- (Nat.add_comm 0 a).
  rewrite <- (map_id (seq (0 + a) n)).
  replace (map (fun x => x) (seq (0 + a) n)) with (map (fun k => (a + k)%nat) (seq 0 n)).
  - now rewrite map_map.
  - generalize 0%nat as s. induction n as [|n IH]; intros s; [reflexivity|].
    cbn [seq map]. f_equal; [lia|]. apply (IH (S s)).
Qed.

Lemma zrange_app lo mid hi :
  (lo <= mid <= hi)%Z -> Np.zrange lo hi = Np.zrange lo mid ++ Np.zrange mid hi.
Proof.
  intros H. unfold Np.zrange.
  replace (Z.to_nat (hi - lo)) with (Z.to_nat (mid - lo) + Z.to_nat (hi - mid))%nat
    by lia.
  rewrite seq_app, map_app. f_equal. cbn [Nat.add].
  rewrite map_seq_from. apply map_ext. intros k. lia.
Qed.

Lemma LM_range_app lmin mid lmax :
  (lmin <= mid + 1 <= lmax + 1)%Z ->
  Sf.LM_range lmin lmax = Sf.LM_range lmin mid ++ Sf.LM_range (mid + 1) lmax.
Proof.
  intros H. unfold Sf.LM_range.
  rewrite (zrange_app (lo := lmin) (mid := mid + 1) (hi := lmax + 1)) by lia.
  apply flat_map_app.
Qed.

Lemma entry_outside_rows T N d i k :
  has_shape T N d -> (T <= i)%nat -> entry d i k = Cx.zero.
Proof.
  intros [Hl _] Hi. unfold entry. rewrite (nth_overflow d) by lia. now destruct k.
Qed.

Lemma entry_outside_cols T N d i k :
  has_shape T N d -> (N <= k)%nat -> entry d i k = Cx.zero.
Proof.
  intros [Hl Hr] Hk. unfold entry.
  destruct (Nat.lt_ge_cases i (length d)) as [Hi|Hi].
  - apply nth_overflow. rewrite Forall_forall in Hr.
    rewrite (Hr (nth i d [])) by (apply nth_In; exact Hi). exact Hk.
  - rewrite (nth_overflow d) by lia. now destruct k.
Qed.

Lemma entry_firstn T N N' d i k :
  has_shape T N d -> (k < N')%nat ->
  entry (map (firstn N') d) i k = entry d i k.
Proof.
  intros [Hl Hr] Hk. unfold entry.
  destruct (Nat.lt_ge_cases i (length d)) as [Hi|Hi].
  - rewrite (nth_map_in _ _ (@nil C)) by exact Hi.
    rewrite nth_firstn. destruct (Nat.ltb_spec k N'); [reflexivity | lia].
  - rewrite (nth_overflow (map _ d)) by (rewrite length_map; lia).
    rewrite (nth_overflow d) by lia. reflexivity.
Qed.

Lemma firstn_shape T N N' d :
  has_shape T N d -> (N' <= N)%nat -> has_shape T N' (map (firstn N') d).
Proof.
  intros [Hl Hr] Hle. split; [now rewrite length_map|].
  apply Forall_map. eapply Forall_impl; [|exact Hr].
  intros row Hrow. cbn beta in *. rewrite length_firstn. lia.
Qed.

Section TermColumns.

Context {E : Extern}.
Variables (chi mass : param) (t_ref : R) (t : list R) (lmin L : Z).
Hypothesis Hlmin : (0 <= lmin <= L)%Z.

Let LM := Sf.LM_range lmin L.
Let T := length t.
Let N := length LM.

(** An array whose entries other than zero lie in the columns of the modes
    of azimuthal number [m]. *)
Let in_columns (m : Z) (d : Np.matrix) : Prop :=
  has_shape T N d
  /\ forall i k, entry d i k <> Cx.zero ->
       exists l, In (l, m) LM /\ k = Z.to_nat (Sf.LM_index l m lmin).

Lemma column_step_in_columns m A expiwt Cs ells lm d :
  length expiwt = T -> In lm LM -> in_columns m d ->
  in_columns m (fst (add_qnm_column LM m A expiwt Cs ells lm d)).
Proof.
  intros HT Hin [Hs Hd]. unfold add_qnm_column. destruct lm as [l m'].
  destruct (Z.eqb_spec m' m) as [->|]; [|now split].
  unfold sbind, slift.
  destruct (mask_select Cs ells l) as [c_l|e]; [|now split].
  unfold LM at 1. rewrite min_ell_LM_range by lia.
  destruct (@LM_index_valid lmin L l m ltac:(lia) Hin) as [Hidx _].
  fold LM in Hidx. rewrite Hidx.
  destruct c_l as [|c c_l].
  - destruct (length expiwt =? 0)%nat; now split.
  - cbn [fst]. split; [now apply col_add_shape|].
    intros i k. rewrite (@entry_col_add T N) by (try assumption; now rewrite length_map).
    destruct (Nat.eqb_spec k (Z.to_nat (Sf.LM_index l m lmin))) as [->|Hne].
    + intros _. now exists l.
    + cbn [andb]. apply Hd.
Qed.

Lemma cell_step_in_columns i0 m A e Cs ells lm d :
  In lm LM -> in_columns m d ->
  in_columns m (fst (add_qnm_cell LM i0 m A e Cs ells lm d)).
Proof.
  intros Hin [Hs Hd]. unfold add_qnm_cell. destruct lm as [l m'].
  destruct (Z.eqb_spec m' m) as [->|]; [|now split].
  unfold sbind, slift.
  destruct (mask_select Cs ells l) as [c_l|e0]; [|now split].
  unfold LM at 1. rewrite min_ell_LM_range by lia.
  destruct (@LM_index_valid lmin L l m ltac:(lia) Hin) as [Hidx _].
  fold LM in Hidx. rewrite Hidx.
  destruct c_l as [|c c_l]; [now split|].
  cbn [fst]. split; [now apply cell_add_shape|].
  intros i k. rewrite (@entry_cell_add T N) by assumption.
  destruct (Nat.eqb_spec k (Z.to_nat (Sf.LM_index l m lmin))) as [->|Hne].
  - intros _. now exists l.
  - rewrite andb_false_r. cbn [andb]. apply Hd.
Qed.

Lemma add_term_in_columns tm d :
  ty tm = Some "QNM"%string -> in_columns (m_of tm) d ->
  in_columns (m_of tm) (fst (add_term chi mass t_ref t LM tm d)).
Proof.
  intros Hty Hd. unfold add_term. rewrite Hty. cbn [getitem].
  unfold sbind at 1, slift at 1. cbn [String.eqb Ascii.eqb Bool.eqb].
  assert (Hlabel : forall ell m n sign,
             getitem (mode tm) = Ok (ell, m, n, sign) -> m_of tm = m).
  { intros ell m n sign H. unfold m_of. destruct (mode tm) as [label|];
      [|discriminate]. cbn in H. now injection H as ->. }
  assert (Hps : in_columns (m_of tm)
        (fst (sfor (seq 0 (length t)) (fun i =>
          sbind (slift (param_at chi i)) (fun chi_value =>
          sbind (slift (param_at mass i)) (fun mass_value =>
          sbind (slift (getitem (mode tm))) (fun '(ell, m, n, sign) =>
          sbind (slift (qnm_from_tuple (ell, m, n, sign) chi_value mass_value (-2)))
                (fun '(omega, Cs, ells) =>
          sbind (slift (getitem (amp tm))) (fun A =>
          add_qnm_cells LM i m A (expiwt_at omega t_ref (nth i t 0%R)) Cs ells))))))
          d))).
  { apply sfor_preserves; [|exact Hd]. intros i d2 Hd2.
    apply slift_preserves; [exact Hd2 | intros chi_value _].
    apply slift_preserves; [exact Hd2 | intros mass_value _].
    apply slift_preserves; [exact Hd2 | intros [[[ell m] n] sign] Hm].
    apply Hlabel in Hm. subst m.
    apply slift_preserves; [exact Hd2 | intros [[w Cs] ells] _].
    apply slift_preserves; [exact Hd2 | intros A _].
    unfold add_qnm_cells. apply sfor_preserves_in; [|exact Hd2].
    intros lm d8 Hlm Hd8. now apply cell_step_in_columns. }
  destruct chi as [chi_value|chis], mass as [mass_value|masses]; try exact Hps.
  apply slift_preserves; [exact Hd | intros [[[ell m] n] sign] Hm].
  apply Hlabel in Hm. subst m.
  apply slift_preserves; [exact Hd | intros [[w Cs] ells] _].
  apply slift_preserves; [exact Hd | intros A _].
  unfold add_qnm_columns. apply sfor_preserves_in; [|exact Hd].
  intros lm d5 Hlm Hd5. apply column_step_in_columns; try assumption.
  apply length_map.
Qed.

(** The unit waveform of a QNM term is zero outside the columns of the
    modes that have the azimuthal number of the term. *)
Lemma unit_data_support tm i k :
  ty tm = Some "QNM"%string ->
  entry (unit_data chi mass t_ref t LM tm) i k <> Cx.zero ->
  exists l, In (l, m_of tm) LM /\ k = Z.to_nat (Sf.LM_index l (m_of tm) lmin).
Proof.
  intros Hty. unfold unit_data.
  apply (@add_term_in_columns (set_amp Cx.one tm) (zeros T N) Hty).
  split; [apply has_shape_zeros|]. intros i0 k0 H.
  now rewrite entry_zeros in H.
Qed.

End TermColumns.

Lemma cut_split lmin hi L :
  (0 <= lmin <= hi)%Z -> (hi <= L)%Z ->
  Sf.LM_range lmin L = Sf.LM_range lmin hi ++ Sf.LM_range (hi + 1) L.
Proof. intros. apply LM_range_app. lia. Qed.

Lemma cut_width lmin hi L :
  (0 <= lmin <= hi)%Z -> (hi <= L)%Z ->
  (length (Sf.LM_range lmin hi) <= length (Sf.LM_range lmin L))%nat.
Proof. intros H1 H2. rewrite (cut_split H1 H2), length_app. lia. Qed.

Lemma cut_in lmin hi L lm :
  (0 <= lmin <= hi)%Z -> (hi <= L)%Z ->
  In lm (Sf.LM_range lmin hi) -> In lm (Sf.LM_range lmin L).
Proof. intros H1 H2 H. rewrite (cut_split H1 H2). apply in_or_app. now left. Qed.

Lemma index_in_cut lmin hi L l m :
  (0 <= lmin <= hi)%Z -> (hi <= L)%Z ->
  In (l, m) (Sf.LM_range lmin hi) ->
  Np.index (length (Sf.LM_range lmin L)) (Sf.LM_index l m lmin)
  = Ok (Z.to_nat (Sf.LM_index l m lmin))
  /\ Np.index (length (Sf.LM_range lmin hi)) (Sf.LM_index l m lmin)
     = Ok (Z.to_nat (Sf.LM_index l m lmin))
  /\ (Z.to_nat (Sf.LM_index l m lmin) < length (Sf.LM_range lmin hi))%nat.
Proof.
  intros H1 H2 Hin.
  destruct (@LM_index_valid lmin hi l m ltac:(lia) Hin) as [Hc Hb].
  destruct (@LM_index_valid lmin L l m ltac:(lia) (cut_in _ H1 H2 Hin)) as [Hf _].
  repeat split; try assumption. lia.
Qed.

Lemma index_beyond_cut lmin hi L l m :
  (0 <= lmin <= hi)%Z -> (hi <= L)%Z ->
  In (l, m) (Sf.LM_range (hi + 1) L) ->
  Np.index (length (Sf.LM_range lmin L)) (Sf.LM_index l m lmin)
  = Ok (Z.to_nat (Sf.LM_index l m lmin))
  /\ (length (Sf.LM_range lmin hi) <= Z.to_nat (Sf.LM_index l m lmin))%nat.
Proof.
  intros H1 H2 Hin.
  assert (Hfull : In (l, m) (Sf.LM_range lmin L))
    by (rewrite (cut_split H1 H2); apply in_or_app; now right).
  destruct (@LM_index_valid lmin L l m ltac:(lia) Hfull) as [Hf _].
  split; [assumption|].
  apply LM_range_In in Hin.
  assert (HN : Z.of_nat (length (Sf.LM_range lmin hi))
               = ((hi + 1) * (hi + 1) - lmin * lmin)%Z)
    by (apply LM_range_length; lia).
  unfold Sf.LM_index. nia.
Qed.

Section ModeCut.

Context {E : Extern}.
Variables (chi mass : param) (t_ref : R) (t : list R) (lmin hi L : Z).
Hypothesis Hlmin : (0 <= lmin <= hi)%Z.
Hypothesis Hhi : (hi <= L)%Z.

Let LM := Sf.LM_range lmin L.
Let LMc := Sf.LM_range lmin hi.
Let T := length t.
Let N := length LM.
Let Nc := length LMc.

(** The array [d'] over the cut mode range holds what [d] holds in the
    columns they share. *)
Let cut_of (d' d : Np.matrix) : Prop :=
  has_shape T Nc d' /\ has_shape T N d
  /\ forall i k, (k < Nc)%nat -> entry d' i k = entry d i k.

Lemma column_step_cut m A expiwt Cs ells lm d' d :
  length expiwt = T -> In lm LMc -> cut_of d' d ->
  snd (add_qnm_column LM m A expiwt Cs ells lm d) = Ok tt ->
  snd (add_qnm_column LMc m A expiwt Cs ells lm d') = Ok tt
  /\ cut_of (fst (add_qnm_column LMc m A expiwt Cs ells lm d'))
            (fst (add_qnm_column LM m A expiwt Cs ells lm d)).
Proof.
  intros HT Hin (Hs' & Hs & Hd). unfold add_qnm_column. destruct lm as [l m'].
  destruct (m' =? m)%Z; [|intros _; exact (conj eq_refl (conj Hs' (conj Hs Hd)))].
  unfold sbind, slift.
  destruct (mask_select Cs ells l) as [c_l|e]; [|discriminate].
  unfold LM at 1 3, LMc at 1 3. rewrite !min_ell_LM_range by lia.
  destruct (@index_in_cut lmin hi L l m' Hlmin Hhi Hin) as (Hf & Hc & Hlt).
  fold LM LMc in Hf, Hc, Hlt. fold N Nc in Hf, Hc, Hlt.
  fold LM LMc N Nc. rewrite Hf, Hc.
  destruct c_l as [|c c_l].
  - destruct (length expiwt =? 0)%nat; [intros _; exact (conj eq_refl (conj Hs' (conj Hs Hd))) | discriminate].
  - intros _. cbn [fst snd]. split; [reflexivity|].
    split; [now apply col_add_shape|]. split; [now apply col_add_shape|].
    intros i k Hk.
    rewrite (@entry_col_add T Nc) by (try assumption; now rewrite length_map).
    rewrite (@entry_col_add T N) by (try assumption; now rewrite length_map).
    pose proof (cut_width Hlmin Hhi) as Hw. fold LM LMc N Nc in Hw.
    destruct (Nat.ltb_spec (Z.to_nat (Sf.LM_index l m' lmin)) Nc); [|lia].
    destruct (Nat.ltb_spec (Z.to_nat (Sf.LM_index l m' lmin)) N); [|lia].
    rewrite (Hd i k Hk). reflexivity.
Qed.

Lemma column_step_beyond m A expiwt Cs ells lm d' d :
  length expiwt = T -> In lm (Sf.LM_range (hi + 1) L) -> cut_of d' d ->
  cut_of d' (fst (add_qnm_column LM m A expiwt Cs ells lm d)).
Proof.
  intros HT Hin (Hs' & Hs & Hd). unfold add_qnm_column. destruct lm as [l m'].
  destruct (m' =? m)%Z; [|exact (conj Hs' (conj Hs Hd))].
  unfold sbind, slift.
  destruct (mask_select Cs ells l) as [c_l|e]; [|exact (conj Hs' (conj Hs Hd))].
  unfold LM at 1. rewrite min_ell_LM_range by lia.
  destruct (@index_beyond_cut lmin hi L l m' Hlmin Hhi Hin) as (Hf & Hge).
  fold LM LMc in Hf, Hge. fold N Nc in Hf, Hge.
  fold LM N. rewrite Hf.
  destruct c_l as [|c c_l].
  - destruct (length expiwt =? 0)%nat; exact (conj Hs' (conj Hs Hd)).
  - cbn [fst]. split; [assumption|]. split; [now apply col_add_shape|].
    intros i k Hk.
    rewrite (@entry_col_add T N) by (try assumption; now rewrite length_map).
    destruct (Nat.eqb_spec k (Z.to_nat (Sf.LM_index l m' lmin))); [lia|].
    cbn [andb]. now apply Hd.
Qed.

Lemma cell_step_cut i0 m A e Cs ells lm d' d :
  In lm LMc -> cut_of d' d ->
  snd (add_qnm_cell LM i0 m A e Cs ells lm d) = Ok tt ->
  snd (add_qnm_cell LMc i0 m A e Cs ells lm d') = Ok tt
  /\ cut_of (fst (add_qnm_cell LMc i0 m A e Cs ells lm d'))
            (fst (add_qnm_cell LM i0 m A e Cs ells lm d)).
Proof.
  intros Hin (Hs' & Hs & Hd). unfold add_qnm_cell. destruct lm as [l m'].
  destruct (m' =? m)%Z; [|intros _; exact (conj eq_refl (conj Hs' (conj Hs Hd)))].
  unfold sbind, slift.
  destruct (mask_select Cs ells l) as [c_l|e0]; [|discriminate].
  unfold LM at 1 3, LMc at 1 3. rewrite !min_ell_LM_range by lia.
  destruct (@index_in_cut lmin hi L l m' Hlmin Hhi Hin) as (Hf & Hc & Hlt).
  fold LM LMc in Hf, Hc, Hlt. fold N Nc in Hf, Hc, Hlt.
  fold LM LMc N Nc. rewrite Hf, Hc.
  destruct c_l as [|c c_l]; [discriminate|].
  intros _. cbn [fst snd]. split; [reflexivity|].
  split; [now apply cell_add_shape|]. split; [now apply cell_add_shape|].
  intros i k Hk.
  rewrite (@entry_cell_add T Nc) by assumption.
  rewrite (@entry_cell_add T N) by assumption.
  pose proof (cut_width Hlmin Hhi) as Hw. fold LM LMc N Nc in Hw.
  destruct (Nat.ltb_spec (Z.to_nat (Sf.LM_index l m' lmin)) Nc); [|lia].
  destruct (Nat.ltb_spec (Z.to_nat (Sf.LM_index l m' lmin)) N); [|lia].
  rewrite (Hd i k Hk). reflexivity.
Qed.

Lemma cell_step_beyond i0 m A e Cs ells lm d' d :
  In lm (Sf.LM_range (hi + 1) L) -> cut_of d' d ->
  cut_of d' (fst (add_qnm_cell LM i0 m A e Cs ells lm d)).
Proof.
  intros Hin (Hs' & Hs & Hd). unfold add_qnm_cell. destruct lm as [l m'].
  destruct (m' =? m)%Z; [|exact (conj Hs' (conj Hs Hd))].
  unfold sbind, slift.
  destruct (mask_select Cs ells l) as [c_l|e0]; [|exact (conj Hs' (conj Hs Hd))].
  unfold LM at 1. rewrite min_ell_LM_range by lia.
  destruct (@index_beyond_cut lmin hi L l m' Hlmin Hhi Hin) as (Hf & Hge).
  fold LM LMc in Hf, Hge. fold N Nc in Hf, Hge.
  fold LM N. rewrite Hf.
  destruct c_l as [|c c_l]; [exact (conj Hs' (conj Hs Hd))|].
  cbn [fst]. split; [assumption|]. split; [now apply cell_add_shape|].
  intros i k Hk.
  rewrite (@entry_cell_add T N) by assumption.
  destruct (Nat.eqb_spec k (Z.to_nat (Sf.LM_index l m' lmin))); [lia|].
  rewrite andb_false_r. cbn [andb]. now apply Hd.
Qed.

(** The loop over the modes, on the cut range and on the whole range. *)
Lemma loop_cut (f f' : Z * Z -> St Np.matrix unit) :
  (forall lm d' d, In lm LMc -> cut_of d' d -> snd (f lm d) = Ok tt ->
     snd (f' lm d') = Ok tt /\ cut_of (fst (f' lm d')) (fst (f lm d))) ->
  (forall lm d' d, In lm (Sf.LM_range (hi + 1) L) -> cut_of d' d ->
     cut_of d' (fst (f lm d))) ->
  forall d' d, cut_of d' d -> snd (sfor LM f d) = Ok tt ->
    snd (sfor LMc f' d') = Ok tt
    /\ cut_of (fst (sfor LMc f' d')) (fst (sfor LM f d)).
Proof.
  intros Hin Hout d' d Hd Hok. unfold LM in Hok |- *.
  rewrite (cut_split Hlmin Hhi) in Hok |- *. fold LMc in Hok |- *.
  rewrite sfor_app in Hok |- *.
  assert (Hpre : forall xs d' d, (forall lm, In lm xs -> In lm LMc) ->
            cut_of d' d -> snd (sfor xs f d) = Ok tt ->
            snd (sfor xs f' d') = Ok tt
            /\ cut_of (fst (sfor xs f' d')) (fst (sfor xs f d))).
  { induction xs as [|x xs IH]; intros d1' d1 Hxs Hd1 Hok1; [now split|].
    cbn [sfor] in *. unfold sbind in *.
    pose proof (Hin x d1' d1 (Hxs x (or_introl eq_refl)) Hd1) as Hx.
    destruct (f x d1) as [d2 [[]|e]]; [|discriminate].
    destruct (Hx eq_refl) as [Hx1 Hx2]. cbn [fst] in Hx2.
    destruct (f' x d1') as [d2' [[]|e']]; [|discriminate].
    cbn [fst] in Hx2. apply IH; try assumption.
    intros lm Hlm. apply Hxs. now right. }
  pose proof (Hpre LMc d' d (fun lm H => H) Hd) as H1.
  destruct (sfor LMc f d) as [d1 [[]|e]]; [|discriminate].
  destruct (H1 eq_refl) as [Hok1 Hcut1]. split; [exact Hok1|].
  cbn [fst] in Hcut1.
  apply (sfor_preserves_in (cut_of (fst (sfor LMc f' d')))); [|exact Hcut1].
  intros lm s Hlm Hs. now apply Hout.
Qed.

(** A loop whose passes run on both ranges. *)
Lemma passes_cut {X} (g g' : X -> St Np.matrix unit) xs :
  (forall x d' d, cut_of d' d -> snd (g x d) = Ok tt ->
     snd (g' x d') = Ok tt /\ cut_of (fst (g' x d')) (fst (g x d))) ->
  forall d' d, cut_of d' d -> snd (sfor xs g d) = Ok tt ->
    snd (sfor xs g' d') = Ok tt
    /\ cut_of (fst (sfor xs g' d')) (fst (sfor xs g d)).
Proof.
  intros Hg. induction xs as [|x xs IH]; intros d' d Hd Hok; [now split|].
  cbn [sfor] in *. unfold sbind in *.
  pose proof (Hg x d' d Hd) as Hx.
  destruct (g x d) as [d2 [[]|e]]; [|discriminate].
  destruct (Hx eq_refl) as [Hx1 Hx2]. cbn [fst] in Hx2.
  destruct (g' x d') as [d2' [[]|e']]; [|discriminate].
  cbn [fst] in Hx2. now apply IH.
Qed.

Lemma add_term_cut tm d' d :
  ty tm = Some "QNM"%string -> cut_of d' d ->
  snd (add_term chi mass t_ref t LM tm d) = Ok tt ->
  snd (add_term chi mass t_ref t LMc tm d') = Ok tt
  /\ cut_of (fst (add_term chi mass t_ref t LMc tm d'))
            (fst (add_term chi mass t_ref t LM tm d)).
Proof.
  intros Hty Hd. unfold add_term. rewrite Hty. cbn [getitem].
  unfold sbind at 1 11, slift at 1 11. cbn [String.eqb Ascii.eqb Bool.eqb].
  assert (Hps :
    snd (sfor (seq 0 (length t)) (fun i =>
          sbind (slift (param_at chi i)) (fun chi_value =>
          sbind (slift (param_at mass i)) (fun mass_value =>
          sbind (slift (getitem (mode tm))) (fun '(ell, m, n, sign) =>
          sbind (slift (qnm_from_tuple (ell, m, n, sign) chi_value mass_value (-2)))
                (fun '(omega, Cs, ells) =>
          sbind (slift (getitem (amp tm))) (fun A =>
          add_qnm_cells LM i m A (expiwt_at omega t_ref (nth i t 0%R)) Cs ells))))))
          d) = Ok tt ->
    snd (sfor (seq 0 (length t)) (fun i =>
          sbind (slift (param_at chi i)) (fun chi_value =>
          sbind (slift (param_at mass i)) (fun mass_value =>
          sbind (slift (getitem (mode tm))) (fun '(ell, m, n, sign) =>
          sbind (slift (qnm_from_tuple (ell, m, n, sign) chi_value mass_value (-2)))
                (fun '(omega, Cs, ells) =>
          sbind (slift (getitem (amp tm))) (fun A =>
          add_qnm_cells LMc i m A (expiwt_at omega t_ref (nth i t 0%R)) Cs ells))))))
          d') = Ok tt
    /\ cut_of
         (fst (sfor (seq 0 (length t)) (fun i =>
          sbind (slift (param_at chi i)) (fun chi_value =>
          sbind (slift (param_at mass i)) (fun mass_value =>
          sbind (slift (getitem (mode tm))) (fun '(ell, m, n, sign) =>
          sbind (slift (qnm_from_tuple (ell, m, n, sign) chi_value mass_value (-2)))
                (fun '(omega, Cs, ells) =>
          sbind (slift (getitem (amp tm))) (fun A =>
          add_qnm_cells LMc i m A (expiwt_at omega t_ref (nth i t 0%R)) Cs ells))))))
          d'))
         (fst (sfor (seq 0 (length t)) (fun i =>
          sbind (slift (param_at chi i)) (fun chi_value =>
          sbind (slift (param_at mass i)) (fun mass_value =>
          sbind (slift (getitem (mode tm))) (fun '(ell, m, n, sign) =>
          sbind (slift (qnm_from_tuple (ell, m, n, sign) chi_value mass_value (-2)))
                (fun '(omega, Cs, ells) =>
          sbind (slift (getitem (amp tm))) (fun A =>
          add_qnm_cells LM i m A (expiwt_at omega t_ref (nth i t 0%R)) Cs ells))))))
          d))).
  { apply passes_cut; [|exact Hd]. intros i d1' d1 Hd1.
    unfold sbind, slift.
    destruct (param_at chi i) as [chi_value|e]; [|discriminate].
    destruct (param_at mass i) as [mass_value|e]; [|discriminate].
    destruct (getitem (mode tm)) as [[[[ell m] n] sign]|e]; [|discriminate].
    destruct (qnm_from_tuple _ _ _ _) as [[[w Cs] ells]|e]; [|discriminate].
    destruct (getitem (amp tm)) as [A|e]; [|discriminate].
    unfold add_qnm_cells. apply loop_cut; [| |exact Hd1].
    - intros lm s' s Hlm Hs. now apply cell_step_cut.
    - intros lm s' s Hlm Hs. now apply cell_step_beyond. }
  destruct chi as [chi_value|chis], mass as [mass_value|masses]; try exact Hps.
  unfold sbind, slift.
  destruct (getitem (mode tm)) as [[[[ell m] n] sign]|e]; [|discriminate].
  destruct (qnm_from_tuple _ _ _ _) as [[[w Cs] ells]|e]; [|discriminate].
  destruct (getitem (amp tm)) as [A|e]; [|discriminate].
  unfold add_qnm_columns. apply loop_cut; [| |exact Hd].
  - intros lm s' s Hlm Hs. apply column_step_cut; try assumption. apply length_map.
  - intros lm s' s Hlm Hs. apply column_step_beyond; try assumption.
    apply length_map.
Qed.

(** The unit waveform over the cut range is synthesized whenever the one
    over the whole range is, and they hold the same in the columns they
    share. *)
Lemma unit_data_cut tm :
  ty tm = Some "QNM"%string ->
  snd (add_term chi mass t_ref t LM (set_amp Cx.one tm) (zeros T N)) = Ok tt ->
  snd (add_term chi mass t_ref t LMc (set_amp Cx.one tm) (zeros T Nc)) = Ok tt
  /\ has_shape T Nc (unit_data chi mass t_ref t LMc tm)
  /\ forall i k, (k < Nc)%nat ->
       entry (unit_data chi mass t_ref t LMc tm) i k
       = entry (unit_data chi mass t_ref t LM tm) i k.
Proof.
  intros Hty Hok.
  destruct (@add_term_cut (set_amp Cx.one tm) (zeros T Nc) (zeros T N) Hty) as [H1 H2].
  - split; [apply has_shape_zeros|]. split; [apply has_shape_zeros|].
    intros i k _. now rewrite !entry_zeros.
  - exact Hok.
  - split; [exact H1|]. unfold unit_data. fold T N Nc LM LMc.
    destruct H2 as (Hs' & _ & Hent). split; assumption.
Qed.

End ModeCut.

(** ** A synthesized target as a combination of unit waveforms *)

Lemma scaled_unit_term tm a :
  amp tm = Some a -> scale_amp a (set_amp Cx.one tm) = tm.
Proof.
  intros Ha. destruct tm as [ty0 mode0 amp0 omega0 target0]. cbn in Ha. subst amp0.
  unfold scale_amp, set_amp. cbn. now rewrite mul_one_r.
Qed.

Section TargetSum.

Context {E : Extern}.
Variables (chi mass : param) (t_ref : R) (t : list R) (LM : list (Z * Z)).

Let T := length t.
Let N := length LM.
Let run := add_term chi mass t_ref t LM.

Lemma unit_run_result tm a d d' :
  amp tm = Some a -> has_shape T N d -> has_shape T N d' ->
  snd (run (set_amp Cx.one tm) d) = snd (run tm d').
Proof.
  intros Ha Hd Hd'.
  destruct (scaled_add_term E a chi mass t_ref t LM (set_amp Cx.one tm)) as [Hr _].
  rewrite (scaled_unit_term tm Ha) in Hr. now apply Hr.
Qed.

Lemma term_entries tm a i k :
  amp tm = Some a -> snd (run tm (zeros T N)) = Ok tt ->
  entry (fst (run tm (zeros T N))) i k
  = Cx.mul a (entry (unit_data chi mass t_ref t LM tm) i k).
Proof.
  intros Ha Hok.
  destruct (scaled_add_term E a chi mass t_ref t LM (set_amp Cx.one tm)) as [Hr He].
  rewrite (scaled_unit_term tm Ha) in Hr, He. fold T N run in Hr, He.
  apply He. rewrite (Hr _ (zeros T N)) by apply has_shape_zeros. exact Hok.
Qed.

Lemma target_sum terms D :
  Forall qnm_with_amp terms ->
  sfor terms run (zeros T N) = (D, Ok tt) ->
  has_shape T N D
  /\ (forall tm d, In tm terms -> has_shape T N d ->
        snd (run (set_amp Cx.one tm) d) = Ok tt)
  /\ forall i k,
       entry D i k
       = Np.csum (map (fun tm => Cx.mul (amp_or_zero tm)
                                   (entry (unit_data chi mass t_ref t LM tm) i k))
                      terms).
Proof.
  intros Hq Hrun.
  assert (Hadd : forall tm, additive T N (run tm))
    by (intros tm; apply additive_add_term).
  destruct (@additive_sum T N _ terms run Hadd) as [Hoks Hsum];
    [now rewrite Hrun|]. rewrite Hrun in Hsum. cbn [fst] in Hsum.
  split; [|split].
  - pose proof (@synth_shape E chi mass t_ref t LM terms (zeros T N)
                  (has_shape_zeros T N)) as Hs.
    fold T N run in Hs. now rewrite Hrun in Hs.
  - intros tm d Hin Hd.
    destruct (proj1 (Forall_forall _ _) Hq tm Hin) as [_ [a Ha]].
    rewrite (@unit_run_result tm a d (zeros T N) Ha Hd (has_shape_zeros T N)).
    now apply Hoks.
  - intros i k. rewrite Hsum. f_equal. apply map_ext_in. intros tm Hin.
    destruct (proj1 (Forall_forall _ _) Hq tm Hin) as [_ [a Ha]].
    unfold amp_or_zero. rewrite Ha. apply term_entries; [exact Ha | now apply Hoks].
Qed.

End TargetSum.

(** ** The least-squares system of one azimuthal number *)

Section FitSystem.

Context {E : Extern}.
Variables (chi mass : param) (t_ref : R) (t : list R) (lmin L : Z).
Hypothesis Hlmin : (0 <= lmin <= 2)%Z.

Let LM := Sf.LM_range lmin L.
Let T := length t.
Let N := length LM.
Let run := add_term chi mass t_ref t LM.

Variable terms0 : list term.
Hypothesis Hq : Forall qnm_with_amp terms0.
Variable D : Np.matrix.
Hypothesis Hsynth : sfor terms0 run (zeros T N) = (D, Ok tt).

(** The azimuthal number [m], the ells [ls] that its fit works on and the
    largest ell [hi] that the fit keeps of the target. *)
Variables (m : Z) (ls : list Z) (hi : Z).
Hypothesis Hhi : (2 <= hi <= L)%Z.
Hypothesis Hls : forall l, In l ls -> (2 <= l <= hi)%Z.

Let LMc := Sf.LM_range lmin hi.
Let Nc := length LMc.

(** The column that the index [LM_index l m lmin] selects in the cut array
    (negative indices count from the end). *)
Let col (l : Z) : nat :=
  match Np.index Nc (Sf.LM_index l m lmin) with
  | Ok j => j
  | Raise _ => 0%nat
  end.

(** Every ell of the fit gives a mode [(l, m)] of the target, or the fit
    keeps the whole mode range of a target with [lmin = 2]. *)
Hypothesis Hvalid :
  (forall l, In l ls -> (Z.abs m <= l)%Z)
  \/ (hi = L /\ lmin = 2%Z /\ (- L <= m <= L)%Z).

Let idx := map (fun l => Sf.LM_index l m lmin) ls.
Let js := map col ls.
Let W := length ls.
Let sel (d : Np.matrix) : Np.matrix :=
  map (fun row => map (fun j => nth j row Cx.zero) js) d.
Let tms := block_terms m terms0.
Let a_m := map amp_or_zero tms.
Let y := concat (sel (map (firstn Nc) D)).
Let B := reshape_design (T * W)
           (map (fun tm => sel (unit_data chi mass t_ref t LMc tm)) tms).

Lemma fit_target_facts :
  has_shape T N D
  /\ (forall tm d, In tm terms0 -> has_shape T N d ->
        snd (run (set_amp Cx.one tm) d) = Ok tt)
  /\ forall i k,
       entry D i k
       = Np.csum (map (fun tm => Cx.mul (amp_or_zero tm)
                                   (entry (unit_data chi mass t_ref t LM tm) i k))
                      terms0).
Proof. exact (@target_sum E chi mass t_ref t LM terms0 D Hq Hsynth). Qed.

Lemma fit_unit_cut tm :
  In tm terms0 ->
  snd (add_term chi mass t_ref t LMc (set_amp Cx.one tm) (zeros T Nc)) = Ok tt
  /\ has_shape T Nc (unit_data chi mass t_ref t LMc tm)
  /\ forall i k, (k < Nc)%nat ->
       entry (unit_data chi mass t_ref t LMc tm) i k
       = entry (unit_data chi mass t_ref t LM tm) i k.
Proof.
  intros Hin. destruct (proj1 (Forall_forall _ _) Hq tm Hin) as [Hty _].
  apply (@unit_data_cut E chi mass t_ref t lmin hi L); try lia; try assumption.
  apply (proj1 (proj2 fit_target_facts)); [assumption | apply has_shape_zeros].
Qed.

Lemma fit_cut_size : Z.of_nat Nc = ((hi + 1) * (hi + 1) - lmin * lmin)%Z.
Proof. unfold Nc, LMc. apply LM_range_length. lia. Qed.

Lemma fit_col_ok l :
  In l ls -> Np.index Nc (Sf.LM_index l m lmin) = Ok (col l) /\ (col l < Nc)%nat.
Proof.
  intros Hl. pose proof (Hls l Hl) as Hb.
  assert (Hj : exists j, Np.index Nc (Sf.LM_index l m lmin) = Ok j).
  { destruct Hvalid as [Hv|(Hhi' & Hlmin' & Hm)].
    - assert (Hin : In (l, m) LMc) by (apply LM_range_In; specialize (Hv l Hl); lia).
      destruct (@LM_index_valid lmin hi l m ltac:(lia) Hin) as [Hi _].
      fold LMc Nc in Hi. eauto.
    - pose proof fit_cut_size as HN. unfold Np.index, Sf.LM_index.
      destruct (Z.leb_spec 0 (l * (l + 1) - lmin * lmin + m)).
      + destruct (Z.ltb_spec (l * (l + 1) - lmin * lmin + m) (Z.of_nat Nc));
          [eauto | nia].
      + destruct (Z.leb_spec (- Z.of_nat Nc) (l * (l + 1) - lmin * lmin + m));
          [eauto | nia]. }
  destruct Hj as [j Hj]. unfold col. rewrite Hj.
  split; [reflexivity | now apply index_ok_lt in Hj].
Qed.

Lemma fit_aliased l tm i :
  In l ls -> (l < Z.abs m)%Z -> In tm terms0 -> m_of tm = m ->
  entry (unit_data chi mass t_ref t LM tm) i (col l) = Cx.zero.
Proof.
  intros Hl Hml Hin Hmt. pose proof (Hls l Hl) as Hb.
  destruct Hvalid as [Hv|(Hhi' & Hlmin' & Hm)]; [specialize (Hv l Hl); lia|].
  destruct (Classical_Prop.classic
              (entry (unit_data chi mass t_ref t LM tm) i (col l) = Cx.zero))
    as [Hz|Hnz]; [assumption|].
  exfalso. destruct (proj1 (Forall_forall _ _) Hq tm Hin) as [Hty _].
  apply (@unit_data_support E chi mass t_ref t lmin L ltac:(lia) tm i (col l) Hty)
    in Hnz.
  destruct Hnz as (l' & Hin' & Hk). rewrite Hmt in *.
  apply LM_range_In in Hin'.
  pose proof (proj1 (@fit_col_ok l Hl)) as Hc.
  pose proof fit_cut_size as HN.
  unfold Np.index in Hc. unfold Sf.LM_index in *.
  destruct (Z.leb_spec 0 (l * (l + 1) - lmin * lmin + m)).
  - destruct (Z.ltb_spec (l * (l + 1) - lmin * lmin + m) (Z.of_nat Nc));
      [|discriminate].
    injection Hc as Hc. rewrite <- Hc in Hk. apply Z2Nat.inj in Hk; nia.
  - destruct (Z.leb_spec (- Z.of_nat Nc) (l * (l + 1) - lmin * lmin + m));
      [|discriminate].
    injection Hc as Hc. rewrite <- Hc in Hk. apply Z2Nat.inj in Hk; nia.
Qed.

Lemma fit_idx_valid : rmap (Np.index Nc) idx = Ok js.
Proof.
  unfold idx, js. rewrite rmap_map. apply rmap_ok.
  intros l Hl. now apply fit_col_ok.
Qed.

Lemma fit_select_cols d : select_cols Nc idx d = Ok (sel d).
Proof. unfold select_cols. now rewrite fit_idx_valid. Qed.

Lemma fit_col_proper l :
  In l ls -> (Z.abs m <= l)%Z ->
  In (l, m) LM /\ col l = Z.to_nat (Sf.LM_index l m lmin).
Proof.
  intros Hl Hml. pose proof (Hls l Hl) as Hb.
  assert (Hin : In (l, m) LMc) by (apply LM_range_In; lia).
  destruct (@LM_index_valid lmin hi l m ltac:(lia) Hin) as [Hv _].
  fold LMc Nc in Hv. split; [apply LM_range_In; lia|].
  unfold col. now rewrite Hv.
Qed.

Lemma fit_other_m tm l i :
  In l ls -> (Z.abs m <= l)%Z -> In tm terms0 -> m_of tm <> m ->
  entry (unit_data chi mass t_ref t LM tm) i (col l) = Cx.zero.
Proof.
  intros Hl Hml Hin Hne.
  destruct (Classical_Prop.classic
              (entry (unit_data chi mass t_ref t LM tm) i (col l) = Cx.zero))
    as [Hz|Hnz]; [assumption|].
  exfalso. destruct (proj1 (Forall_forall _ _) Hq tm Hin) as [Hty _].
  pose proof (Hls l Hl) as Hb.
  apply (@unit_data_support E chi mass t_ref t lmin L ltac:(lia) tm i (col l) Hty)
    in Hnz.
  destruct Hnz as (l' & Hin' & Hk).
  destruct (@fit_col_proper l Hl Hml) as (Hin0 & Hc).
  rewrite Hc in Hk. apply LM_range_In in Hin0, Hin'.
  apply Z2Nat.inj in Hk; [| unfold Sf.LM_index; nia | unfold Sf.LM_index; nia].
  apply LM_index_inj in Hk; [|lia|lia|lia|lia].
  destruct Hk as [_ Hk]. congruence.
Qed.

Lemma fit_W_eq : length js = W /\ length idx = W.
Proof. unfold js, idx, W. now rewrite !length_map. Qed.

Lemma fit_sel_shape d :
  length (sel d) = length d /\ Forall (fun row => length row = W) (sel d).
Proof.
  unfold sel. split; [apply length_map|].
  apply Forall_map, Forall_forall. intros row _. rewrite length_map. apply fit_W_eq.
Qed.

Lemma fit_entry_sel d i p :
  (i < length d)%nat -> (p < W)%nat ->
  nth p (nth i (sel d) []) Cx.zero = entry d i (col (nth p ls 0%Z)).
Proof.
  intros Hi Hp. unfold sel, entry.
  rewrite (nth_map_in _ _ (@nil C)) by assumption.
  rewrite (nth_map_in _ _ 0%nat) by (now rewrite (proj1 fit_W_eq)).
  unfold js. now rewrite (nth_map_in _ _ 0%Z) by assumption.
Qed.

Lemma fit_flat_entry d r :
  length d = T -> (r < T * W)%nat ->
  nth r (concat (sel d)) Cx.zero
  = entry d (r / W) (col (nth (r mod W) ls 0%Z))
  /\ (r / W < T)%nat /\ (r mod W < W)%nat.
Proof.
  intros Hd Hr.
  assert (HW : (0 < W)%nat) by (destruct W; lia).
  assert (Hi : (r / W < T)%nat) by (apply Nat.Div0.div_lt_upper_bound; lia).
  assert (Hp : (r mod W < W)%nat) by (apply Nat.mod_upper_bound; lia).
  destruct (fit_sel_shape d) as [Hlen Hrows].
  rewrite (nth_concat_uniform Cx.zero Hrows) by (rewrite Hlen, Hd; lia).
  rewrite fit_entry_sel by (try assumption; lia). auto.
Qed.

(** Row [r] of the design matrix holds, for every term of the block, the
    entry of its unit waveform at the sample and the mode of the row. *)
Lemma fit_design_row r :
  (r < T * W)%nat ->
  nth r B [] =
  map (fun tm => entry (unit_data chi mass t_ref t LM tm) (r / W)
                   (col (nth (r mod W) ls 0%Z))) tms.
Proof.
  intros Hr. unfold B, reshape_design.
  rewrite (nth_map_in _ _ 0%nat) by now rewrite length_seq.
  rewrite seq_nth by assumption. cbn [Nat.add]. rewrite map_map.
  apply map_ext_in. intros tm Htm.
  assert (Hin : In tm terms0) by (apply filter_In in Htm; tauto).
  destruct (@fit_unit_cut tm Hin) as (_ & Hsu & Hentu).
  destruct (@fit_flat_entry (unit_data chi mass t_ref t LMc tm) r (proj1 Hsu) Hr)
    as (Hu & _ & Hp).
  rewrite Hu. apply Hentu. apply fit_col_ok. apply nth_In. exact Hp.
Qed.

Lemma fit_system_rows : Forall2 (row_explained a_m) B y.
Proof.
  destruct fit_target_facts as (HsD & _ & HentD).
  pose proof (@cut_width lmin hi L ltac:(lia) ltac:(lia)) as Hw.
  fold LM LMc N Nc in Hw.
  assert (HsDc : has_shape T Nc (map (firstn Nc) D)) by now apply (@firstn_shape T N).
  assert (HlenB : length B = (T * W)%nat).
  { unfold B, reshape_design. now rewrite length_map, length_seq. }
  assert (Hleny : length y = (T * W)%nat).
  { unfold y. destruct (fit_sel_shape (map (firstn Nc) D)) as [Hlen Hrows].
    rewrite (concat_uniform_length Hrows), Hlen. now rewrite (proj1 HsDc). }
  apply (Forall2_nth_intro _ [] Cx.zero); [congruence|].
  intros r Hr. rewrite HlenB in Hr.
  destruct (@fit_flat_entry (map (firstn Nc) D) r (proj1 HsDc) Hr) as (Hy & Hi & Hp).
  unfold y. rewrite Hy, (fit_design_row Hr).
  set (i := (r / W)%nat) in *. set (l := nth (r mod W) ls 0%Z) in *.
  assert (Hl : In l ls) by (apply nth_In; exact Hp).
  rewrite (@entry_firstn T N) by (try assumption; now apply fit_col_ok).
  rewrite HentD.
  destruct (Z_le_gt_dec (Z.abs m) l) as [Hml|Hml].
  - left. unfold a_m. rewrite dot_map.
    rewrite (csum_filter (fun tm => (m_of tm =? m)%Z)).
    + fold (block_terms m terms0). fold tms. f_equal.
      apply map_ext. intros tm. apply cmul_comm.
    + intros tm Hin Hf. apply Z.eqb_neq in Hf.
      rewrite (@fit_other_m tm l i Hl Hml Hin Hf). apply cmul_zero_r.
  - right. apply Forall_map, Forall_forall. intros tm Htm.
    apply filter_In in Htm. destruct Htm as [Hin Htm]. apply Z.eqb_eq in Htm.
    apply fit_aliased; [assumption | lia | assumption | assumption].
Qed.

Lemma fit_system_injective x' :
  independent_on chi mass t_ref t lmin L ls m tms ->
  length x' = length tms ->
  matvec B x' = matvec B a_m -> x' = a_m.
Proof.
  intros Hind Hlen Hmv. apply Hind; [assumption | unfold a_m; apply length_map|].
  intros i l Hl Hml. unfold combination. fold LM.
  destruct (@fit_col_proper l Hl Hml) as [_ Hc]. rewrite <- Hc.
  destruct (Nat.lt_ge_cases i T) as [Hi|Hi].
  - destruct (In_nth ls l 0%Z Hl) as (p & Hp & Hnth). fold W in Hp.
    set (r := (i * W + p)%nat).
    assert (Hr : (r < T * W)%nat) by (unfold r; nia).
    assert (Hdiv : (r / W = i)%nat).
    { unfold r. rewrite Nat.div_add_l by lia. rewrite Nat.div_small by lia. lia. }
    assert (Hmod : (r mod W = p)%nat).
    { unfold r. rewrite Nat.add_comm, Nat.Div0.mod_add. now apply Nat.mod_small. }
    pose proof (fit_design_row Hr) as Hrow. rewrite Hdiv, Hmod, Hnth in Hrow.
    apply (f_equal (fun v => nth r v Cx.zero)) in Hmv.
    unfold matvec in Hmv.
    assert (HlenB : (r < length B)%nat).
    { unfold B, reshape_design. now rewrite length_map, length_seq. }
    rewrite !(nth_map_in _ _ (@nil C)) in Hmv by assumption.
    now rewrite Hrow in Hmv.
  - assert (Hz : Forall (fun c => c = Cx.zero)
                   (map (fun tm => entry (unit_data chi mass t_ref t LM tm) i (col l))
                        tms)).
    { apply Forall_map, Forall_forall. intros tm Htm.
      apply filter_In in Htm. destruct Htm as [Hin _].
      destruct (proj1 (Forall_forall _ _) Hq tm Hin) as [Hty _].
      apply (@entry_outside_rows T N); [|exact Hi].
      unfold unit_data. fold T N.
      apply (@add_term_shape E chi mass t_ref t LM). apply has_shape_zeros. }
    now rewrite !(dot_zero_row _ Hz).
Qed.

Lemma fit_block_solution :
  lstsq_minimizes E ->
  independent_on chi mass t_ref t lmin L ls m tms ->
  lstsq (length tms) B y = Ok a_m.
Proof.
  intros Hlsq Hind.
  assert (Hlen : length a_m = length tms) by (unfold a_m; apply length_map).
  destruct (Hlsq (length tms) B y a_m Hlen) as (x' & Hx' & Hlen' & Hmin).
  { intros z _. apply (ls_minimum fit_system_rows). }
  rewrite Hx'. f_equal. apply fit_system_injective; [assumption | assumption|].
  apply (ls_minimizer_image fit_system_rows). now apply Hmin.
Qed.

End FitSystem.

(** ** The mode list of the fit *)

Lemma listed_ells_In ms m l : In l (listed_ells ms m) <-> In (l, m) ms.
Proof.
  unfold listed_ells. rewrite in_map_iff. split.
  - intros ([l0 m0] & Hl & Hin). apply filter_In in Hin. destruct Hin as [Hin Hm].
    cbn in Hl, Hm. apply Z.eqb_eq in Hm. now subst.
  - intros Hin. exists (l, m). split; [reflexivity|].
    apply filter_In. split; [assumption | apply Z.eqb_refl].
Qed.

Lemma mode_in_spec lm ms : mode_in lm ms = true <-> In lm ms.
Proof.
  split; [|apply mode_in_In].
  unfold mode_in. intros H. apply existsb_exists in H.
  destruct H as ([l0 m0] & Hin & Heq). destruct lm as [l m]. cbn in Heq.
  apply andb_true_iff in Heq. destruct Heq as [H1 H2].
  apply Z.eqb_eq in H1, H2. now subst.
Qed.

Lemma fold_min_spec ls : forall l0,
  In (fold_left Z.min ls l0) (l0 :: ls)
  /\ forall x, In x (l0 :: ls) -> (fold_left Z.min ls l0 <= x)%Z.
Proof.
  induction ls as [|l ls IH]; intros l0; cbn [fold_left].
  - split; [now left|]. intros x [<-|[]]. lia.
  - destruct (IH (Z.min l0 l)) as [Hin Hle]. split.
    + destruct Hin as [Hin|Hin]; [|now right; right].
      rewrite <- Hin. destruct (Z.min_spec l0 l) as [[_ ->]|[_ ->]];
        [now left | right; now left].
    + intros x [<-|[<-|Hx]].
      * specialize (Hle (Z.min l0 l) (or_introl eq_refl)). lia.
      * specialize (Hle (Z.min l0 l) (or_introl eq_refl)). lia.
      * apply Hle. now right.
Qed.

Lemma fold_max_spec ls : forall l0,
  In (fold_left Z.max ls l0) (l0 :: ls)
  /\ forall x, In x (l0 :: ls) -> (x <= fold_left Z.max ls l0)%Z.
Proof.
  induction ls as [|l ls IH]; intros l0; cbn [fold_left].
  - split; [now left|]. intros x [<-|[]]. lia.
  - destruct (IH (Z.max l0 l)) as [Hin Hle]. split.
    + destruct Hin as [Hin|Hin]; [|now right; right].
      rewrite <- Hin. destruct (Z.max_spec l0 l) as [[_ ->]|[_ ->]];
        [right; now left | now left].
    + intros x [<-|[<-|Hx]].
      * specialize (Hle (Z.max l0 l) (or_introl eq_refl)). lia.
      * specialize (Hle (Z.max l0 l) (or_introl eq_refl)). lia.
      * apply Hle. now right.
Qed.

Lemma filter_all {X} (f : X -> bool) (l : list X) :
  (forall x, In x l -> f x = true) -> filter f l = l.
Proof.
  induction l as [|x l IH]; intros H; [reflexivity|].
  cbn [filter]. rewrite (H x (or_introl eq_refl)). f_equal.
  apply IH. intros y Hy. apply H. now right.
Qed.

Lemma filter_zrange (f : Z -> bool) a b lo hi :
  (forall l, (a <= l < b)%Z -> (f l = true <-> (lo <= l <= hi)%Z)) ->
  (a <= lo)%Z -> (lo <= hi + 1)%Z -> (hi < b)%Z ->
  filter f (Np.zrange a b) = Np.zrange lo (hi + 1).
Proof.
  intros Hf Ha Hlo Hb.
  rewrite (zrange_app (lo := a) (mid := lo) (hi := b)) by lia.
  rewrite (zrange_app (lo := lo) (mid := hi + 1) (hi := b)) by lia.
  rewrite !filter_app.
  rewrite (filter_none f (Np.zrange a lo)).
  2:{ intros l Hl. apply zrange_In in Hl.
      destruct (f l) eqn:Hfl; [|reflexivity]. apply Hf in Hfl; lia. }
  rewrite (filter_none f (Np.zrange (hi + 1) b)).
  2:{ intros l Hl. apply zrange_In in Hl.
      destruct (f l) eqn:Hfl; [|reflexivity]. apply Hf in Hfl; lia. }
  rewrite filter_all.
  - now rewrite app_nil_r.
  - intros l Hl. apply zrange_In in Hl. apply Hf; lia.
Qed.

(** ** The round trip: the fit of a synthesized target *)

Lemma unit_data_no_mode (E : Extern) chi mass t_ref t LM tm :
  ty tm = Some "QNM"%string -> mode tm = None ->
  unit_data chi mass t_ref t LM tm = zeros (length t) (length LM).
Proof.
  intros Hty Hmode. unfold unit_data, add_term.
  cbn [set_amp ty mode amp]. rewrite Hty, Hmode. cbn [getitem].
  unfold sbind at 1, slift at 1. cbn [String.eqb Ascii.eqb Bool.eqb].
  assert (Hps :
    fst (sfor (seq 0 (length t)) (fun i =>
          sbind (slift (param_at chi i)) (fun chi_value =>
          sbind (slift (param_at mass i)) (fun mass_value =>
          sbind (slift (Raise KeyError)) (fun '(ell, m, n, sign) =>
          sbind (slift (qnm_from_tuple (ell, m, n, sign) chi_value mass_value (-2)))
                (fun '(omega, Cs, ells) =>
          sbind (slift (Ok Cx.one)) (fun A =>
          add_qnm_cells LM i m A (expiwt_at omega t_ref (nth i t 0%R)) Cs ells))))))
          (zeros (length t) (length LM)))
    = zeros (length t) (length LM)).
  { apply (sfor_preserves (fun d => d = zeros (length t) (length LM)));
      [|reflexivity].
    intros i d Hd.
    apply slift_preserves; [exact Hd | intros chi_value _].
    apply slift_preserves; [exact Hd | intros mass_value _].
    apply slift_preserves; [exact Hd | intros label Hl]. discriminate. }
  destruct chi as [chi_value|chis], mass as [mass_value|masses]; try exact Hps.
  reflexivity.
Qed.

Lemma increasing_strongly_sorted t :
  Scri.increasing t = true -> StronglySorted Rlt t.
Proof. apply increasing_sorted. Qed.

Section FitRound.

Context {E : Extern}.
Hypothesis Hlsq : lstsq_minimizes E.

Variables (chi mass : param) (t_ref : R) (t : list R) (lmin L : Z).
Hypothesis Hlmin : (0 <= lmin <= 2)%Z.
Hypothesis HL : (2 <= L)%Z.

Let LM := Sf.LM_range lmin L.
Let T := length t.
Let N := length LM.
Let run := add_term chi mass t_ref t LM.

Variable terms0 : list term.
Hypothesis Hq : Forall qnm_with_amp terms0.
Variable D : Np.matrix.
Hypothesis Hsynth : sfor terms0 run (zeros T N) = (D, Ok tt).

Variable modes : option (list (Z * Z)).
Hypothesis Hmodes : fit_modes_ok modes lmin L terms0.
Hypothesis Hindep :
  forall m, In m (map m_of terms0) ->
    independent_on chi mass t_ref t lmin L (fit_ells modes L m) m
      (block_terms m terms0).
Hypothesis Hinc : Scri.increasing t = true.

Let n := length terms0.

Lemma round_unit_not_zero m tm :
  In m (map m_of terms0) -> In tm (block_terms m terms0) ->
  exists i l, In l (fit_ells modes L m) /\ (Z.abs m <= l)%Z
              /\ entry (unit_data chi mass t_ref t LM tm) i
                   (Z.to_nat (Sf.LM_index l m lmin)) <> Cx.zero.
Proof.
  intros Hm Htm.
  destruct (Classical_Prop.classic
              (exists i l, In l (fit_ells modes L m) /\ (Z.abs m <= l)%Z
                 /\ entry (unit_data chi mass t_ref t LM tm) i
                      (Z.to_nat (Sf.LM_index l m lmin)) <> Cx.zero))
    as [H|Hno]; [assumption|exfalso].
  assert (Hz : forall i l, In l (fit_ells modes L m) -> (Z.abs m <= l)%Z ->
                 entry (unit_data chi mass t_ref t LM tm) i
                   (Z.to_nat (Sf.LM_index l m lmin)) = Cx.zero).
  { intros i l Hl Hml.
    destruct (Classical_Prop.classic
                (entry (unit_data chi mass t_ref t LM tm) i
                   (Z.to_nat (Sf.LM_index l m lmin)) = Cx.zero)); [assumption|].
    exfalso. apply Hno. eauto. }
  apply in_split in Htm. destruct Htm as (pre & post & Hsplit).
  pose proof (Hindep m Hm) as Hind. unfold independent_on in Hind.
  rewrite Hsplit in Hind.
  assert (Heq : repeat Cx.zero (length pre) ++ Cx.one :: repeat Cx.zero (length post)
                = repeat Cx.zero (length pre) ++ Cx.zero :: repeat Cx.zero (length post)).
  { apply Hind.
    - rewrite !length_app. cbn [length]. now rewrite !repeat_length.
    - rewrite !length_app. cbn [length]. now rewrite !repeat_length.
    - intros i l Hl Hml. unfold combination. rewrite !map_app. cbn [map].
      rewrite !dot_app by (now rewrite length_map, repeat_length).
      f_equal.
      change (?c :: map ?f post) with ([c] ++ map f post).
      change (Cx.one :: ?l) with ([Cx.one] ++ l).
      change (Cx.zero :: repeat Cx.zero (length post))
        with ([Cx.zero] ++ repeat Cx.zero (length post)).
      rewrite !dot_app by reflexivity. f_equal.
      unfold dot. cbn. fold LM. rewrite (Hz i l Hl Hml).
      now rewrite !cmul_zero_l. }
  apply app_inv_head in Heq.
  assert (H1 : Cx.re Cx.one = Cx.re Cx.zero) by congruence.
  cbn in H1. lra.
Qed.

Lemma round_in_block tm :
  In tm terms0 ->
  In (m_of tm) (map m_of terms0) /\ In tm (block_terms (m_of tm) terms0).
Proof.
  intros Hin. split; [now apply in_map|].
  apply filter_In. split; [assumption | apply Z.eqb_refl].
Qed.

Lemma round_modes :
  Forall (fun tm => exists label, mode tm = Some label) terms0.
Proof.
  apply Forall_forall. intros tm Hin.
  destruct (round_in_block tm Hin) as [Hm Hb].
  destruct (round_unit_not_zero _ _ Hm Hb) as (i & l & _ & _ & Hne).
  destruct (mode tm) as [label|] eqn:Hmode; [eauto|].
  exfalso. apply Hne.
  destruct (proj1 (Forall_forall _ _) Hq tm Hin) as [Hty _].
  rewrite (@unit_data_no_mode E chi mass t_ref t LM tm Hty Hmode).
  apply entry_zeros.
Qed.

Lemma fit_ells_bounds m l : In l (fit_ells modes L m) -> (2 <= l <= L)%Z.
Proof.
  unfold fit_ells. destruct modes as [ms|]; intros H.
  - apply filter_In in H. destruct H as [H _]. apply zrange_In in H. lia.
  - apply zrange_In in H. lia.
Qed.

Lemma round_m_valid m :
  In m (map m_of terms0) ->
  exists l, In l (fit_ells modes L m) /\ (Z.abs m <= l)%Z.
Proof.
  intros Hm. pose proof Hm as Hm'. apply in_map_iff in Hm'.
  destruct Hm' as (tm & Hmt & Hin).
  assert (Hb : In tm (block_terms m terms0)).
  { apply filter_In. split; [assumption | now apply Z.eqb_eq]. }
  destruct (round_unit_not_zero _ _ Hm Hb) as (i & l & Hl & Hml & _). eauto.
Qed.

Variables (hist : list Scri.ctor_statement) (times : R * R).

Let h_ring : WaveformModes :=
  {| Scri.t := t; Scri.ell_min := lmin; Scri.ell_max := L; Scri.data := D;
     Scri.history := hist |}.

(** The index list and the ell range that the fitter computes for an
    azimuthal number of the dictionary. *)
Lemma round_block_range m :
  In m (map m_of terms0) ->
  exists e_lo e_hi,
    block_range h_ring modes m
    = Ok (map (fun l => Sf.LM_index l m lmin) (fit_ells modes L m), e_lo, e_hi)
    /\ (e_hi - e_lo + 1 = Z.of_nat (length (fit_ells modes L m)))%Z
    /\ (2 <= e_hi <= L)%Z
    /\ (forall l, In l (fit_ells modes L m) -> (2 <= l <= e_hi)%Z)
    /\ ((forall l, In l (fit_ells modes L m) -> (Z.abs m <= l)%Z)
        \/ (e_hi = L /\ lmin = 2%Z /\ (- L <= m <= L)%Z)).
Proof.
  intros Hm. unfold block_range. cbn [Scri.ell_min Scri.ell_max h_ring].
  assert (Hbound : (- L <= m <= L)%Z).
  { destruct (round_m_valid m Hm) as (l & Hl & Hml).
    apply fit_ells_bounds in Hl. lia. }
  destruct modes as [ms|].
  - destruct Hmodes as [Hall Hcons].
    destruct (Hcons m Hm) as (lo & hi & Hlohi & Hlist).
    change (map fst (filter (fun lm : Z * Z => (m =? snd lm)%Z) ms))
      with (listed_ells ms m).
    assert (Hmode : forall l, In l (listed_ells ms m) ->
                              (lmin <= l <= L /\ - l <= m <= l)%Z).
    { intros l Hl. apply listed_ells_In in Hl. apply Hall in Hl.
      now apply LM_range_In in Hl. }
    assert (Hfit : fit_ells (Some ms) L m = Np.zrange lo (hi + 1)).
    { unfold fit_ells. apply filter_zrange; try lia.
      - intros l _. rewrite mode_in_spec, <- listed_ells_In. apply Hlist.
      - assert (Hh : In hi (listed_ells ms m)) by (apply Hlist; lia).
        apply Hmode in Hh. lia. }
    destruct (listed_ells ms m) as [|l0 rest] eqn:Hl0.
    { exfalso. apply (proj2 (Hlist lo)). lia. }
    destruct (fold_min_spec rest l0) as [Hmin_in Hmin_le].
    destruct (fold_max_spec rest l0) as [Hmax_in Hmax_le].
    assert (Hlo : fold_left Z.min rest l0 = lo).
    { apply Hlist in Hmin_in.
      assert (Hin : In lo (l0 :: rest)) by (apply Hlist; lia).
      apply Hmin_le in Hin. lia. }
    assert (Hhi : fold_left Z.max rest l0 = hi).
    { apply Hlist in Hmax_in.
      assert (Hin : In hi (l0 :: rest)) by (apply Hlist; lia).
      apply Hmax_le in Hin. lia. }
    rewrite Hlo, Hhi. exists lo, hi.
    assert (Hh : In hi (l0 :: rest)) by (apply Hlist; lia).
    apply Hmode in Hh.
    change (filter (fun l : Z => mode_in (l, m) ms) (Np.zrange 2 (L + 1)))
      with (fit_ells (Some ms) L m).
    rewrite Hfit. split; [reflexivity|]. split; [rewrite zrange_length; lia|].
    split; [lia|]. split.
    + intros l Hl. apply zrange_In in Hl. lia.
    + left. intros l Hl. apply zrange_In in Hl.
      assert (Hin : In l (l0 :: rest)) by (apply Hlist; lia).
      apply Hmode in Hin. lia.
  - cbn in Hmodes. exists lmin, L. cbn [fit_ells].
    split; [reflexivity|]. split; [rewrite zrange_length; lia|].
    split; [lia|]. split.
    + intros l Hl. apply zrange_In in Hl. lia.
    + right. lia.
Qed.


Lemma round_target_shape : has_shape T N D.
Proof. exact (proj1 (@fit_target_facts E chi mass t_ref t lmin L terms0 Hq D Hsynth)). Qed.

Lemma round_positions_lt m :
  Forall (fun i => (i < n)%nat) (positions_of m terms0 0 n).
Proof.
  apply Forall_forall. intros i Hi. unfold positions_of in Hi.
  apply filter_In in Hi. destruct Hi as [Hi _]. apply in_seq in Hi.
  exact (proj2 Hi).
Qed.

Lemma round_positions_terms m :
  map (fun i => nth i terms0 no_term) (positions_of m terms0 0 n)
  = block_terms m terms0.
Proof. apply (map_nth_positions (fun tm => (m_of tm =? m)%Z)). Qed.

Section RoundBlock.

Variable m : Z.
Hypothesis Hm : In m (map m_of terms0).
Variables (e_lo e_hi : Z).

Let ls := fit_ells modes L m.

Hypothesis Hrange :
  block_range h_ring modes m
  = Ok (map (fun l => Sf.LM_index l m lmin) ls, e_lo, e_hi).
Hypothesis Hcount : (e_hi - e_lo + 1 = Z.of_nat (length ls))%Z.
Hypothesis Hhi : (2 <= e_hi <= L)%Z.
Hypothesis Hls : forall l, In l ls -> (2 <= l <= e_hi)%Z.
Hypothesis Hvalid :
  (forall l, In l ls -> (Z.abs m <= l)%Z)
  \/ (e_hi = L /\ lmin = 2%Z /\ (- L <= m <= L)%Z).

Let LMc := Sf.LM_range lmin e_hi.
Let Nc := length LMc.
Let idx := map (fun l => Sf.LM_index l m lmin) ls.
Let W := length ls.
Let sel (d : Np.matrix) : Np.matrix :=
  map (fun row =>
         map (fun j => nth j row Cx.zero)
             (map (fun l => match Np.index Nc (Sf.LM_index l m lmin) with
                            | Ok j => j
                            | Raise _ => 0%nat
                            end) ls)) d.

(** The target cut to the modes with [ell <= e_hi]. *)
Let h_cut : WaveformModes :=
  {| Scri.t := t; Scri.ell_min := lmin; Scri.ell_max := e_hi;
     Scri.data := map (firstn Nc) D; Scri.history := hist |}.

Lemma round_cut_size : Z.of_nat Nc = ((e_hi + 1) * (e_hi + 1) - lmin * lmin)%Z.
Proof. unfold Nc, LMc. apply LM_range_length. lia. Qed.

Lemma round_ell_slice : Scri.ell_slice_to (e_hi + 1) h_ring = Ok h_cut.
Proof.
  unfold Scri.ell_slice_to. cbn [Scri.ell_max Scri.ell_min Scri.t Scri.data
                                 Scri.history h_ring].
  rewrite Z.add_simpl_r.
  destruct (Z.ltb_spec L e_hi); [lia|].
  destruct (Z.ltb_spec e_hi (lmin - 1)); [lia|]. unfold h_cut. do 3 f_equal.
  unfold Scri.n_modes, Scri.LM. cbn [Scri.ell_min Scri.ell_max h_ring]. fold LM N.
  pose proof round_cut_size as HN.
  pose proof (@cut_width lmin e_hi L ltac:(lia) ltac:(lia)) as Hw.
  fold LM LMc N Nc in Hw.
  unfold Scri.py_stop.
  destruct (Z.ltb_spec (e_hi * (e_hi + 2) + 1 - lmin * lmin) 0); f_equal; lia.
Qed.

Lemma round_select d : select_cols Nc idx d = Ok (sel d).
Proof. exact (@fit_select_cols t lmin L Hlmin m ls e_hi Hhi Hls Hvalid d). Qed.

Lemma round_basis_block h i :
  heap_frame terms0 h -> (i < n)%nat ->
  basis_block times chi mass t_ref h_cut idx W i h
  = (update i (set_amp Cx.one) h,
     Ok (sel (unit_data chi mass t_ref t LMc (nth i terms0 no_term)))).
Proof.
  intros Hf Hi.
  pose proof (nth_error_nth' terms0 no_term Hi) as Hnth.
  destruct (@heap_frame_nth terms0 h i _ Hf Hnth) as (tm' & Htm' & Hsame).
  assert (Hin : In (nth i terms0 no_term) terms0) by now apply nth_In.
  unfold basis_block. unfold sbind at 1. unfold deref at 1. rewrite Htm'.
  unfold sbind at 1. unfold store_amp at 1.
  unfold sbind at 1. unfold deref at 1.
  rewrite nth_error_update, Nat.eqb_refl, Htm'. cbn [option_map].
  rewrite (set_amp_frame Cx.one Hsame).
  unfold qnm_modes_as. cbn [Scri.t Scri.ell_min Scri.ell_max h_cut].
  rewrite qnm_modes_sorted by exact Hinc. cbn [snd]. rewrite sfor_one.
  fold LMc Nc T.
  destruct (@fit_unit_cut E chi mass t_ref t lmin L Hlmin terms0 Hq D Hsynth ls e_hi
              Hhi (nth i terms0 no_term) Hin) as (Hok & _ & _).
  fold LMc Nc T in Hok.
  destruct (add_term _ _ _ _ _ _ _) as [d r] eqn:Hrun.
  cbn [snd] in Hok. subst r.
  assert (Hd : d = unit_data chi mass t_ref t LMc (nth i terms0 no_term)).
  { unfold unit_data. fold T Nc. now rewrite Hrun. }
  subst d. unfold sbind, slift.
  unfold Scri.n_modes, Scri.LM. cbn [Scri.ell_min Scri.ell_max Scri.data].
  fold LMc Nc. rewrite round_select.
  unfold assign_block. unfold idx, W. rewrite length_map, Nat.eqb_refl.
  reflexivity.
Qed.

Lemma round_basis_blocks positions : forall h,
  heap_frame terms0 h -> Forall (fun i => (i < n)%nat) positions ->
  basis_blocks times chi mass t_ref h_cut idx W
    (map (fun i => (i, i)) positions) h
  = (fold_left (fun h i => update i (set_amp Cx.one) h) positions h,
     Ok (map (fun i => sel (unit_data chi mass t_ref t LMc (nth i terms0 no_term)))
             positions)).
Proof.
  induction positions as [|i positions IH]; intros h Hf Hpos; [reflexivity|].
  apply Forall_cons_iff in Hpos. destruct Hpos as [Hi Hpos].
  cbn [map basis_blocks fold_left]. unfold sbind at 1.
  rewrite round_basis_block by assumption.
  unfold sbind at 1. rewrite IH; [reflexivity | | assumption].
  eapply heap_frame_trans; [exact Hf | apply heap_frame_update].
Qed.

Variable fixed_QNMs : dict.
Hypothesis Hvalues : values fixed_QNMs = seq 0 n.

(** One pass of the loop over the azimuthal numbers: the basis columns are
    built with the amplitude of each term of the block set to one, the
    solver returns the amplitudes of the target, and they are written
    back. *)
Lemma round_fit_block h :
  heap_frame terms0 h ->
  fit_block h_ring modes times chi mass fixed_QNMs t_ref m h
  = write_back fixed_QNMs
      (map (fun i => (i, i)) (positions_of m terms0 0 n))
      (map amp_or_zero (block_terms m terms0)) 0
      (fold_left (fun h i => update i (set_amp Cx.one) h)
                 (positions_of m terms0 0 n) h).
Proof.
  intros Hf. unfold fit_block. rewrite Hvalues.
  unfold sbind at 1.
  rewrite (@mode_labels_seq terms0 round_modes m h n 0 Hf) by (unfold n; lia).
  rewrite Hrange.
  unfold sbind at 1, slift at 1.
  destruct (Z.ltb_spec (e_hi - e_lo + 1) 0); [lia|].
  replace (Z.to_nat (e_hi - e_lo + 1)) with W by (unfold W; lia).
  unfold sbind at 1, slift at 1. rewrite round_ell_slice.
  unfold sbind at 1, slift at 1.
  unfold Scri.n_modes, Scri.LM. cbn [Scri.ell_min Scri.ell_max Scri.data h_cut].
  fold LMc Nc idx. rewrite round_select.
  unfold sbind at 1.
  rewrite round_basis_blocks by (try assumption; apply round_positions_lt).
  unfold sbind at 1, slift at 1. cbn [Scri.t h_ring].
  unfold reshape_flat. unfold idx at 1. rewrite length_map. fold W T.
  rewrite Nat.eqb_refl.
  unfold sbind at 1, slift at 1.
  rewrite length_map.
  rewrite <- (map_map (fun i => nth i terms0 no_term)
                (fun tm => sel (unit_data chi mass t_ref t LMc tm))).
  rewrite round_positions_terms.
  replace (length (positions_of m terms0 0 n))
    with (length (block_terms m terms0))
    by (rewrite <- round_positions_terms; apply length_map).
  pose proof (@fit_block_solution E chi mass t_ref t lmin L Hlmin terms0 Hq D Hsynth
                m ls e_hi Hhi Hls Hvalid Hlsq (Hindep m Hm)) as Hsol.
  match goal with
  | |- match ?X with Ok _ => _ | Raise _ => _ end = _ =>
      replace X with (Ok (map amp_or_zero (block_terms m terms0)))
        by (symmetry; exact Hsol)
  end.
  reflexivity.
Qed.

End RoundBlock.

(** The objects of the heap once the azimuthal numbers [processed] have been
    fitted: every object is the original term up to its amplitude, and the
    terms of a processed azimuthal number carry their original amplitude. *)
Let settled (processed : list Z) (h : heap) : Prop :=
  Forall2 (fun tm0 tm' => same_but_amp tm0 tm'
                          /\ (In (m_of tm0) processed -> amp tm' = amp tm0))
          terms0 h.

Lemma round_settled_frame processed h : settled processed h -> heap_frame terms0 h.
Proof. apply Forall2_impl. now intros tm0 tm' [H _]. Qed.

Lemma round_frame_settled h : heap_frame terms0 h -> settled [] h.
Proof. apply Forall2_impl. intros tm0 tm' H. split; [assumption | intros []]. Qed.

Lemma round_positions_mem m i :
  existsb (Nat.eqb i) (positions_of m terms0 0 n) = true
  <-> (i < n)%nat /\ m_of (nth i terms0 no_term) = m.
Proof.
  rewrite existsb_exists. unfold positions_of. split.
  - intros (j & Hj & Heq). apply Nat.eqb_eq in Heq. subst j.
    apply filter_In in Hj. destruct Hj as [Hj Hmj]. apply in_seq in Hj.
    apply Z.eqb_eq in Hmj. split; [exact (proj2 Hj) | assumption].
  - intros [Hi Hmi]. exists i. split; [|apply Nat.eqb_refl].
    apply filter_In. split; [apply in_seq; split; [apply Nat.le_0_l | exact Hi]
                            | now apply Z.eqb_eq].
Qed.

Lemma round_block_settles m processed h :
  In m (map m_of terms0) -> settled processed h ->
  exists h',
    fit_block h_ring modes times chi mass (positional_dict n) t_ref m h
    = (h', Ok tt)
    /\ settled (processed ++ [m]) h'.
Proof.
  intros Hm Hs. pose proof (round_settled_frame Hs) as Hf.
  destruct (round_block_range m Hm)
    as (e_lo & e_hi & Hrange & Hcount & Hhi & Hls & Hvalid).
  rewrite (@round_fit_block m Hm e_lo e_hi Hrange Hcount Hhi Hls Hvalid
             (positional_dict n) (values_positional n) h Hf).
  rewrite <- (round_positions_terms m), map_map.
  rewrite (@write_back_positional n (fun i => amp_or_zero (nth i terms0 no_term))
             (positions_of m terms0 0 n) [] _ (round_positions_lt m)).
  eexists. split; [reflexivity|].
  apply Forall2_nth_error in Hs. destruct Hs as [Hlen Hs].
  apply Forall2_nth_error. split.
  - now rewrite !fold_update_length.
  - intros i tm0 y Htm0 Hy.
    rewrite !nth_error_fold_update in Hy by apply positions_NoDup.
    assert (Hi : (i < n)%nat) by (apply nth_error_Some; congruence).
    assert (Hnth : nth i terms0 no_term = tm0) by now apply nth_error_nth.
    destruct (nth_error h i) as [tm'|] eqn:Htm';
      [|apply nth_error_None in Htm'; unfold n in Hi; lia].
    destruct (Hs i tm0 tm' Htm0 Htm') as [Hsame Hamp].
    destruct (existsb (Nat.eqb i) (positions_of m terms0 0 n)) eqn:Hex.
    + cbn [option_map] in Hy. injection Hy as <-.
      split; [exact Hsame|]. intros _. cbn [set_amp amp]. rewrite Hnth.
      assert (Hin : In tm0 terms0) by (eapply nth_error_In; eassumption).
      destruct (proj1 (Forall_forall _ _) Hq tm0 Hin) as [_ [a Ha]].
      unfold amp_or_zero. now rewrite Ha.
    + injection Hy as <-. split; [exact Hsame|].
      intros Hin. apply in_app_iff in Hin. destruct Hin as [Hin|[Hin|[]]].
      * now apply Hamp.
      * assert (Hex' : existsb (Nat.eqb i) (positions_of m terms0 0 n) = true)
          by (apply round_positions_mem; split; [assumption | congruence]).
        congruence.
Qed.

Lemma round_blocks_settle ms : forall processed h,
  (forall m, In m ms -> In m (map m_of terms0)) -> settled processed h ->
  exists h',
    sfor ms (fit_block h_ring modes times chi mass (positional_dict n) t_ref) h
    = (h', Ok tt)
    /\ settled (processed ++ ms) h'.
Proof.
  induction ms as [|m ms IH]; intros processed h Hms Hs.
  - exists h. split; [reflexivity | now rewrite app_nil_r].
  - destruct (@round_block_settles m processed h (Hms m (or_introl eq_refl)) Hs)
      as (h1 & Hrun1 & Hs1).
    destruct (IH (processed ++ [m]) h1 (fun m' H => Hms m' (or_intror H)) Hs1)
      as (h2 & Hrun2 & Hs2).
    exists h2. split.
    + cbn [sfor]. unfold sbind at 1. now rewrite Hrun1.
    + now rewrite <- app_assoc in Hs2.
Qed.

Lemma round_settled_all h :
  settled (distinct_after [] (map m_of terms0)) h -> h = terms0.
Proof.
  intros Hs. symmetry. apply Forall2_eq.
  apply Forall2_nth_error in Hs. destruct Hs as [Hlen Hs].
  apply Forall2_nth_error. split; [assumption|].
  intros i tm0 tm' Htm0 Htm'. destruct (Hs i tm0 tm' Htm0 Htm') as [Hsame Hamp].
  symmetry. apply same_amp_eq; [assumption|]. apply Hamp.
  apply distinct_after_In. right. apply in_map. eapply nth_error_In; eassumption.
Qed.

(** *** The scores of the fitted waveform *)

Let h_fit : WaveformModes :=
  {| Scri.t := t; Scri.ell_min := lmin; Scri.ell_max := L; Scri.data := D;
     Scri.history := [{| Scri.stmt_t_0 := fst times; Scri.stmt_t_ref := t_ref |}] |}.

(** The mode list that the residual and the mismatch are taken over. *)
Let scored : list (Z * Z) :=
  match modes with
  | None => all_modes_from_2 L
  | Some ms => ms
  end.

Lemma round_well_shaped : well_shaped h_ring.
Proof.
  destruct round_target_shape as [Hlen Hrows]. split; [exact Hlen | exact Hrows].
Qed.

Lemma round_synthesis :
  snd (qnm_modes_as chi mass terms0 h_ring (fst times) t_ref None) = Ok h_fit.
Proof.
  unfold qnm_modes_as. cbn [Scri.t Scri.ell_min Scri.ell_max h_ring].
  rewrite qnm_modes_sorted by exact Hinc. cbn [snd]. fold LM T N run.
  now rewrite Hsynth.
Qed.

Lemma round_scored_modes lm : In lm scored -> In lm LM.
Proof.
  unfold scored. pose proof Hmodes as Hmd. unfold fit_modes_ok in Hmd.
  destruct modes as [ms|].
  - apply Hmd.
  - unfold LM. rewrite Hmd. intros H. exact H.
Qed.

Lemma round_residual ms :
  (forall lm, In lm ms -> In lm LM) ->
  residual h_ring h_fit ms (zeros T N) = (zeros T N, Ok tt).
Proof.
  induction ms as [|[l m] ms IH]; intros Hms; [reflexivity|].
  unfold residual. cbn [sfor]. fold (residual h_ring h_fit ms).
  unfold Scri.n_modes, Scri.LM. cbn [Scri.ell_min Scri.ell_max Scri.data h_ring h_fit].
  fold LM.
  destruct (@LM_index_valid lmin L l m ltac:(lia) (Hms (l, m) (or_introl eq_refl)))
    as [Hidx _].
  fold LM in Hidx. unfold sbind, slift. rewrite Hidx.
  rewrite self_difference.
  replace (length D) with T by (symmetry; apply round_target_shape).
  rewrite col_set_zeros. apply IH. intros lm Hlm. apply Hms. now right.
Qed.

(** The whole fit of the synthesized target, up to the two scores: the
    objects of the dictionary end up with the amplitudes of the target, the
    fitted waveform has the data of the target, and the residual is zero
    everywhere. *)
Lemma round_scores h :
  heap_frame terms0 h ->
  fit_ringdown_waveform_LLSQ_S2 h_ring modes times chi mass
    (positional_dict n) t_ref h
  = (terms0,
     match waveform_mismatch h_ring h_fit (Some scored) (fst times) (snd times) with
     | Ok mismatch =>
         Ok {| fit_h_QNM := h_fit; fit_h_ring := h_ring;
               fit_error := Np.fdiv (0.5 * 0) (trapz (Scri.norm h_ring) t);
               fit_mismatch := mismatch; fit_fixed_QNMs := positional_dict n |}
     | Raise e => Raise e
     end).
Proof.
  intros Hf. unfold fit_ringdown_waveform_LLSQ_S2.
  rewrite values_positional.
  unfold sbind at 1.
  rewrite (@collect_m_seq terms0 round_modes h n 0 [] Hf) by (unfold n; lia).
  replace (map (fun i => m_of (nth i terms0 no_term)) (seq 0 n))
    with (map m_of terms0)
    by (symmetry; apply map_seq_nth).
  destruct (@round_blocks_settle (distinct_after [] (map m_of terms0)) [] h)
    as (h' & Hrun & Hs).
  { intros m Hm. apply distinct_after_In in Hm. destruct Hm as [[]|Hm]. exact Hm. }
  { now apply round_frame_settled. }
  cbn [app] in Hs. apply round_settled_all in Hs. subst h'.
  unfold sbind at 1. rewrite Hrun.
  unfold sbind at 1. unfold n. rewrite rmap_read.
  unfold sbind at 1, slift at 1. rewrite round_synthesis.
  cbn [Scri.data Scri.ell_max h_ring].
  rewrite (scaled_by_zero round_target_shape).
  fold scored.
  rewrite round_residual by apply round_scored_modes.
  unfold sbind at 1, slift at 1.
  rewrite norm_zeros. cbn [Scri.t with_data h_ring].
  unfold sbind at 1, slift at 1.
  rewrite trapezoid_same_length by (rewrite repeat_length; reflexivity).
  rewrite trapz_zero.
  unfold sbind at 1, slift at 1.
  rewrite trapezoid_same_length by (rewrite norm_length; apply round_target_shape).
  unfold sbind at 1, slift at 1.
  now destruct (waveform_mismatch _ _ _ _ _).
Qed.

Lemma round_power_scored t1 t2 :
  windowed_power h_ring (Some scored) t1 t2 = windowed_power h_ring modes t1 t2.
Proof.
  unfold scored. destruct modes as [ms|]; [reflexivity|].
  unfold windowed_power.
  change (Some (all_modes_from_2 L))
    with (Some (all_modes_from_2 (Scri.ell_max h_ring))).
  now rewrite masked_data_all.
Qed.

Hypothesis Hinterp : interpolate_exact_at_samples E.
Hypothesis Hpower : 0 < windowed_power h_ring modes (fst times) (snd times).

Lemma round_total_power : 0 < trapz (Scri.norm h_ring) t.
Proof.
  eapply Rlt_le_trans; [exact Hpower|].
  apply (@windowed_power_le h_ring modes (fst times) (snd times)).
  now apply increasing_strongly_sorted.
Qed.

(** The whole fit of a synthesized target with power in the window and the
    listed modes: the objects of the dictionary end up with the amplitudes
    of the target, and both scores are zero. *)
Lemma round_trip h :
  heap_frame terms0 h ->
  fit_ringdown_waveform_LLSQ_S2 h_ring modes times chi mass
    (positional_dict n) t_ref h
  = (terms0,
     Ok {| fit_h_QNM := h_fit; fit_h_ring := h_ring; fit_error := Some 0;
           fit_mismatch := Some 0; fit_fixed_QNMs := positional_dict n |}).
Proof.
  intros Hf. rewrite (round_scores Hf).
  rewrite (@mismatch_same_samples E Hinterp h_ring h_fit (Some scored)
             (fst times) (snd times)); try reflexivity.
  - do 3 f_equal. unfold Np.fdiv.
    pose proof round_total_power as Hpos.
    destruct (Req_dec_T _ 0) as [Hz|Hnz]; [lra|].
    f_equal. field. exact Hnz.
  - cbn [Scri.t h_ring]. now apply increasing_strongly_sorted.
  - exact round_well_shaped.
  - intros _. cbn [Scri.ell_min h_ring]. exact Hlmin.
  - now rewrite round_power_scored.
Qed.

End FitRound.

(** A single term whose unit waveform does not vanish in a fitted mode is
    independent. *)
Lemma independent_on_single (E : Extern) chi mass t_ref t lmin L ells m tm i l :
  In l ells -> (Z.abs m <= l)%Z ->
  entry (unit_data chi mass t_ref t (Sf.LM_range lmin L) tm) i
    (Z.to_nat (Sf.LM_index l m lmin)) <> Cx.zero ->
  independent_on chi mass t_ref t lmin L ells m [tm].
Proof.
  intros Hl Hml Hne x x' Hx Hx' Hc.
  destruct x as [|x0 [|]]; try discriminate.
  destruct x' as [|x0' [|]]; try discriminate.
  specialize (Hc i l Hl Hml). unfold combination, dot, Np.csum in Hc.
  cbn [map combine fold_right fst snd] in Hc. rewrite !add_zero_r in Hc.
  f_equal. exact (cmul_cancel_l Hne Hc).
Qed.

(** C1 (as the code has it). Round trip of synthesis followed by fit, over
    exact arithmetic. The target is synthesized from QNM terms with known
    amplitudes on the modes [lmin <= ell <= L] with [0 <= lmin <= 2], for a
    spin and a mass that are floats or per-sample values; the dictionary
    binds the keys [0, ..., n - 1] to the same terms in this order,
    whatever their amplitude field holds; the fit is over all modes (on a
    target with [lmin = 2]) or over a list of modes of the target in which
    the ells listed for the azimuthal number of every term are consecutive;
    for every azimuthal number the unit waveforms of its terms are linearly
    independent over the fitted modes; the solver returns a minimiser of
    the squared residual and the interpolation returns the samples at the
    sample times; the target has power over the window of [(t1, t2)] and
    the fitted modes. Then the fit returns, every term object carries the
    amplitude the target was built with, the fitted waveform has the data
    of the target, and the normalised error and the mismatch are both
    zero. *)
Theorem fit_recovers_synthesized_amplitudes (E : Extern)
    (chi mass : param) (t_0 t_ref t1 t2 : R) (t : list R) (lmin L : Z)
    (modes : option (list (Z * Z)))
    (terms0 : list term) (h_ring : WaveformModes) (h_in : heap) :
  lstsq_minimizes E -> interpolate_exact_at_samples E ->
  (0 <= lmin <= 2)%Z -> (2 <= L)%Z ->
  Forall qnm_with_amp terms0 ->
  snd (qnm_modes chi mass terms0 t_0 t_ref t lmin L None) = Ok h_ring ->
  fit_modes_ok modes lmin L terms0 ->
  (forall m, In m (map m_of terms0) ->
     independent_on chi mass t_ref t lmin L (fit_ells modes L m) m
       (block_terms m terms0)) ->
  0 < windowed_power h_ring modes t1 t2 ->
  heap_frame terms0 h_in ->
  exists res,
    fit_ringdown_waveform_LLSQ_S2 h_ring modes (t1, t2) chi mass
      (positional_dict (length terms0)) t_ref h_in = (terms0, Ok res)
    /\ fit_error res = Some 0
    /\ fit_mismatch res = Some 0
    /\ Scri.data (fit_h_QNM res) = Scri.data h_ring.
Proof.
  intros Hlsq Hinterp Hlmin HL Hq Hsyn Hmodes Hind Hp Hf.
  pose proof (qnm_modes_returns_sorted _ _ _ _ _ _ _ _ _ Hsyn) as Hinc.
  rewrite qnm_modes_sorted in Hsyn by exact Hinc. cbn [snd] in Hsyn.
  destruct (sfor terms0 _ _) as [D [[]|e]] eqn:Hrun; [|discriminate].
  injection Hsyn as <-.
  eexists. split.
  - exact (@round_trip E Hlsq chi mass t_ref t lmin L Hlmin HL terms0 Hq D Hrun
             modes Hmodes Hind Hinc _ (t1, t2) Hinterp Hp h_in Hf).
  - repeat split.
Qed.

Lemma sample_per_sample_synthesized a :
  snd (qnm_modes (E := Reference.extern) (PerSample (repeat SampleFit.chi 3))
         (Scalar SampleFit.mass) [Sample.qnm_220 (Some a)] 0 0 (unit_axis 3) 2 2 None)
  = Ok (SampleFit.target a).
Proof.
  rewrite qnm_modes_sorted by apply increasing_unit_axis. cbn [snd].
  py_eval. reflexivity.
Qed.

Lemma sample_power_listed (e : R -> C) hist :
  windowed_power
    {| Scri.t := unit_axis 3; Scri.ell_min := 2; Scri.ell_max := 2;
       Scri.data := map (fun ti => [Cx.zero; Cx.zero; Cx.zero; Cx.zero; e ti])
                        (unit_axis 3);
       Scri.history := hist |}
    (Some [(2, 2)%Z]) (INR 0) (INR 3)
  = (Cx.abs2 (e (INR 2)) + Cx.abs2 (e (INR 1))) / 2.
Proof.
  unfold windowed_power. cbn [Scri.t].
  rewrite (window_unit_axis 2).
  unfold trapz, Scri.norm, Np.rsum. py_eval.
  rewrite !cscale_zero, !abs2_zero. field.
Qed.

(** The round trip for the dictionary [{0: (2, 2, 0, +1)}] with amplitude
    [1e-2], the spin [[0.7, 0.7, 0.7]] and the mass 1, on the samples
    [t = 0, 1, 2], fitted over the mode list [[(2, 2)]]. *)
Lemma fit_recovers_synthesized_amplitudes_witness :
  exists res,
    fit_ringdown_waveform_LLSQ_S2 (E := Reference.extern)
      (SampleFit.target SampleFit.a0) (Some [(2, 2)%Z]) (INR 0, INR 3)
      (PerSample (repeat SampleFit.chi 3)) (Scalar SampleFit.mass)
      (positional_dict 1) 0 [Sample.qnm_220 None]
    = ([Sample.qnm_220 (Some SampleFit.a0)], Ok res)
    /\ fit_error res = Some 0
    /\ fit_mismatch res = Some 0
    /\ Scri.data (fit_h_QNM res) = Scri.data (SampleFit.target SampleFit.a0).
Proof.
  apply (@fit_recovers_synthesized_amplitudes Reference.extern
           (PerSample (repeat SampleFit.chi 3)) (Scalar SampleFit.mass)
           0 0 (INR 0) (INR 3) (unit_axis 3) 2 2 (Some [(2, 2)%Z])
           [Sample.qnm_220 (Some SampleFit.a0)] (SampleFit.target SampleFit.a0)
           [Sample.qnm_220 None]).
  - exact reference_lstsq_minimizes.
  - exact reference_interpolate_exact.
  - lia.
  - lia.
  - constructor; [|constructor]. split; [reflexivity | eexists; reflexivity].
  - apply sample_per_sample_synthesized.
  - split.
    + intros lm [<-|[]]. apply LM_range_In. lia.
    + intros m [<-|[]]. exists 2%Z, 2%Z. split; [lia|].
      intros l. cbn. intuition lia.
  - intros m [<-|[]].
    apply (@independent_on_single _ _ _ _ _ _ _ _ _ _ 0%nat 2%Z).
    + now left.
    + cbn. lia.
    + change (SampleFit.column Cx.one 0 <> Cx.zero).
      apply column_nonzero. intros H. apply (f_equal Cx.re) in H. cbn in H. lra.
  - unfold SampleFit.target.
    rewrite (sample_power_listed (SampleFit.column SampleFit.a0)).
    pose proof (abs2_pos (@column_nonzero SampleFit.a0 (INR 1) a0_nonzero)).
    pose proof (abs2_pos (@column_nonzero SampleFit.a0 (INR 2) a0_nonzero)). lra.
  - constructor; [|constructor]. repeat split.
Defined.
